(** * libsbn: subsplit Bayesian networks over phylogenetic tree topologies

    A shallow embedding of the parts of libsbn that build, index, sample and
    score the SBN support: [Node] (node.cpp), the rootsplit and PCSS counters
    (build.cpp), the [SBNInstance] operations (libsbn.cpp) and the ratio
    gradient of [FatBeagle] (fat_beagle.cpp).

    Conventions.  Machine integers ([uint32_t], [size_t]) are [Z] with the
    wrap-around written out where the source does arithmetic on them; sizes
    and positions of containers are [nat].  A call that ends in [abort()],
    [Failwith] or a failed [Assert] is the [Abort] case of [result].
    [std::unordered_map] and the [DefaultDict] built on it are association
    lists kept in insertion order, which is one of the iteration orders the
    C++ containers may show.  [double] is the kernel's binary64 [float]. *)

From Stdlib Require Import String Ascii Floats.
From Stdlib Require Import ZArith Lia Bool Arith PeanoNat Permutation List.
Import ListNotations.

Set Implicit Arguments.

(* ================================================================== *)
(** * sugar.hpp: failure, packed integers, safe insertion *)

Module Sugar.

Inductive result (A : Type) : Type :=
| Ok (a : A)
| Abort (msg : string).
Arguments Ok {A} a.
Arguments Abort {A} msg.

Definition bind {A B : Type} (r : result A) (k : A -> result B) : result B :=
  match r with
  | Ok a => k a
  | Abort msg => Abort msg
  end.

Definition Assert (b : bool) (msg : string) : result unit :=
  if b then Ok tt else Abort msg.

Definition Failwith {A : Type} (msg : string) : result A := Abort msg.

(** Iterating a fallible body over a container, left to right. *)
Definition foldM {A S : Type} (f : S -> A -> result S)
  : list A -> S -> result S :=
  fix go (l : list A) (s : S) : result S :=
    match l with
    | [] => Ok s
    | a :: l' => bind (f s a) (go l')
    end.

Definition mapM {A B : Type} (f : A -> result B) : list A -> result (list B) :=
  fix go (l : list A) : result (list B) :=
    match l with
    | [] => Ok []
    | a :: l' => bind (f a) (fun b => bind (go l') (fun bs => Ok (b :: bs)))
    end.

End Sugar.
Export Sugar.

Declare Scope result_scope.
Delimit Scope result_scope with result.
Notation "x <- e ;; k" := (bind e (fun x => k))
  (at level 61, e at next level, right associativity) : result_scope.
Notation "e ;;; k" := (bind e (fun _ => k))
  (at level 61, right associativity) : result_scope.
Open Scope result_scope.
Open Scope string_scope.
Open Scope list_scope.
Open Scope Z_scope.

(** Association lists standing for [std::unordered_map]. *)
Section Maps.
Variables K V : Type.
Variable eqb : K -> K -> bool.

Fixpoint find (m : list (K * V)) (k : K) : option V :=
  match m with
  | [] => None
  | (k', v) :: m' => if eqb k k' then Some v else find m' k
  end.

(** [SafeInsert(map, k, v)]: [Assert(map.insert({k, v}).second, ...)]. *)
Definition SafeInsert (m : list (K * V)) (k : K) (v : V)
  : result (list (K * V)) :=
  match find m k with
  | Some _ => Abort "Failed map insertion!"
  | None => Ok (m ++ [(k, v)])
  end.

(** [AtWithDefault(map, k, default)]. *)
Definition AtWithDefault (m : list (K * V)) (k : K) (default : V) : V :=
  match find m k with
  | Some v => v
  | None => default
  end.
End Maps.

(* ================================================================== *)
(** * node.cpp *)

Definition two32 : Z := 4294967296.
Definition two64 : Z := 18446744073709551616.

Unset Elimination Schemes.
Inductive Node : Type :=
  MkNode (children : list Node) (index : Z) (tag : Z * Z) (hash : Z).
Set Elimination Schemes.

Definition Children (n : Node) : list Node :=
  match n with MkNode c _ _ _ => c end.
Definition Index (n : Node) : Z :=
  match n with MkNode _ i _ _ => i end.
Definition Tag (n : Node) : Z * Z :=
  match n with MkNode _ _ t _ => t end.
Definition Hash (n : Node) : Z :=
  match n with MkNode _ _ _ h => h end.

(** The tag packs the maximal leaf id and the leaf count ([PackInts]); the
    two getters unpack it. *)
Definition PackInts (a b : Z) : Z * Z := (a, b).
Definition MaxLeafID (n : Node) : Z := fst (Tag n).
Definition LeafCount (n : Node) : Z := snd (Tag n).
Definition IsLeaf (n : Node) : bool :=
  match Children n with [] => true | _ => false end.

(** [inline uint32_t Node::SOHash(uint32_t x)]. *)
Definition SOHash (x : Z) : Z :=
  let x := (Z.lxor (Z.shiftr x 16) x * 73244475) mod two32 in
  let x := (Z.lxor (Z.shiftr x 16) x * 73244475) mod two32 in
  Z.lxor (Z.shiftr x 16) x.

(** [inline size_t Node::SORotate(size_t n, uint32_t c)], a 64-bit left
    rotation. *)
Definition SORotate (n c : Z) : Z :=
  let mask := 63 in
  let c := Z.land c mask in
  Z.lor (Z.shiftl n c mod two64)
        (Z.shiftr n (Z.land ((two32 - c) mod two32) mask)).

(** [Node::Node(uint32_t leaf_id)]. *)
Definition Leaf (leaf_id : Z) : Node :=
  MkNode [] leaf_id (PackInts leaf_id 1) (SOHash leaf_id).

(** The [std::sort] call of the internal-node constructor.  Its comparator
    aborts when it meets two children with the same maximal leaf id; an
    insertion sort runs the same comparator. *)
Definition tie_message : string := "Tie observed: do you have a taxon name repeated?".

Fixpoint insert_child (x : Node) (l : list Node) : result (list Node) :=
  match l with
  | [] => Ok [x]
  | y :: l' =>
      if MaxLeafID x =? MaxLeafID y then Abort tie_message
      else if MaxLeafID x <? MaxLeafID y then Ok (x :: y :: l')
      else r <- insert_child x l' ;; Ok (y :: r)
  end.

Fixpoint sort_children (l : list Node) : result (list Node) :=
  match l with
  | [] => Ok []
  | x :: l' => s <- sort_children l' ;; insert_child x s
  end.

(** [Node::Node(NodePtrVec children, size_t index)]. *)
Definition Join (children : list Node) (index : Z) : result Node :=
  match children with
  | [] => Abort "Called internal node constructor with no children."
  | first :: _ =>
      sorted <- sort_children children ;;
      let max_leaf_id := MaxLeafID (last sorted first) in
      let leaf_count :=
        fold_left (fun acc child => (acc + LeafCount child) mod two32) sorted 0 in
      let hash :=
        fold_left (fun acc child => Z.lxor acc (Hash child)) sorted 0 in
      Ok (MkNode sorted index (PackInts max_leaf_id leaf_count) (SORotate hash 1))
  end.

(** [Node::Join(NodePtr left, NodePtr right, size_t index)]. *)
Definition Join2 (left right : Node) (index : Z) : result Node :=
  Join [left; right] index.

(** The default value of the [index] argument of [Join]. *)
Definition SIZE_MAX : Z := two64 - 1.

(** [bool Node::operator==(const Node& other)]. *)
Fixpoint Node_eqb (a b : Node) {struct a} : bool :=
  match a, b with
  | MkNode ca _ _ ha, MkNode cb _ _ hb =>
      if negb (ha =? hb) then false
      else if negb (Nat.eqb (length ca) (length cb)) then false
      else (fix children_eqb (l1 l2 : list Node) {struct l1} : bool :=
              match l1, l2 with
              | x :: l1', y :: l2' =>
                  if negb (Node_eqb x y) then false else children_eqb l1' l2'
              | _, _ => true
              end) ca cb
  end.

(** ** Traversals

    A traversal calls its argument once per visit; the embedding returns the
    sequence of these calls.  The lambdas of the callers may themselves
    fail, so the triple traversals collect [result]s. *)

(** [Node::PreOrder]. *)
Fixpoint PreOrder (n : Node) : list Node :=
  match n with
  | MkNode cs _ _ _ => n :: flat_map PreOrder cs
  end.

(** [Node::PostOrder]. *)
Fixpoint PostOrder (n : Node) : list Node :=
  match n with
  | MkNode cs _ _ _ => flat_map PostOrder cs ++ [n]
  end.

Definition assert_binary : string := "assert(children_.size() == 2)".
Definition assert_ternary : string := "assert(children_.size() == 3)".

Section TripleTraversals.
Variable X : Type.
Variable f_root f_internal : Node -> Node -> Node -> result (list X).

(** [Node::TriplePreOrderInternal]. *)
Fixpoint TriplePreOrderInternal (n : Node) : result (list X) :=
  match n with
  | MkNode cs _ _ _ =>
      match cs with
      | [] => Ok []
      | [c0; c1] =>
          a <- f_internal n c1 c0 ;;
          r0 <- TriplePreOrderInternal c0 ;;
          b <- f_internal n c0 c1 ;;
          r1 <- TriplePreOrderInternal c1 ;;
          Ok (a ++ r0 ++ b ++ r1)
      | _ => Abort assert_binary
      end
  end.

(** [Node::TriplePreOrder]. *)
Definition TriplePreOrder (n : Node) : result (list X) :=
  match Children n with
  | [c0; c1; c2] =>
      a <- f_root c0 c1 c2 ;;
      b <- f_root c1 c2 c0 ;;
      c <- f_root c2 c0 c1 ;;
      rs <- mapM TriplePreOrderInternal [c0; c1; c2] ;;
      Ok (a ++ b ++ c ++ concat rs)
  | _ => Abort assert_ternary
  end.
End TripleTraversals.

(** One call of a [PCSSFun]: sister, focal and the two child nodes, each
    with the direction flag that says whether its clade is to be flipped. *)
Record PCSSCall : Type := mkPCSSCall {
  sister_node : Node;  sister_direction : bool;
  focal_node : Node;   focal_direction : bool;
  child0_node : Node;  child0_direction : bool;
  child1_node : Node;  child1_direction : bool
}.

(** The [f_root] lambda of [Node::PCSSPreOrder]. *)
Definition PCSS_f_root (node0 node1 node2 : Node) : result (list PCSSCall) :=
  (* Virtual root on node2's edge, with subsplit pointing up. *)
  let up := mkPCSSCall node2 false node2 true node0 false node1 false in
  match Children node2 with
  | [] => Ok [up]
  | [child0; child1] =>
      Ok [ up;
           (* Virtual root in node1. *)
           mkPCSSCall node0 false node2 false child0 false child1 false;
           (* Virtual root in node0. *)
           mkPCSSCall node1 false node2 false child0 false child1 false;
           (* Virtual root on node2's edge, with subsplit pointing down. *)
           mkPCSSCall node2 true node2 false child0 false child1 false;
           (* Virtual root in child0. *)
           mkPCSSCall child1 false node2 true node0 false node1 false;
           (* Virtual root in child1. *)
           mkPCSSCall child0 false node2 true node0 false node1 false ]
  | _ => Abort assert_binary
  end.

(** The [f_internal] lambda of [Node::PCSSPreOrder]. *)
Definition PCSS_f_internal (parent sister node : Node)
  : result (list PCSSCall) :=
  (* Virtual root on node's edge, with subsplit pointing up. *)
  let up := mkPCSSCall node false node true parent true sister false in
  match Children node with
  | [] => Ok [up]
  | [child0; child1] =>
      Ok [ up;
           (* Virtual root up the tree. *)
           mkPCSSCall sister false node false child0 false child1 false;
           (* Virtual root in sister. *)
           mkPCSSCall parent true node false child0 false child1 false;
           (* Virtual root on node's edge, with subsplit pointing down. *)
           mkPCSSCall node true node false child0 false child1 false;
           (* Virtual root in child0. *)
           mkPCSSCall child1 false node true sister false parent true;
           (* Virtual root in child1. *)
           mkPCSSCall child0 false node true sister false parent true ]
  | _ => Abort assert_binary
  end.

(** [void Node::PCSSPreOrder(PCSSFun f) const]. *)
Definition PCSSPreOrder (n : Node) : result (list PCSSCall) :=
  TriplePreOrder PCSS_f_root PCSS_f_internal n.

(** [TagSizeMap Node::Reindex()]: leaves keep their leaf id, the internal
    nodes are numbered in post-order from [1 + MaxLeafID()]. *)
Definition tag_eqb (a b : Z * Z) : bool :=
  (fst a =? fst b) && (snd a =? snd b).

Definition TagSizeMap : Type := list ((Z * Z) * Z).

Fixpoint Reindex_from (n : Node) (next_index : Z) (m : TagSizeMap)
  : result (Node * Z * TagSizeMap) :=
  match n with
  | MkNode cs idx tag hash =>
      r <- (fix visit (l : list Node) (next : Z) (m : TagSizeMap)
              : result (list Node * Z * TagSizeMap) :=
              match l with
              | [] => Ok ([], next, m)
              | c :: l' =>
                  r1 <- Reindex_from c next m ;;
                  let '(c', next1, m1) := r1 in
                  r2 <- visit l' next1 m1 ;;
                  let '(l'', next2, m2) := r2 in
                  Ok (c' :: l'', next2, m2)
              end) cs next_index m ;;
      let '(cs', next1, m1) := r in
      let '(index', next2) :=
        match cs with
        | [] => (fst tag, next1)
        | _ => (next1, (next1 + 1) mod two64)
        end in
      m2 <- SafeInsert tag_eqb m1 tag index' ;;
      Ok (MkNode cs' index' tag hash, next2, m2)
  end.

Definition Reindex (n : Node) : result (Node * TagSizeMap) :=
  r <- Reindex_from n ((1 + MaxLeafID n) mod two64) [] ;;
  let '(n', _, m) := r in Ok (n', m).

(** [Node::ExampleTopologies()]. *)
Definition ExampleTopologies : result (list Node) :=
  (* 0: (0,1,(2,3)) *)
  j0 <- Join2 (Leaf 2) (Leaf 3) SIZE_MAX ;;
  t0 <- Join [Leaf 0; Leaf 1; j0] SIZE_MAX ;;
  (* 1; (0,1,(2,3)) again *)
  j1 <- Join2 (Leaf 3) (Leaf 2) SIZE_MAX ;;
  t1 <- Join [Leaf 1; Leaf 0; j1] SIZE_MAX ;;
  (* 2: (0,2,(1,3)) *)
  j2 <- Join2 (Leaf 1) (Leaf 3) SIZE_MAX ;;
  t2 <- Join [Leaf 0; Leaf 2; j2] SIZE_MAX ;;
  (* 3: (0,(1,(2,3))) *)
  j3 <- Join2 (Leaf 2) (Leaf 3) SIZE_MAX ;;
  k3 <- Join2 (Leaf 1) j3 SIZE_MAX ;;
  t3 <- Join [Leaf 0; k3] SIZE_MAX ;;
  mapM (fun t => r <- Reindex t ;; Ok (fst r)) [t0; t1; t2; t3].

(* ================================================================== *)
(** * Bitsets *)

(** Modelled from the spec: bitset.hpp and bitset.cpp are not among the
    sources.  A [Bitset] is the fixed-length bit vector of the data model,
    position [i] standing for taxon [i]; equality and order are
    bit-lexicographic; [Minorize] keeps the orientation of a split that
    does not contain taxon 0; a subsplit is the concatenation of two chunks
    and a PCSS of three. *)
Definition Bitset : Type := list bool.

Fixpoint Bitset_eqb (x y : Bitset) : bool :=
  match x, y with
  | [], [] => true
  | a :: x', b :: y' => Bool.eqb a b && Bitset_eqb x' y'
  | _, _ => false
  end.

(** [operator<]: the lexicographic order of [std::vector<bool>]. *)
Fixpoint Bitset_ltb (x y : Bitset) : bool :=
  match x, y with
  | _, [] => false
  | [], _ :: _ => true
  | a :: x', b :: y' =>
      if Bool.eqb a b then Bitset_ltb x' y' else negb a
  end.

(** [std::min(a, b)]: [b] when [b < a], otherwise [a]. *)
Definition Bitset_min (a b : Bitset) : Bitset :=
  if Bitset_ltb b a then b else a.

(** [Bitset(n)], all bits false. *)
Definition Bitset_zeros (n : nat) : Bitset := repeat false n.

Fixpoint set_nth (x : Bitset) (i : nat) : Bitset :=
  match x, i with
  | [], _ => []
  | _ :: x', O => true :: x'
  | a :: x', S i' => a :: set_nth x' i'
  end.

(** [x.set(i)]; a position outside the bitset is an error. *)
Definition Bitset_set (x : Bitset) (i : Z) : result Bitset :=
  if (0 <=? i) && (i <? Z.of_nat (length x))
  then Ok (set_nth x (Z.to_nat i))
  else Abort "i out of range in Bitset::set.".

(** [x |= y], bit by bit. *)
Fixpoint Bitset_or (x y : Bitset) : Bitset :=
  match x, y with
  | a :: x', b :: y' => (a || b) :: Bitset_or x' y'
  | _, _ => x
  end.

(** [x.flip()] and [~x]. *)
Definition Bitset_flip (x : Bitset) : Bitset := map negb x.

(** [x.Minorize()]. *)
Definition Minorize (x : Bitset) : Bitset :=
  match x with
  | true :: _ => Bitset_flip x
  | _ => x
  end.

(** [x.CopyFrom(other, begin, flip)]: overwrite the positions from
    [begin] on with the bits of [other], flipped when [flip] is set. *)
Definition CopyFrom (x other : Bitset) (begin : nat) (flip : bool) : Bitset :=
  firstn begin x
  ++ (if flip then Bitset_flip other else other)
  ++ skipn (begin + length other) x.

(** [x.SplitChunk(i)]: the [i]-th half of a subsplit. *)
Definition SplitChunk (x : Bitset) (i : nat) : Bitset :=
  let n := Nat.div (length x) 2 in
  firstn n (skipn (i * n) x).

(** [x.RotateSubsplit()]: the two halves swapped. *)
Definition RotateSubsplit (x : Bitset) : Bitset :=
  SplitChunk x 1 ++ SplitChunk x 0.

(** [x.SingletonOption()]: the position of the only set bit, if there is
    exactly one. *)
Fixpoint positions_from (x : Bitset) (i : Z) : list Z :=
  match x with
  | [] => []
  | b :: x' => (if b then [i] else []) ++ positions_from x' (i + 1)
  end.

Definition SingletonOption (x : Bitset) : option Z :=
  match positions_from x 0 with
  | [i] => Some i
  | _ => None
  end.

(** [Bitset::ChildSubsplit(parent, child)]: the subsplit that refines the
    second chunk of [parent]: [child] and the rest of that chunk, the
    smaller of the two coming first. *)
Fixpoint Bitset_diff (x y : Bitset) : Bitset :=
  match x, y with
  | a :: x', b :: y' => (a && negb b) :: Bitset_diff x' y'
  | _, _ => x
  end.

Definition ChildSubsplit (parent child : Bitset) : Bitset :=
  let other := Bitset_diff (SplitChunk parent 1) child in
  if Bitset_ltb child other then child ++ other else other ++ child.

(** [ToString]: one character per bit. *)
Fixpoint ToString (x : Bitset) : string :=
  match x with
  | [] => EmptyString
  | b :: x' => String (if b then "1"%char else "0"%char) (ToString x')
  end.

(** [PCSSToString]: the three chunks of a PCSS separated by bars. *)
Definition PCSSToString (x : Bitset) : string :=
  let n := Nat.div (length x) 3 in
  (ToString (firstn n x) ++ "|" ++ ToString (firstn n (skipn n x)) ++ "|"
   ++ ToString (skipn (2 * n) x))%string.

(* ================================================================== *)
(** * build.cpp: the rootsplit and PCSS counters *)

Definition TagBitsetMap : Type := list ((Z * Z) * Bitset).
Definition TopologyCounter : Type := list (Node * Z).

(** [DefaultDict<Bitset, uint32_t>] with default 0, and its [increment]. *)
Definition BitsetUInt32Dict : Type := list (Bitset * Z).

Fixpoint increment (d : BitsetUInt32Dict) (key : Bitset) (count : Z)
  : BitsetUInt32Dict :=
  match d with
  | [] => [(key, (0 + count) mod two32)]
  | (k, v) :: d' =>
      if Bitset_eqb key k then (k, (v + count) mod two32) :: d'
      else (k, v) :: increment d' key count
  end.

Definition PCSSDict : Type := list (Bitset * BitsetUInt32Dict).

(** [map.at(key)], which throws when the key is absent. *)
Definition map_at {K V : Type} (eqb : K -> K -> bool) (m : list (K * V)) (k : K)
  : result V :=
  match find eqb m k with
  | Some v => Ok v
  | None => Abort "std::out_of_range"
  end.

(** [TagBitsetMap TagBitsetMapOf(Node::NodePtr t)]. *)
Definition TagBitsetMapOf (t : Node) : result TagBitsetMap :=
  let leaf_count := Z.to_nat (LeafCount t) in
  foldM (fun (m : TagBitsetMap) (n : Node) =>
           x <- (if IsLeaf n
                 then Bitset_set (Bitset_zeros leaf_count) (MaxLeafID n)
                 else foldM (fun x child =>
                               b <- map_at tag_eqb m (Tag child) ;;
                               Ok (Bitset_or x b))
                            (Children n) (Bitset_zeros leaf_count)) ;;
           SafeInsert tag_eqb m (Tag n) x)
        (PostOrder t) [].

(** The nodes [RootsplitCounterOf] visits in one topology: the pre-order
    of every child of the root. *)
Definition rootsplit_nodes (topology : Node) : list Node :=
  flat_map PreOrder (Children topology).

(** [BitsetUInt32Dict RootsplitCounterOf(const Node::TopologyCounter&)]. *)
Definition RootsplitCounterOf (topologies : TopologyCounter)
  : result BitsetUInt32Dict :=
  foldM (fun rootsplit_counter (iter : Node * Z) =>
           let '(topology, count) := iter in
           tag_to_bitset <- TagBitsetMapOf topology ;;
           foldM (fun counter n =>
                    split <- map_at tag_eqb tag_to_bitset (Tag n) ;;
                    Ok (increment counter (Minorize split) count))
                 (rootsplit_nodes topology) rootsplit_counter)
        topologies [].

(** The parent and child bitsets that the lambda of [PCSSCounterOf] builds
    for one call. *)
Definition PCSS_bitsets (tag_to_bitset : TagBitsetMap) (leaf_count : nat)
           (c : PCSSCall) : result (Bitset * Bitset) :=
  let parent := Bitset_zeros (2 * leaf_count) in
  (* The first chunk is for the sister node. *)
  sister <- map_at tag_eqb tag_to_bitset (Tag (sister_node c)) ;;
  let parent := CopyFrom parent sister 0 (sister_direction c) in
  (* The second chunk is for the focal node. *)
  focal <- map_at tag_eqb tag_to_bitset (Tag (focal_node c)) ;;
  let parent := CopyFrom parent focal leaf_count (focal_direction c) in
  (* Now we build the child bitset. *)
  child0 <- map_at tag_eqb tag_to_bitset (Tag (child0_node c)) ;;
  let child0 := if child0_direction c then Bitset_flip child0 else child0 in
  child1 <- map_at tag_eqb tag_to_bitset (Tag (child1_node c)) ;;
  let child1 := if child1_direction c then Bitset_flip child1 else child1 in
  Ok (parent, Bitset_min child0 child1).

(** Insert the parent-child pair into the map. *)
Fixpoint PCSS_insert (pcss_dict : PCSSDict) (parent child : Bitset) (count : Z)
  : PCSSDict :=
  match pcss_dict with
  | [] => [(parent, increment [] child count)]
  | (p, children) :: rest =>
      if Bitset_eqb parent p then (p, increment children child count) :: rest
      else (p, children) :: PCSS_insert rest parent child count
  end.

(** [PCSSDict PCSSCounterOf(const Node::TopologyCounter& topologies)]. *)
Definition PCSSCounterOf (topologies : TopologyCounter) : result PCSSDict :=
  foldM (fun pcss_dict (iter : Node * Z) =>
           let '(topology, count) := iter in
           tag_to_bitset <- TagBitsetMapOf topology ;;
           let leaf_count := Z.to_nat (LeafCount topology) in
           if negb (Nat.eqb (length (Children topology)) 3)
           then Abort "PCSSCounterOf was expecting a tree with a trifurcation at the root!"
           else
             calls <- PCSSPreOrder topology ;;
             foldM (fun dict c =>
                      pc <- PCSS_bitsets tag_to_bitset leaf_count c ;;
                      Ok (PCSS_insert dict (fst pc) (snd pc) count))
                   calls pcss_dict)
        topologies [].

(* ================================================================== *)
(** * sbn_maps: rooted views and indexer representations *)

(** Modelled from the spec: sbn_maps.cpp ([IndexerRepresentationOf],
    [RootedIndexerRepresentationOf]) is not among the sources.  For every
    edge of the unrooted topology the tree is read as if rooted on that
    edge; the view lists the rootsplit of that rooting and then one PCSS
    per internal edge of the rooted tree, each PCSS being the sister clade,
    the focal clade and the smaller of the focal clade's two children, as
    [PCSSCounterOf] writes them.  The views come in the order of the ids of
    the nodes under the edges, as the test of libsbn.hpp lists them; a
    rooted input gives one view. *)
Inductive RootedView : Type :=
| VLeaf (clade : Bitset)
| VNode (clade : Bitset) (left right : RootedView).

Definition view_clade (v : RootedView) : Bitset :=
  match v with
  | VLeaf c => c
  | VNode c _ _ => c
  end.

Definition view_join (x y : RootedView) : RootedView :=
  VNode (Bitset_or (view_clade x) (view_clade y)) x y.

Section RootedViews.
Variable clade_of : Node -> Bitset.

(** The subtree hanging below a node, as a rooted view. *)
Fixpoint view_below (n : Node) : RootedView :=
  match n with
  | MkNode cs _ _ _ =>
      match cs with
      | [c0; c1] => VNode (clade_of n) (view_below c0) (view_below c1)
      | _ => VLeaf (clade_of n)
      end
  end.

(** Every edge below (and including) the edge above [n], with the part of
    the tree on the other side of that edge. *)
Fixpoint edges_from (n : Node) (above : RootedView)
  : list (Node * (RootedView * RootedView)) :=
  match n with
  | MkNode cs _ _ _ =>
      (n, (above, view_below n))
      :: match cs with
         | [c0; c1] =>
             edges_from c0 (view_join above (view_below c1))
             ++ edges_from c1 (view_join above (view_below c0))
         | _ => []
         end
  end.

Definition unrooted_edges (topology : Node)
  : list (Node * (RootedView * RootedView)) :=
  match Children topology with
  | [c0; c1; c2] =>
      edges_from c0 (view_join (view_below c1) (view_below c2))
      ++ edges_from c1 (view_join (view_below c0) (view_below c2))
      ++ edges_from c2 (view_join (view_below c0) (view_below c1))
  | _ => []
  end.
End RootedViews.

(** The PCSS keys of the internal edges at and below [focal]. *)
Fixpoint view_pcss (sister focal : RootedView) : list Bitset :=
  match focal with
  | VLeaf _ => []
  | VNode c x y =>
      (view_clade sister ++ c ++ Bitset_min (view_clade x) (view_clade y))
      :: view_pcss y x ++ view_pcss x y
  end.

(** The PCSS keys of the internal edges strictly below the top of a
    view. *)
Definition view_inner (v : RootedView) : list Bitset :=
  match v with
  | VLeaf _ => []
  | VNode _ x y => view_pcss y x ++ view_pcss x y
  end.

Definition view_rootsplit (v : RootedView * RootedView) : Bitset :=
  Minorize (view_clade (snd v)).

Definition view_keys (v : RootedView * RootedView) : list Bitset :=
  view_rootsplit v :: view_pcss (fst v) (snd v) ++ view_pcss (snd v) (fst v).

(** The clade of a node as the tag map records it. *)
Definition clade_in (m : TagBitsetMap) (n : Node) : Bitset :=
  match find tag_eqb m (Tag n) with
  | Some b => b
  | None => []
  end.

(** The edges in the order of the ids of their nodes; edges with the
    same id stay in the order they have. *)
Fixpoint insert_by_index (e : Node * (RootedView * RootedView))
         (l : list (Node * (RootedView * RootedView)))
  : list (Node * (RootedView * RootedView)) :=
  match l with
  | [] => [e]
  | e' :: l' =>
      if Index (fst e) <=? Index (fst e') then e :: l
      else e' :: insert_by_index e l'
  end.

Definition by_index (l : list (Node * (RootedView * RootedView)))
  : list (Node * (RootedView * RootedView)) :=
  fold_right insert_by_index [] l.

(** The keys of a rooted topology read as it is: the split at its root,
    then the PCSS of every internal edge. *)
Definition rooted_keys (clade_of : Node -> Bitset) (topology : Node)
  : list Bitset :=
  match Children topology with
  | [c0; c1] => view_keys (view_below clade_of c0, view_below clade_of c1)
  | _ => []
  end.

(** The rooted views of a topology, each as its keys.  A root with three
    children stands for an unrooted tree: there is one view per edge, and
    with the ids 0, 1, ... that [Reindex] assigns view [i] is the one
    rooted on the edge above node [i].  Any other topology is a rooted
    input and gives exactly one view. *)
Definition RootedViewsOf (topology : Node) : result (list (list Bitset)) :=
  tag_to_bitset <- TagBitsetMapOf topology ;;
  match Children topology with
  | [_; _; _] =>
      Ok (map (fun e => view_keys (snd e))
              (by_index (unrooted_edges (clade_in tag_to_bitset) topology)))
  | _ => Ok [rooted_keys (clade_in tag_to_bitset) topology]
  end.

Definition BitsetSizeMap : Type := list (Bitset * nat).
Definition IndexerRepresentation : Type := list (list nat).

(** [SBNMaps::IndexerRepresentationOf(indexer, topology, default_index)]:
    every key of every view looked up in the indexer, [default_index]
    standing in for a key the indexer does not have. *)
Definition IndexerRepresentationOf (indexer : BitsetSizeMap) (topology : Node)
           (default_index : nat) : result IndexerRepresentation :=
  views <- RootedViewsOf topology ;;
  Ok (map (map (fun key => AtWithDefault Bitset_eqb indexer key default_index))
          views).

(* ================================================================== *)
(** * tree.hpp, tree_collection.hpp *)

Record Tree : Type := mkTree {
  topology_ : Node;
  branch_lengths_ : list float
}.

Record TreeCollection : Type := mkTreeCollection {
  trees_ : list Tree;
  tag_taxon_map_ : list ((Z * Z) * string)
}.

Definition TreeCount (c : TreeCollection) : nat := length (trees_ c).
Definition TaxonCount (c : TreeCollection) : nat := length (tag_taxon_map_ c).

(** Modelled from the spec: tree_collection.cpp is not among the sources.
    The topology counter maps every distinct topology, by structural
    equality ([operator==]) and not by object identity, to the number of
    trees of the collection that have it. *)
Fixpoint count_topology (counter : TopologyCounter) (t : Node)
  : TopologyCounter :=
  match counter with
  | [] => [(t, 1)]
  | (k, c) :: rest =>
      if Node_eqb t k then (k, (c + 1) mod two32) :: rest
      else (k, c) :: count_topology rest t
  end.

Definition TopologyCounterOf (c : TreeCollection) : TopologyCounter :=
  fold_left count_topology (map topology_ (trees_ c)) [].

(** Modelled from the spec: the taxon names are the names the collection
    maps its leaf tags to. *)
Definition TaxonNames (c : TreeCollection) : list string :=
  map snd (tag_taxon_map_ c).

(* ================================================================== *)
(** * libsbn.hpp, libsbn.cpp: the SBN instance *)

Definition Range : Type := (nat * nat)%type.
Definition SizeBitsetMap : Type := list (nat * Bitset).
Definition BitsetSizePairMap : Type := list (Bitset * Range).

(** The PSP indexer is built from the rootsplits and the indexer; no
    operation below reads it, so it is kept as what its constructor is
    given. *)
Record PSPIndexer : Type := mkPSPIndexer {
  psp_rootsplits : list Bitset;
  psp_indexer : BitsetSizeMap
}.

(** The fields of [SBNInstance] that the SBN operations use.  The fields of
    the likelihood engine ([name_], [engine_], [alignment_],
    [phylo_model_params_], [rescaling_]) are left out. *)
Record SBNInstance : Type := mkSBNInstance {
  tree_collection_ : TreeCollection;
  psp_indexer_ : PSPIndexer;
  sbn_parameters_ : list float;
  indexer_ : BitsetSizeMap;
  taxon_names_ : list string;
  rootsplits_ : list Bitset;
  index_to_child_ : SizeBitsetMap;
  parent_to_range_ : BitsetSizePairMap;
  topology_counter_ : TopologyCounter
}.


(** [SBNInstance::ClearTreeCollectionAssociatedState]. *)
Definition ClearTreeCollectionAssociatedState (self : SBNInstance)
  : SBNInstance :=
  mkSBNInstance (tree_collection_ self) (psp_indexer_ self)
                [] [] (taxon_names_ self) [] [] [] [].

(** The state of the loops of [ProcessLoadedTrees]: the maps under
    construction and the running index. *)
Record IndexerBuild : Type := mkIndexerBuild {
  b_indexer : BitsetSizeMap;
  b_rootsplits : list Bitset;
  b_index_to_child : SizeBitsetMap;
  b_parent_to_range : BitsetSizePairMap;
  b_index : nat
}.

(** Start by adding the rootsplits. *)
Definition add_rootsplit (b : IndexerBuild) (iter : Bitset * Z)
  : result IndexerBuild :=
  indexer <- SafeInsert Bitset_eqb (b_indexer b) (fst iter) (b_index b) ;;
  Ok (mkIndexerBuild indexer (b_rootsplits b ++ [fst iter])
                     (b_index_to_child b) (b_parent_to_range b)
                     (S (b_index b))).

(** Now add the PCSSs. *)
Definition add_child (parent : Bitset) (b : IndexerBuild) (child_iter : Bitset * Z)
  : result IndexerBuild :=
  let child := fst child_iter in
  indexer <- SafeInsert Bitset_eqb (b_indexer b) (parent ++ child) (b_index b) ;;
  index_to_child <- SafeInsert Nat.eqb (b_index_to_child b) (b_index b)
                               (ChildSubsplit parent child) ;;
  Ok (mkIndexerBuild indexer (b_rootsplits b) index_to_child
                     (b_parent_to_range b) (S (b_index b))).

Definition add_parent (b : IndexerBuild) (iter : Bitset * BitsetUInt32Dict)
  : result IndexerBuild :=
  let '(parent, child_counter) := iter in
  parent_to_range <- SafeInsert Bitset_eqb (b_parent_to_range b) parent
                       (b_index b, (b_index b + length child_counter)%nat) ;;
  foldM (add_child parent) child_counter
        (mkIndexerBuild (b_indexer b) (b_rootsplits b) (b_index_to_child b)
                        parent_to_range (b_index b)).

Definition build_indexer (rootsplit_counter : BitsetUInt32Dict)
           (pcss_counter : PCSSDict) : result IndexerBuild :=
  b <- foldM add_rootsplit rootsplit_counter (mkIndexerBuild [] [] [] [] 0%nat) ;;
  foldM add_parent pcss_counter b.

(** [void SBNInstance::ProcessLoadedTrees()]. *)
Definition ProcessLoadedTrees (self : SBNInstance) : result SBNInstance :=
  let self := ClearTreeCollectionAssociatedState self in
  let topology_counter := TopologyCounterOf (tree_collection_ self) in
  rootsplit_counter <- RootsplitCounterOf topology_counter ;;
  pcss_counter <- PCSSCounterOf topology_counter ;;
  b <- build_indexer rootsplit_counter pcss_counter ;;
  Ok (mkSBNInstance (tree_collection_ self)
                    (mkPSPIndexer (b_rootsplits b) (b_indexer b))
                    (repeat 1%float (b_index b))
                    (b_indexer b)
                    (TaxonNames (tree_collection_ self))
                    (b_rootsplits b)
                    (b_index_to_child b)
                    (b_parent_to_range b)
                    topology_counter).

Definition maps_message : string :=
  "Please call ProcessLoadedTrees to prepare your SBN maps.".

Definition is_empty {A : Type} (l : list A) : bool :=
  match l with [] => true | _ => false end.

(** [void SBNInstance::CheckSBNMapsAvailable()]. *)
Definition CheckSBNMapsAvailable (self : SBNInstance) : result unit :=
  if is_empty (indexer_ self) || is_empty (index_to_child_ self)
     || is_empty (parent_to_range_ self) || is_empty (rootsplits_ self)
     || is_empty (taxon_names_ self)
  then Failwith maps_message
  else Ok tt.


(** Modelled from the spec: [Node::Deroot] is not in the node.cpp at hand.
    It turns the bifurcating root into a trifurcation by merging the
    children of a root child that has descendants with the other child. *)
Definition Deroot (n : Node) : result Node :=
  match Children n with
  | [c0; c1] =>
      if LeafCount n <? 3
      then Abort "Node::Deroot expects a tree with at least 3 tips."
      else if LeafCount c1 =? 1
           then Join (Children c0 ++ [c1]) (Index c0)
           else Join (Children c1 ++ [c0]) (Index c1)
  | _ => Abort "Can't deroot a non-bifurcating tree."
  end.

(** Modelled from the spec: [Node::Polish] renumbers the nodes of a freshly
    assembled topology, as [Reindex] does. *)
Definition Polish (n : Node) : result Node :=
  r <- Reindex n ;; Ok (fst r).

(** [int] arithmetic: [static_cast<int>] of a [size_t] keeps the low 32
    bits, read as a two's complement number; a result of [int] arithmetic
    outside the range of [int] is undefined, and the embedding stops
    there. *)
Definition INT_MAX : Z := 2147483647.
Definition INT_MIN : Z := - 2147483648.

Definition int_of_size_t (z : Z) : Z :=
  let low := z mod two32 in
  if low <=? INT_MAX then low else low - two32.

Definition int_overflow : string := "signed integer overflow".

Definition int_result (z : Z) : result Z :=
  if (INT_MIN <=? z) && (z <=? INT_MAX) then Ok z else Abort int_overflow.

Section SBNOperations.
(** The process-wide generator and [std::discrete_distribution]: a draw
    returns a position into the weights and the next generator state. *)
Variable RNG : Type.
Variable discrete_distribution : list float -> RNG -> nat * RNG.

(** The numerical helpers work in place on the vector they are given
    (numerical_utils.hpp, sbn_probability.hpp); here they return the
    vector they leave behind, [ExpectationMaximization] together with the
    vector it returns. *)
Variable ProbabilityNormalizeInLog : list float -> list float.
Variable Exponentiate : list float -> list float.
Variable ProbabilityNormalizeParamsInLog :
  list float -> nat -> BitsetSizePairMap -> list float.
Variable ProbabilityOf : list float -> list IndexerRepresentation -> list float.
Variable SimpleAverage :
  list float -> list (IndexerRepresentation * Z) -> nat -> BitsetSizePairMap
  -> list float.
Variable ExpectationMaximization :
  list float -> list (IndexerRepresentation * Z) -> nat -> BitsetSizePairMap
  -> float -> nat -> float -> list float * list float.

(** The instance together with the static generator. *)
Definition World : Type := (SBNInstance * RNG)%type.

(** Operations on the world: a value and the next world, or a failure. *)
Definition M (A : Type) : Type := World -> result (A * World).

Definition ret {A : Type} (a : A) : M A := fun w => Ok (a, w).
Definition mbind {A B : Type} (m : M A) (k : A -> M B) : M B :=
  fun w => r <- m w ;; k (fst r) (snd r).
Definition gets {A : Type} (f : SBNInstance -> A) : M A :=
  fun w => Ok (f (fst w), w).
Definition lift {A : Type} (r : result A) : M A :=
  fun w => a <- r ;; Ok (a, w).
Definition modify (f : SBNInstance -> SBNInstance) : M unit :=
  fun w => Ok (tt, (f (fst w), snd w)).
Definition draw (weights : list float) : M nat :=
  fun w => let (i, g) := discrete_distribution weights (snd w) in
           Ok (i, (fst w, g)).

Notation "x <~ m ; k" := (mbind m (fun x => k))
  (at level 62, m at next level, right associativity).
Notation "m ;> k" := (mbind m (fun _ => k))
  (at level 62, right associativity).

(** [v.segment(start, length)]. *)
Definition segment {A : Type} (v : list A) (start len : nat) : list A :=
  firstn len (skipn start v).

(** [size_t SBNInstance::SampleIndex(std::pair<size_t, size_t> range) const]. *)
Definition SampleIndex (range : Range) : M nat :=
  let '(start, end_) := range in
  sbn_parameters <~ gets sbn_parameters_ ;
  lift (Assert (Nat.ltb start end_ && Nat.leb end_ (length sbn_parameters))
               "SampleIndex given an invalid range.") ;>
  (* We do not want to overwrite sbn_parameters so we make a copy. *)
  let sbn_parameters_subrange := segment sbn_parameters start (end_ - start) in
  let sbn_parameters_subrange := ProbabilityNormalizeInLog sbn_parameters_subrange in
  let sbn_parameters_subrange := Exponentiate sbn_parameters_subrange in
  drawn <~ draw sbn_parameters_subrange ;
  let result := (start + drawn)%nat in
  lift (Assert (Nat.ltb result end_) "SampleIndex sampled a value out of range.") ;>
  ret result.

Definition recursion_message : string :=
  "SampleTopology: the subsplits do not shrink.".

(** [Node::NodePtr SBNInstance::SampleTopology(const Bitset &parent_subsplit) const].
    The source recurses as long as the sampled clades are not singletons;
    [depth] bounds that recursion.  The two arguments of [Node::Join] are
    evaluated left to right here; the language leaves their order open. *)
Fixpoint SampleTopology_subsplit (depth : nat) (parent_subsplit : Bitset)
  : M Node :=
  match depth with
  | O => lift (Abort recursion_message)
  | S depth' =>
      let process_subsplit (parent : Bitset) : M Node :=
        match SingletonOption (SplitChunk parent 1) with
        | Some leaf_id => ret (Leaf leaf_id)
        | None =>
            parent_to_range <~ gets parent_to_range_ ;
            range <~ lift (map_at Bitset_eqb parent_to_range parent) ;
            child_index <~ SampleIndex range ;
            index_to_child <~ gets index_to_child_ ;
            child <~ lift (map_at Nat.eqb index_to_child child_index) ;
            SampleTopology_subsplit depth' child
        end in
      left <~ process_subsplit parent_subsplit ;
      right <~ process_subsplit (RotateSubsplit parent_subsplit) ;
      lift (Join2 left right SIZE_MAX)
  end.

(** The lambda [process_subsplit] of the function above, on its own. *)
Definition process_subsplit (depth : nat) (parent : Bitset) : M Node :=
  match SingletonOption (SplitChunk parent 1) with
  | Some leaf_id => ret (Leaf leaf_id)
  | None =>
      parent_to_range <~ gets parent_to_range_ ;
      range <~ lift (map_at Bitset_eqb parent_to_range parent) ;
      child_index <~ SampleIndex range ;
      index_to_child <~ gets index_to_child_ ;
      child <~ lift (map_at Nat.eqb index_to_child child_index) ;
      SampleTopology_subsplit depth child
  end.

(** [Node::NodePtr SBNInstance::SampleTopology(bool rooted) const]. *)
Definition SampleTopology (rooted : bool) : M Node :=
  (* Start by sampling a rootsplit. *)
  rootsplits <~ gets rootsplits_ ;
  rootsplit_index <~ SampleIndex (0%nat, length rootsplits) ;
  rootsplit <~ lift (match nth_error rootsplits rootsplit_index with
                     | Some b => Ok b
                     | None => Abort "std::out_of_range"
                     end) ;
  (* The addition below turns the rootsplit into a subsplit. *)
  let subsplit := rootsplit ++ Bitset_flip rootsplit in
  topology <~ SampleTopology_subsplit (length rootsplit) subsplit ;
  topology <~ (if rooted then ret topology else lift (Deroot topology)) ;
  lift (Polish topology).

Definition set_trees (trees : list Tree) (self : SBNInstance) : SBNInstance :=
  mkSBNInstance (mkTreeCollection trees (tag_taxon_map_ (tree_collection_ self)))
                (psp_indexer_ self) (sbn_parameters_ self) (indexer_ self)
                (taxon_names_ self) (rootsplits_ self) (index_to_child_ self)
                (parent_to_range_ self) (topology_counter_ self).

Definition push_back_tree (t : Tree) (self : SBNInstance) : SBNInstance :=
  set_trees (trees_ (tree_collection_ self) ++ [t]) self.

(** The loop of [SampleTrees].  A negative [edge_count] converted to
    [size_t] asks for more than a vector can hold, so that the
    construction of [branch_lengths] throws; otherwise the vector holds
    [edge_count] zeros. *)
Fixpoint sample_loop (count : nat) (edge_count : Z) : M unit :=
  match count with
  | O => ret tt
  | S count' =>
      lift (Assert (0 <=? edge_count) "std::length_error") ;>
      let branch_lengths := repeat 0%float (Z.to_nat edge_count) in
      topology <~ SampleTopology false ;
      modify (push_back_tree (mkTree topology branch_lengths)) ;>
      sample_loop count' edge_count
  end.

(** [void SBNInstance::SampleTrees(size_t count)].  [edge_count] is an
    [int]: the leaf count is cast to [int] and the arithmetic is done
    there, where leaving the range is undefined. *)
Definition SampleTrees (count : nat) : M unit :=
  self <~ gets (fun self => self) ;
  lift (CheckSBNMapsAvailable self) ;>
  let leaf_count := Z.of_nat (length (hd [] (rootsplits_ self))) in
  (* 2n-2 because trees are unrooted. *)
  doubled <~ lift (int_result (2 * int_of_size_t leaf_count)) ;
  edge_count <~ lift (int_result (doubled - 2)) ;
  modify (set_trees []) ;>
  sample_loop count edge_count.

(** [SBNInstance::MakeIndexerRepresentations() const]. *)
Definition MakeIndexerRepresentations : M (list IndexerRepresentation) :=
  self <~ gets (fun self => self) ;
  lift (mapM (fun tree =>
                IndexerRepresentationOf (indexer_ self) (topology_ tree)
                                        (length (sbn_parameters_ self)))
             (trees_ (tree_collection_ self))).

(** [EigenVectorXd SBNInstance::CalculateSBNProbabilities()]. *)
Definition CalculateSBNProbabilities : M (list float) :=
  sbn_parameters_copy <~ gets sbn_parameters_ ;
  rootsplits <~ gets rootsplits_ ;
  parent_to_range <~ gets parent_to_range_ ;
  let sbn_parameters_copy :=
    ProbabilityNormalizeParamsInLog sbn_parameters_copy (length rootsplits)
                                    parent_to_range in
  representations <~ MakeIndexerRepresentations ;
  ret (ProbabilityOf sbn_parameters_copy representations).




End SBNOperations.


(* ================================================================== *)
(** * fat_beagle.cpp: the ratio gradient *)

(** [class RootedTree] (tree.hpp): a tree with the ratios and the root
    height, the node heights and the node bounds. *)
Record RootedTree : Type := mkRootedTree {
  rooted_topology : Node;
  parameters_ : list float;
  node_heights_ : list float;
  node_bounds_ : list float
}.

(** [v[i]] and [v[i] = x].  The source does not check the index; the
    embedding stops at an access outside the vector. *)
Definition out_of_bounds : string := "vector access out of bounds".

Definition vec_get (v : list float) (i : Z) : result float :=
  if (0 <=? i) && (i <? Z.of_nat (length v))
  then Ok (nth (Z.to_nat i) v 0%float)
  else Abort out_of_bounds.

Fixpoint replace_nth (v : list float) (i : nat) (x : float) : list float :=
  match v, i with
  | [], _ => []
  | _ :: v', O => x :: v'
  | y :: v', S i' => y :: replace_nth v' i' x
  end.

Definition vec_set (v : list float) (i : Z) (x : float) : result (list float) :=
  if (0 <=? i) && (i <? Z.of_nat (length v))
  then Ok (replace_nth v (Z.to_nat i) x)
  else Abort out_of_bounds.

(** [std::vector<double> v(n)] and [v(n, 0)]. *)
Definition zeros (n : Z) : list float := repeat 0%float (Z.to_nat n).

(** [BinaryIndexInfix] and the two traversals built on it (node.cpp;
    fat_beagle.cpp calls them by their earlier names [BinaryIdPreOrder] and
    [BinaryIdPostOrder], and [Index] by [Id]). *)
Definition BinaryIndexInfix (n : Node) : result (list (Z * Z * Z)) :=
  match Children n with
  | [] => Ok []
  | [c0; c1] => Ok [(Index n, Index c0, Index c1)]
  | _ => Abort assert_binary
  end.

Definition BinaryIndexPreOrder (t : Node) : result (list (Z * Z * Z)) :=
  calls <- mapM BinaryIndexInfix (PreOrder t) ;; Ok (concat calls).

Definition BinaryIndexPostOrder (t : Node) : result (list (Z * Z * Z)) :=
  calls <- mapM BinaryIndexInfix (PostOrder t) ;; Ok (concat calls).

(** [Node::TriplePreOrderBifurcating] and [TripleIndexPreOrderBifurcating]
    ([TripleIdPreOrderBifurcating] in fat_beagle.cpp). *)
Fixpoint TriplePreOrderBifurcating (n : Node)
  : result (list (Node * Node * Node)) :=
  match n with
  | MkNode cs _ _ _ =>
      match cs with
      | [] => Ok []
      | [c0; c1] =>
          r0 <- TriplePreOrderBifurcating c0 ;;
          r1 <- TriplePreOrderBifurcating c1 ;;
          Ok ((n, c1, c0) :: r0 ++ (n, c0, c1) :: r1)
      | _ => Abort assert_binary
      end
  end.

Definition TripleIndexPreOrderBifurcating (t : Node)
  : result (list (Z * Z * Z)) :=
  calls <- TriplePreOrderBifurcating t ;;
  Ok (map (fun c : Node * Node * Node =>
             let '(node0, node1, node2) := c in
             (Index node0, Index node1, Index node2))
          calls).

Section RatioGradient.
Local Open Scope float_scope.

(** The branch length gradient comes out of the BEAGLE library. *)
Variable BranchLengthGradient : RootedTree -> list float.

(** [std::vector<double> HeightGradient(tree, branch_gradient)]. *)
Definition HeightGradient (tree : RootedTree) (branch_gradient : list float)
  : result (list float) :=
  let root_id := Index (rooted_topology tree) in
  let leaf_count := LeafCount (rooted_topology tree) in
  calls <- BinaryIndexPreOrder (rooted_topology tree) ;;
  foldM (fun height_gradient (c : Z * Z * Z) =>
           let '(node_id, child0_id, child1_id) := c in
           height_gradient <-
             (if negb (node_id =? root_id)%Z
              then b <- vec_get branch_gradient node_id ;;
                   vec_set height_gradient (node_id - leaf_count) (- b)
              else Ok height_gradient) ;;
           height_gradient <-
             (if (leaf_count <=? child0_id)%Z
              then h <- vec_get height_gradient (node_id - leaf_count) ;;
                   b <- vec_get branch_gradient child0_id ;;
                   vec_set height_gradient (node_id - leaf_count) (h + b)
              else Ok height_gradient) ;;
           (if (leaf_count <=? child1_id)%Z
            then h <- vec_get height_gradient (node_id - leaf_count) ;;
                 b <- vec_get branch_gradient child1_id ;;
                 vec_set height_gradient (node_id - leaf_count) (h + b)
            else Ok height_gradient))
        calls (zeros (leaf_count - 1)).

(** [double GetNodePartial(node_id, leaf_count, heights, ratios, bounds)]. *)
Definition GetNodePartial (node_id leaf_count : Z)
           (heights ratios bounds : list float) : result float :=
  h <- vec_get heights node_id ;;
  b <- vec_get bounds node_id ;;
  r <- vec_get ratios (node_id - leaf_count) ;;
  Ok ((h - b) / r).

(** [double GetEpochGradientAddition(...)]. *)
Definition GetEpochGradientAddition (node_id child_id leaf_count : Z)
           (heights ratios bounds ratiosGradientUnweightedLogDensity : list float)
  : result float :=
  if (child_id <? leaf_count)%Z then Ok 0
  else
    bn <- vec_get bounds node_id ;;
    bc <- vec_get bounds child_id ;;
    if bn =? bc then
      (* child_id and node_id are in the same epoch *)
      g <- vec_get ratiosGradientUnweightedLogDensity (child_id - leaf_count) ;;
      rc <- vec_get ratios child_id ;;
      rn <- vec_get ratios node_id ;;
      Ok (g * rc / rn)
    else
      (* NOT the same epoch *)
      g <- vec_get ratiosGradientUnweightedLogDensity (child_id - leaf_count) ;;
      rc <- vec_get ratios child_id ;;
      hn <- vec_get heights node_id ;;
      p <- GetNodePartial node_id leaf_count heights ratios bounds ;;
      Ok (g * rc / (hn - bc) * p).

(** [std::vector<double> GetLogTimeArray(const RootedTree &tree)]. *)
Definition GetLogTimeArray (tree : RootedTree) : result (list float) :=
  let leaf_count := LeafCount (rooted_topology tree) in
  let root_id := Index (rooted_topology tree) in
  calls <- BinaryIndexPostOrder (rooted_topology tree) ;;
  foldM (fun log_time (c : Z * Z * Z) =>
           let '(node_id, child0_id, child1_id) := c in
           if negb (node_id =? root_id)%Z
           then h <- vec_get (node_heights_ tree) node_id ;;
                b <- vec_get (node_bounds_ tree) node_id ;;
                vec_set log_time (node_id - leaf_count) (1 / (h - b))
           else Ok log_time)
        calls (zeros (leaf_count - 1)).

(** [std::vector<double> UpdateGradientUnWeightedLogDensity(tree, gradients)]. *)
Definition UpdateGradientUnWeightedLogDensity (tree : RootedTree)
           (gradients : list float) : result (list float) :=
  let leaf_count := LeafCount (rooted_topology tree) in
  let root_id := Index (rooted_topology tree) in
  let heights := node_heights_ tree in
  let ratios := parameters_ tree in
  let bounds := node_bounds_ tree in
  calls <- BinaryIndexPostOrder (rooted_topology tree) ;;
  foldM (fun acc (c : Z * Z * Z) =>
           let '(node_id, child0_id, child1_id) := c in
           if (leaf_count <=? node_id)%Z && negb (node_id =? root_id)%Z
           then
             p <- GetNodePartial node_id leaf_count heights ratios bounds ;;
             g <- vec_get gradients node_id ;;
             a <- vec_get acc (node_id - leaf_count) ;;
             acc <- vec_set acc (node_id - leaf_count) (a + p * g) ;;
             e0 <- GetEpochGradientAddition node_id child0_id leaf_count
                                            heights ratios bounds acc ;;
             a <- vec_get acc (node_id - leaf_count) ;;
             acc <- vec_set acc (node_id - leaf_count) (a + e0) ;;
             e1 <- GetEpochGradientAddition node_id child1_id leaf_count
                                            heights ratios bounds acc ;;
             a <- vec_get acc (node_id - leaf_count) ;;
             vec_set acc (node_id - leaf_count) (a + e1)
           else Ok acc)
        calls (zeros (leaf_count - 1)).

(** [double UpdateHeightParameterGradientUnweightedLogDensity(tree, gradient)]. *)
Definition UpdateHeightParameterGradientUnweightedLogDensity
           (tree : RootedTree) (gradient : list float) : result float :=
  let leaf_count := LeafCount (rooted_topology tree) in
  let root_id := Index (rooted_topology tree) in
  let ratios := parameters_ tree in
  multiplierArray <- vec_set (zeros (leaf_count - 1)) (root_id - leaf_count) 1 ;;
  calls <- TripleIndexPreOrderBifurcating (rooted_topology tree) ;;
  multiplierArray <-
    foldM (fun multiplierArray (c : Z * Z * Z) =>
             let '(node_id, sister_id, parent_id) := c in
             if (leaf_count <=? node_id)%Z && (sister_id <? node_id)%Z
                && negb (node_id =? root_id)%Z
             then
               ratio <- vec_get ratios (node_id - leaf_count) ;;
               m <- vec_get multiplierArray (parent_id - leaf_count) ;;
               vec_set multiplierArray (node_id - leaf_count) (ratio * m)
             else Ok multiplierArray)
          calls multiplierArray ;;
  foldM (fun sum (i : nat) =>
           g <- vec_get gradient (Z.of_nat i) ;;
           m <- vec_get multiplierArray (Z.of_nat i) ;;
           Ok (sum + g * m))
        (seq 0 (length gradient)) 0.

Definition ratio_assertion : string := "gradientLogDensity[root_id-leaf_count]".

(** [std::vector<double> FatBeagle::RatioGradient(const RootedTree &tree) const]. *)
Definition RatioGradient (tree : RootedTree) : result (list float) :=
  let leaf_count := LeafCount (rooted_topology tree) in
  let root_id := Index (rooted_topology tree) in
  (* calculate branch length gradient *)
  let branch_gradient := BranchLengthGradient tree in
  (* calculate height gradient *)
  height_gradient <- HeightGradient tree branch_gradient ;;
  (* calculate ratio gradient *)
  gradientLogDensity <- UpdateGradientUnWeightedLogDensity tree height_gradient ;;
  (* root height gradient *)
  h <- UpdateHeightParameterGradientUnweightedLogDensity tree height_gradient ;;
  gradientLogDensity <- vec_set gradientLogDensity (root_id - leaf_count) h ;;
  (* add the log determinant gradient *)
  log_time <- GetLogTimeArray tree ;;
  gradientLogJacobianDeterminant <-
    UpdateGradientUnWeightedLogDensity tree log_time ;;
  j <- UpdateHeightParameterGradientUnweightedLogDensity tree log_time ;;
  gradientLogJacobianDeterminant <-
    vec_set gradientLogJacobianDeterminant (root_id - leaf_count) j ;;
  gradientLogDensity <-
    foldM (fun gradientLogDensity (i : nat) =>
             g <- vec_get gradientLogDensity (Z.of_nat i) ;;
             d <- vec_get gradientLogJacobianDeterminant (Z.of_nat i) ;;
             p <- vec_get (parameters_ tree) (Z.of_nat i) ;;
             vec_set gradientLogDensity (Z.of_nat i) (g - (d - 1 / p)))
          (seq 0 (length gradientLogDensity)) gradientLogDensity ;;
  g <- vec_get gradientLogDensity (root_id - leaf_count) ;;
  d <- vec_get gradientLogJacobianDeterminant (root_id - leaf_count) ;;
  let temp := g - d in
  h <- UpdateHeightParameterGradientUnweightedLogDensity tree height_gradient ;;
  j <- UpdateHeightParameterGradientUnweightedLogDensity tree log_time ;;
  gradientLogDensity <- vec_set gradientLogDensity (root_id - leaf_count) (h - j) ;;
  g <- vec_get gradientLogDensity (root_id - leaf_count) ;;
  Assert (temp =? g) ratio_assertion ;;;
  Ok gradientLogDensity.
End RatioGradient.

(* ================================================================== *)
(** * Vocabulary of the statements *)

(** ** Building topologies

    A [Construction] is a nest of [Leaf] and [Join] calls, as the parser
    and [ExampleTopologies] make them; [construct] runs it. *)
Unset Elimination Schemes.
Inductive Construction : Type :=
| CLeaf (leaf_id : Z)
| CJoin (children : list Construction) (index : Z).
Set Elimination Schemes.

Fixpoint construct (c : Construction) : result Node :=
  match c with
  | CLeaf leaf_id => Ok (Leaf leaf_id)
  | CJoin cs index => ns <- mapM construct cs ;; Join ns index
  end.

(** Two constructions that differ only in the order in which the
    children of some internal nodes are supplied. *)
Inductive reordered : Construction -> Construction -> Prop :=
| reordered_leaf leaf_id : reordered (CLeaf leaf_id) (CLeaf leaf_id)
| reordered_join cs cs' index :
    reordered_list cs cs' -> reordered (CJoin cs index) (CJoin cs' index)
with reordered_list : list Construction -> list Construction -> Prop :=
| reordered_nil : reordered_list [] []
| reordered_skip c c' l l' :
    reordered c c' -> reordered_list l l' -> reordered_list (c :: l) (c' :: l')
| reordered_swap x x' y y' l l' :
    reordered x x' -> reordered y y' -> reordered_list l l' ->
    reordered_list (y :: x :: l) (x' :: y' :: l')
| reordered_trans l1 l2 l3 :
    reordered_list l1 l2 -> reordered_list l2 l3 -> reordered_list l1 l3.

Scheme reordered_mut := Induction for reordered Sort Prop
  with reordered_list_mut := Induction for reordered_list Sort Prop.

(** What [operator==] looks at: the hashes, level by level. *)
Unset Elimination Schemes.
Inductive HashTree : Type :=
  HNode (hash : Z) (children : list HashTree).
Set Elimination Schemes.

Fixpoint hash_tree (n : Node) : HashTree :=
  match n with
  | MkNode cs _ _ h => HNode h (map hash_tree cs)
  end.

(** The multiplicity a topology counter gives to a topology. *)
Definition multiplicity (counter : TopologyCounter) (t : Node) : Z :=
  match find (fun a b => Node_eqb a b) counter t with
  | Some c => c
  | None => 0
  end.

(** Induction on nodes through their lists of children. *)
Section NodeInduction.
Variable P : Node -> Prop.
Hypothesis H : forall cs index tag hash,
    Forall P cs -> P (MkNode cs index tag hash).

Fixpoint Node_ind (n : Node) : P n :=
  match n with
  | MkNode cs index tag hash =>
      H index tag hash
        ((fix all (l : list Node) : Forall P l :=
            match l with
            | [] => Forall_nil P
            | c :: l' => Forall_cons c (Node_ind c) (all l')
            end) cs)
  end.
End NodeInduction.

(** The two constructions of the topology (0,1,(2,3)) in
    [ExampleTopologies], which supply the children in different orders. *)
Definition example_construction_0 : Construction :=
  CJoin [CLeaf 0; CLeaf 1; CJoin [CLeaf 2; CLeaf 3] SIZE_MAX] SIZE_MAX.
Definition example_construction_1 : Construction :=
  CJoin [CLeaf 1; CLeaf 0; CJoin [CLeaf 3; CLeaf 2] SIZE_MAX] SIZE_MAX.

(** A collection of [k] trees per topology of a list, with no branch
    lengths. *)
Definition collection_of (topologies : list Node) : TreeCollection :=
  mkTreeCollection (map (fun t => mkTree t []) topologies) [].

(** ** Frames *)

(** An operation that, when it returns, leaves the instance as it was (the
    generator may have advanced). *)
Definition preserves_instance {RNG A : Type} (m : M RNG A) : Prop :=
  forall w a w', m w = Ok (a, w') -> fst w' = fst w.

(** The contract of [std::discrete_distribution]: a draw over [n > 0]
    weights is a position below [n]. *)
Definition draws_in_range {RNG : Type}
           (discrete_distribution : list float -> RNG -> nat * RNG) : Prop :=
  forall weights g,
    weights <> [] ->
    (fst (discrete_distribution weights g) < length weights)%nat.

(** The in-place numerical helpers cannot resize the vector they work on. *)
Definition keeps_length (f : list float -> list float) : Prop :=
  forall v, length (f v) = length v.

(** A generator that always draws the first position, and an instance
    with three parameters, for concrete runs. *)
Definition first_position (weights : list float) (g : unit) : nat * unit :=
  (0%nat, g).

Definition three_parameters : SBNInstance :=
  mkSBNInstance (mkTreeCollection [] []) (mkPSPIndexer [] [])
                [1%float; 1%float; 1%float] [] [] [] [] [] [].

(** ** The layout of the indexer *)

(** The PCSS keys of a PCSS counter, parent by parent, in the order of the
    counter. *)
Definition block_keys (block : Bitset * BitsetUInt32Dict) : list Bitset :=
  map (fun c => fst block ++ fst c) (snd block).

Definition pcss_keys (pcss_counter : PCSSDict) : list Bitset :=
  flat_map block_keys pcss_counter.

(** The child subsplits of a PCSS counter, in the same order. *)
Definition pcss_children (pcss_counter : PCSSDict) : list Bitset :=
  flat_map (fun block => map (fun c => ChildSubsplit (fst block) (fst c))
                             (snd block))
           pcss_counter.

(** The ranges the parents get when the running index starts at [index]. *)
Fixpoint ranges_from (index : nat) (pcss_counter : PCSSDict)
  : BitsetSizePairMap :=
  match pcss_counter with
  | [] => []
  | (parent, child_counter) :: rest =>
      (parent, (index, (index + length child_counter)%nat))
      :: ranges_from (index + length child_counter) rest
  end.

Definition in_range (i : nat) (r : Range) : Prop :=
  (fst r <= i < snd r)%nat.

(** Ranges that follow one another from [first] to [last] without gap or
    overlap. *)
Fixpoint contiguous (first last : nat) (ranges : list Range) : Prop :=
  match ranges with
  | [] => first = last
  | (s, e) :: rest => s = first /\ (s <= e)%nat /\ contiguous e last rest
  end.

(** ** Well-formed topologies *)

(** The leaf ids below a node, left to right. *)
Fixpoint leaf_ids (n : Node) : list Z :=
  match n with
  | MkNode cs _ tag _ =>
      match cs with
      | [] => [fst tag]
      | _ => flat_map leaf_ids cs
      end
  end.

(** The clade of a node among [N] taxa: the bits of its leaves. *)
Fixpoint clade (N : nat) (n : Node) : Bitset :=
  match n with
  | MkNode cs _ tag _ =>
      match cs with
      | [] => set_nth (Bitset_zeros N) (Z.to_nat (fst tag))
      | _ => fold_left (fun x c => Bitset_or x (clade N c)) cs (Bitset_zeros N)
      end
  end.

(** The tags are the ones the constructors compute. *)
Fixpoint tags_ok (n : Node) : bool :=
  match n with
  | MkNode cs _ tag _ =>
      match cs with
      | [] => snd tag =? 1
      | c :: _ =>
          tag_eqb tag
                  (MaxLeafID (last cs c),
                   fold_left (fun acc c => (acc + LeafCount c) mod two32) cs 0)
      end
      && forallb tags_ok cs
  end.

(** Every internal node has exactly two children. *)
Fixpoint bifurcating (n : Node) : bool :=
  match n with
  | MkNode cs _ _ _ =>
      match cs with
      | [] => true
      | [a; b] => bifurcating a && bifurcating b
      | _ => false
      end
  end.

Fixpoint Z_nodup (l : list Z) : bool :=
  match l with
  | [] => true
  | x :: l' => negb (existsb (Z.eqb x) l') && Z_nodup l'
  end.

(** An unrooted topology on the taxa [0 .. N-1]: three bifurcating
    subtrees under the root, every taxon on exactly one leaf. *)
Definition unrooted_topology (N : nat) (t : Node) : bool :=
  tags_ok t
  && match Children t with
     | [c0; c1; c2] => bifurcating c0 && bifurcating c1 && bifurcating c2
     | _ => false
     end
  && Z_nodup (leaf_ids t)
  && forallb (fun i => (0 <=? i) && (i <? Z.of_nat N)) (leaf_ids t)
  && Nat.eqb (length (leaf_ids t)) N
  && (Z.of_nat N <? two32).

(** The entries [TagBitsetMapOf] records for the nodes of a list. *)
Definition tag_entries (N : nat) (nodes : list Node) : TagBitsetMap :=
  map (fun u => (Tag u, clade N u)) nodes.

(** The body of the lambda of [TagBitsetMapOf]. *)
Definition tag_step (N : nat) (m : TagBitsetMap) (n : Node) : result TagBitsetMap :=
  x <- (if IsLeaf n
        then Bitset_set (Bitset_zeros N) (MaxLeafID n)
        else foldM (fun x child =>
                      b <- map_at tag_eqb m (Tag child) ;;
                      Ok (Bitset_or x b))
                   (Children n) (Bitset_zeros N)) ;;
  SafeInsert tag_eqb m (Tag n) x.

(** Every internal node has at least two children. *)
Fixpoint forking (n : Node) : bool :=
  match n with
  | MkNode cs _ _ _ =>
      match cs with
      | [] => true
      | [_] => false
      | _ => forallb forking cs
      end
  end.

(** Whether bit [i] of a bitset is set. *)
Definition has (b : Bitset) (i : nat) : bool := nth i b false.

(** Whether a leaf id is among the leaves of a node. *)
Definition has_leaf (n : Node) (i : Z) : bool := existsb (Z.eqb i) (leaf_ids n).

(** ** What the counters see of one topology *)

(** The rootsplits of a topology, one per node other than the root. *)
Definition rootsplit_of (N : nat) (n : Node) : Bitset := Minorize (clade N n).

Definition rootsplits_of (N : nat) (t : Node) : list Bitset :=
  map (rootsplit_of N) (rootsplit_nodes t).

(** The clade of a node, flipped when the direction flag is set. *)
Definition chunk (N : nat) (n : Node) (direction : bool) : Bitset :=
  if direction then Bitset_flip (clade N n) else clade N n.

(** The parent subsplit and the child of one call. *)
Definition pcss_parent (N : nat) (c : PCSSCall) : Bitset :=
  chunk N (sister_node c) (sister_direction c)
  ++ chunk N (focal_node c) (focal_direction c).

Definition pcss_child (N : nat) (c : PCSSCall) : Bitset :=
  Bitset_min (chunk N (child0_node c) (child0_direction c))
             (chunk N (child1_node c) (child1_direction c)).

Definition pcss_pair (N : nat) (c : PCSSCall) : Bitset * Bitset :=
  (pcss_parent N c, pcss_child N c).

(** The key of one call: the parent subsplit, then the child. *)
Definition pcss_key (N : nat) (c : PCSSCall) : Bitset :=
  pcss_parent N c ++ pcss_child N c.

(** The edge above [u] lies outside a chunk and is not the edge that
    bounds it: outside the subtree of the node when the chunk is its
    clade, strictly inside the subtree when the chunk is the flipped
    clade. *)
Definition beyond (x : Node) (direction : bool) (u : Node) : Prop :=
  if direction then In u (flat_map PreOrder (Children x))
  else ~ In u (PreOrder x).

(** The tree rooted on the edge above [u] has the subsplit of a call: the
    sister and the focal chunk are the two sides of that edge, or the edge
    lies outside both. *)
Definition rooting_sees (u : Node) (c : PCSSCall) : Prop :=
  (sister_node c = focal_node c /\ u = focal_node c)
  \/ (sister_node c <> focal_node c
      /\ beyond (sister_node c) (sister_direction c) u
      /\ beyond (focal_node c) (focal_direction c) u).

(** The list a traversal returns, empty when it fails. *)
Definition calls_of {X : Type} (r : result (list X)) : list X :=
  match r with
  | Ok l => l
  | Abort _ => []
  end.

(** The node a construction returns, a leaf when it fails. *)
Definition example_or_leaf (r : result Node) : Node :=
  match r with
  | Ok t => t
  | Abort _ => Leaf 0
  end.

(** The topologies of [ExampleTopologies], by position: 0 and 1 are
    (0,1,(2,3)), 2 is (0,2,(1,3)) and 3 is the rooted (0,(1,(2,3))). *)
Definition example_topology (i : nat) : Node :=
  nth i (calls_of ExampleTopologies) (Leaf 0).

Definition pcss_pairs_of (N : nat) (t : Node) : list (Bitset * Bitset) :=
  map (pcss_pair N) (calls_of (PCSSPreOrder t)).

(** The nodes a call mentions. *)
Definition call_nodes (c : PCSSCall) : list Node :=
  [sister_node c; focal_node c; child0_node c; child1_node c].

(** The counters as plain folds over what each topology contributes. *)
Definition count_rootsplits (N : nat) (topologies : TopologyCounter)
  : BitsetUInt32Dict :=
  fold_left (fun d (iter : Node * Z) =>
               fold_left (fun d s => increment d s (snd iter))
                         (rootsplits_of N (fst iter)) d)
            topologies [].

Definition count_pcss (N : nat) (topologies : TopologyCounter) : PCSSDict :=
  fold_left (fun d (iter : Node * Z) =>
               fold_left (fun d pc => PCSS_insert d (fst pc) (snd pc) (snd iter))
                         (pcss_pairs_of N (fst iter)) d)
            topologies [].

(** The value a [DefaultDict] with default 0 holds for a key. *)
Definition counter_value (d : BitsetUInt32Dict) (key : Bitset) : Z :=
  match find Bitset_eqb d key with
  | Some v => v
  | None => 0
  end.

Definition pcss_value (d : PCSSDict) (parent child : Bitset) : Z :=
  match find Bitset_eqb d parent with
  | Some children => counter_value children child
  | None => 0
  end.

(** An unrooted topology on the taxa [0 .. N-1], spelled out. *)
Record unrooted (N : nat) (t : Node) : Prop := {
  u_tags : tags_ok t = true;
  u_shape : exists c0 c1 c2,
      Children t = [c0; c1; c2]
      /\ bifurcating c0 = true /\ bifurcating c1 = true
      /\ bifurcating c2 = true;
  u_nodup : NoDup (leaf_ids t);
  u_range : forall i, In i (leaf_ids t) -> 0 <= i < Z.of_nat N;
  u_count : length (leaf_ids t) = N;
  u_bound : Z.of_nat N < two32
}.


(** The sum of the multiplicities of the topologies that satisfy [p]. *)
Definition total_where (p : Node -> bool) (topologies : TopologyCounter) : Z :=
  fold_right (fun (iter : Node * Z) acc =>
                (if p (fst iter) then snd iter else 0) + acc)
             0 topologies.

(** The sum of the multiplicities, each taken as often as [times] says. *)
Definition total_times (times : Node -> Z) (topologies : TopologyCounter) : Z :=
  fold_right (fun (iter : Node * Z) acc => snd iter * times (fst iter) + acc)
             0 topologies.

Definition times_in (l : list Bitset) (s : Bitset) : Z :=
  Z.of_nat (length (filter (Bitset_eqb s) l)).

Definition pair_eqb (a b : Bitset * Bitset) : bool :=
  Bitset_eqb (fst a) (fst b) && Bitset_eqb (snd a) (snd b).

Definition pair_times_in (l : list (Bitset * Bitset)) (pc : Bitset * Bitset) : Z :=
  Z.of_nat (length (filter (pair_eqb pc) l)).

(** A fresh instance whose collection holds the three unrooted example
    topologies on four named taxa. *)
Definition example_instance : SBNInstance :=
  mkSBNInstance
    (mkTreeCollection
       (map (fun t => mkTree t [])
            [example_topology 0; example_topology 1; example_topology 2])
       [((0, 1), "x0"); ((1, 1), "x1"); ((2, 1), "x2"); ((3, 1), "x3")])
    (mkPSPIndexer [] []) [] [] [] [] [] [] [].

(** ** Rooted views *)

(** The number of leaves of a rooted view. *)
Fixpoint view_size (v : RootedView) : nat :=
  match v with
  | VLeaf _ => 1%nat
  | VNode _ x y => (view_size x + view_size y)%nat
  end.

(** Every clade of a rooted view has [N] bits. *)
Fixpoint view_wf (N : nat) (v : RootedView) : Prop :=
  match v with
  | VLeaf c => length c = N
  | VNode c x y => length c = N /\ view_wf N x /\ view_wf N y
  end.

(** What is expected of an edge with its view: the view below is the
    subtree of the node, the two sides have [total] leaves together, and
    the clades above have [N] bits. *)
Definition edge_ok (N : nat) (clade_of : Node -> Bitset) (total : nat)
           (e : Node * (RootedView * RootedView)) : Prop :=
  snd (snd e) = view_below clade_of (fst e)
  /\ (view_size (fst (snd e)) + view_size (snd (snd e)) = total)%nat
  /\ view_wf N (fst (snd e)).

(** The keys of a view as the test of libsbn.hpp prints them. *)
Definition view_strings (view : list Bitset) : list string :=
  match view with
  | [] => []
  | rootsplit :: pcss => ToString rootsplit :: map PCSSToString pcss
  end.

Definition same_strings (a b : list string) : bool :=
  forallb (fun x => existsb (String.eqb x) b) a
  && forallb (fun x => existsb (String.eqb x) a) b.

(** The views of a topology as the test of libsbn.hpp prints them. *)
Definition views_as_strings (t : Node) : result (list (list string)) :=
  views <- RootedViewsOf t ;;
  Ok (map view_strings views).

Fixpoint same_views (a b : list (list string)) : bool :=
  match a, b with
  | [], [] => true
  | x :: a', y :: b' => same_strings x y && same_views a' b'
  | _, _ => false
  end.

(** Whether the view at position [i] has the strings the test expects at
    position [i], for every position. *)
Definition matches_test (t : Node) (expected : list (list string)) : bool :=
  match views_as_strings t with
  | Ok views => same_views views expected
  | Abort _ => false
  end.

(** The topologies (2,(1,3)5,(0,4)6)7 and (((0,1)5,2)6,3,4)7 of the test
    of libsbn.hpp, and the representations the test expects for them. *)
Definition indexer_test_topology_1 : Node :=
  example_or_leaf
    (j5 <- Join [Leaf 1; Leaf 3] 5 ;;
     j6 <- Join [Leaf 0; Leaf 4] 6 ;;
     Join [Leaf 2; j5; j6] 7).

Definition indexer_test_topology_2 : Node :=
  example_or_leaf
    (j5 <- Join [Leaf 0; Leaf 1] 5 ;;
     j6 <- Join [j5; Leaf 2] 6 ;;
     Join [j6; Leaf 3; Leaf 4] 7).

Definition correct_representation_1 : list (list string) :=
  [["01111"; "10000|01111|00001"; "00001|01110|00100"; "00100|01010|00010"];
   ["01000"; "01000|10111|00010"; "00100|10001|00001"; "00010|10101|00100"];
   ["00100"; "10001|01010|00010"; "01010|10001|00001"; "00100|11011|01010"];
   ["00010"; "00010|11101|01000"; "00100|10001|00001"; "01000|10101|00100"];
   ["00001"; "00001|11110|01110"; "10000|01110|00100"; "00100|01010|00010"];
   ["01010"; "10101|01010|00010"; "00100|10001|00001"; "01010|10101|00100"];
   ["01110"; "00100|01010|00010"; "10001|01110|00100"; "01110|10001|00001"]].

Definition correct_representation_2 : list (list string) :=
  [["01111"; "10000|01111|00111"; "00100|00011|00001"; "01000|00111|00011"];
   ["01000"; "01000|10111|00111"; "00100|00011|00001"; "10000|00111|00011"];
   ["00100"; "00100|11011|00011"; "11000|00011|00001"; "00011|11000|01000"];
   ["00010"; "00100|11000|01000"; "00001|11100|00100"; "00010|11101|00001"];
   ["00001"; "00100|11000|01000"; "00001|11110|00010"; "00010|11100|00100"];
   ["00111"; "00111|11000|01000"; "00100|00011|00001"; "11000|00111|00011"];
   ["00011"; "00100|11000|01000"; "11100|00011|00001"; "00011|11100|00100"]].

(** The rooted topologies ((((0,1)5,2)6,3)7,4)8 and (((0,1)5,2)6,(3,4)7)8
    of the same test, with the one representation expected for each. *)
Definition indexer_test_rooted_topology_1 : Node :=
  example_or_leaf
    (j5 <- Join [Leaf 0; Leaf 1] 5 ;;
     j6 <- Join [j5; Leaf 2] 6 ;;
     j7 <- Join [j6; Leaf 3] 7 ;;
     Join [j7; Leaf 4] 8).

Definition indexer_test_rooted_topology_2 : Node :=
  example_or_leaf
    (j5 <- Join [Leaf 0; Leaf 1] 5 ;;
     j6 <- Join [j5; Leaf 2] 6 ;;
     j7 <- Join [Leaf 3; Leaf 4] 7 ;;
     Join [j6; j7] 8).

Definition correct_rooted_indexer_representation_1 : list (list string) :=
  [["00001"; "00001|11110|00010"; "00010|11100|00100"; "00100|11000|01000"]].

Definition correct_rooted_indexer_representation_2 : list (list string) :=
  [["00011"; "11100|00011|00001"; "00011|11100|00100"; "00100|11000|01000"]].

(** The PCSS keys of all the views of a topology, and the keys that the
    calls of [PCSSPreOrder] give for it. *)
Definition keys_of_views (t : Node) : list Bitset :=
  flat_map (fun view => tl view) (calls_of (RootedViewsOf t)).

Definition keys_of_calls (N : nat) (t : Node) : list Bitset :=
  map (fun pc => fst pc ++ snd pc) (pcss_pairs_of N t).

Definition same_keys (a b : list Bitset) : bool :=
  forallb (fun x => existsb (Bitset_eqb x) b) a
  && forallb (fun x => existsb (Bitset_eqb x) a) b.

(** ** A rooted tree with two leaves *)

(** The rooted tree (0,1) with the root numbered 2, at height 1 above two
    leaves at height 0. *)
Definition two_leaf_tree : RootedTree :=
  mkRootedTree (example_or_leaf (Join2 (Leaf 0) (Leaf 1) 2))
               [1%float] [0%float; 0%float; 1%float]
               [0%float; 0%float; 0%float].

(** ** Sampled trees *)

(** Two instances that differ at most in the trees of their collections. *)
Definition same_maps (a b : SBNInstance) : Prop :=
  set_trees [] a = set_trees [] b.

(** ** Indexer representations *)

(** An index answers for a key when it is the slot of the key, if the
    indexer has the key, and the default index otherwise. *)
Definition answers (indexer : BitsetSizeMap) (default_index : nat)
           (key : Bitset) (index : nat) : Prop :=
  (In key (map fst indexer) -> In (key, index) indexer)
  /\ (~ In key (map fst indexer) -> index = default_index).

(** The example instance after [ProcessLoadedTrees], and the same with
    its trees replaced by one tree of the topology (0,3,(1,2)), which is
    not among the topologies the maps were built from. *)
Definition built_example_instance : SBNInstance :=
  match ProcessLoadedTrees example_instance with
  | Ok self => self
  | Abort _ => example_instance
  end.

Definition query_instance : SBNInstance :=
  set_trees
    [mkTree (example_or_leaf (j <- Join [Leaf 1; Leaf 2] SIZE_MAX ;;
                              Join [Leaf 0; Leaf 3; j] SIZE_MAX)) []]
    built_example_instance.

(** A rootsplit, or a parent-child pair, that some topology of the counter
    has. *)
Definition observed_rootsplit (N : nat) (topologies : TopologyCounter)
           (s : Bitset) : Prop :=
  exists iter, In iter topologies /\ In s (rootsplits_of N (fst iter)).

Definition observed_pcss (N : nat) (topologies : TopologyCounter)
           (parent child : Bitset) : Prop :=
  exists iter, In iter topologies
               /\ In (parent, child) (pcss_pairs_of N (fst iter)).

(** The values of a counter are reduced modulo 2^32. *)
Definition reduced (d : BitsetUInt32Dict) : Prop :=
  Forall (fun kv => 0 <= snd kv < two32) d.

Definition reduced_pcss (d : PCSSDict) : Prop :=
  Forall (fun block => reduced (snd block)) d.

(** The blocks of a PCSS counter have distinct parents and, inside a
    block, distinct children. *)
Definition pcss_well_keyed (d : PCSSDict) : Prop :=
  NoDup (map fst d) /\ Forall (fun block => NoDup (map fst (snd block))) d.

(** The (parent, child) pairs a PCSS counter has an entry for. *)
Definition pcss_entries (d : PCSSDict) : list (Bitset * Bitset) :=
  flat_map (fun block => map (fun c => (fst block, fst c)) (snd block)) d.

(** A bifurcating subtree with distinct leaves among the taxa [0 .. N-1]. *)
Definition inside (N : nat) (v : Node) : Prop :=
  bifurcating v = true
  /\ NoDup (leaf_ids v)
  /\ forall j, In j (leaf_ids v) -> 0 <= j < Z.of_nat N.

(** Calls with distinct parent subsplits whose focal nodes are among
    [nodes]. *)
Definition keyed (N : nat) (calls : list PCSSCall) (nodes : list Node) : Prop :=
  NoDup (map (pcss_parent N) calls)
  /\ forall c, In c calls -> In (focal_node c) nodes.

(* ================================================================== *)
(** * Further vocabulary *)

(** Strictly increasing numbers. *)
Fixpoint ascending (l : list Z) : bool :=
  match l with
  | a :: (b :: _) as l' => (a <? b) && ascending l'
  | _ => true
  end.

(* ================================================================== *)
(** * node.cpp: the level-order traversal *)

(** The loop of [Node::LevelOrder] over the deque [to_visit]: the front
    node is visited and its children are pushed at the back.  [fuel]
    bounds the number of turns of the loop. *)
Fixpoint LevelOrder_loop (fuel : nat) (to_visit : list Node)
  : option (list Node) :=
  match to_visit with
  | [] => Some []
  | n :: rest =>
      match fuel with
      | O => None
      | S fuel' =>
          option_map (cons n) (LevelOrder_loop fuel' (rest ++ Children n))
      end
  end.

(** [Node::LevelOrder]; there is one turn of the loop per node. *)
Definition LevelOrder (n : Node) : option (list Node) :=
  LevelOrder_loop (length (PreOrder n)) [n].

(** [Node::TagString] as the tests print it: the maximal leaf id and the
    leaf count, separated by an underscore.  Only used to replay the test
    of the traversals. *)
Fixpoint digits (fuel : nat) (n : nat) (acc : string) : string :=
  match fuel with
  | O => acc
  | S fuel' =>
      let acc' := String (ascii_of_nat (48 + Nat.modulo n 10)) acc in
      match Nat.div n 10 with
      | O => acc'
      | q => digits fuel' q acc'
      end
  end.

Definition to_string (z : Z) : string :=
  digits (S (Z.to_nat z)) (Z.to_nat z) "".

Definition TagString (n : Node) : string :=
  (to_string (MaxLeafID n) ++ "_" ++ to_string (LeafCount n))%string.

(** The topology ((((0,1),(2,3)),4),((5,(6,7)),(8,9))) of the test of the
    traversals. *)
Definition traversal_test_topology : Node :=
  example_or_leaf
    (a <- Join2 (Leaf 0) (Leaf 1) SIZE_MAX ;;
     b <- Join2 (Leaf 2) (Leaf 3) SIZE_MAX ;;
     c <- Join2 a b SIZE_MAX ;;
     d <- Join2 c (Leaf 4) SIZE_MAX ;;
     e <- Join2 (Leaf 6) (Leaf 7) SIZE_MAX ;;
     f <- Join2 (Leaf 5) e SIZE_MAX ;;
     g <- Join2 (Leaf 8) (Leaf 9) SIZE_MAX ;;
     h <- Join2 f g SIZE_MAX ;;
     Join2 d h SIZE_MAX).




(** A topology as the constructors build it on the taxa [0 .. N-1]: the
    tags are the ones the constructors compute, every internal node has at
    least two children and every taxon is on exactly one leaf. *)
Definition well_formed (N : nat) (t : Node) : bool :=
  tags_ok t && forking t && Z_nodup (leaf_ids t)
  && forallb (fun i => (0 <=? i) && (i <? Z.of_nat N)) (leaf_ids t)
  && Nat.eqb (length (leaf_ids t)) N
  && (Z.of_nat N <? two32).

(* ================================================================== *)
(** * Sampling: the subsplits that the maps refine *)

(** The taxa of a chunk, in increasing order. *)
Definition members (b : Bitset) : list Z := positions_from b 0.

(** Two chunks of [N] bits, neither of them empty, with no taxon in
    common. *)
Definition apart (N : nat) (x y : Bitset) : Prop :=
  length x = N /\ length y = N /\ members x <> [] /\ members y <> []
  /\ forall z, In z (members x) -> ~ In z (members y).

(** A subsplit [x ++ y] that sampling can take further with the parents
    [keys]: a chunk with more than one taxon is the second chunk of a
    parent among the keys, the other chunk being the first. *)
Definition refinable (N : nat) (keys : list Bitset) (x y : Bitset) : Prop :=
  apart N x y
  /\ (SingletonOption y = None -> In (x ++ y) keys)
  /\ (SingletonOption x = None -> In (y ++ x) keys).

(** What sampling needs of the maps of an instance: every rootsplit with
    its complement, and every child subsplit that a parent's range leads
    to, can be taken further, a range being a non-empty part of the
    parameter vector and a child subsplit dividing the second chunk of its
    parent. *)
Definition sampling_support (N : nat) (self : SBNInstance) : Prop :=
  let keys := map fst (parent_to_range_ self) in
  (3 <= N)%nat
  /\ rootsplits_ self <> []
  /\ (length (rootsplits_ self) <= length (sbn_parameters_ self))%nat
  /\ (forall r, In r (rootsplits_ self) -> refinable N keys r (Bitset_flip r))
  /\ (forall parent range,
        In (parent, range) (parent_to_range_ self) ->
        (fst range < snd range <= length (sbn_parameters_ self))%nat
        /\ forall i,
            (fst range <= i < snd range)%nat ->
            exists x y,
              map_at Nat.eqb (index_to_child_ self) i = Ok (x ++ y)
              /\ refinable N keys x y
              /\ Permutation (members x ++ members y)
                             (members (SplitChunk parent 1))).

(** A binary tree over the taxa [leaves] with the tags of the
    constructors. *)
Definition sampled_tree (n : Node) (leaves : list Z) : Prop :=
  tags_ok n = true /\ bifurcating n = true /\ Permutation (leaf_ids n) leaves.

(** A topology with its node indices erased. *)
Fixpoint unindexed (n : Node) : Node :=
  match n with
  | MkNode cs _ tag h => MkNode (map unindexed cs) 0 tag h
  end.

(** The instance [self] has the maps of [built], with as many
    parameters. *)
Definition same_support (built self : SBNInstance) : Prop :=
  indexer_ self = indexer_ built
  /\ rootsplits_ self = rootsplits_ built
  /\ index_to_child_ self = index_to_child_ built
  /\ parent_to_range_ self = parent_to_range_ built
  /\ taxon_names_ self = taxon_names_ built
  /\ length (sbn_parameters_ self) = length (sbn_parameters_ built).

(** The visits of the triple traversal: the three rotations of the
    children of the root, and below the root every node with its parent
    and its sister. *)
Definition root_rotation (t n0 n1 n2 : Node) : Prop :=
  Children t = [n0; n1; n2] \/ Children t = [n2; n0; n1]
  \/ Children t = [n1; n2; n0].

Definition internal_triple (t parent sister node : Node) : Prop :=
  In parent (rootsplit_nodes t)
  /\ (Children parent = [node; sister] \/ Children parent = [sister; node]).

(** A chunk [f] divided into the chunks [x] and [y]. *)
Definition divides (f x y : Bitset) : Prop :=
  length x = length f /\ length y = length f
  /\ (forall i, (i < length f)%nat -> has f i = has x i || has y i)
  /\ (forall i, (i < length f)%nat -> has x i && has y i = false).

(** The parent subsplits of the calls of [PCSSPreOrder] on a topology. *)
Definition parents_of (N : nat) (t : Node) : list Bitset :=
  map (pcss_parent N) (calls_of (PCSSPreOrder t)).

(* ================================================================== *)
(** * Rooted views: what a rooting sees *)

(** Numbers that never decrease. *)
Fixpoint nondecreasing (l : list Z) : bool :=
  match l with
  | a :: (b :: _) as l' => (a <=? b) && nondecreasing l'
  | _ => true
  end.

(** The two chunks that make up the flipped clade of [n]: the clades of
    the other two children of the root when [n] is a child of the root,
    otherwise the flipped clade of the parent of [n] and the clade of its
    sister. *)
Definition neighbours (t n x : Node) (dx : bool) (y : Node) (dy : bool)
  : Prop :=
  (root_rotation t x y n /\ dx = false /\ dy = false)
  \/ (internal_triple t x y n /\ dx = true /\ dy = false).

(** Two nodes with the same parent. *)
Definition siblings (t s d : Node) : Prop :=
  (exists m, root_rotation t s m d \/ root_rotation t m s d)
  \/ exists p, internal_triple t p s d.

(** A call for the clades of two sister nodes whose parent is at or below
    [n]. *)
Definition sibling_within (n : Node) (c : PCSSCall) : Prop :=
  sister_direction c = false /\ focal_direction c = false
  /\ exists p,
      In p (PreOrder n)
      /\ (Children p = [focal_node c; sister_node c]
          \/ Children p = [sister_node c; focal_node c]).

(** What holds of the view [a] of the part of the topology above the
    edge over [n]: it is a fork with the flipped clade of [n]; its two
    sides are the children of every call with that focal chunk; the keys
    strictly inside it are keys of calls that every rooting at or below
    [n] sees; and the key of every call that the rooting at [n] sees is
    strictly inside it, unless the call is for two sisters at or below
    [n]. *)
Definition above_ok (N : nat) (t n : Node) (a : RootedView) : Prop :=
  In n (rootsplit_nodes t)
  /\ exists x y,
      a = VNode (chunk N n true) x y
      /\ (forall c,
             In c (calls_of (PCSSPreOrder t)) ->
             focal_node c = n -> focal_direction c = true ->
             pcss_child N c = Bitset_min (view_clade x) (view_clade y))
      /\ (forall key,
             In key (view_inner a) ->
             exists c,
               In c (calls_of (PCSSPreOrder t)) /\ key = pcss_key N c
               /\ forall u, In u (PreOrder n) -> rooting_sees u c)
      /\ (forall c,
             In c (calls_of (PCSSPreOrder t)) ->
             sister_node c <> focal_node c -> rooting_sees n c ->
             In (pcss_key N c) (view_inner a) \/ sibling_within n c).

(* ================================================================== *)
(** * The result monad *)

Lemma bind_assoc {A B C : Type} (r : result A) (f : A -> result B)
      (g : B -> result C) :
  bind (bind r f) g = bind r (fun a => bind (f a) g).
Proof. destruct r; reflexivity. Qed.

Lemma bind_ext {A B : Type} (r : result A) (f g : A -> result B) :
  (forall a, f a = g a) -> bind r f = bind r g.
Proof. intros E; destruct r; simpl; auto. Qed.

Lemma bind_Ok_inv {A B : Type} (r : result A) (f : A -> result B) (b : B) :
  bind r f = Ok b -> exists a, r = Ok a /\ f a = Ok b.
Proof. destruct r; simpl; intros E; [eauto | discriminate]. Qed.

Ltac inv_bind H :=
  let a := fresh "a" in
  let Ha := fresh "Ha" in
  apply bind_Ok_inv in H; destruct H as (a & Ha & H).

(* ================================================================== *)
(** * Node construction does not depend on the order of the children *)

Ltac cmp_cases :=
  repeat match goal with
    | |- context [Z.eqb ?a ?b] => destruct (Z.eqb_spec a b)
    | |- context [Z.ltb ?a ?b] => destruct (Z.ltb_spec a b)
    end.

Lemma insert_child_Abort (x : Node) (s : list Node) (msg : string) :
  insert_child x s = Abort msg -> msg = tie_message.
Proof.
  induction s as [|y s IH]; simpl; [discriminate|].
  destruct (MaxLeafID x =? MaxLeafID y); [now inversion 1|].
  destruct (MaxLeafID x <? MaxLeafID y); [discriminate|].
  destruct (insert_child x s); simpl; [discriminate|].
  intros E; inversion E; subst. now apply IH.
Qed.

(** Inserting two children in either order runs into the same tie or
    gives the same list. *)
Lemma insert_child_comm (x y : Node) (s : list Node) :
  (r <- insert_child y s ;; insert_child x r)
  = (r <- insert_child x s ;; insert_child y r).
Proof.
  induction s as [|z s IH]; simpl.
  - cmp_cases; try reflexivity; try lia.
  - destruct (Z.eqb_spec (MaxLeafID y) (MaxLeafID z)) as [Eyz|Nyz];
      destruct (Z.eqb_spec (MaxLeafID x) (MaxLeafID z)) as [Exz|Nxz]; simpl.
    + reflexivity.
    + destruct (Z.ltb_spec (MaxLeafID x) (MaxLeafID z)); simpl.
      * cmp_cases; try reflexivity; try lia.
      * destruct (insert_child x s) eqn:Ex; simpl.
        -- cmp_cases; try reflexivity; try lia.
        -- now rewrite (insert_child_Abort _ _ Ex).
    + destruct (Z.ltb_spec (MaxLeafID y) (MaxLeafID z)); simpl.
      * cmp_cases; try reflexivity; try lia.
      * destruct (insert_child y s) eqn:Ey; simpl.
        -- cmp_cases; try reflexivity; try lia.
        -- now rewrite (insert_child_Abort _ _ Ey).
    + destruct (Z.ltb_spec (MaxLeafID y) (MaxLeafID z)) as [Lyz|Gyz];
        destruct (Z.ltb_spec (MaxLeafID x) (MaxLeafID z)) as [Lxz|Gxz]; simpl.
      * cmp_cases; try reflexivity; try lia.
      * cmp_cases; try lia.
        destruct (insert_child x s); simpl; [|reflexivity].
        cmp_cases; try reflexivity; try lia.
      * cmp_cases; try lia.
        destruct (insert_child y s); simpl; [|reflexivity].
        cmp_cases; try reflexivity; try lia.
      * rewrite !bind_assoc.
        transitivity (r <- (r0 <- insert_child y s ;; insert_child x r0) ;;
                      Ok (z :: r)).
        { rewrite bind_assoc. apply bind_ext; intros r; simpl.
          cmp_cases; try lia. reflexivity. }
        rewrite IH, bind_assoc. apply bind_ext; intros r; simpl.
        cmp_cases; try lia. reflexivity.
Qed.

Lemma sort_children_Permutation (l1 l2 : list Node) :
  Permutation l1 l2 -> sort_children l1 = sort_children l2.
Proof.
  induction 1 as [|x l l' _ IH|x y l|l l' l'' _ IH1 _ IH2]; simpl.
  - reflexivity.
  - now rewrite IH.
  - rewrite !bind_assoc. apply bind_ext; intros s.
    apply insert_child_comm.
  - congruence.
Qed.

Lemma insert_child_length (x : Node) (s r : list Node) :
  insert_child x s = Ok r -> length r = S (length s).
Proof.
  revert r; induction s as [|y s IH]; simpl; intros r E.
  - now inversion E.
  - destruct (MaxLeafID x =? MaxLeafID y); [discriminate|].
    destruct (MaxLeafID x <? MaxLeafID y).
    + now inversion E.
    + inv_bind E. inversion E; subst; simpl. now rewrite (IH a).
Qed.

Lemma sort_children_length (l s : list Node) :
  sort_children l = Ok s -> length s = length l.
Proof.
  revert s; induction l as [|x l IH]; simpl; intros s E.
  - now inversion E.
  - inv_bind E. apply insert_child_length in E. rewrite E. f_equal. auto.
Qed.

Lemma last_default {A : Type} (l : list A) (d d' : A) :
  l <> [] -> last l d = last l d'.
Proof.
  induction l as [|a l IH]; [congruence|]; intros _.
  destruct l as [|b l]; [reflexivity|].
  change (last (b :: l) d = last (b :: l) d'). apply IH. discriminate.
Qed.

(** The internal-node constructor gives the same node, or fails alike,
    whatever the order of the children it is given. *)
Lemma Join_Permutation (l1 l2 : list Node) (index : Z) :
  Permutation l1 l2 -> Join l1 index = Join l2 index.
Proof.
  intros P. unfold Join.
  destruct l1 as [|a l1], l2 as [|b l2].
  - reflexivity.
  - apply Permutation_nil in P. discriminate.
  - apply Permutation_sym, Permutation_nil in P. discriminate.
  - rewrite (sort_children_Permutation P).
    destruct (sort_children (b :: l2)) as [s|msg] eqn:E; simpl; [|reflexivity].
    rewrite (@last_default _ s a b); [reflexivity|].
    apply sort_children_length in E. destruct s; [discriminate|discriminate].
Qed.

(** [operator==] is equality of the hash trees. *)
Lemma Node_eqb_hash_tree (a b : Node) :
  Node_eqb a b = true <-> hash_tree a = hash_tree b.
Proof.
  revert b. induction a as [ca ia ta ha IH] using Node_ind.
  intros [cb ib tb hb]. simpl.
  destruct (Z.eqb_spec ha hb) as [Eh|Nh]; simpl.
  2:{ split; [discriminate|]. intros E; inversion E; contradiction. }
  subst hb.
  destruct (Nat.eqb_spec (length ca) (length cb)) as [El|Nl]; simpl.
  2:{ split; [discriminate|]. intros E; inversion E as [E'].
      apply (f_equal (@length _)) in E'. rewrite !length_map in E'.
      contradiction. }
  revert cb El.
  induction IH as [|x ca IHx _ IHl]; intros [|y cb] El; simpl in *;
    try discriminate.
  - tauto.
  - injection El as El. specialize (IHl cb El).
    destruct (Node_eqb x y) eqn:Exy; simpl.
    + apply IHx in Exy. rewrite Exy. rewrite IHl.
      split; intros E; inversion E; congruence.
    + split; [discriminate|]. intros E; inversion E as [[E1 E2]].
      apply IHx in E1. congruence.
Qed.

Lemma Node_eqb_refl (a : Node) : Node_eqb a a = true.
Proof. now apply Node_eqb_hash_tree. Qed.

Lemma Node_eqb_sym (a b : Node) : Node_eqb a b = Node_eqb b a.
Proof.
  destruct (Node_eqb a b) eqn:E1, (Node_eqb b a) eqn:E2; try reflexivity.
  - apply Node_eqb_hash_tree in E1. symmetry in E1.
    apply Node_eqb_hash_tree in E1. congruence.
  - apply Node_eqb_hash_tree in E2. symmetry in E2.
    apply Node_eqb_hash_tree in E2. congruence.
Qed.

Lemma Node_eqb_trans_l (a b c : Node) :
  Node_eqb a b = true -> Node_eqb a c = Node_eqb b c.
Proof.
  intros E. apply Node_eqb_hash_tree in E.
  destruct (Node_eqb a c) eqn:E1, (Node_eqb b c) eqn:E2; try reflexivity.
  - apply Node_eqb_hash_tree in E1. rewrite E in E1.
    apply Node_eqb_hash_tree in E1. congruence.
  - apply Node_eqb_hash_tree in E2. rewrite <- E in E2.
    apply Node_eqb_hash_tree in E2. congruence.
Qed.

(** Constructions that differ in the order of children build the same
    nodes. *)
Lemma construct_reordered_mut :
  (forall c1 c2, reordered c1 c2 ->
     forall n, construct c1 = Ok n <-> construct c2 = Ok n).
Proof.
  apply (reordered_mut
           (fun c1 c2 _ => forall n, construct c1 = Ok n <-> construct c2 = Ok n)
           (fun l1 l2 _ =>
              (forall ns1, mapM construct l1 = Ok ns1 ->
                 exists ns2, mapM construct l2 = Ok ns2 /\ Permutation ns1 ns2)
              /\ (forall ns2, mapM construct l2 = Ok ns2 ->
                 exists ns1, mapM construct l1 = Ok ns1 /\ Permutation ns1 ns2))).
  - tauto.
  - intros cs cs' index _ [F B] n. simpl. split; intros E; inv_bind E.
    + destruct (F _ Ha) as (ns2 & E2 & P). rewrite E2. simpl.
      now rewrite <- (Join_Permutation index P).
    + destruct (B _ Ha) as (ns1 & E1 & P). rewrite E1. simpl.
      now rewrite (Join_Permutation index P).
  - split; intros ns E; inversion E; subst; eauto.
  - intros c c' l l' _ IHc _ [F B]. split; intros ns E; simpl in E.
    + inv_bind E. inv_bind E. inversion E; subst.
      destruct (F _ Ha0) as (ns2 & E2 & P).
      exists (a :: ns2). simpl. apply IHc in Ha. rewrite Ha, E2. simpl.
      split; [reflexivity|now constructor].
    + inv_bind E. inv_bind E. inversion E; subst.
      destruct (B _ Ha0) as (ns1 & E1 & P).
      exists (a :: ns1). simpl. apply IHc in Ha. rewrite Ha, E1. simpl.
      split; [reflexivity|now constructor].
  - intros x x' y y' l l' _ IHx _ IHy _ [F B]. split; intros ns E; simpl in E.
    + apply bind_Ok_inv in E. destruct E as (ny & Ey & E).
      apply bind_Ok_inv in E. destruct E as (rest & Er & E).
      apply bind_Ok_inv in Er. destruct Er as (nx & Ex & Er).
      apply bind_Ok_inv in Er. destruct Er as (nl & El & Er).
      inversion E; inversion Er; subst.
      destruct (F _ El) as (ns2 & E2 & P).
      exists (nx :: ny :: ns2). simpl.
      apply IHx in Ex. apply IHy in Ey. rewrite Ex, Ey, E2. simpl.
      split; [reflexivity|].
      eapply perm_trans; [apply perm_swap|]. now repeat constructor.
    + apply bind_Ok_inv in E. destruct E as (nx & Ex & E).
      apply bind_Ok_inv in E. destruct E as (rest & Er & E).
      apply bind_Ok_inv in Er. destruct Er as (ny & Ey & Er).
      apply bind_Ok_inv in Er. destruct Er as (nl & El & Er).
      inversion E; inversion Er; subst.
      destruct (B _ El) as (ns1 & E1 & P).
      exists (ny :: nx :: ns1). simpl.
      apply IHx in Ex. apply IHy in Ey. rewrite Ex, Ey, E1. simpl.
      split; [reflexivity|].
      eapply perm_trans; [apply perm_swap|]. now repeat constructor.
  - intros l1 l2 l3 _ [F1 B1] _ [F2 B2]. split; intros ns E.
    + destruct (F1 _ E) as (ns2 & E2 & P2).
      destruct (F2 _ E2) as (ns3 & E3 & P3).
      exists ns3. split; [assumption|]. now transitivity ns2.
    + destruct (B2 _ E) as (ns2 & E2 & P2).
      destruct (B1 _ E2) as (ns1 & E1 & P1).
      exists ns1. split; [assumption|]. now transitivity ns2.
Qed.

(** Counting [k] more trees of a topology that heads the counter. *)
Lemma count_topology_repeat (n : Node) (k : nat) (c : Z) :
  fold_left count_topology (repeat n k) [(n, c)]
  = [(n, if Nat.eqb k 0 then c else (c + Z.of_nat k) mod two32)].
Proof.
  revert c; induction k as [|k IH]; intros c; [reflexivity|].
  cbn [repeat fold_left count_topology]. rewrite Node_eqb_refl, IH.
  destruct k as [|k]; cbn [Nat.eqb].
  - reflexivity.
  - rewrite Zplus_mod_idemp_l. do 3 f_equal. lia.
Qed.

Lemma TopologyCounterOf_two (n : Node) (k1 k2 : nat) :
  TopologyCounterOf (collection_of (repeat n (S k1) ++ repeat n k2))
  = [(n, Z.of_nat (S k1 + k2) mod two32)].
Proof.
  unfold TopologyCounterOf, collection_of; cbn [trees_].
  rewrite map_map; cbn [topology_]. rewrite map_id.
  rewrite <- repeat_app. cbn [Nat.add repeat fold_left count_topology].
  rewrite count_topology_repeat.
  destruct (k1 + k2)%nat as [|k] eqn:E; cbn [Nat.eqb].
  - reflexivity.
  - do 3 f_equal. lia.
Qed.

(** C7.  The same topology constructed with the children of any internal
    nodes supplied in a different order is the same node: the constructor
    sorts the children by maximal leaf id, so tag, hash and children
    coincide and [operator==] holds; a collection made of [k1 >= 1] trees
    of the first construction and [k2] trees of the second is counted by
    the topology counter as one entry of multiplicity [k1 + k2]. *)
Theorem Join_child_order_irrelevant (c1 c2 : Construction) (n1 : Node) :
  reordered c1 c2 ->
  construct c1 = Ok n1 ->
  exists n2,
    construct c2 = Ok n2
    /\ Tag n1 = Tag n2 /\ Hash n1 = Hash n2 /\ Children n1 = Children n2
    /\ Node_eqb n1 n2 = true
    /\ forall k1 k2,
        TopologyCounterOf (collection_of (repeat n1 (S k1) ++ repeat n2 k2))
        = [(n1, Z.of_nat (S k1 + k2) mod two32)].
Proof.
  intros R E. exists n1.
  split; [now apply (construct_reordered_mut R)|].
  repeat (split; [reflexivity|]).
  split; [apply Node_eqb_refl|].
  intros k1 k2. apply TopologyCounterOf_two.
Qed.

Lemma example_constructions_reordered :
  reordered example_construction_0 example_construction_1.
Proof.
  apply reordered_join.
  apply reordered_swap; try apply reordered_leaf.
  apply reordered_skip; [|apply reordered_nil].
  apply reordered_join.
  apply reordered_swap; try apply reordered_leaf. apply reordered_nil.
Qed.

Lemma Join_child_order_irrelevant_witness :
  exists n1 n2,
    construct example_construction_0 = Ok n1
    /\ construct example_construction_1 = Ok n2
    /\ Tag n1 = Tag n2 /\ Hash n1 = Hash n2 /\ Children n1 = Children n2
    /\ Node_eqb n1 n2 = true
    /\ forall k1 k2,
        TopologyCounterOf (collection_of (repeat n1 (S k1) ++ repeat n2 k2))
        = [(n1, Z.of_nat (S k1 + k2) mod two32)].
Proof.
  destruct (construct example_construction_0) as [n1|] eqn:E;
    [|vm_compute in E; discriminate].
  destruct (Join_child_order_irrelevant example_constructions_reordered E)
    as (n2 & H).
  exists n1, n2. split; [reflexivity|exact H].
Defined.
(** The test of tree_collection.hpp: the four example trees are counted as
    three topologies, with multiplicities 2, 1 and 1. *)
Example TreeCollection_test_counts :
  map snd (TopologyCounterOf (collection_of (calls_of ExampleTopologies)))
  = [2; 1; 1].
Proof. vm_compute. reflexivity. Qed.

(* ================================================================== *)
(** * Operations that leave the instance alone *)

Section Frames.
Variable RNG : Type.
Variable discrete_distribution : list float -> RNG -> nat * RNG.
Variables ProbabilityNormalizeInLog Exponentiate : list float -> list float.
Variable ProbabilityNormalizeParamsInLog :
  list float -> nat -> BitsetSizePairMap -> list float.
Variable ProbabilityOf : list float -> list IndexerRepresentation -> list float.

Lemma preserves_ret (A : Type) (a : A) : preserves_instance (@ret RNG A a).
Proof. intros w b w' E. inversion E. reflexivity. Qed.

Lemma preserves_gets (A : Type) (f : SBNInstance -> A) :
  preserves_instance (@gets RNG A f).
Proof. intros w b w' E. inversion E. reflexivity. Qed.

Lemma preserves_lift (A : Type) (r : result A) :
  preserves_instance (@lift RNG A r).
Proof.
  intros w b w' E. unfold lift in E. destruct r; simpl in E; inversion E.
  reflexivity.
Qed.

Lemma preserves_draw (weights : list float) :
  preserves_instance (draw discrete_distribution weights).
Proof.
  intros w b w' E. unfold draw in E.
  destruct (discrete_distribution weights (snd w)). inversion E. reflexivity.
Qed.

Lemma preserves_mbind (A B : Type) (m : M RNG A) (k : A -> M RNG B) :
  preserves_instance m -> (forall a, preserves_instance (k a)) ->
  preserves_instance (mbind m k).
Proof.
  intros Hm Hk w b w' E. unfold mbind in E.
  destruct (m w) as [[a w1]|] eqn:E1; simpl in E; [|discriminate].
  rewrite (Hk a _ _ _ E). exact (Hm _ _ _ E1).
Qed.

Create HintDb frames.
Hint Resolve preserves_ret preserves_gets preserves_lift preserves_draw
     preserves_mbind : frames.

Lemma preserves_SampleIndex (range : Range) :
  preserves_instance
    (SampleIndex discrete_distribution ProbabilityNormalizeInLog
                 Exponentiate range).
Proof.
  destruct range as [start end_]. unfold SampleIndex.
  repeat (apply preserves_mbind; [auto with frames|intros ?]).
  auto with frames.
Qed.

Lemma preserves_SampleTopology_subsplit (depth : nat) (parent : Bitset) :
  preserves_instance
    (SampleTopology_subsplit discrete_distribution ProbabilityNormalizeInLog
                             Exponentiate depth parent).
Proof.
  revert parent; induction depth as [|depth IH]; intros parent; simpl.
  - auto with frames.
  - assert (P : forall p,
               preserves_instance
                 match SingletonOption (SplitChunk p 1) with
                 | Some leaf_id => ret (Leaf leaf_id)
                 | None =>
                     mbind (gets parent_to_range_) (fun parent_to_range =>
                     mbind (lift (map_at Bitset_eqb parent_to_range p)) (fun range =>
                     mbind (SampleIndex discrete_distribution
                              ProbabilityNormalizeInLog Exponentiate range)
                           (fun child_index =>
                     mbind (gets index_to_child_) (fun index_to_child =>
                     mbind (lift (map_at Nat.eqb index_to_child child_index))
                           (fun child =>
                              SampleTopology_subsplit discrete_distribution
                                ProbabilityNormalizeInLog Exponentiate depth
                                child)))))
                 end).
    { intros p. destruct (SingletonOption (SplitChunk p 1)).
      - auto with frames.
      - repeat (apply preserves_mbind;
                [auto using preserves_SampleIndex with frames|intros ?]).
        apply IH. }
    apply preserves_mbind; [apply P|intros left].
    apply preserves_mbind; [apply P|intros right].
    auto with frames.
Qed.

Lemma preserves_SampleTopology (rooted : bool) :
  preserves_instance
    (SampleTopology discrete_distribution ProbabilityNormalizeInLog
                    Exponentiate rooted).
Proof.
  unfold SampleTopology.
  repeat (apply preserves_mbind;
          [auto using preserves_SampleIndex,
             preserves_SampleTopology_subsplit with frames|intros ?]).
  - destruct rooted; auto with frames.
  - auto with frames.
Qed.

Lemma preserves_MakeIndexerRepresentations :
  preserves_instance (@MakeIndexerRepresentations RNG).
Proof.
  unfold MakeIndexerRepresentations.
  apply preserves_mbind; [auto with frames|intros ?]. auto with frames.
Qed.

Lemma preserves_CalculateSBNProbabilities :
  preserves_instance
    (@CalculateSBNProbabilities RNG ProbabilityNormalizeParamsInLog
                                ProbabilityOf).
Proof.
  unfold CalculateSBNProbabilities.
  repeat (apply preserves_mbind;
          [auto using preserves_MakeIndexerRepresentations with frames
          |intros ?]).
  auto with frames.
Qed.

Hypothesis draw_contract : draws_in_range discrete_distribution.
Hypothesis normalize_length : keeps_length ProbabilityNormalizeInLog.
Hypothesis exponentiate_length : keeps_length Exponentiate.

Lemma segment_length (A : Type) (v : list A) (start len : nat) :
  (start + len <= length v)%nat -> length (segment v start len) = len.
Proof.
  intros H. unfold segment. rewrite length_firstn, length_skipn. lia.
Qed.

(** A valid range is sampled successfully, inside the range. *)
Lemma SampleIndex_valid (self : SBNInstance) (g : RNG) (start end_ : nat) :
  (start < end_ <= length (sbn_parameters_ self))%nat ->
  exists i g',
    SampleIndex discrete_distribution ProbabilityNormalizeInLog Exponentiate
                (start, end_) (self, g) = Ok (i, (self, g'))
    /\ (start <= i < end_)%nat.
Proof.
  intros [Hlt Hle].
  unfold SampleIndex, mbind, gets, lift, draw, ret. cbn [fst snd bind].
  destruct (Nat.ltb_spec start end_) as [_|]; [|lia].
  destruct (Nat.leb_spec end_ (length (sbn_parameters_ self))) as [_|]; [|lia].
  cbn [andb Assert bind fst snd].
  set (weights := Exponentiate
                    (ProbabilityNormalizeInLog
                       (segment (sbn_parameters_ self) start (end_ - start)))).
  assert (Hlen : length weights = (end_ - start)%nat).
  { unfold weights. rewrite exponentiate_length, normalize_length.
    apply segment_length. lia. }
  assert (Hne : weights <> []).
  { intros E. rewrite E in Hlen. simpl in Hlen. lia. }
  pose proof (draw_contract g Hne) as Hd.
  destruct (discrete_distribution weights g) as [d g'] eqn:Ed.
  cbn [fst snd bind] in *.
  destruct (Nat.ltb_spec (start + d) end_) as [_|]; [|lia].
  cbn [Assert bind fst snd].
  exists (start + d)%nat, g'. split; [reflexivity|lia].
Qed.

(** An empty or out-of-bounds range fails the first assertion. *)
Lemma SampleIndex_invalid (self : SBNInstance) (g : RNG) (start end_ : nat) :
  ~ (start < end_ <= length (sbn_parameters_ self))%nat ->
  SampleIndex discrete_distribution ProbabilityNormalizeInLog Exponentiate
              (start, end_) (self, g)
  = Abort "SampleIndex given an invalid range.".
Proof.
  intros H.
  unfold SampleIndex, mbind, gets, lift. cbn [fst snd bind].
  destruct (Nat.ltb_spec start end_);
    destruct (Nat.leb_spec end_ (length (sbn_parameters_ self)));
    try reflexivity.
  lia.
Qed.
End Frames.

(** C6.  [SampleIndex] over [start, end) fails exactly when the range is
    empty ([start >= end]) or out of bounds ([end] beyond the length of
    [sbn_parameters_]), and then on its first assertion; on every other
    range it returns an index inside [start, end), so the assertion after
    the draw does not fire. *)
Theorem SampleIndex_fails_iff_invalid_range
        (RNG : Type) (discrete_distribution : list float -> RNG -> nat * RNG)
        (ProbabilityNormalizeInLog Exponentiate : list float -> list float)
        (self : SBNInstance) (g : RNG) (start end_ : nat) :
  draws_in_range discrete_distribution ->
  keeps_length ProbabilityNormalizeInLog ->
  keeps_length Exponentiate ->
  let run := SampleIndex discrete_distribution ProbabilityNormalizeInLog
                         Exponentiate (start, end_) (self, g) in
  let invalid := (end_ <= start \/ length (sbn_parameters_ self) < end_)%nat in
  (invalid <-> exists msg, run = Abort msg)
  /\ (invalid -> run = Abort "SampleIndex given an invalid range.")
  /\ (~ invalid ->
      exists i g', run = Ok (i, (self, g')) /\ (start <= i < end_)%nat).
Proof.
  intros Hd Hn He run invalid.
  assert (Hinv : invalid -> run = Abort "SampleIndex given an invalid range.").
  { intros I. apply SampleIndex_invalid. unfold invalid in I. lia. }
  assert (Hval : ~ invalid ->
                 exists i g', run = Ok (i, (self, g')) /\ (start <= i < end_)%nat).
  { intros I. apply SampleIndex_valid; auto. unfold invalid in I. lia. }
  split; [|split; assumption].
  split.
  - intros I. eexists. apply Hinv, I.
  - intros [msg E].
    destruct (le_lt_dec end_ start) as [|L1]; [now left|].
    destruct (le_lt_dec end_ (length (sbn_parameters_ self))) as [L2|]; [|now right].
    destruct Hval as (i & g' & E' & _); [unfold invalid; lia|].
    rewrite E in E'. discriminate.
Qed.

Lemma first_position_in_range : draws_in_range first_position.
Proof. intros [|w ws] g H; [congruence|simpl; lia]. Qed.

Lemma SampleIndex_fails_iff_invalid_range_witness :
  let run := SampleIndex first_position (fun v => v) (fun v => v)
                         (1%nat, 3%nat) (three_parameters, tt) in
  let invalid :=
    (3 <= 1 \/ length (sbn_parameters_ three_parameters) < 3)%nat in
  (invalid <-> exists msg, run = Abort msg)
  /\ (invalid -> run = Abort "SampleIndex given an invalid range.")
  /\ (~ invalid ->
      exists i g', run = Ok (i, (three_parameters, g')) /\ (1 <= i < 3)%nat).
Proof.
  apply (@SampleIndex_fails_iff_invalid_range
           unit first_position (fun v => v) (fun v => v)
           three_parameters tt 1%nat 3%nat).
  - exact first_position_in_range.
  - intros v; reflexivity.
  - intros v; reflexivity.
Defined.

(** C8.  [SampleIndex] and [CalculateSBNProbabilities] (and with them
    [SampleTopology] and [MakeIndexerRepresentations]) work on copies: when
    they return, [sbn_parameters_], [indexer_] and [parent_to_range_], and
    indeed the whole instance, are as before; only the generator has
    advanced. *)
Theorem sampling_and_scoring_leave_parameters
        (RNG : Type) (discrete_distribution : list float -> RNG -> nat * RNG)
        (ProbabilityNormalizeInLog Exponentiate : list float -> list float)
        (ProbabilityNormalizeParamsInLog :
           list float -> nat -> BitsetSizePairMap -> list float)
        (ProbabilityOf : list float -> list IndexerRepresentation -> list float)
        (w : World RNG) :
  let unchanged (w' : World RNG) :=
    sbn_parameters_ (fst w') = sbn_parameters_ (fst w)
    /\ indexer_ (fst w') = indexer_ (fst w)
    /\ parent_to_range_ (fst w') = parent_to_range_ (fst w)
    /\ fst w' = fst w in
  (forall range i w',
      SampleIndex discrete_distribution ProbabilityNormalizeInLog Exponentiate
                  range w = Ok (i, w') -> unchanged w')
  /\ (forall p w',
        CalculateSBNProbabilities ProbabilityNormalizeParamsInLog ProbabilityOf w
        = Ok (p, w') ->
        unchanged w'
        /\ exists representations,
            MakeIndexerRepresentations w = Ok (representations, w)
            /\ p = ProbabilityOf
                     (ProbabilityNormalizeParamsInLog
                        (sbn_parameters_ (fst w))
                        (length (rootsplits_ (fst w)))
                        (parent_to_range_ (fst w)))
                     representations)
  /\ (forall rooted t w',
        SampleTopology discrete_distribution ProbabilityNormalizeInLog
                       Exponentiate rooted w = Ok (t, w') -> unchanged w').
Proof.
  intros unchanged.
  assert (U : forall w', fst w' = fst w -> unchanged w').
  { intros w' E. unfold unchanged. rewrite E. auto. }
  split; [|split].
  - intros range i w' E. apply U. eapply preserves_SampleIndex, E.
  - intros p w' E. split.
    + apply U. eapply preserves_CalculateSBNProbabilities, E.
    + unfold CalculateSBNProbabilities, mbind, gets, ret in E.
      cbn [bind fst snd] in E.
      destruct (MakeIndexerRepresentations w) as [[reps w1]|] eqn:E1;
        cbn [bind fst snd] in E; [|discriminate].
      injection E as Ep _. exists reps. split; [|now symmetry].
      clear Ep. unfold MakeIndexerRepresentations, mbind, gets, lift in *.
      cbn [bind fst snd] in *.
      destruct (mapM _ _); cbn [bind] in *; [|discriminate].
      congruence.
  - intros rooted t w' E. apply U. eapply preserves_SampleTopology, E.
Qed.

(* ================================================================== *)
(** * An empty topology set *)


Section NoMaps.
Variable RNG : Type.
Variable discrete_distribution : list float -> RNG -> nat * RNG.
Variables ProbabilityNormalizeInLog Exponentiate : list float -> list float.

Lemma SampleTrees_without_indexer (self : SBNInstance) (g : RNG) (count : nat) :
  indexer_ self = [] ->
  SampleTrees discrete_distribution ProbabilityNormalizeInLog Exponentiate
              count (self, g)
  = Abort maps_message.
Proof.
  intros E. unfold SampleTrees, mbind, gets, lift, CheckSBNMapsAvailable.
  cbn [fst snd bind]. rewrite E. reflexivity.
Qed.



End NoMaps.






(* ================================================================== *)
(** * Bitsets and association lists *)

Lemma Bitset_eqb_eq (x y : Bitset) : Bitset_eqb x y = true <-> x = y.
Proof.
  revert y; induction x as [|a x IH]; intros [|b y]; simpl;
    try (split; [discriminate|discriminate]); [tauto|].
  rewrite andb_true_iff, IH. split.
  - intros [E1 E2]. apply eqb_prop in E1. congruence.
  - intros E; inversion E; subst. split; [apply eqb_reflx|reflexivity].
Qed.

Lemma Bitset_eqb_refl (x : Bitset) : Bitset_eqb x x = true.
Proof. now apply Bitset_eqb_eq. Qed.

Lemma Bitset_eqb_neq (x y : Bitset) : x <> y -> Bitset_eqb x y = false.
Proof.
  intros N. destruct (Bitset_eqb x y) eqn:E; [|reflexivity].
  apply Bitset_eqb_eq in E. contradiction.
Qed.

Section FindFacts.
Variables K V : Type.
Variable eqb : K -> K -> bool.
Hypothesis eqb_eq : forall a b, eqb a b = true <-> a = b.

Lemma find_None (m : list (K * V)) (k : K) :
  find eqb m k = None <-> ~ In k (map fst m).
Proof.
  induction m as [|[k' v] m IH]; simpl; [tauto|].
  destruct (eqb k k') eqn:E.
  - apply eqb_eq in E. subst. split; [discriminate|]. intros N. tauto.
  - rewrite IH. split; [|tauto]. intros N [E'|I]; [|tauto].
    subst. assert (eqb k k = true) by now apply eqb_eq. congruence.
Qed.

Lemma find_app (m1 m2 : list (K * V)) (k : K) :
  find eqb (m1 ++ m2) k
  = match find eqb m1 k with Some v => Some v | None => find eqb m2 k end.
Proof.
  induction m1 as [|[k' v] m1 IH]; simpl; [reflexivity|].
  destruct (eqb k k'); auto.
Qed.

Lemma find_In (m : list (K * V)) (k : K) (v : V) :
  find eqb m k = Some v -> In (k, v) m.
Proof.
  induction m as [|[k' v'] m IH]; simpl; [discriminate|].
  destruct (eqb k k') eqn:E.
  - apply eqb_eq in E. intros E'; inversion E'; subst. now left.
  - intros F. right. auto.
Qed.

Lemma In_find (m : list (K * V)) (k : K) (v : V) :
  NoDup (map fst m) -> In (k, v) m -> find eqb m k = Some v.
Proof.
  induction m as [|[k' v'] m IH]; simpl; [tauto|].
  intros ND [E|I].
  - inversion E; subst. assert (eqb k k = true) as -> by now apply eqb_eq.
    reflexivity.
  - inversion ND as [|? ? N ND']; subst.
    destruct (eqb k k') eqn:E.
    + apply eqb_eq in E. subst. exfalso. apply N.
      change k' with (fst (k', v)). now apply in_map.
    + auto.
Qed.

Lemma SafeInsert_fresh (m : list (K * V)) (k : K) (v : V) :
  ~ In k (map fst m) -> SafeInsert eqb m k v = Ok (m ++ [(k, v)]).
Proof.
  intros N. unfold SafeInsert. apply find_None in N. now rewrite N.
Qed.
End FindFacts.

Lemma Nat_eqb_eq (a b : nat) : Nat.eqb a b = true <-> a = b.
Proof. apply Nat.eqb_eq. Qed.

(* ================================================================== *)
(** * The closed form of the indexer *)

Lemma add_rootsplits_closed (rc : BitsetUInt32Dict) (b : IndexerBuild) :
  NoDup (map fst (b_indexer b) ++ map fst rc) ->
  foldM add_rootsplit rc b
  = Ok (mkIndexerBuild
          (b_indexer b ++ combine (map fst rc) (seq (b_index b) (length rc)))
          (b_rootsplits b ++ map fst rc)
          (b_index_to_child b) (b_parent_to_range b)
          (b_index b + length rc)).
Proof.
  revert b; induction rc as [|[k c] rc IH]; intros [ix rs ic pr i] ND;
    cbn [foldM map length seq combine b_indexer b_rootsplits b_index_to_child
         b_parent_to_range b_index fst] in *.
  - rewrite !app_nil_r, Nat.add_0_r. reflexivity.
  - unfold add_rootsplit at 1.
    cbn [b_indexer b_rootsplits b_index_to_child b_parent_to_range b_index fst].
    rewrite (SafeInsert_fresh Bitset_eqb Bitset_eqb_eq).
    2:{ apply NoDup_remove_2 in ND. intros I. apply ND, in_or_app. now left. }
    cbn [bind]. rewrite IH; cbn [b_indexer b_rootsplits b_index_to_child
                                 b_parent_to_range b_index].
    + rewrite <- !app_assoc. cbn [app]. do 2 f_equal. lia.
    + rewrite map_app. cbn [map fst]. rewrite <- app_assoc. exact ND.
Qed.

Lemma add_children_closed (parent : Bitset) (cc : BitsetUInt32Dict)
      (b : IndexerBuild) :
  NoDup (map fst (b_indexer b) ++ map (fun c => parent ++ fst c) cc) ->
  (forall k, In k (map fst (b_index_to_child b)) -> (k < b_index b)%nat) ->
  foldM (add_child parent) cc b
  = Ok (mkIndexerBuild
          (b_indexer b
           ++ combine (map (fun c => parent ++ fst c) cc)
                      (seq (b_index b) (length cc)))
          (b_rootsplits b)
          (b_index_to_child b
           ++ combine (seq (b_index b) (length cc))
                      (map (fun c => ChildSubsplit parent (fst c)) cc))
          (b_parent_to_range b)
          (b_index b + length cc)).
Proof.
  revert b; induction cc as [|[k c] cc IH]; intros [ix rs ic pr i] ND Hic;
    cbn [foldM map length seq combine b_indexer b_rootsplits b_index_to_child
         b_parent_to_range b_index fst] in *.
  - rewrite !app_nil_r, Nat.add_0_r. reflexivity.
  - unfold add_child at 1.
    cbn [b_indexer b_rootsplits b_index_to_child b_parent_to_range b_index fst].
    rewrite (SafeInsert_fresh Bitset_eqb Bitset_eqb_eq).
    2:{ apply NoDup_remove_2 in ND. intros I. apply ND, in_or_app. now left. }
    cbn [bind]. rewrite (SafeInsert_fresh Nat.eqb Nat_eqb_eq).
    2:{ intros I. apply Hic in I. lia. }
    cbn [bind]. rewrite IH; cbn [b_indexer b_rootsplits b_index_to_child
                                 b_parent_to_range b_index].
    + rewrite <- !app_assoc. cbn [app]. do 2 f_equal. lia.
    + rewrite map_app. cbn [map fst]. rewrite <- app_assoc. exact ND.
    + intros j. rewrite map_app, in_app_iff. cbn [map fst In].
      intros [I|[E|[]]]; [apply Hic in I|]; lia.
Qed.

Lemma combine_keys {A B : Type} (l : list A) (l' : list B) :
  length l = length l' -> map fst (combine l l') = l.
Proof.
  revert l'; induction l as [|a l IH]; intros [|b l']; simpl; intros E;
    try discriminate; [reflexivity|]. f_equal. apply IH. lia.
Qed.

Lemma combine_values {A B : Type} (l : list A) (l' : list B) :
  length l = length l' -> map snd (combine l l') = l'.
Proof.
  revert l'; induction l as [|a l IH]; intros [|b l']; simpl; intros E;
    try discriminate; [reflexivity|]. f_equal. apply IH. lia.
Qed.

Lemma pcss_keys_length (pcss : PCSSDict) :
  length (pcss_keys pcss) = length (pcss_children pcss).
Proof.
  induction pcss as [|[p cc] pcss IH]; [reflexivity|].
  unfold pcss_keys, pcss_children in *. cbn [flat_map].
  rewrite !length_app, IH. unfold block_keys. now rewrite !length_map.
Qed.

Lemma add_parents_closed (pcss : PCSSDict) (b : IndexerBuild) :
  NoDup (map fst (b_indexer b) ++ pcss_keys pcss) ->
  NoDup (map fst (b_parent_to_range b) ++ map fst pcss) ->
  (forall k, In k (map fst (b_index_to_child b)) -> (k < b_index b)%nat) ->
  foldM add_parent pcss b
  = Ok (mkIndexerBuild
          (b_indexer b
           ++ combine (pcss_keys pcss)
                      (seq (b_index b) (length (pcss_keys pcss))))
          (b_rootsplits b)
          (b_index_to_child b
           ++ combine (seq (b_index b) (length (pcss_keys pcss)))
                      (pcss_children pcss))
          (b_parent_to_range b ++ ranges_from (b_index b) pcss)
          (b_index b + length (pcss_keys pcss))).
Proof.
  revert b; induction pcss as [|[p cc] pcss IH]; intros [ix rs ic pr i] ND NP Hic;
    cbn [foldM b_indexer b_rootsplits b_index_to_child b_parent_to_range
         b_index] in *.
  - cbn. rewrite !app_nil_r, Nat.add_0_r. reflexivity.
  - unfold add_parent at 1.
    cbn [b_indexer b_rootsplits b_index_to_child b_parent_to_range b_index].
    rewrite (SafeInsert_fresh Bitset_eqb Bitset_eqb_eq).
    2:{ cbn [map fst] in NP. apply NoDup_remove_2 in NP. intros I.
        apply NP, in_or_app. now left. }
    cbn [bind].
    assert (Ekeys : pcss_keys ((p, cc) :: pcss)
                    = map (fun c => p ++ fst c) cc ++ pcss_keys pcss)
      by reflexivity.
    rewrite Ekeys in ND. rewrite app_assoc in ND.
    rewrite add_children_closed;
      cbn [b_indexer b_rootsplits b_index_to_child b_parent_to_range b_index];
      [|eapply NoDup_app_remove_r, ND|exact Hic].
    cbn [bind]. rewrite IH;
      cbn [b_indexer b_rootsplits b_index_to_child b_parent_to_range b_index].
    + rewrite Ekeys. unfold pcss_children. cbn [flat_map fst snd ranges_from].
      fold (pcss_children pcss).
      rewrite !length_app, !length_map, !seq_app, <- !app_assoc.
      assert (Hc : forall (A B : Type) (l1 l2 : list A) (l1' l2' : list B),
                 length l1 = length l1' ->
                 combine (l1 ++ l2) (l1' ++ l2')
                 = combine l1 l1' ++ combine l2 l2').
      { intros A B l1. induction l1 as [|a l1 IHl]; intros l2 [|a' l1'] l2' E;
          simpl in *; try discriminate; [reflexivity|].
        f_equal. apply IHl. lia. }
      rewrite !Hc by (now rewrite ?length_seq, ?length_map).
      cbn [app]. now rewrite Nat.add_assoc.
    + rewrite map_app, combine_keys by (now rewrite length_seq, length_map).
      exact ND.
    + rewrite map_app. cbn [map fst]. rewrite <- app_assoc. exact NP.
    + intros j. rewrite map_app, in_app_iff.
      rewrite combine_keys by (now rewrite length_seq, length_map).
      rewrite in_seq. intros [I|I]; [apply Hic in I|]; lia.
Qed.

(** The maps [ProcessLoadedTrees] builds from two counters whose keys do
    not clash. *)
Lemma build_indexer_closed (rc : BitsetUInt32Dict) (pcss : PCSSDict) :
  NoDup (map fst rc ++ pcss_keys pcss) ->
  NoDup (map fst pcss) ->
  build_indexer rc pcss
  = Ok (mkIndexerBuild
          (combine (map fst rc ++ pcss_keys pcss)
                   (seq 0 (length rc + length (pcss_keys pcss))))
          (map fst rc)
          (combine (seq (length rc) (length (pcss_keys pcss)))
                   (pcss_children pcss))
          (ranges_from (length rc) pcss)
          (length rc + length (pcss_keys pcss))).
Proof.
  intros ND NP. unfold build_indexer.
  rewrite add_rootsplits_closed;
    cbn [b_indexer b_rootsplits b_index_to_child b_parent_to_range b_index
         map app]; [|eapply NoDup_app_remove_r, ND].
  cbn [bind Nat.add].
  rewrite add_parents_closed;
    cbn [b_indexer b_rootsplits b_index_to_child b_parent_to_range b_index
         map app].
  - rewrite seq_app. cbn [Nat.add].
    assert (Hc : forall (A B : Type) (l1 l2 : list A) (l1' l2' : list B),
               length l1 = length l1' ->
               combine (l1 ++ l2) (l1' ++ l2')
               = combine l1 l1' ++ combine l2 l2').
    { intros A B l1. induction l1 as [|a l1 IHl]; intros l2 [|a' l1'] l2' E;
        simpl in *; try discriminate; [reflexivity|].
      f_equal. apply IHl. lia. }
    rewrite Hc by (now rewrite length_seq, length_map). reflexivity.
  - rewrite combine_keys by (now rewrite length_seq, length_map). exact ND.
  - exact NP.
  - intros k [].
Qed.

(* ================================================================== *)
(** * The tag-to-bitset map of a topology *)

Lemma foldM_app {A S : Type} (f : S -> A -> result S) (l1 l2 : list A) (s : S) :
  foldM f (l1 ++ l2) s = bind (foldM f l1 s) (foldM f l2).
Proof.
  revert s; induction l1 as [|a l1 IH]; intros s; simpl; [reflexivity|].
  destruct (f s a); simpl; auto.
Qed.

Lemma tag_eqb_eq (a b : Z * Z) : tag_eqb a b = true <-> a = b.
Proof.
  destruct a as [a1 a2], b as [b1 b2]. unfold tag_eqb. simpl.
  rewrite andb_true_iff, !Z.eqb_eq. split; [intros []; congruence|].
  intros E; inversion E; auto.
Qed.

Lemma PostOrder_last (n : Node) : exists l, PostOrder n = l ++ [n].
Proof. destruct n as [cs i t h]. simpl. eauto. Qed.

Lemma In_PostOrder_self (n : Node) : In n (PostOrder n).
Proof. destruct (PostOrder_last n) as [l ->]. apply in_or_app. right. now left. Qed.

Lemma Bitset_zeros_length (N : nat) : length (Bitset_zeros N) = N.
Proof. apply repeat_length. Qed.

Lemma children_lookup (N : nat) (m : TagBitsetMap) (cs : list Node) (x : Bitset) :
  NoDup (map fst m) ->
  (forall c, In c cs -> In (Tag c, clade N c) m) ->
  foldM (fun x child => b <- map_at tag_eqb m (Tag child) ;; Ok (Bitset_or x b))
        cs x
  = Ok (fold_left (fun x c => Bitset_or x (clade N c)) cs x).
Proof.
  intros ND. revert x; induction cs as [|c cs IH]; intros x H; simpl;
    [reflexivity|].
  unfold map_at. rewrite (In_find tag_eqb tag_eqb_eq _ _ _ ND (H c (or_introl eq_refl))).
  simpl. apply IH. intros c' I. apply H. now right.
Qed.

Lemma tag_fold_subtree (N : nat) (v : Node) :
  forall m0,
    (forall i, In i (leaf_ids v) -> 0 <= i < Z.of_nat N) ->
    NoDup (map fst m0 ++ map Tag (PostOrder v)) ->
    foldM (tag_step N) (PostOrder v) m0
    = Ok (m0 ++ tag_entries N (PostOrder v)).
Proof.
  induction v as [cs idx tag h IH] using Node_ind. intros m0 Hr ND.
  cbn [PostOrder] in *. rewrite foldM_app.
  assert (Hsub : forall m0,
             (forall i, In i (flat_map leaf_ids cs) -> 0 <= i < Z.of_nat N) ->
             NoDup (map fst m0 ++ map Tag (flat_map PostOrder cs)) ->
             foldM (tag_step N) (flat_map PostOrder cs) m0
             = Ok (m0 ++ tag_entries N (flat_map PostOrder cs))).
  { clear Hr ND m0. induction IH as [|c cs IHc _ IHcs]; intros m0 Hr ND.
    - cbn. now rewrite app_nil_r.
    - cbn [flat_map] in *. rewrite foldM_app, IHc.
      + cbn [bind]. rewrite IHcs.
        * unfold tag_entries. now rewrite map_app, app_assoc.
        * intros i I. apply Hr, in_or_app. now right.
        * unfold tag_entries. rewrite map_app, map_map. cbn [fst].
          rewrite map_app, app_assoc in ND. exact ND.
      + intros i I. apply Hr, in_or_app. now left.
      + rewrite map_app, app_assoc in ND. eapply NoDup_app_remove_r, ND. }
  destruct cs as [|c cs].
  - cbn [flat_map foldM bind app] in *. unfold tag_step at 1.
    cbn [IsLeaf Children Tag].
    change (MaxLeafID (MkNode [] idx tag h)) with (fst tag).
    unfold Bitset_set. rewrite Bitset_zeros_length.
    destruct (Hr (fst tag) (or_introl eq_refl)) as [H0 H1].
    destruct (Z.leb_spec 0 (fst tag)); [|lia].
    destruct (Z.ltb_spec (fst tag) (Z.of_nat N)); [|lia].
    cbn [andb bind]. rewrite (SafeInsert_fresh tag_eqb tag_eqb_eq).
    + reflexivity.
    + apply NoDup_remove_2 in ND. now rewrite app_nil_r in ND.
  - rewrite Hsub.
    + cbn [bind foldM]. unfold tag_step at 1.
      cbn [IsLeaf Children Tag].
      rewrite (@children_lookup N).
      * cbn [bind]. rewrite (SafeInsert_fresh tag_eqb tag_eqb_eq).
        -- cbn [bind]. unfold tag_entries. rewrite map_app, app_assoc.
           reflexivity.
        -- unfold tag_entries. rewrite map_app, map_map. cbn [fst].
           rewrite map_app in ND. cbn [map Tag] in ND.
           rewrite app_assoc in ND. apply NoDup_remove_2 in ND.
           now rewrite app_nil_r in ND.
      * unfold tag_entries. rewrite map_app, map_map. cbn [fst].
        rewrite map_app, app_assoc in ND. eapply NoDup_app_remove_r, ND.
      * intros c' I. apply in_or_app. right. unfold tag_entries.
        apply (in_map (fun u => (Tag u, clade N u))).
        apply in_flat_map. exists c'. split; [exact I|apply In_PostOrder_self].
    + exact Hr.
    + rewrite map_app, app_assoc in ND. eapply NoDup_app_remove_r, ND.
Qed.

(** The map has one entry per node, in post-order, with the clade of the
    node. *)
Lemma TagBitsetMapOf_closed (N : nat) (t : Node) :
  LeafCount t = Z.of_nat N ->
  (forall i, In i (leaf_ids t) -> 0 <= i < Z.of_nat N) ->
  NoDup (map Tag (PostOrder t)) ->
  TagBitsetMapOf t = Ok (tag_entries N (PostOrder t)).
Proof.
  intros EN Hr ND. unfold TagBitsetMapOf. rewrite EN, Nat2Z.id.
  change (foldM (tag_step N) (PostOrder t) [] = Ok (tag_entries N (PostOrder t))).
  now rewrite tag_fold_subtree.
Qed.

(* ================================================================== *)
(** * Leaves, tags and clades of well-formed topologies *)

Lemma leaf_ids_nonempty (v : Node) : leaf_ids v <> [].
Proof.
  induction v as [cs idx tag h IH] using Node_ind.
  destruct cs as [|c cs]; cbn; [discriminate|].
  inversion IH as [|? ? Hc _]; subst.
  destruct (leaf_ids c); [contradiction|discriminate].
Qed.

Lemma PreOrder_PostOrder (v : Node) : Permutation (PreOrder v) (PostOrder v).
Proof.
  induction v as [cs idx tag h IH] using Node_ind. cbn [PreOrder PostOrder].
  apply Permutation_cons_app. rewrite app_nil_r.
  induction IH as [|c cs Hc _ IHcs]; cbn; [constructor|].
  now apply Permutation_app.
Qed.

Lemma In_PreOrder_PostOrder (u v : Node) :
  In u (PreOrder v) <-> In u (PostOrder v).
Proof.
  split; apply Permutation_in;
    [apply PreOrder_PostOrder|apply Permutation_sym, PreOrder_PostOrder].
Qed.

Lemma In_PreOrder_self (v : Node) : In v (PreOrder v).
Proof. destruct v. now left. Qed.

(** A property of a node that its children inherit holds of every node
    below it. *)
Lemma subnodes_inherit (P : Node -> Prop) :
  (forall cs idx tag h c, P (MkNode cs idx tag h) -> In c cs -> P c) ->
  forall v u, In u (PreOrder v) -> P v -> P u.
Proof.
  intros Hdown v. induction v as [cs idx tag h IH] using Node_ind.
  intros u I Pv. cbn [PreOrder] in I. destruct I as [<-|I]; [exact Pv|].
  apply in_flat_map in I. destruct I as (c & Ic & Iu).
  rewrite Forall_forall in IH. apply (IH c Ic u Iu). eapply Hdown; eauto.
Qed.

Lemma leaf_ids_child (cs : list Node) (idx : Z) (tag : Z * Z) (h : Z) (c : Node) :
  In c cs -> incl (leaf_ids c) (leaf_ids (MkNode cs idx tag h)).
Proof.
  intros I i Hi. cbn. destruct cs as [|c0 cs0]; [contradiction|].
  apply in_flat_map. eauto.
Qed.

Lemma leaf_ids_subnode (v u : Node) :
  In u (PreOrder v) -> incl (leaf_ids u) (leaf_ids v).
Proof.
  induction v as [cs idx tag h IH] using Node_ind.
  intros I. cbn [PreOrder] in I. destruct I as [<-|I]; [apply incl_refl|].
  apply in_flat_map in I. destruct I as (c & Ic & Iu).
  rewrite Forall_forall in IH.
  eapply incl_tran; [apply (IH c Ic Iu)|now apply leaf_ids_child].
Qed.

Lemma tags_ok_subnode (v u : Node) :
  In u (PreOrder v) -> tags_ok v = true -> tags_ok u = true.
Proof.
  apply (subnodes_inherit (fun w => tags_ok w = true)).
  intros cs idx tag h c H I. cbn in H. apply andb_true_iff in H.
  destruct H as [_ H]. rewrite forallb_forall in H. auto.
Qed.

Lemma bifurcating_subnode (v u : Node) :
  In u (PreOrder v) -> bifurcating v = true -> bifurcating u = true.
Proof.
  apply (subnodes_inherit (fun w => bifurcating w = true)).
  intros cs idx tag h c H I. cbn in H.
  destruct cs as [|a [|b [|]]]; try discriminate; [contradiction|].
  apply andb_true_iff in H. destruct H, I as [<-|[<-|[]]]; assumption.
Qed.

Lemma bifurcating_forking (v : Node) : bifurcating v = true -> forking v = true.
Proof.
  induction v as [cs idx tag h IH] using Node_ind. cbn.
  destruct cs as [|a [|b [|]]]; try discriminate; [reflexivity|].
  intros H. apply andb_true_iff in H. destruct H as [Ha Hb].
  inversion IH as [|? ? IHa IH']; subst. inversion IH' as [|? ? IHb _]; subst.
  cbn. now rewrite IHa, IHb.
Qed.

Lemma NoDup_leaf_ids_child (cs : list Node) (idx : Z) (tag : Z * Z) (h : Z)
      (c : Node) :
  In c cs -> NoDup (leaf_ids (MkNode cs idx tag h)) -> NoDup (leaf_ids c).
Proof.
  intros I ND. cbn in ND. destruct cs as [|c0 cs0]; [contradiction|].
  revert ND. generalize (c0 :: cs0) I. clear. intros cs.
  induction cs as [|a cs IH]; intros I ND; [contradiction|].
  cbn [flat_map] in ND. destruct I as [<-|I].
  - eapply NoDup_app_remove_r, ND.
  - apply IH; [exact I|eapply NoDup_app_remove_l, ND].
Qed.

Lemma NoDup_leaf_ids_subnode (v u : Node) :
  In u (PreOrder v) -> NoDup (leaf_ids v) -> NoDup (leaf_ids u).
Proof.
  apply (subnodes_inherit (fun w => NoDup (leaf_ids w))).
  intros cs idx tag h c H I. eapply NoDup_leaf_ids_child; eauto.
Qed.

(** The leaf count of the tag, when it does not wrap. *)
Lemma fold_LeafCount (cs : list Node) (acc : Z) :
  Forall (fun c => LeafCount c = Z.of_nat (length (leaf_ids c))) cs ->
  0 <= acc ->
  acc + Z.of_nat (length (flat_map leaf_ids cs)) < two32 ->
  fold_left (fun acc c => (acc + LeafCount c) mod two32) cs acc
  = acc + Z.of_nat (length (flat_map leaf_ids cs)).
Proof.
  revert acc; induction cs as [|c cs IH]; intros acc F H0 H1; cbn in *; [lia|].
  inversion F as [|? ? Ec F']; subst. rewrite length_app in H1.
  rewrite Ec, Z.mod_small by lia. rewrite IH; auto; rewrite ?length_app; lia.
Qed.

Lemma tags_ok_counts (v : Node) :
  tags_ok v = true ->
  Z.of_nat (length (leaf_ids v)) < two32 ->
  LeafCount v = Z.of_nat (length (leaf_ids v)) /\ In (MaxLeafID v) (leaf_ids v).
Proof.
  induction v as [cs idx tag h IH] using Node_ind. intros T B.
  cbn [tags_ok] in T. apply andb_true_iff in T. destruct T as [T1 T2].
  destruct cs as [|c cs].
  - apply Z.eqb_eq in T1. unfold LeafCount, MaxLeafID. cbn. split; [lia|auto].
  - apply tag_eqb_eq in T1. remember (c :: cs) as l eqn:El.
    assert (Hl : leaf_ids (MkNode l idx tag h) = flat_map leaf_ids l)
      by (subst l; reflexivity).
    rewrite Hl in *.
    assert (Hall : Forall (fun c => LeafCount c = Z.of_nat (length (leaf_ids c))
                                    /\ In (MaxLeafID c) (leaf_ids c)) l).
    { rewrite Forall_forall in *. intros x Ix. apply IH; [exact Ix| |].
      - rewrite forallb_forall in T2. auto.
      - assert (length (leaf_ids x) <= length (flat_map leaf_ids l))%nat; [|lia].
        clear - Ix. induction l as [|y l IHl]; [contradiction|]. cbn.
        rewrite length_app. destruct Ix as [<-|Ix]; [lia|].
        specialize (IHl Ix). lia. }
    unfold LeafCount, MaxLeafID. rewrite T1. cbn [fst snd]. split.
    + rewrite fold_LeafCount;
        [reflexivity|eapply Forall_impl; [|exact Hall]; now intros x []|lia|lia].
    + assert (Il : In (last l c) l).
      { subst l. clear. generalize c at 1 3. induction cs as [|y cs IHc]; intros d.
        - now left.
        - right. apply (IHc y). }
      rewrite Forall_forall in Hall. destruct (Hall _ Il) as [_ Hm].
      apply in_flat_map. eauto.
Qed.

Lemma NoDup_app_disjoint {A : Type} (l1 l2 : list A) (a : A) :
  NoDup (l1 ++ l2) -> In a l1 -> In a l2 -> False.
Proof.
  induction l1 as [|x l1 IH]; simpl; intros ND I1 I2; [contradiction|].
  inversion ND as [|? ? N ND']; subst. destruct I1 as [<-|I1].
  - apply N, in_or_app. now right.
  - now apply IH.
Qed.

Lemma length_leaf_ids_child (cs : list Node) (c : Node) :
  In c cs -> (length (leaf_ids c) <= length (flat_map leaf_ids cs))%nat.
Proof.
  induction cs as [|y cs IH]; [contradiction|]. cbn. rewrite length_app.
  intros [<-|I]; [lia|]. specialize (IH I). lia.
Qed.

Lemma length_leaf_ids_subnode (v u : Node) :
  In u (PreOrder v) -> (length (leaf_ids u) <= length (leaf_ids v))%nat.
Proof.
  induction v as [cs idx tag h IH] using Node_ind.
  intros I. cbn [PreOrder] in I. destruct I as [<-|I]; [lia|].
  apply in_flat_map in I. destruct I as (c & Ic & Iu).
  rewrite Forall_forall in IH. specialize (IH c Ic Iu).
  pose proof (length_leaf_ids_child _ _ Ic).
  cbn. destruct cs; [contradiction|]. lia.
Qed.

(** Below a forking node every proper descendant has fewer leaves. *)
Lemma length_leaf_ids_proper (cs : list Node) (idx : Z) (tag : Z * Z) (h : Z)
      (u : Node) :
  forking (MkNode cs idx tag h) = true ->
  In u (flat_map PreOrder cs) ->
  (length (leaf_ids u) < length (leaf_ids (MkNode cs idx tag h)))%nat.
Proof.
  intros F I. apply in_flat_map in I. destruct I as (c & Ic & Iu).
  pose proof (length_leaf_ids_subnode _ _ Iu) as Hu.
  assert (length (leaf_ids c) < length (flat_map leaf_ids cs))%nat; [|
    cbn; destruct cs; [contradiction|lia]].
  clear Hu Iu. cbn in F. destruct cs as [|a [|b cs]]; try discriminate;
    [contradiction|].
  pose proof (leaf_ids_nonempty a) as Na. pose proof (leaf_ids_nonempty b) as Nb.
  destruct Ic as [<-|[<-|Ic]]; cbn [flat_map]; rewrite !length_app.
  - destruct (leaf_ids b); [contradiction|cbn; lia].
  - destruct (leaf_ids a); [contradiction|cbn; lia].
  - pose proof (length_leaf_ids_child _ _ Ic).
    destruct (leaf_ids a); [contradiction|cbn; lia].
Qed.

Lemma forking_subnode (v u : Node) :
  In u (PreOrder v) -> forking v = true -> forking u = true.
Proof.
  apply (subnodes_inherit (fun w => forking w = true)).
  intros cs idx tag h c H I. cbn in H.
  destruct cs as [|a [|b cs]]; try discriminate; [contradiction|].
  rewrite forallb_forall in H. auto.
Qed.

(** In a well-tagged forking tree with distinct leaves no two nodes have
    the same tag. *)
Lemma tags_NoDup (v : Node) :
  tags_ok v = true -> forking v = true -> NoDup (leaf_ids v) ->
  Z.of_nat (length (leaf_ids v)) < two32 ->
  NoDup (map Tag (PostOrder v)).
Proof.
  induction v as [cs idx tag h IH] using Node_ind. intros T F ND B.
  cbn [PostOrder]. rewrite map_app. apply NoDup_app.
  - (* the subtrees *)
    assert (Hc : forall c, In c cs ->
                 tags_ok c = true /\ forking c = true /\ NoDup (leaf_ids c)
                 /\ Z.of_nat (length (leaf_ids c)) < two32).
    { intros c Ic.
      assert (Iu : In c (PreOrder (MkNode cs idx tag h))).
      { right. apply in_flat_map. exists c. split; [exact Ic|apply In_PreOrder_self]. }
      split; [eapply tags_ok_subnode; eauto|].
      split; [eapply forking_subnode; eauto|].
      split; [eapply NoDup_leaf_ids_subnode; eauto|].
      pose proof (length_leaf_ids_subnode _ _ Iu). lia. }
    assert (NDl : NoDup (flat_map leaf_ids cs)).
    { cbn in ND. destruct cs; [constructor|exact ND]. }
    clear T F ND B. induction cs as [|c cs IHcs]; [constructor|].
    cbn [flat_map] in *. rewrite map_app.
    inversion IH as [|? ? IHc IH']; subst.
    destruct (Hc c (or_introl eq_refl)) as (Tc & Fc & NDc & Bc).
    apply NoDup_app.
    + now apply IHc.
    + apply IHcs; [exact IH'|intros c' I'; apply Hc; now right|].
      eapply NoDup_app_remove_l, NDl.
    + intros tg I1 I2.
      apply in_map_iff in I1. destruct I1 as (u1 & <- & I1).
      apply in_map_iff in I2. destruct I2 as (u2 & E & I2).
      apply in_flat_map in I2. destruct I2 as (c2 & Ic2 & I2).
      apply In_PreOrder_PostOrder in I1, I2.
      destruct (Hc c2 (or_intror Ic2)) as (Tc2 & Fc2 & NDc2 & Bc2).
      assert (M1 : In (MaxLeafID u1) (leaf_ids c)).
      { apply (leaf_ids_subnode _ _ I1).
        apply tags_ok_counts; [eapply tags_ok_subnode; eauto|].
        pose proof (length_leaf_ids_subnode _ _ I1). lia. }
      assert (M2 : In (MaxLeafID u2) (flat_map leaf_ids cs)).
      { apply in_flat_map. exists c2. split; [exact Ic2|].
        apply (leaf_ids_subnode _ _ I2).
        apply tags_ok_counts; [eapply tags_ok_subnode; eauto|].
        pose proof (length_leaf_ids_subnode _ _ I2). lia. }
      unfold MaxLeafID in *. rewrite E in M2.
      eapply NoDup_app_disjoint; eauto.
  - repeat constructor. intros [].
  - intros tg I1 [<-|[]].
    apply in_map_iff in I1. destruct I1 as (u & E & I).
    assert (Iu : In u (flat_map PreOrder cs)).
    { apply in_flat_map in I. destruct I as (c & Ic & I).
      apply in_flat_map. exists c. split; [exact Ic|].
      now apply In_PreOrder_PostOrder. }
    pose proof (length_leaf_ids_proper _ _ _ _ _ F Iu) as Hlt.
    assert (Iv : In u (PreOrder (MkNode cs idx tag h))) by now right.
    destruct (@tags_ok_counts u) as [Eu _];
      [eapply tags_ok_subnode; eauto|lia|].
    destruct (@tags_ok_counts (MkNode cs idx tag h)) as [Ev _]; auto.
    unfold LeafCount in *. rewrite E in Eu. rewrite Eu in Ev. lia.
Qed.

(** ** Bits of clades *)

Lemma Bitset_or_length (x y : Bitset) : length (Bitset_or x y) = length x.
Proof.
  revert y; induction x as [|a x IH]; intros [|b y]; simpl; auto.
Qed.

Lemma has_or (x y : Bitset) (i : nat) :
  length x = length y -> has (Bitset_or x y) i = has x i || has y i.
Proof.
  unfold has. revert y i; induction x as [|a x IH]; intros [|b y] i E;
    simpl in *; try discriminate.
  - now destruct i.
  - destruct i as [|i]; [reflexivity|]. apply IH. lia.
Qed.

Lemma flip_length (x : Bitset) : length (Bitset_flip x) = length x.
Proof. apply length_map. Qed.

Lemma has_flip (x : Bitset) (i : nat) :
  (i < length x)%nat -> has (Bitset_flip x) i = negb (has x i).
Proof.
  unfold has, Bitset_flip. intros H.
  rewrite (nth_indep _ false (negb false)) by now rewrite length_map.
  apply map_nth.
Qed.

Lemma set_nth_length (x : Bitset) (k : nat) : length (set_nth x k) = length x.
Proof.
  revert k; induction x as [|a x IH]; intros [|k]; simpl; auto.
Qed.

Lemma has_set_nth_zeros (N k i : nat) :
  (k < N)%nat -> has (set_nth (Bitset_zeros N) k) i = Nat.eqb i k.
Proof.
  unfold has, Bitset_zeros. revert k i; induction N as [|N IH]; intros k i H;
    [lia|].
  destruct k as [|k], i as [|i]; cbn; try reflexivity.
  - destruct i; [|rewrite nth_repeat]; try reflexivity.
    now destruct N.
  - apply IH. lia.
Qed.

Lemma has_zeros (N i : nat) : has (Bitset_zeros N) i = false.
Proof. unfold has, Bitset_zeros. apply nth_repeat. Qed.

Lemma clade_length (N : nat) (v : Node) : length (clade N v) = N.
Proof.
  destruct v as [cs idx tag h]. cbn. destruct cs as [|c cs].
  - now rewrite set_nth_length, Bitset_zeros_length.
  - generalize (c :: cs). intros l.
    assert (H : forall x, length (fold_left (fun x c => Bitset_or x (clade N c)) l x)
                          = length x).
    { induction l as [|a l IH]; intros x; cbn; [reflexivity|].
      now rewrite IH, Bitset_or_length. }
    now rewrite H, Bitset_zeros_length.
Qed.

Lemma has_leaf_In (v : Node) (i : Z) : has_leaf v i = true <-> In i (leaf_ids v).
Proof.
  unfold has_leaf. rewrite existsb_exists. split.
  - intros (x & I & E). apply Z.eqb_eq in E. now subst.
  - intros I. exists i. split; [exact I|apply Z.eqb_refl].
Qed.

(** Bit [i] of the clade of a node says whether taxon [i] is one of its
    leaves. *)
Lemma has_clade (N : nat) (v : Node) (i : nat) :
  (forall j, In j (leaf_ids v) -> 0 <= j < Z.of_nat N) ->
  (i < N)%nat ->
  has (clade N v) i = has_leaf v (Z.of_nat i).
Proof.
  induction v as [cs idx tag h IH] using Node_ind. intros Hr Hi.
  destruct cs as [|c cs].
  - cbn [clade]. unfold has_leaf. cbn [leaf_ids existsb].
    destruct (Hr (fst tag) (or_introl eq_refl)).
    rewrite has_set_nth_zeros by lia. rewrite orb_false_r.
    destruct (Nat.eqb_spec i (Z.to_nat (fst tag))), (Z.eqb_spec (Z.of_nat i) (fst tag));
      try reflexivity; lia.
  - remember (c :: cs) as l eqn:El.
    assert (E1 : clade N (MkNode l idx tag h)
                 = fold_left (fun x c => Bitset_or x (clade N c)) l (Bitset_zeros N))
      by (subst l; reflexivity).
    assert (E2 : leaf_ids (MkNode l idx tag h) = flat_map leaf_ids l)
      by (subst l; reflexivity).
    unfold has_leaf. rewrite E1, E2. rewrite E2 in Hr. clear E1 E2 El c cs.
    assert (G : forall x, length x = N ->
                has (fold_left (fun x c => Bitset_or x (clade N c)) l x) i
                = has x i || existsb (Z.eqb (Z.of_nat i)) (flat_map leaf_ids l)).
    { induction IH as [|a l IHa IH' IHl]; intros x Lx;
        cbn [fold_left flat_map existsb].
      - now rewrite orb_false_r.
      - rewrite IHl; auto.
        + rewrite has_or by now rewrite clade_length.
          rewrite existsb_app, IHa; auto.
          * unfold has_leaf. now rewrite orb_assoc.
          * intros j Ij. apply Hr. apply in_or_app. now left.
        + intros j Ij. apply Hr. apply in_or_app. now right.
        + now rewrite Bitset_or_length. }
    rewrite G by apply Bitset_zeros_length. now rewrite has_zeros.
Qed.

Lemma has_neq (x y : Bitset) (i : nat) : has x i <> has y i -> x <> y.
Proof. congruence. Qed.

(* ================================================================== *)
(** * Unrooted topologies *)

Lemma Z_nodup_NoDup (l : list Z) : Z_nodup l = true -> NoDup l.
Proof.
  induction l as [|x l IH]; cbn; [constructor|].
  rewrite andb_true_iff, negb_true_iff. intros [N H]. constructor; auto.
  intros I. assert (existsb (Z.eqb x) l = true); [|congruence].
  apply existsb_exists. exists x. split; [exact I|apply Z.eqb_refl].
Qed.

Lemma unrooted_topology_spec (N : nat) (t : Node) :
  unrooted_topology N t = true -> unrooted N t.
Proof.
  unfold unrooted_topology. rewrite !andb_true_iff.
  intros [[[[[T S] ND] R] C] B]. split.
  - exact T.
  - destruct (Children t) as [|c0 [|c1 [|c2 [|]]]]; try discriminate.
    rewrite !andb_true_iff in S. destruct S as [[S0 S1] S2].
    exists c0, c1, c2. auto.
  - now apply Z_nodup_NoDup.
  - intros i I. rewrite forallb_forall in R. specialize (R i I).
    rewrite andb_true_iff in R. lia.
  - now apply Nat.eqb_eq.
  - lia.
Qed.

Lemma unrooted_forking (N : nat) (t : Node) : unrooted N t -> forking t = true.
Proof.
  intros [_ (c0 & c1 & c2 & E & B0 & B1 & B2) _ _ _ _].
  destruct t as [cs idx tag h]. cbn in E. subst cs. cbn.
  now rewrite !bifurcating_forking.
Qed.

Lemma unrooted_LeafCount (N : nat) (t : Node) :
  unrooted N t -> LeafCount t = Z.of_nat N.
Proof.
  intros U. destruct (@tags_ok_counts t) as [E _].
  - apply U.
  - rewrite (u_count U). apply U.
  - now rewrite E, (u_count U).
Qed.

Lemma unrooted_tags_NoDup (N : nat) (t : Node) :
  unrooted N t -> NoDup (map Tag (PostOrder t)).
Proof.
  intros U. apply tags_NoDup.
  - apply U.
  - eapply unrooted_forking, U.
  - apply U.
  - rewrite (u_count U). apply U.
Qed.

Lemma unrooted_TagBitsetMapOf (N : nat) (t : Node) :
  unrooted N t -> TagBitsetMapOf t = Ok (tag_entries N (PostOrder t)).
Proof.
  intros U. apply TagBitsetMapOf_closed.
  - now apply unrooted_LeafCount.
  - apply U.
  - eapply unrooted_tags_NoDup, U.
Qed.

(** Looking a node of the topology up in its tag map gives its clade. *)
Lemma tag_lookup (N : nat) (t u : Node) :
  unrooted N t -> In u (PreOrder t) ->
  map_at tag_eqb (tag_entries N (PostOrder t)) (Tag u) = Ok (clade N u).
Proof.
  intros U I. unfold map_at.
  rewrite (@In_find _ _ tag_eqb tag_eqb_eq _ (Tag u) (clade N u)); [reflexivity| |].
  - unfold tag_entries. rewrite map_map. cbn [fst].
    eapply unrooted_tags_NoDup, U.
  - unfold tag_entries.
    apply (in_map (fun u => (Tag u, clade N u))).
    now apply In_PreOrder_PostOrder.
Qed.

(* ================================================================== *)
(** * The rootsplit counter as a fold *)

Lemma rootsplit_nodes_subnodes (t u : Node) :
  In u (rootsplit_nodes t) -> In u (PreOrder t).
Proof. destruct t as [cs idx tag h]. intros I. now right. Qed.

Lemma rootsplit_loop (N : nat) (t : Node) (count : Z) (nodes : list Node)
      (d : BitsetUInt32Dict) :
  unrooted N t ->
  (forall u, In u nodes -> In u (PreOrder t)) ->
  foldM (fun counter n =>
           split <- map_at tag_eqb (tag_entries N (PostOrder t)) (Tag n) ;;
           Ok (increment counter (Minorize split) count))
        nodes d
  = Ok (fold_left (fun d s => increment d s count)
                  (map (rootsplit_of N) nodes) d).
Proof.
  intros U. revert d; induction nodes as [|n nodes IH]; intros d H; cbn;
    [reflexivity|].
  rewrite (tag_lookup _ U) by (apply H; now left). cbn.
  apply IH. intros u I. apply H. now right.
Qed.

Lemma RootsplitCounterOf_closed (N : nat) (topologies : TopologyCounter) :
  Forall (fun iter => unrooted N (fst iter)) topologies ->
  RootsplitCounterOf topologies = Ok (count_rootsplits N topologies).
Proof.
  unfold RootsplitCounterOf, count_rootsplits. generalize (@nil (Bitset * Z)).
  induction topologies as [|[t c] ts IH]; intros d F; cbn [foldM fold_left];
    [reflexivity|].
  inversion F as [|? ? U F']; subst. cbn [fst snd] in *.
  rewrite (unrooted_TagBitsetMapOf U). cbn [bind].
  rewrite (@rootsplit_loop N) by (auto using rootsplit_nodes_subnodes).
  cbn [bind]. now apply IH.
Qed.

(* ================================================================== *)
(** * The PCSS counter as a fold *)

Lemma PCSS_f_internal_ok (p s n : Node) :
  bifurcating n = true ->
  exists l, PCSS_f_internal p s n = Ok l
            /\ forall c, In c l -> incl (call_nodes c) (p :: s :: n :: Children n).
Proof.
  intros B. unfold PCSS_f_internal. destruct n as [cs idx tag h]. cbn in *.
  destruct cs as [|a [|b [|]]]; try discriminate.
  - eexists. split; [reflexivity|]. intros c [<-|[]] x; cbn; tauto.
  - eexists. split; [reflexivity|].
    intros c I x; cbn in I.
    repeat (destruct I as [<-|I]; [cbn; tauto|]). contradiction.
Qed.

Lemma PCSS_f_root_ok (n0 n1 n2 : Node) :
  bifurcating n2 = true ->
  exists l, PCSS_f_root n0 n1 n2 = Ok l
            /\ forall c, In c l -> incl (call_nodes c) (n0 :: n1 :: n2 :: Children n2).
Proof.
  intros B. unfold PCSS_f_root. destruct n2 as [cs idx tag h]. cbn in *.
  destruct cs as [|a [|b [|]]]; try discriminate.
  - eexists. split; [reflexivity|]. intros c [<-|[]] x; cbn; tauto.
  - eexists. split; [reflexivity|].
    intros c I x; cbn in I.
    repeat (destruct I as [<-|I]; [cbn; tauto|]). contradiction.
Qed.

Lemma In_PreOrder_child (cs : list Node) (idx : Z) (tag : Z * Z) (h : Z)
      (c u : Node) :
  In c cs -> In u (PreOrder c) -> In u (PreOrder (MkNode cs idx tag h)).
Proof. intros Ic Iu. right. apply in_flat_map. eauto. Qed.

Lemma In_PreOrder_children (v u : Node) :
  In u (Children v) -> In u (PreOrder v).
Proof.
  destruct v as [cs idx tag h]. cbn [Children]. intros I.
  eapply In_PreOrder_child; [exact I|apply In_PreOrder_self].
Qed.

Lemma In_PreOrder_trans (v w u : Node) :
  In w (PreOrder v) -> In u (PreOrder w) -> In u (PreOrder v).
Proof.
  induction v as [cs idx tag h IH] using Node_ind.
  intros Iw Iu. cbn [PreOrder] in Iw. destruct Iw as [<-|Iw]; [exact Iu|].
  apply in_flat_map in Iw. destruct Iw as (c & Ic & Iw).
  rewrite Forall_forall in IH.
  eapply In_PreOrder_child; [exact Ic|]. now apply (IH c Ic).
Qed.

Lemma TriplePreOrderInternal_ok (v : Node) :
  bifurcating v = true ->
  exists l, TriplePreOrderInternal PCSS_f_internal v = Ok l
            /\ forall c n, In c l -> In n (call_nodes c) -> In n (PreOrder v).
Proof.
  induction v as [cs idx tag h IH] using Node_ind. intros B.
  pose proof B as B'. cbn in B.
  destruct cs as [|a [|b [|]]]; try discriminate.
  - exists []. split; [reflexivity|]. intros c n [].
  - apply andb_true_iff in B. destruct B as [Ba Bb].
    inversion IH as [|? ? IHa IH']; subst. inversion IH' as [|? ? IHb _]; subst.
    destruct (IHa Ba) as (la & Ea & Ha). destruct (IHb Bb) as (lb & Eb & Hb).
    remember (MkNode [a; b] idx tag h) as v eqn:Ev.
    destruct (@PCSS_f_internal_ok v b a Ba) as (ga & Ega & Hga).
    destruct (@PCSS_f_internal_ok v a b Bb) as (gb & Egb & Hgb).
    exists (ga ++ la ++ gb ++ lb). split.
    + rewrite Ev at 1. cbn [TriplePreOrderInternal]. rewrite <- Ev.
      rewrite Ega. cbn [bind].
      rewrite Ea. cbn [bind]. rewrite Egb. cbn [bind]. rewrite Eb. reflexivity.
    + assert (Cv : Children v = [a; b]) by now subst v.
      assert (Ia : In a (PreOrder v))
        by (apply In_PreOrder_children; rewrite Cv; cbn; auto).
      assert (Ib : In b (PreOrder v))
        by (apply In_PreOrder_children; rewrite Cv; cbn; auto).
      assert (Hg : forall x y, (x = a \/ x = b) -> (y = a \/ y = b) ->
                   forall n, In n (v :: y :: x :: Children x) -> In n (PreOrder v)).
      { intros x y Hx Hy n [<-|[<-|[<-|I]]].
        - apply In_PreOrder_self.
        - destruct Hy; now subst.
        - destruct Hx; now subst.
        - apply In_PreOrder_trans with x; [destruct Hx; now subst|].
          now apply In_PreOrder_children. }
      intros c n Ic In_. rewrite !in_app_iff in Ic.
      destruct Ic as [Ic|[Ic|[Ic|Ic]]].
      * apply (Hg a b); auto. now apply (Hga c).
      * apply In_PreOrder_trans with a; eauto.
      * apply (Hg b a); auto. now apply (Hgb c).
      * apply In_PreOrder_trans with b; eauto.
Qed.

Lemma PCSSPreOrder_ok (N : nat) (t : Node) :
  unrooted N t ->
  exists l, PCSSPreOrder t = Ok l
            /\ forall c n, In c l -> In n (call_nodes c) -> In n (PreOrder t).
Proof.
  intros U. destruct (u_shape U) as (c0 & c1 & c2 & E & B0 & B1 & B2).
  unfold PCSSPreOrder, TriplePreOrder. rewrite E.
  destruct (@PCSS_f_root_ok c0 c1 c2 B2) as (g2 & Eg2 & Hg2).
  destruct (@PCSS_f_root_ok c1 c2 c0 B0) as (g0 & Eg0 & Hg0).
  destruct (@PCSS_f_root_ok c2 c0 c1 B1) as (g1 & Eg1 & Hg1).
  destruct (TriplePreOrderInternal_ok _ B0) as (l0 & E0 & H0).
  destruct (TriplePreOrderInternal_ok _ B1) as (l1 & E1 & H1).
  destruct (TriplePreOrderInternal_ok _ B2) as (l2 & E2 & H2).
  rewrite Eg2, Eg0, Eg1. cbn [bind mapM]. rewrite E0, E1, E2. cbn [bind].
  eexists. split; [reflexivity|].
  assert (I0 : In c0 (PreOrder t)) by (apply In_PreOrder_children; rewrite E; cbn; auto).
  assert (I1 : In c1 (PreOrder t)) by (apply In_PreOrder_children; rewrite E; cbn; auto).
  assert (I2 : In c2 (PreOrder t)) by (apply In_PreOrder_children; rewrite E; cbn; auto).
  assert (Hg : forall x y z, In x (PreOrder t) -> In y (PreOrder t) ->
               In z (PreOrder t) ->
               forall n, In n (x :: y :: z :: Children z) -> In n (PreOrder t)).
  { intros x y z Ix Iy Iz n [<-|[<-|[<-|I]]]; auto.
    apply In_PreOrder_trans with z; auto. now apply In_PreOrder_children. }
  intros c n Ic In_. cbn [concat] in Ic. rewrite !in_app_iff in Ic.
  destruct Ic as [Ic|[Ic|[Ic|[Ic|[Ic|[Ic|[]]]]]]].
  - apply (Hg c0 c1 c2); auto. now apply (Hg2 c).
  - apply (Hg c1 c2 c0); auto. now apply (Hg0 c).
  - apply (Hg c2 c0 c1); auto. now apply (Hg1 c).
  - apply In_PreOrder_trans with c0; eauto.
  - apply In_PreOrder_trans with c1; eauto.
  - apply In_PreOrder_trans with c2; eauto.
Qed.

Lemma CopyFrom_sister_focal (N : nat) (x y : Bitset) (dx dy : bool) :
  length x = N -> length y = N ->
  CopyFrom (CopyFrom (Bitset_zeros (2 * N)) x 0 dx) y N dy
  = (if dx then Bitset_flip x else x) ++ (if dy then Bitset_flip y else y).
Proof.
  intros Lx Ly.
  set (x' := if dx then Bitset_flip x else x).
  set (y' := if dy then Bitset_flip y else y).
  assert (Lx' : length x' = N) by (unfold x'; destruct dx; now rewrite ?flip_length).
  assert (E1 : CopyFrom (Bitset_zeros (2 * N)) x 0 dx = x' ++ repeat false N).
  { unfold CopyFrom, Bitset_zeros. fold x'. cbn [firstn app Nat.add]. rewrite Lx.
    replace (2 * N)%nat with (N + N)%nat by lia.
    rewrite repeat_app, skipn_app, repeat_length, Nat.sub_diag.
    rewrite skipn_all2 by (rewrite repeat_length; lia). reflexivity. }
  rewrite E1. unfold CopyFrom. fold y'. rewrite Ly.
  rewrite firstn_app, Lx', Nat.sub_diag, firstn_all2 by lia.
  cbn [firstn]. rewrite app_nil_r.
  rewrite skipn_all2; [now rewrite app_nil_r|].
  rewrite length_app, repeat_length. lia.
Qed.

Lemma PCSS_bitsets_closed (N : nat) (t : Node) (c : PCSSCall) :
  unrooted N t ->
  (forall n, In n (call_nodes c) -> In n (PreOrder t)) ->
  PCSS_bitsets (tag_entries N (PostOrder t)) N c = Ok (pcss_pair N c).
Proof.
  intros U H. unfold PCSS_bitsets.
  rewrite !(tag_lookup _ U) by (apply H; cbn; auto). cbn [bind].
  rewrite CopyFrom_sister_focal by apply clade_length. reflexivity.
Qed.

Lemma pcss_loop (N : nat) (t : Node) (count : Z) (calls : list PCSSCall)
      (d : PCSSDict) :
  unrooted N t ->
  (forall c n, In c calls -> In n (call_nodes c) -> In n (PreOrder t)) ->
  foldM (fun dict c =>
           pc <- PCSS_bitsets (tag_entries N (PostOrder t)) N c ;;
           Ok (PCSS_insert dict (fst pc) (snd pc) count))
        calls d
  = Ok (fold_left (fun d pc => PCSS_insert d (fst pc) (snd pc) count)
                  (map (pcss_pair N) calls) d).
Proof.
  intros U. revert d; induction calls as [|c calls IH]; intros d H; cbn;
    [reflexivity|].
  rewrite (@PCSS_bitsets_closed N t c U) by (intros n; apply H; now left).
  cbn. apply IH. intros c' n I. apply H. now right.
Qed.

Lemma PCSSCounterOf_closed (N : nat) (topologies : TopologyCounter) :
  Forall (fun iter => unrooted N (fst iter)) topologies ->
  PCSSCounterOf topologies = Ok (count_pcss N topologies).
Proof.
  unfold PCSSCounterOf, count_pcss.
  generalize (@nil (Bitset * BitsetUInt32Dict)).
  induction topologies as [|[t c] ts IH]; intros d F; cbn [foldM fold_left];
    [reflexivity|].
  inversion F as [|? ? U F']; subst. cbn [fst snd] in *.
  rewrite (unrooted_TagBitsetMapOf U). cbn [bind].
  destruct (u_shape U) as (c0 & c1 & c2 & E & _). rewrite E. cbn [length Nat.eqb negb].
  rewrite (unrooted_LeafCount U), Nat2Z.id.
  destruct (PCSSPreOrder_ok U) as (calls & Ec & Hc).
  unfold pcss_pairs_of. rewrite Ec. cbn [bind calls_of].
  rewrite (@pcss_loop N t) by auto.
  cbn [bind]. now apply IH.
Qed.

(* ================================================================== *)
(** * What [increment] does to a counter *)

Lemma two32_pos : 0 < two32.
Proof. reflexivity. Qed.

Lemma increment_keys (d : BitsetUInt32Dict) (k : Bitset) (c : Z) (k' : Bitset) :
  In k' (map fst (increment d k c)) <-> k' = k \/ In k' (map fst d).
Proof.
  induction d as [|[k0 v0] d IH]; cbn.
  - intuition congruence.
  - destruct (Bitset_eqb k k0) eqn:E; cbn.
    + apply Bitset_eqb_eq in E. subst. intuition congruence.
    + rewrite IH. intuition congruence.
Qed.

Lemma increment_NoDup (d : BitsetUInt32Dict) (k : Bitset) (c : Z) :
  NoDup (map fst d) -> NoDup (map fst (increment d k c)).
Proof.
  induction d as [|[k0 v0] d IH]; cbn; intros ND.
  - repeat constructor. intros [].
  - inversion ND as [|? ? N0 ND']; subst.
    destruct (Bitset_eqb k k0) eqn:E; cbn.
    + now constructor.
    + constructor; [|auto]. rewrite increment_keys. intros [->|I]; [|tauto].
      rewrite Bitset_eqb_refl in E. discriminate.
Qed.

Lemma increment_reduced (d : BitsetUInt32Dict) (k : Bitset) (c : Z) :
  reduced d -> reduced (increment d k c).
Proof.
  unfold reduced. induction d as [|[k0 v0] d IH]; cbn; intros R.
  - repeat constructor; cbn; apply Z.mod_pos_bound, two32_pos.
  - inversion R as [|? ? R0 R']; subst.
    destruct (Bitset_eqb k k0); constructor; auto.
    cbn. apply Z.mod_pos_bound, two32_pos.
Qed.

Lemma counter_value_reduced (d : BitsetUInt32Dict) (k : Bitset) :
  reduced d -> 0 <= counter_value d k < two32.
Proof.
  unfold reduced, counter_value. induction d as [|[k0 v0] d IH]; cbn; intros R.
  - pose proof two32_pos. lia.
  - inversion R as [|? ? R0 R']; subst. destruct (Bitset_eqb k k0); auto.
Qed.

Lemma counter_value_increment (d : BitsetUInt32Dict) (k : Bitset) (c : Z)
      (k' : Bitset) :
  counter_value (increment d k c) k'
  = if Bitset_eqb k' k then (counter_value d k' + c) mod two32
    else counter_value d k'.
Proof.
  unfold counter_value. induction d as [|[k0 v0] d IH]; cbn.
  - destruct (Bitset_eqb k' k); reflexivity.
  - destruct (Bitset_eqb k k0) eqn:E; cbn.
    + apply Bitset_eqb_eq in E. subst k0.
      destruct (Bitset_eqb k' k); reflexivity.
    + destruct (Bitset_eqb k' k0) eqn:E'.
      * apply Bitset_eqb_eq in E'. subst k0.
        destruct (Bitset_eqb k' k) eqn:E''; [|reflexivity].
        apply Bitset_eqb_eq in E''. subst. rewrite Bitset_eqb_refl in E.
        discriminate.
      * exact IH.
Qed.

(** Incrementing by [c] for every element of a list adds [c] as often as
    the key occurs in the list. *)
Lemma counter_value_increments (l : list Bitset) (d : BitsetUInt32Dict) (c : Z)
      (k : Bitset) :
  reduced d ->
  counter_value (fold_left (fun d s => increment d s c) l d) k
  = (counter_value d k + c * times_in l k) mod two32.
Proof.
  unfold times_in. revert d; induction l as [|s l IH]; intros d R; cbn.
  - rewrite Z.mul_0_r, Z.add_0_r, Z.mod_small; [reflexivity|].
    now apply counter_value_reduced.
  - rewrite IH by now apply increment_reduced.
    rewrite counter_value_increment.
    destruct (Bitset_eqb k s); cbn [length].
    + rewrite Zplus_mod_idemp_l. f_equal. lia.
    + reflexivity.
Qed.

Lemma increments_reduced (l : list Bitset) (d : BitsetUInt32Dict) (c : Z) :
  reduced d -> reduced (fold_left (fun d s => increment d s c) l d).
Proof.
  revert d; induction l as [|s l IH]; intros d R; cbn; auto.
  apply IH. now apply increment_reduced.
Qed.

Lemma increments_NoDup (l : list Bitset) (d : BitsetUInt32Dict) (c : Z) :
  NoDup (map fst d) ->
  NoDup (map fst (fold_left (fun d s => increment d s c) l d)).
Proof.
  revert d; induction l as [|s l IH]; intros d R; cbn; auto.
  apply IH. now apply increment_NoDup.
Qed.

Lemma increments_keys (l : list Bitset) (d : BitsetUInt32Dict) (c : Z)
      (k : Bitset) :
  In k (map fst (fold_left (fun d s => increment d s c) l d))
  <-> In k l \/ In k (map fst d).
Proof.
  revert d; induction l as [|s l IH]; intros d; cbn; [tauto|].
  rewrite IH, increment_keys. intuition congruence.
Qed.

(** The rootsplit counter, key by key. *)
Lemma count_rootsplits_value (N : nat) (topologies : TopologyCounter)
      (s : Bitset) :
  counter_value (count_rootsplits N topologies) s
  = total_times (fun t => times_in (rootsplits_of N t) s) topologies mod two32.
Proof.
  unfold count_rootsplits.
  assert (G : forall d,
             reduced d ->
             counter_value
               (fold_left (fun d (iter : Node * Z) =>
                             fold_left (fun d s => increment d s (snd iter))
                                       (rootsplits_of N (fst iter)) d)
                          topologies d) s
             = (counter_value d s
                + total_times (fun t => times_in (rootsplits_of N t) s) topologies)
                 mod two32).
  { induction topologies as [|[t c] ts IH]; intros d R; cbn [fold_left total_times fold_right fst snd].
    - rewrite Z.add_0_r, Z.mod_small; [reflexivity|].
      now apply counter_value_reduced.
    - rewrite IH by now apply increments_reduced.
      rewrite counter_value_increments by exact R.
      rewrite Zplus_mod_idemp_l. f_equal. unfold total_times. lia. }
  rewrite G by constructor. reflexivity.
Qed.

Lemma count_rootsplits_NoDup (N : nat) (topologies : TopologyCounter) :
  NoDup (map fst (count_rootsplits N topologies)).
Proof.
  unfold count_rootsplits. generalize (@NoDup_nil Bitset).
  change (@nil Bitset) with (map fst (@nil (Bitset * Z))).
  generalize (@nil (Bitset * Z)).
  induction topologies as [|[t c] ts IH]; intros d ND; cbn [fold_left]; auto.
  apply IH. now apply increments_NoDup.
Qed.

Lemma count_rootsplits_keys (N : nat) (topologies : TopologyCounter)
      (k : Bitset) :
  In k (map fst (count_rootsplits N topologies))
  <-> exists iter, In iter topologies /\ In k (rootsplits_of N (fst iter)).
Proof.
  unfold count_rootsplits.
  assert (G : forall d,
             In k (map fst
                     (fold_left (fun d (iter : Node * Z) =>
                                   fold_left (fun d s => increment d s (snd iter))
                                             (rootsplits_of N (fst iter)) d)
                                topologies d))
             <-> (exists iter, In iter topologies
                               /\ In k (rootsplits_of N (fst iter)))
                 \/ In k (map fst d)).
  { induction topologies as [|[t c] ts IH]; intros d; cbn [fold_left].
    - split; [tauto|]. intros [(iter & [] & _)|I]; exact I.
    - rewrite IH, increments_keys. cbn [fst snd]. split.
      + intros [(iter & I & Hk)|[Hk|Hk]].
        * left. exists iter. split; [now right|exact Hk].
        * left. exists (t, c). split; [now left|exact Hk].
        * now right.
      + intros [(iter & [<-|I] & Hk)|Hk].
        * right. now left.
        * left. eauto.
        * right. now right. }
  rewrite G. cbn. tauto.
Qed.

(* ================================================================== *)
(** * What [PCSS_insert] does to a PCSS counter *)

Lemma pair_eqb_eq (a b : Bitset * Bitset) : pair_eqb a b = true <-> a = b.
Proof.
  destruct a, b. unfold pair_eqb. cbn. rewrite andb_true_iff, !Bitset_eqb_eq.
  split; [intros []; congruence|]. intros E; inversion E; auto.
Qed.

Lemma pcss_value_insert (d : PCSSDict) (p ch : Bitset) (c : Z) (p' ch' : Bitset) :
  pcss_value (PCSS_insert d p ch c) p' ch'
  = if pair_eqb (p', ch') (p, ch) then (pcss_value d p' ch' + c) mod two32
    else pcss_value d p' ch'.
Proof.
  unfold pcss_value, pair_eqb. cbn [fst snd].
  induction d as [|[p0 cc] d IH]; cbn.
  - destruct (Bitset_eqb p' p); cbn; [|reflexivity].
    unfold counter_value. cbn. destruct (Bitset_eqb ch' ch); reflexivity.
  - destruct (Bitset_eqb p p0) eqn:E; cbn.
    + apply Bitset_eqb_eq in E. subst p0.
      destruct (Bitset_eqb p' p); cbn; [|reflexivity].
      apply counter_value_increment.
    + destruct (Bitset_eqb p' p0) eqn:E'.
      * apply Bitset_eqb_eq in E'. subst p0.
        destruct (Bitset_eqb p' p) eqn:E''; [|reflexivity].
        apply Bitset_eqb_eq in E''. subst. rewrite Bitset_eqb_refl in E.
        discriminate.
      * exact IH.
Qed.

Lemma PCSS_insert_reduced (d : PCSSDict) (p ch : Bitset) (c : Z) :
  reduced_pcss d -> reduced_pcss (PCSS_insert d p ch c).
Proof.
  unfold reduced_pcss. induction d as [|[p0 cc] d IH]; cbn; intros R.
  - repeat constructor; cbn; apply Z.mod_pos_bound, two32_pos.
  - inversion R as [|? ? R0 R']; subst.
    destruct (Bitset_eqb p p0); constructor; auto.
    cbn. now apply increment_reduced.
Qed.

Lemma pcss_value_reduced (d : PCSSDict) (p ch : Bitset) :
  reduced_pcss d -> 0 <= pcss_value d p ch < two32.
Proof.
  unfold reduced_pcss, pcss_value. induction d as [|[p0 cc] d IH]; cbn; intros R.
  - pose proof two32_pos. lia.
  - inversion R as [|? ? R0 R']; subst. destruct (Bitset_eqb p p0); auto.
    now apply counter_value_reduced.
Qed.

Lemma PCSS_inserts_reduced (l : list (Bitset * Bitset)) (d : PCSSDict) (c : Z) :
  reduced_pcss d ->
  reduced_pcss (fold_left (fun d pc => PCSS_insert d (fst pc) (snd pc) c) l d).
Proof.
  revert d; induction l as [|s l IH]; intros d R; cbn; auto.
  apply IH. now apply PCSS_insert_reduced.
Qed.

Lemma pcss_value_inserts (l : list (Bitset * Bitset)) (d : PCSSDict) (c : Z)
      (p ch : Bitset) :
  reduced_pcss d ->
  pcss_value (fold_left (fun d pc => PCSS_insert d (fst pc) (snd pc) c) l d) p ch
  = (pcss_value d p ch + c * pair_times_in l (p, ch)) mod two32.
Proof.
  unfold pair_times_in. revert d; induction l as [|[p0 c0] l IH]; intros d R; cbn.
  - rewrite Z.mul_0_r, Z.add_0_r, Z.mod_small; [reflexivity|].
    now apply pcss_value_reduced.
  - rewrite IH by now apply PCSS_insert_reduced.
    rewrite pcss_value_insert.
    destruct (pair_eqb (p, ch) (p0, c0)); cbn [length].
    + rewrite Zplus_mod_idemp_l. f_equal. lia.
    + reflexivity.
Qed.

(** The PCSS counter, pair by pair. *)
Lemma count_pcss_value (N : nat) (topologies : TopologyCounter)
      (p ch : Bitset) :
  pcss_value (count_pcss N topologies) p ch
  = total_times (fun t => pair_times_in (pcss_pairs_of N t) (p, ch)) topologies
    mod two32.
Proof.
  unfold count_pcss.
  assert (G : forall d,
             reduced_pcss d ->
             pcss_value
               (fold_left (fun d (iter : Node * Z) =>
                             fold_left (fun d pc =>
                                          PCSS_insert d (fst pc) (snd pc) (snd iter))
                                       (pcss_pairs_of N (fst iter)) d)
                          topologies d) p ch
             = (pcss_value d p ch
                + total_times (fun t => pair_times_in (pcss_pairs_of N t) (p, ch))
                              topologies)
                 mod two32).
  { induction topologies as [|[t c] ts IH]; intros d R;
      cbn [fold_left total_times fold_right fst snd].
    - rewrite Z.add_0_r, Z.mod_small; [reflexivity|].
      now apply pcss_value_reduced.
    - rewrite IH by now apply PCSS_inserts_reduced.
      rewrite pcss_value_inserts by exact R.
      rewrite Zplus_mod_idemp_l. f_equal. unfold total_times. lia. }
  rewrite G by constructor. reflexivity.
Qed.

Lemma PCSS_insert_entries (d : PCSSDict) (p ch : Bitset) (c : Z)
      (pc : Bitset * Bitset) :
  In pc (pcss_entries (PCSS_insert d p ch c))
  <-> pc = (p, ch) \/ In pc (pcss_entries d).
Proof.
  unfold pcss_entries. induction d as [|[p0 cc] d IH]; cbn [PCSS_insert flat_map].
  - cbn. intuition congruence.
  - destruct (Bitset_eqb p p0) eqn:E; cbn [flat_map fst snd].
    + apply Bitset_eqb_eq in E. subst p0. rewrite !in_app_iff, !in_map_iff.
      split.
      * intros [(x & <- & I)|I]; [|tauto].
        apply (in_map fst) in I. apply increment_keys in I.
        destruct I as [->|I]; [now left|]. right. left.
        apply in_map_iff in I. destruct I as (y & Ey & Iy).
        exists y. split; [now rewrite Ey|exact Iy].
      * intros [->|[(x & <- & I)|I]].
        -- left. assert (H : In ch (map fst (increment cc ch c)))
             by (apply increment_keys; now left).
           apply in_map_iff in H. destruct H as (y & Ey & Iy).
           exists y. split; [now rewrite Ey|exact Iy].
        -- left. assert (H : In (fst x) (map fst (increment cc ch c)))
             by (apply increment_keys; right; now apply in_map).
           apply in_map_iff in H. destruct H as (y & Ey & Iy).
           exists y. split; [now rewrite Ey|exact Iy].
        -- now right.
    + rewrite !in_app_iff, IH. tauto.
Qed.

Lemma PCSS_insert_parents (d : PCSSDict) (p ch : Bitset) (c : Z) (p' : Bitset) :
  In p' (map fst (PCSS_insert d p ch c)) <-> p' = p \/ In p' (map fst d).
Proof.
  induction d as [|[p0 cc] d IH]; cbn.
  - intuition congruence.
  - destruct (Bitset_eqb p p0) eqn:E; cbn.
    + apply Bitset_eqb_eq in E. subst. intuition congruence.
    + rewrite IH. intuition congruence.
Qed.

Lemma PCSS_insert_well_keyed (d : PCSSDict) (p ch : Bitset) (c : Z) :
  pcss_well_keyed d -> pcss_well_keyed (PCSS_insert d p ch c).
Proof.
  unfold pcss_well_keyed. induction d as [|[p0 cc] d IH]; cbn; intros [ND F].
  - split; repeat constructor; cbn; auto.
  - inversion ND as [|? ? N0 ND']; subst. inversion F as [|? ? F0 F']; subst.
    destruct (Bitset_eqb p p0) eqn:E; cbn.
    + split; [now constructor|]. constructor; [|exact F'].
      cbn. now apply increment_NoDup.
    + destruct (IH (conj ND' F')) as [ND2 F2].
      split; [|now constructor]. constructor; [|exact ND2].
      rewrite PCSS_insert_parents. intros [->|I]; [|tauto].
      rewrite Bitset_eqb_refl in E. discriminate.
Qed.

Lemma count_pcss_well_keyed (N : nat) (topologies : TopologyCounter) :
  pcss_well_keyed (count_pcss N topologies).
Proof.
  unfold count_pcss.
  assert (W0 : pcss_well_keyed []) by (split; constructor).
  revert W0. generalize (@nil (Bitset * BitsetUInt32Dict)).
  induction topologies as [|[t c] ts IH]; intros d W; cbn [fold_left]; auto.
  apply IH. cbn [fst snd]. generalize (pcss_pairs_of N t). intros l.
  revert d W; induction l as [|pc l IHl]; intros d W; cbn; auto.
  apply IHl. now apply PCSS_insert_well_keyed.
Qed.

Lemma count_pcss_entries (N : nat) (topologies : TopologyCounter)
      (pc : Bitset * Bitset) :
  In pc (pcss_entries (count_pcss N topologies))
  <-> exists iter, In iter topologies /\ In pc (pcss_pairs_of N (fst iter)).
Proof.
  unfold count_pcss.
  assert (L : forall l c d,
             In pc (pcss_entries
                      (fold_left (fun d pc => PCSS_insert d (fst pc) (snd pc) c) l d))
             <-> In pc l \/ In pc (pcss_entries d)).
  { induction l as [|[p0 c0] l IHl]; intros c d; cbn [fold_left]; [cbn; tauto|].
    rewrite IHl, PCSS_insert_entries. cbn. intuition congruence. }
  assert (G : forall d,
             In pc (pcss_entries
                      (fold_left (fun d (iter : Node * Z) =>
                                    fold_left (fun d pc =>
                                                 PCSS_insert d (fst pc) (snd pc)
                                                             (snd iter))
                                              (pcss_pairs_of N (fst iter)) d)
                                 topologies d))
             <-> (exists iter, In iter topologies
                               /\ In pc (pcss_pairs_of N (fst iter)))
                 \/ In pc (pcss_entries d)).
  { induction topologies as [|[t c] ts IH]; intros d; cbn [fold_left].
    - split; [tauto|]. intros [(iter & [] & _)|I]; exact I.
    - rewrite IH, L. cbn [fst snd]. split.
      + intros [(iter & I & Hk)|[Hk|Hk]].
        * left. exists iter. split; [now right|exact Hk].
        * left. exists (t, c). split; [now left|exact Hk].
        * now right.
      + intros [(iter & [<-|I] & Hk)|Hk].
        * right. now left.
        * left. eauto.
        * right. now right. }
  rewrite G. cbn. tauto.
Qed.

(* ================================================================== *)
(** * Every edge has its own rootsplit *)

Lemma has_leaf_false (u : Node) (z : Z) :
  ~ In z (leaf_ids u) -> has_leaf u z = false.
Proof.
  intros N. destruct (has_leaf u z) eqn:E; [|reflexivity].
  apply has_leaf_In in E. contradiction.
Qed.

Lemma has_leaf_true (u : Node) (z : Z) :
  In z (leaf_ids u) -> has_leaf u z = true.
Proof. apply has_leaf_In. Qed.

Lemma has_chunk (N : nat) (u : Node) (d : bool) (z : Z) :
  (forall j, In j (leaf_ids u) -> 0 <= j < Z.of_nat N) ->
  0 <= z < Z.of_nat N ->
  has (chunk N u d) (Z.to_nat z) = xorb d (has_leaf u z).
Proof.
  intros R Hz. unfold chunk. destruct d.
  - rewrite has_flip by (rewrite clade_length; lia).
    rewrite has_clade by (auto; lia). rewrite Z2Nat.id by lia.
    now destruct (has_leaf u z).
  - rewrite has_clade by (auto; lia). rewrite Z2Nat.id by lia.
    now destruct (has_leaf u z).
Qed.

Lemma chunk_neq (N : nat) (u u' : Node) (d d' : bool) (z : Z) :
  (forall j, In j (leaf_ids u) -> 0 <= j < Z.of_nat N) ->
  (forall j, In j (leaf_ids u') -> 0 <= j < Z.of_nat N) ->
  0 <= z < Z.of_nat N ->
  xorb d (has_leaf u z) <> xorb d' (has_leaf u' z) ->
  chunk N u d <> chunk N u' d'.
Proof.
  intros R R' Hz H E. apply H.
  rewrite <- !(@has_chunk N) by assumption. now rewrite E.
Qed.

Lemma chunk_length (N : nat) (u : Node) (d : bool) : length (chunk N u d) = N.
Proof. unfold chunk. destruct d; now rewrite ?flip_length, clade_length. Qed.

Lemma flip_flip (x : Bitset) : Bitset_flip (Bitset_flip x) = x.
Proof.
  unfold Bitset_flip. rewrite map_map. rewrite <- (map_id x) at 2.
  apply map_ext. intros []; reflexivity.
Qed.

Lemma Minorize_flip (x : Bitset) :
  x <> [] -> Minorize (Bitset_flip x) = Minorize x.
Proof.
  destruct x as [|[] x]; [congruence| |]; intros _.
  - reflexivity.
  - change (Minorize (Bitset_flip (false :: x)))
      with (Bitset_flip (Bitset_flip (false :: x))).
    now rewrite flip_flip.
Qed.

Lemma Minorize_chunk (N : nat) (u : Node) (d : bool) :
  (0 < N)%nat -> Minorize (chunk N u d) = rootsplit_of N u.
Proof.
  intros H. unfold chunk, rootsplit_of. destruct d; [|reflexivity].
  apply Minorize_flip. intros E. apply (f_equal (@length _)) in E.
  rewrite clade_length in E. cbn in E. lia.
Qed.

Lemma rootsplit_of_chunk (N : nat) (u : Node) :
  exists d, rootsplit_of N u = chunk N u d.
Proof.
  unfold rootsplit_of, Minorize. destruct (clade N u) as [|[] x] eqn:E.
  - exists false. unfold chunk. now rewrite E.
  - exists true. unfold chunk. now rewrite E.
  - exists false. unfold chunk. now rewrite E.
Qed.

(** Two nodes whose leaf sets differ and leave out a common taxon have
    different rootsplits. *)
Lemma rootsplit_of_neq (N : nat) (u u' : Node) (z j : Z) :
  (forall i, In i (leaf_ids u) -> 0 <= i < Z.of_nat N) ->
  (forall i, In i (leaf_ids u') -> 0 <= i < Z.of_nat N) ->
  0 <= z < Z.of_nat N -> 0 <= j < Z.of_nat N ->
  has_leaf u z <> has_leaf u' z ->
  has_leaf u j = false -> has_leaf u' j = false ->
  rootsplit_of N u <> rootsplit_of N u'.
Proof.
  intros R R' Hz Hj Dz Ej Ej'.
  destruct (rootsplit_of_chunk N u) as [d ->].
  destruct (rootsplit_of_chunk N u') as [d' ->].
  destruct (Bool.bool_dec d d') as [<-|Nd].
  - apply chunk_neq with z; auto.
    destruct d, (has_leaf u z), (has_leaf u' z); cbn; congruence.
  - apply chunk_neq with j; auto. rewrite Ej, Ej'.
    destruct d, d'; cbn; congruence.
Qed.

Lemma inside_children (N : nat) (a b : Node) (idx : Z) (tag : Z * Z) (h : Z) :
  inside N (MkNode [a; b] idx tag h) ->
  inside N a /\ inside N b
  /\ (forall z, In z (leaf_ids a) -> In z (leaf_ids b) -> False)
  /\ (forall z, In z (leaf_ids (MkNode [a; b] idx tag h))
                <-> In z (leaf_ids a) \/ In z (leaf_ids b)).
Proof.
  intros (B & ND & R). cbn in B, ND, R. rewrite app_nil_r in *.
  apply andb_true_iff in B. destruct B as [Ba Bb].
  assert (L : forall z, In z (leaf_ids (MkNode [a; b] idx tag h))
                        <-> In z (leaf_ids a) \/ In z (leaf_ids b)).
  { intros z. cbn. rewrite app_nil_r. apply in_app_iff. }
  split; [|split; [|split]].
  - split; [exact Ba|split].
    + eapply NoDup_app_remove_r, ND.
    + intros i I. apply R, in_or_app. now left.
  - split; [exact Bb|split].
    + eapply NoDup_app_remove_l, ND.
    + intros i I. apply R, in_or_app. now right.
  - intros z Ia Ib. eapply NoDup_app_disjoint; eauto.
  - exact L.
Qed.

Lemma inside_subnode (N : nat) (v u : Node) :
  In u (PreOrder v) -> inside N v -> inside N u.
Proof.
  intros I (B & ND & R). split; [|split].
  - eapply bifurcating_subnode; eauto.
  - eapply NoDup_leaf_ids_subnode; eauto.
  - intros i Ii. now apply R, (leaf_ids_subnode _ _ I).
Qed.

Lemma some_leaf (v : Node) : exists z, In z (leaf_ids v).
Proof.
  pose proof (leaf_ids_nonempty v). destruct (leaf_ids v) as [|z l];
    [contradiction|]. exists z. now left.
Qed.

(** Nodes of two subtrees with disjoint leaves, both missing taxon [j],
    have different rootsplits. *)
Lemma rootsplits_apart (N : nat) (a b : Node) (j : Z) :
  inside N a -> inside N b ->
  (forall z, In z (leaf_ids a) -> In z (leaf_ids b) -> False) ->
  0 <= j < Z.of_nat N -> ~ In j (leaf_ids a) -> ~ In j (leaf_ids b) ->
  forall s, In s (map (rootsplit_of N) (PreOrder a)) ->
            ~ In s (map (rootsplit_of N) (PreOrder b)).
Proof.
  intros Ia Ib D Hj Ja Jb s I1 I2.
  apply in_map_iff in I1. destruct I1 as (u & <- & Iu).
  apply in_map_iff in I2. destruct I2 as (u' & E & Iu').
  destruct (some_leaf u) as [z Iz].
  pose proof (leaf_ids_subnode _ _ Iu) as Su.
  pose proof (leaf_ids_subnode _ _ Iu') as Su'.
  destruct (@inside_subnode N _ _ Iu Ia) as (_ & _ & Ru).
  destruct (@inside_subnode N _ _ Iu' Ib) as (_ & _ & Ru').
  symmetry in E. revert E. apply rootsplit_of_neq with z j; auto.
  - rewrite (has_leaf_true _ _ Iz), has_leaf_false; [discriminate|].
    intros I. apply (D z); auto.
  - apply has_leaf_false. intros I. apply Ja. now apply Su.
  - apply has_leaf_false. intros I. apply Jb. now apply Su'.
Qed.

Lemma NoDup_rootsplits_subtree (N : nat) (v : Node) (j : Z) :
  inside N v -> 0 <= j < Z.of_nat N -> ~ In j (leaf_ids v) ->
  NoDup (map (rootsplit_of N) (PreOrder v)).
Proof.
  induction v as [cs idx tag h IH] using Node_ind. intros Iv Hj Jv.
  destruct Iv as (B & ND & R). pose proof (conj B (conj ND R)) as Iv.
  cbn in B. destruct cs as [|a [|b [|]]]; try discriminate.
  - cbn. repeat constructor. intros [].
  - destruct (inside_children Iv) as (Ia & Ib & D & L).
    inversion IH as [|? ? IHa IH']; subst. inversion IH' as [|? ? IHb _]; subst.
    assert (Ja : ~ In j (leaf_ids a)) by (intros I; apply Jv, L; now left).
    assert (Jb : ~ In j (leaf_ids b)) by (intros I; apply Jv, L; now right).
    cbn [PreOrder flat_map]. rewrite app_nil_r. cbn [map]. constructor.
    + rewrite map_app, in_app_iff. intros [I|I];
        apply in_map_iff in I; destruct I as (u & E & Iu); revert E.
      * destruct (some_leaf b) as [z Iz].
        destruct (@inside_subnode N _ _ Iu Ia) as (_ & _ & Ru).
        pose proof (leaf_ids_subnode _ _ Iu) as Su.
        assert (Hz : 0 <= z < Z.of_nat N) by (apply R, L; now right).
        apply rootsplit_of_neq with z j; auto.
        -- rewrite (@has_leaf_true (MkNode [a; b] idx tag h)) by (apply L; now right).
           rewrite has_leaf_false; [discriminate|].
           intros I. apply (D z); auto.
        -- apply has_leaf_false. intros I. apply Ja. now apply Su.
        -- now apply has_leaf_false.
      * destruct (some_leaf a) as [z Iz].
        destruct (@inside_subnode N _ _ Iu Ib) as (_ & _ & Ru).
        pose proof (leaf_ids_subnode _ _ Iu) as Su.
        assert (Hz : 0 <= z < Z.of_nat N) by (apply R, L; now left).
        apply rootsplit_of_neq with z j; auto.
        -- rewrite (@has_leaf_true (MkNode [a; b] idx tag h)) by (apply L; now left).
           rewrite has_leaf_false; [discriminate|].
           intros I. apply (D z); auto.
        -- apply has_leaf_false. intros I. apply Jb. now apply Su.
        -- now apply has_leaf_false.
    + rewrite map_app. apply NoDup_app; auto.
      now apply rootsplits_apart with j.
Qed.

Lemma unrooted_children (N : nat) (t : Node) :
  unrooted N t ->
  exists c0 c1 c2,
    Children t = [c0; c1; c2]
    /\ inside N c0 /\ inside N c1 /\ inside N c2
    /\ (forall z, In z (leaf_ids c0) -> In z (leaf_ids c1) -> False)
    /\ (forall z, In z (leaf_ids c0) -> In z (leaf_ids c2) -> False)
    /\ (forall z, In z (leaf_ids c1) -> In z (leaf_ids c2) -> False).
Proof.
  intros U. destruct (u_shape U) as (c0 & c1 & c2 & E & B0 & B1 & B2).
  exists c0, c1, c2. split; [exact E|].
  pose proof (u_nodup U) as ND. pose proof (u_range U) as R.
  destruct t as [cs idx tag h]. cbn in E. subst cs. cbn in ND, R.
  rewrite app_nil_r in *.
  assert (J0 : inside N c0).
  { split; [exact B0|split].
    - eapply NoDup_app_remove_r, ND.
    - intros i I. apply R. rewrite !in_app_iff. auto. }
  assert (J1 : inside N c1).
  { split; [exact B1|split].
    - eapply NoDup_app_remove_r, NoDup_app_remove_l, ND.
    - intros i I. apply R. rewrite !in_app_iff. auto. }
  assert (J2 : inside N c2).
  { split; [exact B2|split].
    - eapply NoDup_app_remove_l, NoDup_app_remove_l, ND.
    - intros i I. apply R. rewrite !in_app_iff. auto. }
  split; [exact J0|]. split; [exact J1|]. split; [exact J2|].
  split; [|split].
  - intros z I0 I1. eapply NoDup_app_disjoint; [exact ND|exact I0|].
    apply in_or_app. now left.
  - intros z I0 I2. eapply NoDup_app_disjoint; [exact ND|exact I0|].
    apply in_or_app. now right.
  - intros z I1 I2. apply NoDup_app_remove_l in ND.
    eapply NoDup_app_disjoint; eauto.
Qed.

(** C3, first half of the proof: in an unrooted topology the rootsplits of
    the edges are pairwise different. *)
Lemma NoDup_rootsplits_of (N : nat) (t : Node) :
  unrooted N t -> NoDup (rootsplits_of N t).
Proof.
  intros U.
  destruct (unrooted_children U) as (c0 & c1 & c2 & E & I0 & I1 & I2 & D01 & D02 & D12).
  unfold rootsplits_of, rootsplit_nodes. rewrite E. cbn [flat_map].
  rewrite app_nil_r.
  destruct (some_leaf c0) as [z0 Z0]. destruct (some_leaf c1) as [z1 Z1].
  destruct (some_leaf c2) as [z2 Z2].
  assert (R0 : 0 <= z0 < Z.of_nat N) by (now apply I0).
  assert (R1 : 0 <= z1 < Z.of_nat N) by (now apply I1).
  assert (R2 : 0 <= z2 < Z.of_nat N) by (now apply I2).
  rewrite !map_app. apply NoDup_app; [|apply NoDup_app|].
  - apply NoDup_rootsplits_subtree with z1; auto. intros I. eapply D01; eauto.
  - apply NoDup_rootsplits_subtree with z0; auto. intros I. eapply D01; eauto.
  - apply NoDup_rootsplits_subtree with z0; auto. intros I. eapply D02; eauto.
  - apply rootsplits_apart with z0; auto; intros I; [eapply D01|eapply D02]; eauto.
  - intros s Is. rewrite in_app_iff. intros [I|I]; revert I.
    + apply rootsplits_apart with (a := c0) (j := z2); auto;
        intros I; [eapply D02|eapply D12]; eauto.
    + apply rootsplits_apart with (a := c0) (j := z1); auto;
        intros I; [eapply D01|eapply D12]; eauto.
Qed.

(* ================================================================== *)
(** * Every call has its own parent subsplit *)

Lemma app_inj_length {A : Type} (x x' y y' : list A) :
  length x = length x' -> x ++ y = x' ++ y' -> x = x' /\ y = y'.
Proof.
  revert x'; induction x as [|a x IH]; intros [|a' x'] L E; cbn in *;
    try discriminate; [tauto|].
  inversion E; subst. destruct (IH x') as [-> ->]; auto.
Qed.

Lemma pcss_parent_focal (N : nat) (c : PCSSCall) :
  (0 < N)%nat ->
  Minorize (skipn N (pcss_parent N c)) = rootsplit_of N (focal_node c).
Proof.
  intros H. unfold pcss_parent.
  rewrite skipn_app, chunk_length, Nat.sub_diag, skipn_all2
    by (rewrite chunk_length; lia).
  cbn [skipn app]. now apply Minorize_chunk.
Qed.

Lemma keyed_app (N : nat) (l1 l2 : list PCSSCall) (n1 n2 : list Node) :
  (0 < N)%nat ->
  keyed N l1 n1 -> keyed N l2 n2 ->
  NoDup (map (rootsplit_of N) (n1 ++ n2)) ->
  keyed N (l1 ++ l2) (n1 ++ n2).
Proof.
  intros HN [ND1 F1] [ND2 F2] ND. split.
  - rewrite map_app. apply NoDup_app; auto.
    intros p I1 I2.
    apply in_map_iff in I1. destruct I1 as (c1 & E1 & I1).
    apply in_map_iff in I2. destruct I2 as (c2 & E2 & I2).
    rewrite map_app in ND.
    apply (NoDup_app_disjoint _ _ (rootsplit_of N (focal_node c1)) ND).
    + apply in_map. auto.
    + rewrite <- (pcss_parent_focal c1 HN), E1, <- E2, (pcss_parent_focal c2 HN).
      apply in_map. auto.
  - intros c I. apply in_app_iff in I. apply in_or_app. destruct I; auto.
Qed.

Lemma keyed_nil (N : nat) : keyed N [] [].
Proof. split; [constructor|intros c []]. Qed.

Lemma six_parents_NoDup (N : nat) (S nS A B C0 C1 : Bitset) :
  length S = N -> length nS = N -> length A = N -> length B = N ->
  length C0 = N -> length C1 = N ->
  S <> nS -> A <> B -> A <> nS -> B <> nS -> C0 <> C1 -> C0 <> S -> C1 <> S ->
  NoDup [S ++ nS; A ++ S; B ++ S; nS ++ S; C1 ++ nS; C0 ++ nS].
Proof.
  intros LS LnS LA LB LC0 LC1 H1 H2 H3 H4 H5 H6 H7.
  repeat constructor; cbn [In]; intros I;
    repeat (destruct I as [I|I]; [apply app_inj_length in I; [|congruence];
                                  destruct I; congruence|]);
    exact I.
Qed.

Lemma chunk_neq_at (N : nat) (u u' : Node) (d d' : bool) (z : Z) (b b' : bool) :
  (forall j, In j (leaf_ids u) -> 0 <= j < Z.of_nat N) ->
  (forall j, In j (leaf_ids u') -> 0 <= j < Z.of_nat N) ->
  0 <= z < Z.of_nat N ->
  has_leaf u z = b -> has_leaf u' z = b' ->
  xorb d b <> xorb d' b' ->
  chunk N u d <> chunk N u' d'.
Proof.
  intros R R' Hz E E' H. apply chunk_neq with z; auto. now rewrite E, E'.
Qed.

Ltac neq_at z b b' :=
  apply chunk_neq_at with z b b'; [auto|auto|auto| | |cbn; discriminate].

(** The calls of the internal lambda for one focal node. *)
Lemma internal_group_keyed (N : nat) (p s n : Node) (j : Z) :
  inside N n -> inside N s ->
  (forall z, In z (leaf_ids p) -> 0 <= z < Z.of_nat N) ->
  (forall z, In z (leaf_ids n) -> In z (leaf_ids p)) ->
  (forall z, In z (leaf_ids s) -> In z (leaf_ids p)) ->
  (forall z, In z (leaf_ids n) -> In z (leaf_ids s) -> False) ->
  0 <= j < Z.of_nat N -> ~ In j (leaf_ids p) ->
  exists g, PCSS_f_internal p s n = Ok g /\ keyed N g [n].
Proof.
  intros In_ Is Rp Snp Ssp D Hj Jp.
  destruct In_ as (Bn & NDn & Rn). pose proof (conj Bn (conj NDn Rn)) as In_.
  destruct Is as (Bs & NDs & Rs).
  destruct (some_leaf s) as [zs Zs].
  assert (Hzs : 0 <= zs < Z.of_nat N) by now apply Rs.
  assert (Jn : ~ In j (leaf_ids n)) by (intros I; apply Jp; auto).
  assert (Js : ~ In j (leaf_ids s)) by (intros I; apply Jp; auto).
  assert (E0 : chunk N n false <> chunk N n true).
  { apply chunk_neq with j; auto. now destruct (has_leaf n j). }
  unfold PCSS_f_internal. destruct n as [cs idx tag h]. cbn in Bn.
  destruct cs as [|a [|b [|]]]; try discriminate; cbn [Children].
  - eexists. split; [reflexivity|]. split.
    + cbn. repeat constructor. intros [].
    + intros c [<-|[]]. now left.
  - destruct (inside_children In_) as (Ia & Ib & Dab & L).
    destruct Ia as (_ & _ & Ra). destruct Ib as (_ & _ & Rb).
    destruct (some_leaf a) as [za Za]. destruct (some_leaf b) as [zb Zb].
    assert (Hza : 0 <= za < Z.of_nat N) by now apply Ra.
    assert (Hzb : 0 <= zb < Z.of_nat N) by now apply Rb.
    set (n := MkNode [a; b] idx tag h) in *.
    eexists. split; [reflexivity|]. split.
    + cbn [map]. unfold pcss_parent.
      cbn [sister_node sister_direction focal_node focal_direction].
      apply six_parents_NoDup with N; try apply chunk_length; auto.
      * neq_at zs true true.
        -- now apply has_leaf_true.
        -- apply has_leaf_true; auto.
      * neq_at j false false; now apply has_leaf_false.
      * neq_at zs true false.
        -- apply has_leaf_true; auto.
        -- apply has_leaf_false. intros I. apply (D zs); auto.
      * neq_at za true false.
        -- now apply has_leaf_true.
        -- apply has_leaf_false. intros I. apply (Dab za); auto.
      * neq_at zb false true.
        -- apply has_leaf_false. intros I. apply (Dab zb); auto.
        -- apply has_leaf_true. apply L. now right.
      * neq_at za false true.
        -- apply has_leaf_false. intros I. apply (Dab za); auto.
        -- apply has_leaf_true. apply L. now left.
    + intros c I. cbn in I.
      repeat (destruct I as [<-|I]; [now left|]). contradiction.
Qed.

(** The calls of the root lambda for one focal child of the root. *)
Lemma root_group_keyed (N : nat) (n0 n1 n2 : Node) :
  inside N n0 -> inside N n1 -> inside N n2 ->
  (forall z, In z (leaf_ids n0) -> In z (leaf_ids n1) -> False) ->
  (forall z, In z (leaf_ids n0) -> In z (leaf_ids n2) -> False) ->
  (forall z, In z (leaf_ids n1) -> In z (leaf_ids n2) -> False) ->
  exists g, PCSS_f_root n0 n1 n2 = Ok g /\ keyed N g [n2].
Proof.
  intros I0 I1 I2 D01 D02 D12.
  destruct I0 as (_ & _ & R0). destruct I1 as (_ & _ & R1).
  destruct I2 as (B2 & ND2 & R2). pose proof (conj B2 (conj ND2 R2)) as I2.
  destruct (some_leaf n0) as [z0 Z0]. destruct (some_leaf n1) as [z1 Z1].
  assert (Hz0 : 0 <= z0 < Z.of_nat N) by now apply R0.
  assert (Hz1 : 0 <= z1 < Z.of_nat N) by now apply R1.
  assert (E0 : chunk N n2 false <> chunk N n2 true).
  { apply chunk_neq with z0; auto. now destruct (has_leaf n2 z0). }
  unfold PCSS_f_root. destruct n2 as [cs idx tag h]. cbn in B2.
  destruct cs as [|a [|b [|]]]; try discriminate; cbn [Children].
  - eexists. split; [reflexivity|]. split.
    + cbn. repeat constructor. intros [].
    + intros c [<-|[]]. now left.
  - destruct (inside_children I2) as (Ia & Ib & Dab & L).
    destruct Ia as (_ & _ & Ra). destruct Ib as (_ & _ & Rb).
    destruct (some_leaf a) as [za Za]. destruct (some_leaf b) as [zb Zb].
    assert (Hza : 0 <= za < Z.of_nat N) by now apply Ra.
    assert (Hzb : 0 <= zb < Z.of_nat N) by now apply Rb.
    set (n2 := MkNode [a; b] idx tag h) in *.
    eexists. split; [reflexivity|]. split.
    + cbn [map]. unfold pcss_parent.
      cbn [sister_node sister_direction focal_node focal_direction].
      apply six_parents_NoDup with N; try apply chunk_length; auto.
      * neq_at z0 true false.
        -- now apply has_leaf_true.
        -- apply has_leaf_false. intros I. apply (D01 z0); auto.
      * neq_at z1 false false.
        -- apply has_leaf_false. intros I. apply (D01 z1); auto.
        -- apply has_leaf_false. intros I. apply (D12 z1); auto.
      * neq_at z0 false false.
        -- apply has_leaf_false. intros I. apply (D01 z0); auto.
        -- apply has_leaf_false. intros I. apply (D02 z0); auto.
      * neq_at za true false.
        -- now apply has_leaf_true.
        -- apply has_leaf_false. intros I. apply (Dab za); auto.
      * neq_at zb false true.
        -- apply has_leaf_false. intros I. apply (Dab zb); auto.
        -- apply has_leaf_true. apply L. now right.
      * neq_at za false true.
        -- apply has_leaf_false. intros I. apply (Dab za); auto.
        -- apply has_leaf_true. apply L. now left.
    + intros c I. cbn in I.
      repeat (destruct I as [<-|I]; [now left|]). contradiction.
Qed.

Lemma PreOrder_unfold (v : Node) :
  PreOrder v = v :: flat_map PreOrder (Children v).
Proof. now destruct v. Qed.

Lemma NoDup_map_suffix {A B : Type} (f : A -> B) (l1 l2 : list A) :
  NoDup (map f (l1 ++ l2)) -> NoDup (map f l2).
Proof. rewrite map_app. apply NoDup_app_remove_l. Qed.

Lemma NoDup_map_prefix {A B : Type} (f : A -> B) (l1 l2 : list A) :
  NoDup (map f (l1 ++ l2)) -> NoDup (map f l1).
Proof. rewrite map_app. apply NoDup_app_remove_r. Qed.

(** The calls below a bifurcating subtree: distinct parent subsplits, one
    group per proper descendant. *)
Lemma TriplePreOrderInternal_keyed (N : nat) (v : Node) (j : Z) :
  (0 < N)%nat ->
  inside N v -> 0 <= j < Z.of_nat N -> ~ In j (leaf_ids v) ->
  exists l, TriplePreOrderInternal PCSS_f_internal v = Ok l
            /\ keyed N l (flat_map PreOrder (Children v)).
Proof.
  intros HN. induction v as [cs idx tag h IH] using Node_ind. intros Iv Hj Jv.
  pose proof (NoDup_rootsplits_subtree Iv Hj Jv) as NDr.
  destruct Iv as (B & ND & R). pose proof (conj B (conj ND R)) as Iv.
  cbn in B. destruct cs as [|a [|b [|]]]; try discriminate.
  - exists []. split; [reflexivity|apply keyed_nil].
  - destruct (inside_children Iv) as (Ia & Ib & D & L).
    inversion IH as [|? ? IHa IH']; subst. inversion IH' as [|? ? IHb _]; subst.
    assert (Ja : ~ In j (leaf_ids a)) by (intros I; apply Jv, L; now left).
    assert (Jb : ~ In j (leaf_ids b)) by (intros I; apply Jv, L; now right).
    destruct (IHa Ia Hj Ja) as (la & Ea & Ka).
    destruct (IHb Ib Hj Jb) as (lb & Eb & Kb).
    remember (MkNode [a; b] idx tag h) as v eqn:Ev.
    destruct (@internal_group_keyed N v b a j) as (ga & Ega & Kga); auto.
    { intros z I. apply L. now left. } { intros z I. apply L. now right. }
    destruct (@internal_group_keyed N v a b j) as (gb & Egb & Kgb); auto.
    { intros z I. apply L. now right. } { intros z I. apply L. now left. }
    { intros z I1 I2. apply (D z); auto. }
    exists (ga ++ la ++ gb ++ lb). split.
    + rewrite Ev at 1. cbn [TriplePreOrderInternal]. rewrite <- Ev.
      rewrite Ega. cbn [bind].
      rewrite Ea. cbn [bind]. rewrite Egb. cbn [bind]. rewrite Eb. reflexivity.
    + assert (Cv : Children v = [a; b]) by now subst v.
      rewrite Cv. cbn [flat_map]. rewrite app_nil_r.
      rewrite (PreOrder_unfold v), Cv in NDr. cbn [flat_map map] in NDr.
      rewrite app_nil_r in NDr. apply NoDup_cons_iff in NDr.
      destruct NDr as [_ NDr].
      rewrite (app_assoc ga la).
      apply keyed_app; auto.
      * rewrite (PreOrder_unfold a). change (a :: ?l) with ([a] ++ l).
        apply keyed_app; auto.
        change ([a] ++ ?l) with (a :: l). rewrite <- PreOrder_unfold.
        eapply NoDup_map_prefix, NDr.
      * rewrite (PreOrder_unfold b). change (b :: ?l) with ([b] ++ l).
        apply keyed_app; auto.
        change ([b] ++ ?l) with (b :: l). rewrite <- PreOrder_unfold.
        eapply NoDup_map_suffix, NDr.
Qed.

Lemma three_subtrees_Permutation {A : Type} (c0 c1 c2 : A) (d0 d1 d2 : list A) :
  Permutation (c0 :: d0 ++ c1 :: d1 ++ c2 :: d2)
              (c2 :: c0 :: c1 :: d0 ++ d1 ++ d2).
Proof.
  apply Permutation_sym.
  replace (c0 :: d0 ++ c1 :: d1 ++ c2 :: d2)
    with ((c0 :: d0 ++ c1 :: d1) ++ c2 :: d2)
    by (cbn [app]; now rewrite <- app_assoc).
  apply Permutation_cons_app. cbn [app]. constructor.
  rewrite <- app_assoc. cbn [app]. apply Permutation_cons_app.
  reflexivity.
Qed.

(** C3, second half of the proof: the calls of [PCSSPreOrder] on an
    unrooted topology have pairwise different parent subsplits. *)
Lemma PCSSPreOrder_keyed (N : nat) (t : Node) :
  unrooted N t ->
  exists l, PCSSPreOrder t = Ok l /\ NoDup (map (pcss_parent N) l).
Proof.
  intros U.
  destruct (unrooted_children U)
    as (c0 & c1 & c2 & E & I0 & I1 & I2 & D01 & D02 & D12).
  pose proof (NoDup_rootsplits_of U) as NDr.
  unfold rootsplits_of, rootsplit_nodes in NDr. rewrite E in NDr.
  cbn [flat_map] in NDr. rewrite app_nil_r in NDr.
  destruct (some_leaf c0) as [z0 Z0]. destruct (some_leaf c1) as [z1 Z1].
  destruct (some_leaf c2) as [z2 Z2].
  assert (R0 : 0 <= z0 < Z.of_nat N) by (now apply I0).
  assert (R1 : 0 <= z1 < Z.of_nat N) by (now apply I1).
  assert (R2 : 0 <= z2 < Z.of_nat N) by (now apply I2).
  assert (HN : (0 < N)%nat) by lia.
  destruct (@TriplePreOrderInternal_keyed N c0 z1 HN I0 R1) as (l0 & E0 & K0).
  { intros I. eapply D01; eauto. }
  destruct (@TriplePreOrderInternal_keyed N c1 z0 HN I1 R0) as (l1 & E1 & K1).
  { intros I. eapply D01; eauto. }
  destruct (@TriplePreOrderInternal_keyed N c2 z0 HN I2 R0) as (l2 & E2 & K2).
  { intros I. eapply D02; eauto. }
  destruct (@root_group_keyed N c0 c1 c2) as (g2 & Eg2 & Kg2); auto.
  destruct (@root_group_keyed N c1 c2 c0) as (g0 & Eg0 & Kg0); auto.
  { intros z Ia Ib. eapply D01; eauto. } { intros z Ia Ib. eapply D02; eauto. }
  destruct (@root_group_keyed N c2 c0 c1) as (g1 & Eg1 & Kg1); auto.
  { intros z Ia Ib. eapply D02; eauto. } { intros z Ia Ib. eapply D12; eauto. }
  unfold PCSSPreOrder, TriplePreOrder. rewrite E, Eg2, Eg0, Eg1.
  cbn [bind mapM]. rewrite E0, E1, E2. cbn [bind concat].
  eexists. split; [reflexivity|].
  set (d0 := flat_map PreOrder (Children c0)) in *.
  set (d1 := flat_map PreOrder (Children c1)) in *.
  set (d2 := flat_map PreOrder (Children c2)) in *.
  assert (NDn : NoDup (map (rootsplit_of N)
                           ([c2] ++ [c0] ++ [c1] ++ d0 ++ d1 ++ d2 ++ []))).
  { revert NDr. apply Permutation_NoDup, Permutation_map.
    rewrite !PreOrder_unfold. fold d0 d1 d2. rewrite app_nil_r. cbn [app].
    apply three_subtrees_Permutation. }
  assert (K : keyed N (g2 ++ g0 ++ g1 ++ l0 ++ l1 ++ l2 ++ [])
                    ([c2] ++ [c0] ++ [c1] ++ d0 ++ d1 ++ d2 ++ [])).
  { apply keyed_app; auto.
    apply NoDup_map_suffix in NDn. apply keyed_app; auto.
    apply NoDup_map_suffix in NDn. apply keyed_app; auto.
    apply NoDup_map_suffix in NDn. apply keyed_app; auto.
    apply NoDup_map_suffix in NDn. apply keyed_app; auto.
    apply NoDup_map_suffix in NDn. apply keyed_app; auto.
    apply keyed_nil. }
  apply K.
Qed.

Lemma NoDup_pcss_pairs_of (N : nat) (t : Node) :
  unrooted N t -> NoDup (pcss_pairs_of N t).
Proof.
  intros U. destruct (PCSSPreOrder_keyed U) as (l & E & ND).
  unfold pcss_pairs_of. rewrite E. cbn [calls_of].
  apply (NoDup_map_inv fst). now rewrite map_map.
Qed.

(* ================================================================== *)
(** * The counters add a multiplicity once per topology *)

Section Indicator.
Variable A : Type.
Variable eqb : A -> A -> bool.
Hypothesis eqb_eq : forall a b, eqb a b = true <-> a = b.

Lemma filter_absent (l : list A) (s : A) :
  ~ In s l -> filter (eqb s) l = [].
Proof.
  induction l as [|a l IH]; cbn; [reflexivity|]. intros NI.
  destruct (eqb s a) eqn:E.
  - apply eqb_eq in E. subst. exfalso. apply NI. now left.
  - apply IH. intros I. apply NI. now right.
Qed.

Lemma existsb_absent (l : list A) (s : A) :
  ~ In s l -> existsb (eqb s) l = false.
Proof.
  intros NI. destruct (existsb (eqb s) l) eqn:E; [|reflexivity].
  apply existsb_exists in E. destruct E as (a & I & E).
  apply eqb_eq in E. subst. contradiction.
Qed.

Lemma filter_NoDup_length (l : list A) (s : A) :
  NoDup l ->
  length (filter (eqb s) l) = if existsb (eqb s) l then 1%nat else 0%nat.
Proof.
  induction 1 as [|a l NI ND IH]; cbn; [reflexivity|].
  destruct (eqb s a) eqn:E; cbn.
  - apply eqb_eq in E. subst. now rewrite filter_absent.
  - exact IH.
Qed.
End Indicator.

Lemma times_in_NoDup (l : list Bitset) (s : Bitset) :
  NoDup l -> times_in l s = if existsb (Bitset_eqb s) l then 1 else 0.
Proof.
  intros ND. unfold times_in.
  rewrite (filter_NoDup_length Bitset_eqb Bitset_eqb_eq s ND).
  now destruct (existsb (Bitset_eqb s) l).
Qed.

Lemma pair_times_in_NoDup (l : list (Bitset * Bitset)) (pc : Bitset * Bitset) :
  NoDup l -> pair_times_in l pc = if existsb (pair_eqb pc) l then 1 else 0.
Proof.
  intros ND. unfold pair_times_in.
  rewrite (filter_NoDup_length pair_eqb pair_eqb_eq pc ND).
  now destruct (existsb (pair_eqb pc) l).
Qed.

Lemma total_times_where (times : Node -> Z) (p : Node -> bool)
      (topologies : TopologyCounter) :
  Forall (fun iter : Node * Z =>
            times (fst iter) = if p (fst iter) then 1 else 0) topologies ->
  total_times times topologies = total_where p topologies.
Proof.
  unfold total_times, total_where.
  induction 1 as [|iter l E F IH]; cbn [fold_right]; [reflexivity|].
  rewrite IH, E. destruct (p (fst iter)); lia.
Qed.

(** A bifurcating subtree with [k] leaves has [2k - 1] nodes. *)
Lemma length_PreOrder_bifurcating (v : Node) :
  bifurcating v = true ->
  (length (PreOrder v) + 1 = 2 * length (leaf_ids v))%nat.
Proof.
  induction v as [cs idx tag h IH] using Node_ind. intros B.
  destruct cs as [|a [|b [|c cs]]]; cbn in B; try discriminate.
  - reflexivity.
  - apply andb_true_iff in B. destruct B as [Ba Bb].
    inversion IH as [|? ? Ha IH']; subst. inversion IH' as [|? ? Hb _]; subst.
    specialize (Ha Ba). specialize (Hb Bb).
    cbn [PreOrder leaf_ids flat_map length]. fold PreOrder. fold leaf_ids.
    rewrite !app_nil_r, !length_app. lia.
Qed.

(** An unrooted topology on [N] taxa has [2N - 3] nodes other than the
    root, one per edge. *)
Lemma length_rootsplit_nodes (N : nat) (t : Node) :
  unrooted N t -> (length (rootsplit_nodes t) + 3 = 2 * N)%nat.
Proof.
  intros U. destruct (u_shape U) as (c0 & c1 & c2 & E & B0 & B1 & B2).
  pose proof (u_count U) as C. unfold rootsplit_nodes. rewrite E.
  destruct t as [cs idx tag h]. cbn [Children] in E. subst cs.
  cbn [leaf_ids flat_map] in C |- *.
  rewrite !app_nil_r, !length_app in *.
  apply length_PreOrder_bifurcating in B0, B1, B2. lia.
Qed.

Lemma Forall_unrooted (N : nat) (topologies : TopologyCounter) :
  Forall (fun iter => unrooted_topology N (fst iter) = true) topologies ->
  Forall (fun iter => unrooted N (fst iter)) topologies.
Proof.
  apply Forall_impl. intros iter. apply unrooted_topology_spec.
Qed.

(** The counters stop at the first topology they cannot take: both with
    the failure of [TagBitsetMapOf], which runs first, and [PCSSCounterOf]
    at its guard when the tag map is built and the root is not a
    trifurcation. *)
Lemma counters_stop (N : nat) (before after : TopologyCounter) (t : Node)
      (c : Z) :
  Forall (fun iter => unrooted N (fst iter)) before ->
  (forall msg, TagBitsetMapOf t = Abort msg ->
               RootsplitCounterOf (before ++ (t, c) :: after) = Abort msg
               /\ PCSSCounterOf (before ++ (t, c) :: after) = Abort msg)
  /\ (forall m, TagBitsetMapOf t = Ok m ->
                length (Children t) <> 3%nat ->
                PCSSCounterOf (before ++ (t, c) :: after)
                = Abort "PCSSCounterOf was expecting a tree with a trifurcation at the root!").
Proof.
  intros F. split; [intros msg E; split|intros m E L].
  - unfold RootsplitCounterOf. generalize (@nil (Bitset * Z)).
    induction before as [|[t' c'] ts IH]; intros d; cbn [app foldM].
    + rewrite E. reflexivity.
    + inversion F as [|? ? U F']; subst. cbn [fst snd] in *.
      rewrite (unrooted_TagBitsetMapOf U). cbn [bind].
      rewrite (@rootsplit_loop N) by (auto using rootsplit_nodes_subnodes).
      cbn [bind]. now apply IH.
  - unfold PCSSCounterOf. generalize (@nil (Bitset * BitsetUInt32Dict)).
    induction before as [|[t' c'] ts IH]; intros d; cbn [app foldM].
    + rewrite E. reflexivity.
    + inversion F as [|? ? U F']; subst. cbn [fst snd] in *.
      rewrite (unrooted_TagBitsetMapOf U). cbn [bind].
      destruct (u_shape U) as (c0 & c1 & c2 & Ec & _). rewrite Ec.
      cbn [length Nat.eqb negb].
      rewrite (unrooted_LeafCount U), Nat2Z.id.
      destruct (PCSSPreOrder_ok U) as (calls & Ecalls & Hc).
      rewrite Ecalls. cbn [bind].
      rewrite (@pcss_loop N t') by auto.
      cbn [bind]. now apply IH.
  - unfold PCSSCounterOf. generalize (@nil (Bitset * BitsetUInt32Dict)).
    induction before as [|[t' c'] ts IH]; intros d; cbn [app foldM].
    + rewrite E. cbn [bind].
      destruct (Nat.eqb (length (Children t)) 3) eqn:E3.
      * apply Nat.eqb_eq in E3. contradiction.
      * reflexivity.
    + inversion F as [|? ? U F']; subst. cbn [fst snd] in *.
      rewrite (unrooted_TagBitsetMapOf U). cbn [bind].
      destruct (u_shape U) as (c0 & c1 & c2 & Ec & _). rewrite Ec.
      cbn [length Nat.eqb negb].
      rewrite (unrooted_LeafCount U), Nat2Z.id.
      destruct (PCSSPreOrder_ok U) as (calls & Ecalls & Hc).
      rewrite Ecalls. cbn [bind].
      rewrite (@pcss_loop N t') by auto.
      cbn [bind]. now apply IH.
Qed.

(** C3, as stated, fails on the rooted example (0,(1,(2,3))): its root has
    two children, so the edge through the root is visited from both sides
    and its rootsplit 0111 receives the multiplicity twice, while
    [PCSSCounterOf] stops at its guard. *)
Lemma bifurcating_root_is_counted_twice :
  RootsplitCounterOf [(example_topology 3, 1)]
  = Ok [([false; true; true; true], 2); ([false; true; false; false], 1);
        ([false; false; true; true], 1); ([false; false; true; false], 1);
        ([false; false; false; true], 1)]
  /\ PCSSCounterOf [(example_topology 3, 1)]
     = Abort "PCSSCounterOf was expecting a tree with a trifurcation at the root!".
Proof.
  split; vm_compute; reflexivity.
Qed.

(** C3 (amended): when every topology of the counter is an unrooted
    topology on the taxa 0..N-1 (three bifurcating subtrees under the
    root), both counters return; a topology has 2N-3 rootsplits, one per
    edge and all different, and its parent-child pairs are all different;
    the value a counter ends with for a rootsplit (for a parent-child
    pair) is the sum, modulo 2^32, of the multiplicities of the topologies
    that have it, each multiplicity taken once.  When such topologies are
    followed by one that is not: if [TagBitsetMapOf] fails on it, both
    counters stop with that failure; if its tag map is built and its root
    does not have three children, [PCSSCounterOf] stops with its guard
    message. *)
Theorem counters_add_multiplicity_once (N : nat) (topologies : TopologyCounter) :
  Forall (fun iter => unrooted_topology N (fst iter) = true) topologies ->
  (exists rootsplit_counter pcss_counter,
    RootsplitCounterOf topologies = Ok rootsplit_counter
    /\ PCSSCounterOf topologies = Ok pcss_counter
    /\ Forall (fun iter : Node * Z =>
                 (length (rootsplits_of N (fst iter)) + 3 = 2 * N)%nat
                 /\ NoDup (rootsplits_of N (fst iter))
                 /\ NoDup (pcss_pairs_of N (fst iter))) topologies
    /\ (forall s,
           counter_value rootsplit_counter s
           = total_where (fun t => existsb (Bitset_eqb s) (rootsplits_of N t))
                         topologies mod two32)
    /\ (forall parent child,
           pcss_value pcss_counter parent child
           = total_where (fun t => existsb (pair_eqb (parent, child))
                                           (pcss_pairs_of N t))
                         topologies mod two32))
  /\ (forall (t : Node) (c : Z) (after : TopologyCounter),
        (forall msg,
            TagBitsetMapOf t = Abort msg ->
            RootsplitCounterOf (topologies ++ (t, c) :: after) = Abort msg
            /\ PCSSCounterOf (topologies ++ (t, c) :: after) = Abort msg)
        /\ (forall m,
               TagBitsetMapOf t = Ok m ->
               length (Children t) <> 3%nat ->
               PCSSCounterOf (topologies ++ (t, c) :: after)
               = Abort "PCSSCounterOf was expecting a tree with a trifurcation at the root!")).
Proof.
  intros F. apply Forall_unrooted in F. split.
  2:{ intros t c after. now apply counters_stop with N. }
  exists (count_rootsplits N topologies), (count_pcss N topologies).
  split; [now apply RootsplitCounterOf_closed|].
  split; [now apply PCSSCounterOf_closed|].
  split.
  { revert F. apply Forall_impl. intros iter U.
    split; [|split].
    - unfold rootsplits_of. rewrite length_map.
      now apply length_rootsplit_nodes.
    - now apply NoDup_rootsplits_of.
    - now apply NoDup_pcss_pairs_of. }
  split.
  - intros s. rewrite count_rootsplits_value. f_equal.
    apply total_times_where. revert F. apply Forall_impl. intros iter U.
    apply times_in_NoDup. now apply NoDup_rootsplits_of.
  - intros parent child. rewrite count_pcss_value. f_equal.
    apply total_times_where. revert F. apply Forall_impl. intros iter U.
    apply pair_times_in_NoDup. now apply NoDup_pcss_pairs_of.
Qed.

Lemma counters_add_multiplicity_once_witness :
  (exists rootsplit_counter pcss_counter,
    RootsplitCounterOf [(example_topology 0, 2); (example_topology 2, 1)]
    = Ok rootsplit_counter
    /\ PCSSCounterOf [(example_topology 0, 2); (example_topology 2, 1)]
       = Ok pcss_counter
    /\ counter_value rootsplit_counter [false; false; true; true] = 2
    /\ counter_value rootsplit_counter [false; true; false; false] = 3
    /\ pcss_value pcss_counter
                  [true; false; false; false; false; true; true; true]
                  [false; false; true; true] = 2)
  /\ PCSSCounterOf [(example_topology 0, 2); (example_topology 2, 1);
                    (example_topology 3, 1)]
     = Abort "PCSSCounterOf was expecting a tree with a trifurcation at the root!"
  /\ RootsplitCounterOf [(example_topology 0, 2); (example_topology 2, 1);
                         (MkNode [Leaf 0; Leaf 0] 0 (0, 2) 0, 1)]
     = Abort "Failed map insertion!".
Proof.
  destruct (@counters_add_multiplicity_once 4
              [(example_topology 0, 2); (example_topology 2, 1)])
    as ((rc & pc & E1 & E2 & _ & V1 & V2) & S).
  { repeat constructor. }
  split; [|split].
  - exists rc, pc. split; [exact E1|]. split; [exact E2|].
    split; [|split].
    + rewrite V1. reflexivity.
    + rewrite V1. reflexivity.
    + rewrite V2. reflexivity.
  - destruct (S (example_topology 3) 1 []) as [_ G].
    apply (G (tag_entries 4 (PostOrder (example_topology 3)))).
    + reflexivity.
    + discriminate.
  - destruct (S (MkNode [Leaf 0; Leaf 0] 0 (0, 2) 0) 1 []) as [A _].
    apply A. reflexivity.
Defined.

(* ================================================================== *)
(** * The layout of the indexer after [ProcessLoadedTrees] *)

Lemma count_topology_keys (counter : TopologyCounter) (t k : Node) :
  In k (map fst (count_topology counter t)) -> k = t \/ In k (map fst counter).
Proof.
  induction counter as [|[k0 c0] rest IH]; cbn.
  - intros [E|[]]. now left.
  - destruct (Node_eqb t k0); cbn.
    + intros [E|I]; auto.
    + intros [E|I]; auto. destruct (IH I); auto.
Qed.

Lemma TopologyCounterOf_keys (c : TreeCollection) (k : Node) :
  In k (map fst (TopologyCounterOf c)) -> In k (map topology_ (trees_ c)).
Proof.
  unfold TopologyCounterOf.
  assert (G : forall l acc,
             In k (map fst (fold_left count_topology l acc)) ->
             In k l \/ In k (map fst acc)).
  { induction l as [|t l IH]; cbn; intros acc I; [now right|].
    destruct (IH _ I) as [H|H]; [now left; right|].
    destruct (count_topology_keys _ _ _ H); subst; auto. }
  intros I. destruct (G _ _ I) as [H|[]]. exact H.
Qed.

Lemma TopologyCounterOf_unrooted (N : nat) (c : TreeCollection) :
  Forall (fun tree => unrooted_topology N (topology_ tree) = true) (trees_ c) ->
  Forall (fun iter => unrooted N (fst iter)) (TopologyCounterOf c).
Proof.
  intros F. apply Forall_forall. intros iter I.
  apply unrooted_topology_spec.
  assert (I' : In (fst iter) (map topology_ (trees_ c))).
  { apply TopologyCounterOf_keys. now apply in_map. }
  apply in_map_iff in I'. destruct I' as (tree & E & I').
  rewrite <- E. rewrite Forall_forall in F. now apply F.
Qed.

(** ** Lengths of the keys *)

Lemma Minorize_length (x : Bitset) : length (Minorize x) = length x.
Proof.
  unfold Minorize. destruct x as [|[] x]; try reflexivity.
  apply flip_length.
Qed.

Lemma rootsplit_of_length (N : nat) (u : Node) : length (rootsplit_of N u) = N.
Proof. unfold rootsplit_of. now rewrite Minorize_length, clade_length. Qed.

Lemma Bitset_min_length (N : nat) (a b : Bitset) :
  length a = N -> length b = N -> length (Bitset_min a b) = N.
Proof. unfold Bitset_min. destruct (Bitset_ltb b a); auto. Qed.

Lemma pcss_pair_lengths (N : nat) (c : PCSSCall) :
  length (pcss_parent N c) = (2 * N)%nat /\ length (pcss_child N c) = N.
Proof.
  unfold pcss_parent, pcss_child. split.
  - rewrite length_app, !chunk_length. lia.
  - apply Bitset_min_length; apply chunk_length.
Qed.

Lemma observed_rootsplit_length (N : nat) (tc : TopologyCounter) (s : Bitset) :
  observed_rootsplit N tc s -> length s = N.
Proof.
  intros (iter & _ & I). unfold rootsplits_of in I.
  apply in_map_iff in I. destruct I as (u & E & _). subst.
  apply rootsplit_of_length.
Qed.

Lemma observed_pcss_lengths (N : nat) (tc : TopologyCounter) (p c : Bitset) :
  observed_pcss N tc p c -> length p = (2 * N)%nat /\ length c = N.
Proof.
  intros (iter & _ & I). unfold pcss_pairs_of in I.
  apply in_map_iff in I. destruct I as (call & E & _).
  inversion E; subst. apply pcss_pair_lengths.
Qed.

Lemma observed_positive (N : nat) (tc : TopologyCounter) :
  Forall (fun iter => unrooted N (fst iter)) tc -> tc <> [] -> (0 < N)%nat.
Proof.
  intros F NE. destruct tc as [|iter tc]; [contradiction|].
  inversion F as [|? ? U _]; subst.
  pose proof (u_count U) as C. pose proof (leaf_ids_nonempty (fst iter)) as L.
  destruct (leaf_ids (fst iter)); [contradiction|]. cbn in C. lia.
Qed.
(** ** The keys of the counters are pairwise different *)

Lemma pcss_keys_entries (d : PCSSDict) (key : Bitset) :
  In key (pcss_keys d)
  <-> exists p c, In (p, c) (pcss_entries d) /\ key = p ++ c.
Proof.
  unfold pcss_keys, pcss_entries, block_keys. rewrite in_flat_map. split.
  - intros (block & I & K). apply in_map_iff in K.
    destruct K as (c & E & Ic). exists (fst block), (fst c). split; auto.
    apply in_flat_map. exists block. split; auto.
    apply in_map_iff. eauto.
  - intros (p & c & I & E). apply in_flat_map in I.
    destruct I as (block & I & K). exists block. split; auto.
    apply in_map_iff in K. destruct K as (c' & E' & Ic). inversion E'; subst.
    apply in_map_iff. eauto.
Qed.

Lemma pcss_entries_parent (d : PCSSDict) (p c : Bitset) :
  In (p, c) (pcss_entries d) -> In p (map fst d).
Proof.
  unfold pcss_entries. rewrite in_flat_map. intros (block & I & K).
  apply in_map_iff in K. destruct K as (c' & E & _). inversion E; subst.
  now apply in_map.
Qed.

Lemma block_keys_NoDup (block : Bitset * BitsetUInt32Dict) :
  NoDup (map fst (snd block)) -> NoDup (block_keys block).
Proof.
  unfold block_keys. generalize (snd block) (fst block). intros cc p.
  induction cc as [|c cc IH]; cbn; intros ND; [constructor|].
  inversion ND as [|? ? NI ND']; subst. constructor; auto.
  intros I. apply in_map_iff in I. destruct I as (c' & E & I).
  apply app_inv_head in E. apply NI. apply in_map_iff. exists c'.
  split; [exact E|exact I].
Qed.

Lemma pcss_keys_NoDup (L : nat) (d : PCSSDict) :
  pcss_well_keyed d ->
  (forall p, In p (map fst d) -> length p = L) ->
  NoDup (pcss_keys d).
Proof.
  unfold pcss_well_keyed, pcss_keys.
  induction d as [|block d IH]; cbn [flat_map map]; intros [NDp F] Len;
    [constructor|].
  inversion NDp as [|? ? NI NDp']; subst. inversion F as [|? ? Hb F']; subst.
  apply NoDup_app.
  - now apply block_keys_NoDup.
  - apply IH; [now split|]. intros p I. apply Len. now right.
  - intros key I1 I2. unfold block_keys in I1. apply in_map_iff in I1.
    destruct I1 as (c & E & _). apply pcss_keys_entries in I2.
    destruct I2 as (p' & c' & I2 & E'). apply pcss_entries_parent in I2.
    subst key. apply app_inj_length in E'.
    + destruct E' as [E' _]. apply NI. now rewrite E'.
    + rewrite (Len (fst block)), (Len p'); auto; [now right|now left].
Qed.

Lemma count_pcss_parents (N : nat) (tc : TopologyCounter) (p : Bitset) :
  In p (map fst (count_pcss N tc)) -> length p = (2 * N)%nat.
Proof.
  unfold count_pcss.
  assert (L : forall l c d,
             (forall q, In q (map fst l) -> length q = (2 * N)%nat) ->
             (forall q, In q (map fst d) -> length q = (2 * N)%nat) ->
             forall q,
               In q (map fst (fold_left
                                (fun d (pc : Bitset * Bitset) =>
                                   PCSS_insert d (fst pc) (snd pc) c) l d)) ->
               length q = (2 * N)%nat).
  { induction l as [|[p0 c0] l IHl]; intros c d Hl Hd q; cbn [fold_left];
      [now apply Hd|].
    apply IHl.
    - intros q' I. apply Hl. now right.
    - intros q' I. apply PCSS_insert_parents in I. destruct I as [->|I]; auto.
      apply Hl. now left. }
  assert (G : forall d,
             (forall q, In q (map fst d) -> length q = (2 * N)%nat) ->
             forall q,
               In q (map fst
                       (fold_left (fun d (iter : Node * Z) =>
                                     fold_left (fun d pc =>
                                                  PCSS_insert d (fst pc) (snd pc)
                                                              (snd iter))
                                               (pcss_pairs_of N (fst iter)) d)
                                  tc d)) ->
               length q = (2 * N)%nat).
  { induction tc as [|[t c] ts IH]; intros d Hd q; cbn [fold_left];
      [now apply Hd|].
    apply IH. apply L; auto. cbn [fst]. intros q' I.
    unfold pcss_pairs_of in I. rewrite map_map in I. apply in_map_iff in I.
    destruct I as (call & E & _). subst q'. apply pcss_pair_lengths. }
  apply G. intros q [].
Qed.

Lemma counters_keys_NoDup (N : nat) (tc : TopologyCounter) :
  Forall (fun iter => unrooted N (fst iter)) tc ->
  NoDup (map fst (count_rootsplits N tc) ++ pcss_keys (count_pcss N tc)).
Proof.
  intros F. apply NoDup_app.
  - apply count_rootsplits_NoDup.
  - apply pcss_keys_NoDup with (2 * N)%nat.
    + apply count_pcss_well_keyed.
    + apply count_pcss_parents.
  - intros key I1 I2. apply count_rootsplits_keys in I1.
    pose proof (observed_rootsplit_length I1) as L1.
    assert (P : (0 < N)%nat).
    { apply observed_positive with tc; auto. destruct I1 as (iter & I & _).
      intros ->. destruct I. }
    apply pcss_keys_entries in I2. destruct I2 as (p & c & I2 & E).
    apply count_pcss_entries in I2. apply observed_pcss_lengths in I2.
    subst key. rewrite length_app in L1. lia.
Qed.
(** ** The ranges of the parents *)

Lemma block_keys_length (block : Bitset * BitsetUInt32Dict) :
  length (block_keys block) = length (snd block).
Proof. unfold block_keys. apply length_map. Qed.

Lemma pcss_keys_app (d1 d2 : PCSSDict) :
  pcss_keys (d1 ++ d2) = pcss_keys d1 ++ pcss_keys d2.
Proof. unfold pcss_keys. apply flat_map_app. Qed.

Lemma pcss_keys_cons (block : Bitset * BitsetUInt32Dict) (d : PCSSDict) :
  pcss_keys (block :: d) = block_keys block ++ pcss_keys d.
Proof. reflexivity. Qed.

Lemma ranges_from_parents (index : nat) (d : PCSSDict) :
  map fst (ranges_from index d) = map fst d.
Proof.
  revert index. induction d as [|[p cc] d IH]; intros index; cbn;
    [reflexivity|]. now rewrite IH.
Qed.

Lemma ranges_from_contiguous (index : nat) (d : PCSSDict) :
  contiguous index (index + length (pcss_keys d))
             (map snd (ranges_from index d)).
Proof.
  revert index. induction d as [|[p cc] d IH]; intros index.
  - cbn. lia.
  - rewrite pcss_keys_cons, length_app, block_keys_length.
    cbn [ranges_from map snd contiguous].
    split; [reflexivity|]. split; [lia|].
    rewrite Nat.add_assoc. apply IH.
Qed.

Lemma contiguous_bounds (ranges : list Range) :
  forall first last,
    contiguous first last ranges ->
    (first <= last)%nat
    /\ forall r, In r ranges ->
                 (first <= fst r)%nat /\ (fst r <= snd r)%nat
                 /\ (snd r <= last)%nat.
Proof.
  induction ranges as [|[s e] rest IH]; cbn [contiguous]; intros first last.
  - intros ->. split; [lia|]. intros r [].
  - intros (-> & L & C). destruct (IH _ _ C) as [L' B]. split; [lia|].
    intros r [<-|I]; cbn [fst snd]; [lia|].
    destruct (B r I) as (B1 & B2 & B3). lia.
Qed.

(** Contiguous ranges split their span: every position is in the range of
    exactly one key. *)
Lemma contiguous_unique_block {K : Type} (m : list (K * Range)) :
  forall first last i,
    contiguous first last (map snd m) ->
    (first <= i < last)%nat ->
    exists k r, In (k, r) m /\ in_range i r
                /\ forall k' r', In (k', r') m -> in_range i r' -> k' = k.
Proof.
  unfold in_range.
  induction m as [|[k0 [s e]] rest IH]; cbn [map snd contiguous];
    intros first last i.
  - intros ->. lia.
  - intros (<- & L & C) B. destruct (Nat.lt_ge_cases i e) as [Lt|Ge].
    + exists k0, (s, e). split; [now left|]. split; [cbn; lia|].
      intros k' r' [E|I] R'; [now inversion E|].
      destruct (contiguous_bounds _ _ _ C) as [_ Bd].
      assert (I' : In r' (map snd rest)).
      { apply in_map_iff. exists (k', r'). now split. }
      destruct (Bd r' I') as (B1 & _). lia.
    + destruct (IH e last i C) as (k & r & I & R & U); [lia|].
      exists k, r. split; [now right|]. split; [exact R|].
      intros k' r' [E|I'] R'.
      * inversion E; subst. cbn in R'. lia.
      * now apply U with r'.
Qed.

Lemma ranges_from_block (d : PCSSDict) :
  forall index parent s e,
    In (parent, (s, e)) (ranges_from index d) ->
    exists pre cc post,
      d = pre ++ (parent, cc) :: post
      /\ s = (index + length (pcss_keys pre))%nat
      /\ e = (s + length cc)%nat.
Proof.
  induction d as [|[p cc] d IH]; intros index parent s e; cbn [ranges_from].
  - intros [].
  - intros [E|I].
    + inversion E; subst. exists [], cc, d. cbn. split; [reflexivity|].
      split; lia.
    + destruct (IH _ _ _ _ I) as (pre & cc' & post & -> & -> & ->).
      exists ((p, cc) :: pre), cc', post. split; [reflexivity|].
      rewrite pcss_keys_cons, length_app, block_keys_length. cbn [snd].
      split; lia.
Qed.

Lemma skipn_app_exact {A : Type} (l1 l2 : list A) (n : nat) :
  n = length l1 -> skipn n (l1 ++ l2) = l2.
Proof.
  intros ->. rewrite skipn_app, skipn_all, Nat.sub_diag. reflexivity.
Qed.

Lemma firstn_app_exact {A : Type} (l1 l2 : list A) (n : nat) :
  n = length l1 -> firstn n (l1 ++ l2) = l1.
Proof.
  intros ->. rewrite firstn_app, firstn_all, Nat.sub_diag. cbn.
  apply app_nil_r.
Qed.

(** The keys that sit in the range of a parent are the keys of its block. *)
Lemma block_segment (A : list Bitset) (pre post : PCSSDict)
      (block : Bitset * BitsetUInt32Dict) :
  segment (A ++ pcss_keys (pre ++ block :: post))
          (length A + length (pcss_keys pre)) (length (snd block))
  = block_keys block.
Proof.
  unfold segment. rewrite pcss_keys_app, pcss_keys_cons, app_assoc.
  rewrite skipn_app_exact by (now rewrite length_app).
  apply firstn_app_exact. now rewrite block_keys_length.
Qed.

Lemma NoDup_keys_functional {K V : Type} (m : list (K * V)) (k : K) (v v' : V) :
  NoDup (map fst m) -> In (k, v) m -> In (k, v') m -> v = v'.
Proof.
  induction m as [|[k0 v0] m IH]; cbn; intros ND; [intros []|].
  inversion ND as [|? ? NI ND']; subst.
  intros [E|I] [E'|I'].
  - congruence.
  - inversion E; subst. exfalso. apply NI.
    apply in_map_iff. exists (k, v'). now split.
  - inversion E'; subst. exfalso. apply NI.
    apply in_map_iff. exists (k, v). now split.
  - now apply IH.
Qed.

Lemma block_children (d : PCSSDict) (p : Bitset) (cc : BitsetUInt32Dict)
      (c : Bitset) :
  NoDup (map fst d) -> In (p, cc) d ->
  (In c (map fst cc) <-> In (p, c) (pcss_entries d)).
Proof.
  intros ND I. unfold pcss_entries. rewrite in_flat_map. split.
  - intros Ic. exists (p, cc). split; [exact I|]. cbn [fst snd].
    apply in_map_iff in Ic. destruct Ic as (x & E & Ix).
    apply in_map_iff. exists x. split; [now rewrite E|exact Ix].
  - intros ([p' cc'] & I' & Ic). cbn [fst snd] in Ic.
    apply in_map_iff in Ic. destruct Ic as (x & E & Ix).
    inversion E; subst.
    rewrite (@NoDup_keys_functional _ _ d p cc cc' ND I I').
    now apply in_map.
Qed.
(** C1: after [ProcessLoadedTrees] on a collection of unrooted topologies
    on the taxa 0..N-1, with R the number of rootsplits and M the length of
    the parameter vector: every parameter is 1.0; the keys of the indexer
    are all different and their indices are 0, 1, ..., M-1; the keys at the
    indices below R are the rootsplits, which are the rootsplits observed
    in the collection; the other keys are the observed parent-child pairs;
    the ranges of [parent_to_range_] follow one another from R to M, one
    per observed parent, and the keys in the range of a parent are that
    parent followed by each of its observed children, once; every index
    from R on is in the range of exactly one parent. *)
Theorem ProcessLoadedTrees_indexer_layout (N : nat) (self : SBNInstance) :
  Forall (fun tree => unrooted_topology N (topology_ tree) = true)
         (trees_ (tree_collection_ self)) ->
  exists self' R M,
    ProcessLoadedTrees self = Ok self'
    /\ topology_counter_ self' = TopologyCounterOf (tree_collection_ self)
    /\ R = length (rootsplits_ self')
    /\ M = length (sbn_parameters_ self')
    /\ sbn_parameters_ self' = repeat 1%float M
    /\ NoDup (map fst (indexer_ self'))
    /\ map snd (indexer_ self') = seq 0 M
    /\ map fst (firstn R (indexer_ self')) = rootsplits_ self'
    /\ (forall s, In s (rootsplits_ self')
                  <-> observed_rootsplit N (topology_counter_ self') s)
    /\ (forall key,
           In key (map fst (skipn R (indexer_ self')))
           <-> exists parent child,
               key = parent ++ child
               /\ observed_pcss N (topology_counter_ self') parent child)
    /\ contiguous R M (map snd (parent_to_range_ self'))
    /\ NoDup (map fst (parent_to_range_ self'))
    /\ (forall parent child,
           observed_pcss N (topology_counter_ self') parent child ->
           In parent (map fst (parent_to_range_ self')))
    /\ (forall parent s e,
           In (parent, (s, e)) (parent_to_range_ self') ->
           exists children,
             NoDup children
             /\ (forall child,
                    In child children
                    <-> observed_pcss N (topology_counter_ self') parent child)
             /\ map fst (segment (indexer_ self') s (e - s))
                = map (app parent) children)
    /\ (forall i,
           (R <= i < M)%nat ->
           exists parent range,
             In (parent, range) (parent_to_range_ self')
             /\ in_range i range
             /\ forall parent' range',
                 In (parent', range') (parent_to_range_ self') ->
                 in_range i range' -> parent' = parent).
Proof.
  intros F. apply TopologyCounterOf_unrooted in F.
  unfold ProcessLoadedTrees.
  cbn [ClearTreeCollectionAssociatedState tree_collection_].
  remember (TopologyCounterOf (tree_collection_ self)) as tc eqn:Etc.
  rewrite (RootsplitCounterOf_closed F), (PCSSCounterOf_closed F).
  cbn [bind].
  pose proof (counters_keys_NoDup F) as ND.
  pose proof (count_pcss_well_keyed N tc) as [NDp NDc].
  rewrite (build_indexer_closed _ _ ND NDp). cbn [bind].
  remember (count_rootsplits N tc) as rc eqn:Erc.
  remember (count_pcss N tc) as d eqn:Ed.
  assert (HL : length (map fst rc ++ pcss_keys d)
               = length (seq 0 (length rc + length (pcss_keys d)))).
  { now rewrite length_seq, length_app, length_map. }
  assert (HR : length rc = length (map fst rc)) by (now rewrite length_map).
  eexists. exists (length rc), (length rc + length (pcss_keys d))%nat.
  split; [reflexivity|].
  cbn [topology_counter_ rootsplits_ sbn_parameters_ indexer_ parent_to_range_
       b_indexer b_rootsplits b_parent_to_range b_index].
  split; [reflexivity|].
  split; [exact HR|].
  split; [now rewrite repeat_length|].
  split; [reflexivity|].
  split; [now rewrite combine_keys|].
  split; [now rewrite combine_values|].
  split.
  { rewrite <- firstn_map, combine_keys by exact HL.
    now apply firstn_app_exact. }
  split.
  { intros s. subst rc. apply count_rootsplits_keys. }
  split.
  { intros key. rewrite <- skipn_map, combine_keys by exact HL.
    rewrite skipn_app_exact by exact HR. rewrite pcss_keys_entries.
    split.
    - intros (p & c & I & E). exists p, c. split; [exact E|].
      subst d. now apply count_pcss_entries.
    - intros (p & c & E & O). exists p, c. split; [|exact E].
      subst d. now apply count_pcss_entries. }
  split; [apply ranges_from_contiguous|].
  split; [now rewrite ranges_from_parents|].
  split.
  { intros p c O. rewrite ranges_from_parents.
    apply pcss_entries_parent with c. subst d. now apply count_pcss_entries. }
  split.
  { intros parent s e I.
    destruct (ranges_from_block _ _ _ _ _ I) as (pre & cc & post & Ed' & -> & ->).
    exists (map fst cc).
    assert (Ib : In (parent, cc) d).
    { rewrite Ed'. apply in_or_app. right. now left. }
    split; [|split].
    - rewrite Forall_forall in NDc. exact (NDc _ Ib).
    - intros child. rewrite (@block_children d parent cc child NDp Ib).
      subst d. apply count_pcss_entries.
    - unfold segment. rewrite <- firstn_map, <- skipn_map.
      rewrite combine_keys by exact HL.
      replace (length rc + length (pcss_keys pre) + length cc
               - (length rc + length (pcss_keys pre)))%nat
        with (length (snd (parent, cc))) by (cbn [snd]; lia).
      rewrite HR, Ed'.
      change (firstn ?n (skipn ?k ?l)) with (segment l k n).
      rewrite block_segment. unfold block_keys. cbn [fst snd].
      now rewrite map_map. }
  intros i B.
  apply contiguous_unique_block
    with (first := length rc) (last := (length rc + length (pcss_keys d))%nat).
  - apply ranges_from_contiguous.
  - exact B.
Qed.
Lemma ProcessLoadedTrees_indexer_layout_witness :
  exists self' M,
    ProcessLoadedTrees example_instance = Ok self'
    /\ length (rootsplits_ self') = 6%nat
    /\ M = 26%nat
    /\ sbn_parameters_ self' = repeat 1%float M
    /\ map snd (indexer_ self') = seq 0 M
    /\ contiguous 6 M (map snd (parent_to_range_ self')).
Proof.
  destruct (@ProcessLoadedTrees_indexer_layout 4 example_instance)
    as (self' & R & M & E & _ & ER & EM & P & _ & V & _ & _ & _ & C & _).
  { repeat constructor. }
  exists self', M. split; [exact E|].
  assert (E6 : R = 6%nat).
  { rewrite ER. vm_compute in E. injection E as <-. reflexivity. }
  assert (E26 : M = 26%nat).
  { rewrite EM. vm_compute in E. injection E as <-. reflexivity. }
  split; [now rewrite <- ER|]. split; [exact E26|].
  split; [exact P|]. split; [exact V|]. now rewrite <- E6.
Defined.

(* ================================================================== *)
(** * One rooted view per edge *)

Lemma view_pcss_length (focal : RootedView) :
  forall sister,
    (length (view_pcss sister focal) + 1 = view_size focal)%nat.
Proof.
  induction focal as [c|c x IHx y IHy]; intros sister; cbn [view_pcss view_size].
  - reflexivity.
  - cbn [length]. rewrite length_app.
    specialize (IHx y). specialize (IHy x). lia.
Qed.

Lemma view_pcss_key_length (N : nat) (focal : RootedView) :
  forall sister,
    view_wf N sister -> view_wf N focal ->
    Forall (fun key => length key = (3 * N)%nat) (view_pcss sister focal).
Proof.
  assert (C : forall v, view_wf N v -> length (view_clade v) = N).
  { intros [c|c x y]; cbn; tauto. }
  induction focal as [c|c x IHx y IHy]; intros sister Ws Wf;
    cbn [view_pcss]; [constructor|].
  cbn [view_wf] in Wf. destruct Wf as (Lc & Wx & Wy). constructor.
  - rewrite !length_app, (C _ Ws), Lc.
    rewrite (@Bitset_min_length N); auto. lia.
  - apply Forall_app. split; auto.
Qed.

Section ViewsOfSubtrees.
Variable N : nat.
Variable clade_of : Node -> Bitset.
Hypothesis clade_of_length : forall n, length (clade_of n) = N.

Lemma view_below_clade (n : Node) :
  view_clade (view_below clade_of n) = clade_of n.
Proof. destruct n as [[|a [|b [|c cs]]] idx tag h]; reflexivity. Qed.

Lemma view_below_wf (n : Node) : view_wf N (view_below clade_of n).
Proof.
  induction n as [cs idx tag h IH] using Node_ind.
  destruct cs as [|a [|b [|c cs]]]; cbn [view_below view_wf]; auto.
  inversion IH as [|? ? Ha IH']; subst. inversion IH' as [|? ? Hb _]; subst.
  auto.
Qed.

Lemma view_join_wf (x y : RootedView) :
  view_wf N x -> view_wf N y -> view_wf N (view_join x y).
Proof.
  intros Wx Wy. unfold view_join. cbn [view_wf]. split; [|now split].
  rewrite Bitset_or_length. destruct x; cbn in *; tauto.
Qed.

Lemma view_below_size (n : Node) :
  bifurcating n = true ->
  view_size (view_below clade_of n) = length (leaf_ids n).
Proof.
  induction n as [cs idx tag h IH] using Node_ind. intros B.
  destruct cs as [|a [|b [|c cs]]]; cbn in B; try discriminate.
  - reflexivity.
  - apply andb_true_iff in B. destruct B as [Ba Bb].
    inversion IH as [|? ? Ha IH']; subst. inversion IH' as [|? ? Hb _]; subst.
    cbn [view_below view_size leaf_ids flat_map].
    rewrite app_nil_r, length_app, (Ha Ba), (Hb Bb). reflexivity.
Qed.

(** What [edges_from] lists for a bifurcating subtree: its nodes in
    pre-order, each with the subtree below it and, on the other side, a
    view that brings the number of leaves to that of [above] and the
    subtree together. *)
Lemma edges_from_spec (n : Node) :
  bifurcating n = true ->
  forall above,
    view_wf N above ->
    map fst (edges_from clade_of n above) = PreOrder n
    /\ Forall (edge_ok N clade_of (view_size above + length (leaf_ids n)))
              (edges_from clade_of n above).
Proof.
  induction n as [cs idx tag h IH] using Node_ind. intros B above W.
  assert (Hn : edge_ok N clade_of (view_size above + length (leaf_ids (MkNode cs idx tag h)))
                       (MkNode cs idx tag h,
                        (above, view_below clade_of (MkNode cs idx tag h)))).
  { unfold edge_ok. cbn [fst snd]. split; [reflexivity|]. split; [|exact W].
    now rewrite view_below_size. }
  destruct cs as [|a [|b [|c cs]]]; cbn in B; try discriminate.
  - cbn [edges_from map fst PreOrder flat_map]. split; [reflexivity|].
    constructor; [exact Hn|constructor].
  - apply andb_true_iff in B. destruct B as [Ba Bb].
    inversion IH as [|? ? Ha IH']; subst. inversion IH' as [|? ? Hb _]; subst.
    destruct (Ha Ba (view_join above (view_below clade_of b))) as [Ea Fa].
    { apply view_join_wf; [exact W|apply view_below_wf]. }
    destruct (Hb Bb (view_join above (view_below clade_of a))) as [Eb Fb].
    { apply view_join_wf; [exact W|apply view_below_wf]. }
    cbn [edges_from]. split.
    + cbn [map fst]. rewrite map_app, Ea, Eb.
      cbn [PreOrder flat_map]. now rewrite app_nil_r.
    + constructor; [exact Hn|]. apply Forall_app.
      cbn [view_join view_size] in Fa, Fb.
      rewrite view_below_size in Fa, Fb by assumption.
      cbn [leaf_ids flat_map]. rewrite app_nil_r, length_app.
      split; [revert Fa|revert Fb]; apply Forall_impl; intros e;
        unfold edge_ok; intros (E1 & E2 & E3); (split; [exact E1|]);
        (split; [lia|exact E3]).
Qed.

Lemma unrooted_edges_spec (t : Node) :
  unrooted N t ->
  map fst (unrooted_edges clade_of t) = rootsplit_nodes t
  /\ Forall (edge_ok N clade_of N) (unrooted_edges clade_of t).
Proof.
  intros U. destruct (u_shape U) as (c0 & c1 & c2 & E & B0 & B1 & B2).
  pose proof (u_count U) as C. unfold unrooted_edges, rootsplit_nodes.
  rewrite E. destruct t as [cs idx tag h]. cbn [Children] in E. subst cs.
  cbn [leaf_ids flat_map] in C. rewrite app_nil_r, !length_app in C.
  destruct (edges_from_spec c0 B0
              (view_join (view_below clade_of c1) (view_below clade_of c2)))
    as [E0 F0].
  { apply view_join_wf; apply view_below_wf. }
  destruct (edges_from_spec c1 B1
              (view_join (view_below clade_of c0) (view_below clade_of c2)))
    as [E1 F1].
  { apply view_join_wf; apply view_below_wf. }
  destruct (edges_from_spec c2 B2
              (view_join (view_below clade_of c0) (view_below clade_of c1)))
    as [E2 F2].
  { apply view_join_wf; apply view_below_wf. }
  cbn [view_join view_size] in F0, F1, F2.
  rewrite !view_below_size in F0, F1, F2 by assumption.
  split.
  - rewrite !map_app, E0, E1, E2. cbn [flat_map]. now rewrite app_nil_r.
  - rewrite !Forall_app. split; [|split];
      [revert F0|revert F1|revert F2]; apply Forall_impl; intros e;
      unfold edge_ok; intros (X1 & X2 & X3); (split; [exact X1|]);
      (split; [lia|exact X3]).
Qed.

Lemma view_keys_spec (e : Node * (RootedView * RootedView)) :
  edge_ok N clade_of N e ->
  hd [] (view_keys (snd e)) = Minorize (clade_of (fst e))
  /\ (length (view_keys (snd e)) + 1 = N)%nat
  /\ Forall (fun key => length key = (3 * N)%nat) (tl (view_keys (snd e))).
Proof.
  destruct e as [n [above below]]. unfold edge_ok. cbn [fst snd].
  intros (E & S & W). unfold view_keys, view_rootsplit. cbn [fst snd hd tl].
  assert (Wb : view_wf N below) by (rewrite E; apply view_below_wf).
  split; [|split].
  - rewrite E. now rewrite view_below_clade.
  - cbn [length]. rewrite length_app.
    pose proof (view_pcss_length below above).
    pose proof (view_pcss_length above below). lia.
  - apply Forall_app. split; apply view_pcss_key_length; assumption.
Qed.
End ViewsOfSubtrees.
Section ViewsExtensional.
Variables f g : Node -> Bitset.

Lemma view_below_ext (n : Node) :
  (forall u, In u (PreOrder n) -> f u = g u) ->
  view_below f n = view_below g n.
Proof.
  induction n as [cs idx tag h IH] using Node_ind. intros H.
  assert (Hn : f (MkNode cs idx tag h) = g (MkNode cs idx tag h)).
  { apply H. apply In_PreOrder_self. }
  destruct cs as [|a [|b [|c cs]]]; cbn [view_below]; try now rewrite Hn.
  inversion IH as [|? ? Ha IH']; subst. inversion IH' as [|? ? Hb _]; subst.
  rewrite Hn, Ha, Hb; [reflexivity| |].
  - intros u I. apply H. apply In_PreOrder_child with b; [cbn; auto|exact I].
  - intros u I. apply H. apply In_PreOrder_child with a; [cbn; auto|exact I].
Qed.

Lemma edges_from_ext (n : Node) :
  (forall u, In u (PreOrder n) -> f u = g u) ->
  forall above, edges_from f n above = edges_from g n above.
Proof.
  induction n as [cs idx tag h IH] using Node_ind. intros H above.
  pose proof (view_below_ext _ H) as Hn.
  destruct cs as [|a [|b [|c cs]]]; cbn [edges_from]; try now rewrite Hn.
  inversion IH as [|? ? Ha IH']; subst. inversion IH' as [|? ? Hb _]; subst.
  assert (Fa : forall u, In u (PreOrder a) -> f u = g u).
  { intros u I. apply H. apply In_PreOrder_child with a; [cbn; auto|exact I]. }
  assert (Fb : forall u, In u (PreOrder b) -> f u = g u).
  { intros u I. apply H. apply In_PreOrder_child with b; [cbn; auto|exact I]. }
  rewrite Hn, (Ha Fa), (Hb Fb).
  now rewrite (view_below_ext _ Fa), (view_below_ext _ Fb).
Qed.

Lemma unrooted_edges_ext (t : Node) :
  (forall u, In u (PreOrder t) -> f u = g u) ->
  unrooted_edges f t = unrooted_edges g t.
Proof.
  intros H. unfold unrooted_edges.
  destruct t as [cs idx tag h]. cbn [Children].
  destruct cs as [|c0 [|c1 [|c2 [|c3 cs]]]]; try reflexivity.
  assert (F0 : forall u, In u (PreOrder c0) -> f u = g u).
  { intros u I. apply H. apply In_PreOrder_child with c0; [cbn; auto|exact I]. }
  assert (F1 : forall u, In u (PreOrder c1) -> f u = g u).
  { intros u I. apply H. apply In_PreOrder_child with c1; [cbn; auto|exact I]. }
  assert (F2 : forall u, In u (PreOrder c2) -> f u = g u).
  { intros u I. apply H. apply In_PreOrder_child with c2; [cbn; auto|exact I]. }
  rewrite (edges_from_ext _ F0), (edges_from_ext _ F1), (edges_from_ext _ F2).
  now rewrite (view_below_ext _ F0), (view_below_ext _ F1),
    (view_below_ext _ F2).
Qed.
End ViewsExtensional.

Lemma clade_in_tag_entries (N : nat) (t u : Node) :
  unrooted N t -> In u (PreOrder t) ->
  clade_in (tag_entries N (PostOrder t)) u = clade N u.
Proof.
  intros U I. pose proof (tag_lookup _ U I) as L.
  unfold map_at in L. unfold clade_in.
  destruct (find tag_eqb (tag_entries N (PostOrder t)) (Tag u));
    [now inversion L|discriminate].
Qed.

Lemma RootedViewsOf_closed (N : nat) (t : Node) :
  unrooted N t ->
  RootedViewsOf t
  = Ok (map (fun e => view_keys (snd e))
            (by_index (unrooted_edges (clade N) t))).
Proof.
  intros U. unfold RootedViewsOf. rewrite (unrooted_TagBitsetMapOf U).
  cbn [bind]. destruct (u_shape U) as (c0 & c1 & c2 & E & _). rewrite E.
  f_equal. f_equal. f_equal. apply unrooted_edges_ext.
  intros u I. now apply clade_in_tag_entries.
Qed.

(** The views of the model are the ones the test of libsbn.hpp expects
    for its two topologies, position by position, and for its two rooted
    topologies. *)
Example correct_representation_1_holds :
  matches_test indexer_test_topology_1 correct_representation_1 = true.
Proof. vm_compute. reflexivity. Qed.

Example correct_representation_2_holds :
  matches_test indexer_test_topology_2 correct_representation_2 = true.
Proof. vm_compute. reflexivity. Qed.

Example correct_rooted_indexer_representation_1_holds :
  matches_test indexer_test_rooted_topology_1
               correct_rooted_indexer_representation_1 = true.
Proof. vm_compute. reflexivity. Qed.

Example correct_rooted_indexer_representation_2_holds :
  matches_test indexer_test_rooted_topology_2
               correct_rooted_indexer_representation_2 = true.
Proof. vm_compute. reflexivity. Qed.

(** On these topologies the PCSS keys of the views are the keys that the
    calls of [PCSSPreOrder] produce. *)
Example views_agree_with_PCSSPreOrder :
  same_keys (keys_of_views indexer_test_topology_1)
            (keys_of_calls 5 indexer_test_topology_1) = true
  /\ same_keys (keys_of_views indexer_test_topology_2)
               (keys_of_calls 5 indexer_test_topology_2) = true.
Proof. split; vm_compute; reflexivity. Qed.

(* ================================================================== *)
(** * The index of a key that the indexer does not have *)

Lemma mapM_Forall2 {A B : Type} (f : A -> result B) (l : list A) :
  Forall (fun a => exists b, f a = Ok b) l ->
  exists r, mapM f l = Ok r /\ Forall2 (fun a b => f a = Ok b) l r.
Proof.
  induction 1 as [|a l [b E] F (r & Er & F2)]; cbn [mapM].
  - exists []. split; [reflexivity|constructor].
  - exists (b :: r). fold (mapM f). rewrite E, Er. cbn [bind].
    split; [reflexivity|]. now constructor.
Qed.

Lemma Forall2_map_r {A B : Type} (R : A -> B -> Prop) (f : A -> B)
      (l : list A) :
  (forall a, R a (f a)) -> Forall2 R l (map f l).
Proof. intros H. induction l; cbn; constructor; auto. Qed.

Lemma AtWithDefault_answers (indexer : BitsetSizeMap) (default_index : nat)
      (key : Bitset) :
  answers indexer default_index key
          (AtWithDefault Bitset_eqb indexer key default_index).
Proof.
  unfold answers, AtWithDefault.
  destruct (find Bitset_eqb indexer key) as [slot|] eqn:E.
  - split.
    + intros _. exact (@find_In _ _ Bitset_eqb Bitset_eqb_eq _ _ _ E).
    + intros NI. apply (@find_None _ _ Bitset_eqb Bitset_eqb_eq) in NI.
      congruence.
  - split; [|reflexivity].
    intros I. apply (@find_None _ _ Bitset_eqb Bitset_eqb_eq) in E.
    contradiction.
Qed.

(** C5: on an instance whose trees are unrooted topologies on the taxa
    0..N-1, [MakeIndexerRepresentations] returns, leaving the instance as
    it is, one representation per tree; the representation of a tree has
    one index per key of each rooted view of its topology; that index is
    the slot of the key when the indexer has the key, and the length of
    [sbn_parameters_] when it does not. *)
Theorem MakeIndexerRepresentations_sentinel
        (RNG : Type) (N : nat) (self : SBNInstance) (g : RNG) :
  Forall (fun tree => unrooted_topology N (topology_ tree) = true)
         (trees_ (tree_collection_ self)) ->
  exists representations,
    MakeIndexerRepresentations (self, g) = Ok (representations, (self, g))
    /\ Forall2
         (fun tree representation =>
            exists views,
              RootedViewsOf (topology_ tree) = Ok views
              /\ Forall2 (Forall2 (answers (indexer_ self)
                                           (length (sbn_parameters_ self))))
                         views representation)
         (trees_ (tree_collection_ self)) representations.
Proof.
  intros F. unfold MakeIndexerRepresentations, mbind, gets, lift.
  cbn [bind fst snd].
  destruct (@mapM_Forall2 _ _
              (fun tree => IndexerRepresentationOf
                             (indexer_ self) (topology_ tree)
                             (length (sbn_parameters_ self)))
              (trees_ (tree_collection_ self))) as (r & E & F2).
  { revert F. apply Forall_impl. intros tree U.
    apply unrooted_topology_spec in U. unfold IndexerRepresentationOf.
    rewrite (RootedViewsOf_closed U). cbn [bind]. eauto. }
  rewrite E. cbn [bind]. exists r. split; [reflexivity|].
  rewrite Forall_forall in F.
  assert (G : Forall2 (fun tree representation =>
                         In tree (trees_ (tree_collection_ self))
                         /\ IndexerRepresentationOf
                              (indexer_ self) (topology_ tree)
                              (length (sbn_parameters_ self))
                            = Ok representation)
                      (trees_ (tree_collection_ self)) r).
  { clear E F. induction F2; constructor.
    - split; [now left|assumption].
    - revert IHF2. apply Forall2_impl. intros a b [I H']. split; [now right|exact H']. }
  revert G. apply Forall2_impl. intros tree representation [I E'].
  pose proof (unrooted_topology_spec _ _ (F tree I)) as U.
  unfold IndexerRepresentationOf in E'.
  rewrite (RootedViewsOf_closed U) in *. cbn [bind] in E'.
  injection E' as <-. eexists. split; [reflexivity|].
  apply Forall2_map_r. intros view. apply Forall2_map_r. intros key.
  apply AtWithDefault_answers.
Qed.

Lemma MakeIndexerRepresentations_sentinel_witness :
  length (sbn_parameters_ query_instance) = 26%nat
  /\ exists representations,
      MakeIndexerRepresentations (query_instance, tt)
      = Ok (representations, (query_instance, tt))
      /\ representations
         = [[[0; 26; 26]; [1; 26; 26]; [3; 26; 26]; [4; 26; 26];
             [26; 26; 26]]]%nat.
Proof.
  split; [reflexivity|].
  destruct (@MakeIndexerRepresentations_sentinel unit 4 query_instance tt)
    as (representations & E & _).
  { repeat constructor. }
  exists representations. split; [exact E|].
  vm_compute in E. now injection E as <-.
Defined.

(* ================================================================== *)
(** * What [SampleTrees] changes *)

Lemma same_maps_refl (a : SBNInstance) : same_maps a a.
Proof. reflexivity. Qed.

Lemma same_maps_set_trees (l : list Tree) (a : SBNInstance) :
  same_maps (set_trees l a) a.
Proof. reflexivity. Qed.

Lemma same_maps_push_back (t : Tree) (a : SBNInstance) :
  same_maps (push_back_tree t a) a.
Proof. reflexivity. Qed.

Lemma same_maps_trans (a b c : SBNInstance) :
  same_maps a b -> same_maps b c -> same_maps a c.
Proof. unfold same_maps. congruence. Qed.

Lemma same_maps_fields (a b : SBNInstance) :
  same_maps a b ->
  indexer_ a = indexer_ b /\ sbn_parameters_ a = sbn_parameters_ b
  /\ parent_to_range_ a = parent_to_range_ b
  /\ topology_counter_ a = topology_counter_ b
  /\ rootsplits_ a = rootsplits_ b
  /\ index_to_child_ a = index_to_child_ b.
Proof.
  unfold same_maps, set_trees. intros E. injection E as _ _ E1 E2 _ E3 E4 E5 E6.
  auto 10.
Qed.

Section SampledTrees.
Variable RNG : Type.
Variable discrete_distribution : list float -> RNG -> nat * RNG.
Variables ProbabilityNormalizeInLog Exponentiate : list float -> list float.

Lemma sample_loop_spec (count : nat) (edge_count : Z) :
  forall (w w' : World RNG) (u : unit),
    sample_loop discrete_distribution ProbabilityNormalizeInLog Exponentiate
                count edge_count w = Ok (u, w') ->
    same_maps (fst w') (fst w)
    /\ exists new,
        trees_ (tree_collection_ (fst w'))
        = trees_ (tree_collection_ (fst w)) ++ new
        /\ length new = count
        /\ Forall (fun tree =>
                     branch_lengths_ tree
                     = repeat 0%float (Z.to_nat edge_count)
                     /\ exists w1 w2,
                         same_maps (fst w1) (fst w)
                         /\ SampleTopology discrete_distribution
                                           ProbabilityNormalizeInLog
                                           Exponentiate false w1
                            = Ok (topology_ tree, w2))
                  new.
Proof.
  induction count as [|count IH]; intros w w' u E; cbn [sample_loop] in E.
  - unfold ret in E. injection E as _ <-. split; [apply same_maps_refl|].
    exists []. rewrite app_nil_r. repeat split. constructor.
  - unfold mbind at 1 in E. unfold lift at 1 in E.
    destruct (0 <=? edge_count); cbn [Assert bind fst snd] in E;
      [|discriminate].
    unfold mbind at 1 in E.
    destruct (SampleTopology _ _ _ false w) as [[t w1]|] eqn:Et;
      cbn [bind fst snd] in E; [|discriminate].
    pose proof (preserves_SampleTopology _ _ _ _ _ Et) as P.
    unfold mbind at 1 in E. unfold modify at 1 in E. cbn [bind fst snd] in E.
    apply IH in E. cbn [fst] in E. destruct E as (S1 & new & E1 & L & F).
    rewrite P in *. split.
    + apply same_maps_trans with (1 := S1). apply same_maps_push_back.
    + exists (mkTree t (repeat 0%float (Z.to_nat edge_count)) :: new).
      split; [|split].
      * rewrite E1. unfold push_back_tree, set_trees.
        cbn [trees_ tree_collection_]. now rewrite <- app_assoc.
      * cbn. now rewrite L.
      * constructor.
        -- cbn [branch_lengths_ topology_]. split; [reflexivity|].
           exists w, w1. split; [apply same_maps_refl|exact Et].
        -- revert F. apply Forall_impl. intros tree (B & w2 & w3 & S2 & E2).
           split; [exact B|]. exists w2, w3. split; [|exact E2].
           apply same_maps_trans with (1 := S2). apply same_maps_push_back.
Qed.

Lemma sample_loop_total (count : nat) (edge_count : Z) (self : SBNInstance) :
  0 <= edge_count ->
  (forall w, same_maps (fst w) self ->
             exists t w',
               SampleTopology discrete_distribution ProbabilityNormalizeInLog
                              Exponentiate false w = Ok (t, w')) ->
  forall w, same_maps (fst w) self ->
            exists w',
              sample_loop discrete_distribution ProbabilityNormalizeInLog
                          Exponentiate count edge_count w = Ok (tt, w').
Proof.
  intros Pos T. induction count as [|count IH]; intros w S; cbn [sample_loop].
  - exists w. reflexivity.
  - unfold mbind at 1. unfold lift at 1.
    destruct (Z.leb_spec 0 edge_count) as [_|]; [|lia].
    cbn [Assert bind fst snd]. unfold mbind at 1.
    destruct (T w S) as (t & w1 & Et). rewrite Et. cbn [bind fst snd].
    pose proof (preserves_SampleTopology _ _ _ _ _ Et) as P.
    unfold mbind at 1. unfold modify at 1. cbn [bind fst snd].
    apply IH. cbn [fst]. rewrite P.
    apply same_maps_trans with (2 := S). apply same_maps_push_back.
Qed.
End SampledTrees.

(* ================================================================== *)
(** * The self-check of [RatioGradient] *)

(** On the tree with two leaves the height gradient is [0] and the log
    time array is [0], whatever the branch length gradient: the only
    internal node is the root and both of its children are leaves. *)
Lemma two_leaf_tree_gradients (branch_gradient : list float) :
  HeightGradient two_leaf_tree branch_gradient = Ok [0%float]
  /\ GetLogTimeArray two_leaf_tree = Ok [0%float]
  /\ UpdateGradientUnWeightedLogDensity two_leaf_tree [0%float] = Ok [0%float]
  /\ UpdateHeightParameterGradientUnweightedLogDensity two_leaf_tree [0%float]
     = Ok 0%float.
Proof. repeat split; vm_compute; reflexivity. Qed.

(** C9 fails on the code: on the rooted tree (0,1) with root height 1 the
    two derivations of the root entry differ, for every branch length
    gradient.  Both calls of
    [UpdateHeightParameterGradientUnweightedLogDensity] return 0; the loop
    turns the root entry into 0 - (0 - 1/1) = 1, so that [temp] is 1 - 0 = 1
    while the entry computed afresh is 0 - 0 = 0, and the assertion stops
    the function. *)
Theorem RatioGradient_self_check_fails
        (BranchLengthGradient : RootedTree -> list float) :
  RatioGradient BranchLengthGradient two_leaf_tree = Abort ratio_assertion.
Proof. vm_compute. reflexivity. Qed.

(* ================================================================== *)
(** * The internal-node constructor sorts its children *)

Lemma ascending_cons (a : Z) (l : list Z) :
  ascending (a :: l) = true <-> (forall b, In b l -> a < b) /\ ascending l = true.
Proof.
  revert a. induction l as [|b l IH]; intros a.
  - cbn. split; [intros _; split; [intros b []|reflexivity]|reflexivity].
  - change (ascending (a :: b :: l)) with ((a <? b) && ascending (b :: l)).
    rewrite andb_true_iff, Z.ltb_lt. split.
    + intros [L A]. split; [|exact A]. apply IH in A. destruct A as [A _].
      intros c [<-|I]; [exact L|]. specialize (A c I). lia.
    + intros [L A]. split; [apply L; now left|exact A].
Qed.

Lemma ascending_NoDup (l : list Z) : ascending l = true -> NoDup l.
Proof.
  induction l as [|a l IH]; intros A; [constructor|].
  apply ascending_cons in A. destruct A as [L A]. constructor; auto.
  intros I. specialize (L a I). lia.
Qed.

(** Inserting into an ascending list: a tie stops the sort, anything else
    finds its place. *)
Lemma insert_child_spec (x : Node) (s : list Node) :
  ascending (map MaxLeafID s) = true ->
  (In (MaxLeafID x) (map MaxLeafID s) /\ insert_child x s = Abort tie_message)
  \/ (~ In (MaxLeafID x) (map MaxLeafID s)
      /\ exists r, insert_child x s = Ok r
                   /\ Permutation (x :: s) r
                   /\ ascending (map MaxLeafID r) = true).
Proof.
  induction s as [|y s IH]; intros A.
  - right. split; [intros []|]. exists [x]. repeat split. reflexivity.
  - cbn [map] in A. pose proof A as A'. apply ascending_cons in A'.
    destruct A' as [L As]. cbn [insert_child].
    destruct (Z.eqb_spec (MaxLeafID x) (MaxLeafID y)) as [E|NE].
    + left. split; [now left|reflexivity].
    + destruct (Z.ltb_spec (MaxLeafID x) (MaxLeafID y)) as [Lt|Ge].
      * right. split.
        -- intros [E|I]; [congruence|]. specialize (L _ I). lia.
        -- exists (x :: y :: s). split; [reflexivity|]. split; [reflexivity|].
           cbn [map]. apply ascending_cons. split; [|exact A].
           intros b [<-|I]; [exact Lt|]. specialize (L _ I). lia.
      * destruct (IH As) as [[I E]|[NI (r & E & P & Ar)]].
        -- left. split; [now right|]. now rewrite E.
        -- right. split; [intros [E'|I]; [congruence|contradiction]|].
           exists (y :: r). rewrite E. cbn [bind]. split; [reflexivity|].
           split.
           ++ rewrite perm_swap. now constructor.
           ++ cbn [map]. apply ascending_cons. split; [|exact Ar].
              intros b I. apply in_map_iff in I. destruct I as (c & <- & I).
              apply (Permutation_in _ (Permutation_sym P)) in I.
              destruct I as [<-|I]; [lia|]. apply L. now apply in_map.
Qed.

Lemma sort_children_spec (l : list Node) :
  (~ NoDup (map MaxLeafID l) /\ sort_children l = Abort tie_message)
  \/ (NoDup (map MaxLeafID l)
      /\ exists s, sort_children l = Ok s
                   /\ Permutation l s
                   /\ ascending (map MaxLeafID s) = true).
Proof.
  induction l as [|x l IH].
  - right. split; [constructor|]. exists []. repeat split. constructor.
  - cbn [sort_children map].
    destruct IH as [[ND E]|[ND (s & E & P & A)]].
    + left. rewrite E. split; [|reflexivity].
      intros ND'. inversion ND'. contradiction.
    + rewrite E. cbn [bind].
      destruct (insert_child_spec x s A) as [[I E']|[NI (r & E' & P' & A')]].
      * left. split; [|exact E']. intros ND'. inversion ND' as [|? ? NI _]; subst.
        apply NI. apply in_map_iff in I. destruct I as (c & Ec & I).
        rewrite <- Ec. apply in_map.
        now apply (Permutation_in _ (Permutation_sym P)).
      * right. split.
        -- constructor; [|exact ND]. intros I. apply NI.
           apply in_map_iff in I. destruct I as (c & Ec & I).
           rewrite <- Ec. apply in_map. now apply (Permutation_in _ P).
        -- exists r. split; [exact E'|]. split; [|exact A'].
           now rewrite <- P', <- P.
Qed.

Lemma fold_LeafCount_sum (l : list Node) (acc : Z) :
  fold_left (fun acc child => (acc + LeafCount child) mod two32) l acc mod two32
  = (acc + fold_right Z.add 0 (map LeafCount l)) mod two32.
Proof.
  revert acc. induction l as [|c l IH]; intros acc; cbn [fold_left map fold_right].
  - now rewrite Z.add_0_r.
  - rewrite IH, Z.add_mod_idemp_l by (unfold two32; lia). f_equal. lia.
Qed.

Lemma fold_LeafCount_reduced (l : list Node) (acc : Z) :
  0 <= acc < two32 ->
  0 <= fold_left (fun acc child => (acc + LeafCount child) mod two32) l acc
  < two32.
Proof.
  revert acc. induction l as [|c l IH]; intros acc R; cbn [fold_left]; auto.
  apply IH. apply Z.mod_pos_bound. unfold two32. lia.
Qed.

Lemma fold_Hash_xor (l : list Node) (acc : Z) :
  fold_left (fun acc child => Z.lxor acc (Hash child)) l acc
  = Z.lxor acc (fold_right Z.lxor 0 (map Hash l)).
Proof.
  revert acc. induction l as [|c l IH]; intros acc; cbn [fold_left map fold_right].
  - now rewrite Z.lxor_0_r.
  - rewrite IH. now rewrite Z.lxor_assoc.
Qed.

Lemma xor_Permutation (l1 l2 : list Z) :
  Permutation l1 l2 -> fold_right Z.lxor 0 l1 = fold_right Z.lxor 0 l2.
Proof.
  induction 1 as [|x l1 l2 P IH|x y l|l1 l2 l3 P1 IH1 P2 IH2]; cbn [fold_right].
  - reflexivity.
  - now rewrite IH.
  - rewrite <- !Z.lxor_assoc. f_equal. apply Z.lxor_comm.
  - congruence.
Qed.

Lemma sum_Permutation (l1 l2 : list Z) :
  Permutation l1 l2 -> fold_right Z.add 0 l1 = fold_right Z.add 0 l2.
Proof.
  induction 1 as [|x l1 l2 P IH|x y l|l1 l2 l3 P1 IH1 P2 IH2]; cbn [fold_right];
    lia.
Qed.

Lemma ascending_last (l : list Node) (d : Node) :
  l <> [] -> ascending (map MaxLeafID l) = true ->
  In (last l d) l /\ forall c, In c l -> MaxLeafID c <= MaxLeafID (last l d).
Proof.
  induction l as [|a l IH]; intros NE A; [contradiction|].
  cbn [map] in A. apply ascending_cons in A. destruct A as [L A].
  destruct l as [|b l].
  - cbn. split; [now left|]. intros c [<-|[]]. lia.
  - destruct IH as [I M]; [discriminate|exact A|].
    change (last (a :: b :: l) d) with (last (b :: l) d).
    split; [now right|]. intros c [<-|Ic]; [|now apply M].
    assert (a_lt : MaxLeafID a < MaxLeafID (last (b :: l) d)).
    { apply L. now apply in_map. }
    lia.
Qed.

(** X1: the internal-node constructor returns exactly when it is given at
    least one child and no two children have the same maximal leaf id;
    with no child it aborts with its own message and on a tie with the tie
    message.  The node it returns has the given index and the given
    children, reordered by strictly increasing maximal leaf id; its maximal
    leaf id is the largest of the children's, its leaf count their sum
    modulo 2^32 and its hash the rotated XOR of their hashes. *)
Theorem Join_sorts_children_or_aborts (children : list Node) (index : Z) :
  (children = [] ->
   Join children index
   = Abort "Called internal node constructor with no children.")
  /\ (children <> [] -> ~ NoDup (map MaxLeafID children) ->
      Join children index = Abort tie_message)
  /\ (children <> [] -> NoDup (map MaxLeafID children) ->
      exists n, Join children index = Ok n)
  /\ (forall n,
         Join children index = Ok n ->
         Index n = index
         /\ Permutation children (Children n)
         /\ ascending (map MaxLeafID (Children n)) = true
         /\ In (MaxLeafID n) (map MaxLeafID children)
         /\ (forall c, In c children -> MaxLeafID c <= MaxLeafID n)
         /\ LeafCount n = fold_right Z.add 0 (map LeafCount children) mod two32
         /\ Hash n = SORotate (fold_right Z.lxor 0 (map Hash children)) 1).
Proof.
  split; [intros ->; reflexivity|].
  destruct children as [|first rest].
  { split; [intros NE; contradiction|]. split; [intros NE; contradiction|].
    intros n E. discriminate E. }
  destruct (sort_children_spec (first :: rest))
    as [[ND E]|[ND (s & E & P & A)]].
  - split; [intros _ _; unfold Join; now rewrite E|].
    split; [intros _ ND'; contradiction|].
    intros n En. unfold Join in En. rewrite E in En. discriminate En.
  - split; [intros _ ND'; contradiction|].
    split; [intros _ _; unfold Join; rewrite E; cbn [bind]; eauto|].
    intros n En. unfold Join in En. rewrite E in En. cbn [bind] in En.
    injection En as <-.
    remember (MkNode s index
                (PackInts (MaxLeafID (last s first))
                   (fold_left (fun acc child => (acc + LeafCount child) mod two32)
                              s 0))
                (SORotate (fold_left (fun acc child => Z.lxor acc (Hash child))
                                     s 0) 1)) as n eqn:En.
    assert (HM : MaxLeafID n = MaxLeafID (last s first)) by (now subst n).
    assert (HL : LeafCount n
                 = fold_left (fun acc child => (acc + LeafCount child) mod two32)
                             s 0) by (now subst n).
    assert (HH : Hash n
                 = SORotate (fold_left (fun acc child => Z.lxor acc (Hash child))
                                       s 0) 1) by (now subst n).
    assert (HC : Children n = s) by (now subst n).
    assert (HI : Index n = index) by (now subst n).
    clear En. rewrite HM, HL, HH, HC.
    assert (NEs : s <> []).
    { intros ->. apply Permutation_sym, Permutation_nil in P. discriminate. }
    destruct (@ascending_last s first NEs A) as [I M].
    split; [exact HI|]. split; [exact P|]. split; [exact A|].
    split; [|split; [|split]].
    + apply in_map. now apply (Permutation_in _ (Permutation_sym P)).
    + intros c Ic. apply M. now apply (Permutation_in _ P).
    + rewrite <- (Z.mod_small
                    (fold_left (fun acc child => (acc + LeafCount child) mod two32)
                               s 0) two32)
        by (apply fold_LeafCount_reduced; unfold two32; lia).
      rewrite fold_LeafCount_sum, Z.add_0_l. f_equal.
      apply sum_Permutation, Permutation_map, Permutation_sym, P.
    + f_equal. rewrite fold_Hash_xor, Z.lxor_0_l.
      apply xor_Permutation, Permutation_map, Permutation_sym, P.
Qed.
(* ================================================================== *)
(** * What [operator==] compares *)

(** X2: [operator==] on nodes is an equivalence relation that compares
    the hashes and the numbers of children, level by level, and nothing
    else: two nodes are equal exactly when their hash trees are, so that
    the index and the tag of a node play no part. *)
Theorem operator_eq_compares_hash_trees (a b : Node) :
  (Node_eqb a b = true <-> hash_tree a = hash_tree b)
  /\ Node_eqb a a = true
  /\ Node_eqb a b = Node_eqb b a
  /\ (forall c, Node_eqb a b = true -> Node_eqb b c = true ->
                Node_eqb a c = true)
  /\ (forall index tag,
         Node_eqb (MkNode (Children a) index tag (Hash a)) a = true).
Proof.
  split; [apply Node_eqb_hash_tree|].
  split; [apply Node_eqb_refl|].
  split; [apply Node_eqb_sym|].
  split.
  - intros c E1 E2. now rewrite (Node_eqb_trans_l a b c E1).
  - intros index tag. apply Node_eqb_hash_tree. now destruct a.
Qed.

(* ================================================================== *)
(** * The traversals visit the same nodes *)

Lemma PostOrder_unfold (v : Node) :
  PostOrder v = flat_map PostOrder (Children v) ++ [v].
Proof. now destruct v. Qed.

Lemma LevelOrder_loop_spec (fuel : nat) :
  forall to_visit,
    (length (flat_map PreOrder to_visit) <= fuel)%nat ->
    exists l, LevelOrder_loop fuel to_visit = Some l
              /\ Permutation l (flat_map PreOrder to_visit)
              /\ hd_error l = hd_error to_visit.
Proof.
  induction fuel as [|fuel IH]; intros [|n rest] L.
  - exists []. repeat split. constructor.
  - cbn [flat_map] in L. rewrite PreOrder_unfold in L. cbn in L. lia.
  - exists []. repeat split. constructor.
  - cbn [LevelOrder_loop].
    destruct (IH (rest ++ Children n)) as (l & E & P & _).
    { cbn [flat_map] in L. rewrite PreOrder_unfold in L.
      rewrite flat_map_app, length_app. cbn [length app] in L.
      rewrite length_app in L. lia. }
    rewrite E. cbn [option_map]. exists (n :: l).
    split; [reflexivity|]. split; [|reflexivity].
    cbn [flat_map]. rewrite PreOrder_unfold. cbn [app]. constructor.
    rewrite P, flat_map_app. apply Permutation_app_comm.
Qed.

(** X3: the three traversals visit every node of the tree exactly once:
    the level-order loop ends within one turn per node, and the
    pre-order, post-order and level-order sequences are permutations of
    one another; pre-order and level-order start at the root and
    post-order ends there. *)
Theorem traversals_visit_the_same_nodes (t : Node) :
  exists level,
    LevelOrder t = Some level
    /\ Permutation level (PreOrder t)
    /\ Permutation (PostOrder t) (PreOrder t)
    /\ length (PostOrder t) = length (PreOrder t)
    /\ hd_error (PreOrder t) = Some t
    /\ hd_error level = Some t
    /\ last (PostOrder t) t = t.
Proof.
  destruct (@LevelOrder_loop_spec (length (PreOrder t)) [t])
    as (level & E & P & H).
  { cbn [flat_map]. now rewrite app_nil_r. }
  cbn [flat_map] in P. rewrite app_nil_r in P.
  exists level. split; [exact E|]. split; [exact P|].
  pose proof (Permutation_sym (PreOrder_PostOrder t)) as Q.
  split; [exact Q|]. split; [now apply Permutation_length|].
  split; [now rewrite PreOrder_unfold|]. split; [exact H|].
  rewrite PostOrder_unfold. apply last_last.
Qed.

(** The test of the traversals in the repository. *)
Example Node_test_traversals :
  map TagString (PreOrder traversal_test_topology)
  = ["9_10"; "4_5"; "3_4"; "1_2"; "0_1"; "1_1"; "3_2"; "2_1"; "3_1"; "4_1";
     "9_5"; "7_3"; "5_1"; "7_2"; "6_1"; "7_1"; "9_2"; "8_1"; "9_1"]
  /\ map TagString (PostOrder traversal_test_topology)
     = ["0_1"; "1_1"; "1_2"; "2_1"; "3_1"; "3_2"; "3_4"; "4_1"; "4_5"; "5_1";
        "6_1"; "7_1"; "7_2"; "7_3"; "8_1"; "9_1"; "9_2"; "9_5"; "9_10"]
  /\ option_map (map TagString) (LevelOrder traversal_test_topology)
     = Some ["9_10"; "4_5"; "9_5"; "3_4"; "4_1"; "7_3"; "9_2"; "1_2"; "3_2";
             "5_1"; "7_2"; "8_1"; "9_1"; "0_1"; "1_1"; "2_1"; "3_1"; "6_1";
             "7_1"].
Proof. repeat split; vm_compute; reflexivity. Qed.

(* ================================================================== *)
(** * The triple and binary traversals of bifurcating trees *)










(* ================================================================== *)
(** * The bitsets of [TagBitsetMapOf] *)

Lemma well_formed_spec (N : nat) (t : Node) :
  well_formed N t = true ->
  tags_ok t = true /\ forking t = true /\ NoDup (leaf_ids t)
  /\ (forall i, In i (leaf_ids t) -> 0 <= i < Z.of_nat N)
  /\ length (leaf_ids t) = N /\ Z.of_nat N < two32.
Proof.
  unfold well_formed. rewrite !andb_true_iff.
  intros [[[[[T F] ND] R] C] B].
  split; [exact T|]. split; [exact F|]. split; [now apply Z_nodup_NoDup|].
  split.
  - intros i I. rewrite forallb_forall in R. specialize (R i I).
    apply andb_true_iff in R. lia.
  - split; [now apply Nat.eqb_eq|lia].
Qed.

(** X6: for a topology on the taxa 0..N-1 as the constructors build it,
    [TagBitsetMapOf] returns a map with one entry per node, in post-order
    and under pairwise different tags; the bitset it holds for the tag of
    a node has N bits, and its bit i is set exactly when leaf i is below
    that node. *)
Theorem TagBitsetMapOf_records_the_leaves_below (N : nat) (t : Node) :
  well_formed N t = true ->
  exists m,
    TagBitsetMapOf t = Ok m
    /\ map fst m = map Tag (PostOrder t)
    /\ NoDup (map fst m)
    /\ forall u,
        In u (PreOrder t) ->
        exists b,
          find tag_eqb m (Tag u) = Some b
          /\ length b = N
          /\ forall i, (i < N)%nat ->
                       (has b i = true <-> In (Z.of_nat i) (leaf_ids u)).
Proof.
  intros W. destruct (@well_formed_spec N t W) as (T & F & ND & R & C & B).
  assert (NDt : NoDup (map Tag (PostOrder t))).
  { apply tags_NoDup; auto. now rewrite C. }
  assert (LC : LeafCount t = Z.of_nat N).
  { destruct (tags_ok_counts t T) as [L _]; [now rewrite C|]. now rewrite L, C. }
  exists (tag_entries N (PostOrder t)).
  assert (K : map fst (tag_entries N (PostOrder t)) = map Tag (PostOrder t)).
  { unfold tag_entries. now rewrite map_map. }
  split; [now apply TagBitsetMapOf_closed|].
  split; [exact K|]. split; [now rewrite K|].
  intros u I. exists (clade N u). split; [|split].
  - apply (@In_find _ _ tag_eqb tag_eqb_eq); [now rewrite K|].
    unfold tag_entries. apply (in_map (fun u => (Tag u, clade N u))).
    now apply In_PreOrder_PostOrder.
  - apply clade_length.
  - intros i L. rewrite has_clade; [apply has_leaf_In| |exact L].
    intros j Ij. apply R. exact (@leaf_ids_subnode t u I j Ij).
Qed.

Lemma TagBitsetMapOf_records_the_leaves_below_witness :
  exists m,
    TagBitsetMapOf (example_topology 3) = Ok m
    /\ find tag_eqb m (3, 3) = Some [false; true; true; true]
    /\ find tag_eqb m (3, 4) = Some [true; true; true; true].
Proof.
  destruct (@TagBitsetMapOf_records_the_leaves_below 4 (example_topology 3))
    as (m & E & _).
  { reflexivity. }
  exists m. vm_compute in E. injection E as <-. repeat split.
Defined.
(* ================================================================== *)
(** * The counters do not depend on the order of the topologies *)

Lemma total_times_Permutation (times : Node -> Z) (tc tc' : TopologyCounter) :
  Permutation tc tc' -> total_times times tc = total_times times tc'.
Proof.
  unfold total_times.
  induction 1 as [|x l1 l2 P IH|x y l|l1 l2 l3 P1 IH1 P2 IH2]; cbn [fold_right];
    lia.
Qed.

Lemma observed_Permutation (tc tc' : TopologyCounter) (Q : Node * Z -> Prop) :
  Permutation tc tc' ->
  (exists iter, In iter tc /\ Q iter) <-> (exists iter, In iter tc' /\ Q iter).
Proof.
  intros P. split; intros (iter & I & H); exists iter; (split; [|exact H]).
  - now apply (Permutation_in _ P).
  - now apply (Permutation_in _ (Permutation_sym P)).
Qed.

Lemma count_pcss_parents_observed (N : nat) (tc : TopologyCounter) (p : Bitset) :
  In p (map fst (count_pcss N tc))
  <-> exists iter, In iter tc /\ In p (map fst (pcss_pairs_of N (fst iter))).
Proof.
  unfold count_pcss.
  assert (L : forall l c d,
             In p (map fst (fold_left
                              (fun d (pc : Bitset * Bitset) =>
                                 PCSS_insert d (fst pc) (snd pc) c) l d))
             <-> In p (map fst l) \/ In p (map fst d)).
  { induction l as [|[p0 c0] l IHl]; intros c d; cbn [fold_left];
      [cbn; tauto|].
    rewrite IHl, PCSS_insert_parents. cbn. intuition congruence. }
  assert (G : forall d,
             In p (map fst
                     (fold_left (fun d (iter : Node * Z) =>
                                   fold_left (fun d pc =>
                                                PCSS_insert d (fst pc) (snd pc)
                                                            (snd iter))
                                             (pcss_pairs_of N (fst iter)) d)
                                tc d))
             <-> (exists iter, In iter tc
                               /\ In p (map fst (pcss_pairs_of N (fst iter))))
                 \/ In p (map fst d)).
  { induction tc as [|[t c] ts IH]; intros d; cbn [fold_left].
    - split; [tauto|]. intros [(iter & [] & _)|I]; exact I.
    - rewrite IH, L. cbn [fst snd]. split.
      + intros [(iter & I & Hk)|[Hk|Hk]].
        * left. exists iter. split; [now right|exact Hk].
        * left. exists (t, c). split; [now left|exact Hk].
        * now right.
      + intros [(iter & [<-|I] & Hk)|Hk].
        * right. now left.
        * left. eauto.
        * right. now right. }
  rewrite G. cbn. tauto.
Qed.

(** X7: the counters do not depend on the order in which the topology
    counter hands over its topologies.  For two orders of the same
    unrooted topologies both counters return; the rootsplit counters have
    the same keys with the same values, and the PCSS counters the same
    parents, the same parent-child pairs and the same values. *)
Theorem counters_do_not_depend_on_the_order
        (N : nat) (tc tc' : TopologyCounter) :
  Forall (fun iter => unrooted_topology N (fst iter) = true) tc ->
  Permutation tc tc' ->
  exists rc rc' pc pc',
    RootsplitCounterOf tc = Ok rc /\ RootsplitCounterOf tc' = Ok rc'
    /\ PCSSCounterOf tc = Ok pc /\ PCSSCounterOf tc' = Ok pc'
    /\ Permutation (map fst rc) (map fst rc')
    /\ (forall s, counter_value rc s = counter_value rc' s)
    /\ Permutation (map fst pc) (map fst pc')
    /\ (forall parent child,
           In (parent, child) (pcss_entries pc)
           <-> In (parent, child) (pcss_entries pc'))
    /\ (forall parent child,
           pcss_value pc parent child = pcss_value pc' parent child).
Proof.
  intros F P.
  assert (F' : Forall (fun iter => unrooted_topology N (fst iter) = true) tc').
  { now apply (Permutation_Forall P). }
  apply Forall_unrooted in F, F'.
  exists (count_rootsplits N tc), (count_rootsplits N tc'),
    (count_pcss N tc), (count_pcss N tc').
  split; [now apply RootsplitCounterOf_closed|].
  split; [now apply RootsplitCounterOf_closed|].
  split; [now apply PCSSCounterOf_closed|].
  split; [now apply PCSSCounterOf_closed|].
  split.
  { apply NoDup_Permutation; try apply count_rootsplits_NoDup.
    intros s. rewrite !count_rootsplits_keys.
    apply (observed_Permutation
             (fun iter => In s (rootsplits_of N (fst iter))) P). }
  split.
  { intros s. rewrite !count_rootsplits_value. f_equal.
    now apply total_times_Permutation. }
  split.
  { apply NoDup_Permutation; try apply count_pcss_well_keyed.
    intros p. rewrite !count_pcss_parents_observed.
    apply (observed_Permutation
             (fun iter => In p (map fst (pcss_pairs_of N (fst iter)))) P). }
  split.
  { intros p c. rewrite !count_pcss_entries.
    apply (observed_Permutation
             (fun iter => In (p, c) (pcss_pairs_of N (fst iter))) P). }
  intros p c. rewrite !count_pcss_value. f_equal.
  now apply total_times_Permutation.
Qed.

Lemma counters_do_not_depend_on_the_order_witness :
  exists rc rc',
    RootsplitCounterOf [(example_topology 0, 2); (example_topology 2, 1)]
    = Ok rc
    /\ RootsplitCounterOf [(example_topology 2, 1); (example_topology 0, 2)]
       = Ok rc'
    /\ rc <> rc'
    /\ forall s, counter_value rc s = counter_value rc' s.
Proof.
  destruct (@counters_do_not_depend_on_the_order 4
              [(example_topology 0, 2); (example_topology 2, 1)]
              [(example_topology 2, 1); (example_topology 0, 2)])
    as (rc & rc' & pc & pc' & E & E' & _ & _ & _ & V & _).
  { repeat constructor. }
  { apply perm_swap. }
  exists rc, rc'. split; [exact E|]. split; [exact E'|]. split; [|exact V].
  vm_compute in E, E'. injection E as <-. injection E' as <-. discriminate.
Defined.
(* ================================================================== *)
(** * The shape of the keys *)

Lemma Minorize_head (x : Bitset) : has (Minorize x) 0 = false.
Proof. destruct x as [|[] x]; reflexivity. Qed.

(** A node other than the root of an unrooted topology has a leaf below
    it and misses a leaf. *)
Lemma proper_clade (N : nat) (t u : Node) :
  unrooted N t -> In u (rootsplit_nodes t) ->
  (forall i, In i (leaf_ids u) -> 0 <= i < Z.of_nat N)
  /\ exists z j,
      0 <= z < Z.of_nat N /\ 0 <= j < Z.of_nat N
      /\ In z (leaf_ids u) /\ ~ In j (leaf_ids u).
Proof.
  intros U I.
  destruct (unrooted_children U)
    as (c0 & c1 & c2 & E & I0 & I1 & I2 & D01 & D02 & D12).
  unfold rootsplit_nodes in I. rewrite E in I. cbn [flat_map] in I.
  rewrite app_nil_r in I.
  destruct (some_leaf u) as [z Iz].
  destruct (some_leaf c0) as [z0 Z0]. destruct (some_leaf c1) as [z1 Z1].
  assert (G : forall c other j,
             inside N c -> inside N other -> In j (leaf_ids other) ->
             (forall x, In x (leaf_ids c) -> In x (leaf_ids other) -> False) ->
             In u (PreOrder c) ->
             (forall i, In i (leaf_ids u) -> 0 <= i < Z.of_nat N)
             /\ exists z j,
                 0 <= z < Z.of_nat N /\ 0 <= j < Z.of_nat N
                 /\ In z (leaf_ids u) /\ ~ In j (leaf_ids u)).
  { intros c other j Ic Io Ij D Iu.
    pose proof (leaf_ids_subnode _ _ Iu) as Su.
    destruct Ic as (_ & _ & Rc). destruct Io as (_ & _ & Ro).
    split; [intros i Ii; apply Rc, Su, Ii|].
    exists z, j. split; [apply Rc, Su, Iz|]. split; [now apply Ro|].
    split; [exact Iz|]. intros Ij'. apply (D j); auto. }
  apply in_app_or in I. destruct I as [I|I].
  - apply (G c0 c1 z1); auto.
  - apply in_app_or in I. destruct I as [I|I].
    + apply (G c1 c0 z0); auto. intros x A B. now apply (D01 x).
    + apply (G c2 c0 z0); auto. intros x A B. now apply (D02 x).
Qed.

(** X8: the keys of the counters of unrooted topologies on N taxa are
    well-shaped.  A rootsplit key has N bits, never holds taxon 0 (it is
    the minorized side of the split) and holds at least one taxon; a
    parent subsplit of the PCSS counter has 2N bits and each of its
    children N bits. *)
Theorem counter_keys_are_well_shaped (N : nat) (tc : TopologyCounter) :
  Forall (fun iter => unrooted_topology N (fst iter) = true) tc ->
  exists rc pc,
    RootsplitCounterOf tc = Ok rc /\ PCSSCounterOf tc = Ok pc
    /\ (forall s,
           In s (map fst rc) ->
           length s = N /\ has s 0 = false
           /\ exists i, (i < N)%nat /\ has s i = true)
    /\ (forall parent child,
           In (parent, child) (pcss_entries pc) ->
           length parent = (2 * N)%nat /\ length child = N).
Proof.
  intros F. apply Forall_unrooted in F.
  exists (count_rootsplits N tc), (count_pcss N tc).
  split; [now apply RootsplitCounterOf_closed|].
  split; [now apply PCSSCounterOf_closed|].
  split.
  - intros s I. apply count_rootsplits_keys in I.
    destruct I as (iter & It & I). rewrite Forall_forall in F.
    specialize (F iter It). unfold rootsplits_of in I.
    apply in_map_iff in I. destruct I as (u & <- & Iu).
    split; [apply rootsplit_of_length|]. split; [apply Minorize_head|].
    destruct (@proper_clade N (fst iter) u F Iu) as (R & z & j & Hz & Hj & Iz & Ij).
    destruct (rootsplit_of_chunk N u) as [d ->].
    destruct d.
    + exists (Z.to_nat j). split; [lia|].
      rewrite has_chunk; auto. now rewrite (has_leaf_false _ _ Ij).
    + exists (Z.to_nat z). split; [lia|].
      rewrite has_chunk; auto. now rewrite (has_leaf_true _ _ Iz).
  - intros p c I. apply count_pcss_entries in I.
    now apply observed_pcss_lengths with tc.
Qed.

Lemma counter_keys_are_well_shaped_witness :
  exists rc pc,
    RootsplitCounterOf [(example_topology 0, 2); (example_topology 2, 1)]
    = Ok rc
    /\ PCSSCounterOf [(example_topology 0, 2); (example_topology 2, 1)]
       = Ok pc
    /\ map fst rc
       = [[false; true; true; true]; [false; true; false; false];
          [false; false; true; true]; [false; false; true; false];
          [false; false; false; true]; [false; true; false; true]]
    /\ forall s, In s (map fst rc) -> length s = 4%nat /\ has s 0 = false.
Proof.
  destruct (@counter_keys_are_well_shaped 4
              [(example_topology 0, 2); (example_topology 2, 1)])
    as (rc & pc & E & E' & S & _).
  { repeat constructor. }
  exists rc, pc. split; [exact E|]. split; [exact E'|]. split.
  - vm_compute in E. now injection E as <-.
  - intros s I. destruct (S s I) as (L & H & _). now split.
Defined.

(* ================================================================== *)
(** * Chunks and their taxa *)

Lemma In_positions_from (b : Bitset) :
  forall (i z : Z),
    In z (positions_from b i)
    <-> i <= z < i + Z.of_nat (length b)
        /\ has b (Z.to_nat (z - i)) = true.
Proof.
  unfold has. induction b as [|a b IH]; intros i z; cbn [positions_from length].
  - split; [intros []|]. intros [H _]. lia.
  - rewrite in_app_iff, IH. split.
    + intros [I|(R & H)].
      * destruct a; [|destruct I]. destruct I as [<-|[]].
        split; [lia|]. now rewrite Z.sub_diag.
      * split; [lia|].
        replace (Z.to_nat (z - i)) with (S (Z.to_nat (z - (i + 1)))) by lia.
        exact H.
    + intros (R & H). destruct (Z.eq_dec z i) as [->|Ne].
      * left. rewrite Z.sub_diag in H. cbn in H. subst a. now left.
      * right. split; [lia|].
        replace (Z.to_nat (z - i)) with (S (Z.to_nat (z - (i + 1)))) in H by lia.
        exact H.
Qed.

Lemma In_members (b : Bitset) (z : Z) :
  In z (members b)
  <-> 0 <= z < Z.of_nat (length b) /\ has b (Z.to_nat z) = true.
Proof.
  unfold members. rewrite In_positions_from, Z.sub_0_r. reflexivity.
Qed.

Lemma NoDup_positions_from (b : Bitset) :
  forall i, NoDup (positions_from b i).
Proof.
  induction b as [|a b IH]; intros i; cbn [positions_from]; [constructor|].
  destruct a; cbn [app]; [|apply IH]. constructor; [|apply IH].
  rewrite In_positions_from. lia.
Qed.

Lemma NoDup_members (b : Bitset) : NoDup (members b).
Proof. apply NoDup_positions_from. Qed.

Lemma SingletonOption_Some (b : Bitset) (i : Z) :
  SingletonOption b = Some i -> members b = [i].
Proof.
  unfold SingletonOption, members.
  destruct (positions_from b 0) as [|a [|a' l]]; congruence.
Qed.

Lemma SingletonOption_None (b : Bitset) :
  SingletonOption b = None -> length (members b) <> 1%nat.
Proof.
  unfold SingletonOption, members.
  destruct (positions_from b 0) as [|a [|a' l]]; cbn; congruence.
Qed.

(** Bitsets of one length with the same bits are equal. *)
Lemma bits_ext (x : Bitset) :
  forall y,
    length x = length y ->
    (forall i, (i < length x)%nat -> has x i = has y i) ->
    x = y.
Proof.
  unfold has. induction x as [|a x IH]; intros [|b y] L H; cbn in L;
    try discriminate; [reflexivity|].
  f_equal.
  - apply (H 0%nat). cbn. lia.
  - apply IH; [lia|]. intros i Hi. apply (H (S i)). cbn. lia.
Qed.

Lemma has_beyond (x : Bitset) (i : nat) :
  (length x <= i)%nat -> has x i = false.
Proof. intros H. unfold has. now apply nth_overflow. Qed.

Lemma Bitset_diff_length (x : Bitset) :
  forall y, length (Bitset_diff x y) = length x.
Proof.
  induction x as [|a x IH]; intros [|b y]; cbn; auto.
Qed.

Lemma has_diff (x : Bitset) :
  forall y i,
    length x = length y ->
    has (Bitset_diff x y) i = has x i && negb (has y i).
Proof.
  unfold has. induction x as [|a x IH]; intros [|b y] i L; cbn in L;
    try discriminate.
  - destruct i; reflexivity.
  - destruct i; cbn; [reflexivity|]. apply IH. lia.
Qed.

Lemma SplitChunk_0 (x y : Bitset) :
  length x = length y -> SplitChunk (x ++ y) 0 = x.
Proof.
  intros L. unfold SplitChunk. rewrite length_app, <- L.
  replace (length x + length x)%nat with (length x * 2)%nat by lia.
  rewrite Nat.div_mul by lia. cbn [Nat.mul skipn].
  rewrite firstn_app, Nat.sub_diag, firstn_all. cbn. apply app_nil_r.
Qed.

Lemma SplitChunk_1 (x y : Bitset) :
  length x = length y -> SplitChunk (x ++ y) 1 = y.
Proof.
  intros L. unfold SplitChunk. rewrite length_app, <- L.
  replace (length x + length x)%nat with (length x * 2)%nat by lia.
  rewrite Nat.div_mul by lia. rewrite Nat.mul_1_l.
  rewrite skipn_app, Nat.sub_diag, skipn_all. cbn [skipn app].
  rewrite L. apply firstn_all.
Qed.

Lemma RotateSubsplit_app (x y : Bitset) :
  length x = length y -> RotateSubsplit (x ++ y) = y ++ x.
Proof.
  intros L. unfold RotateSubsplit. now rewrite SplitChunk_0, SplitChunk_1.
Qed.

Lemma NoDup_app_apart {A : Type} (l1 l2 : list A) :
  NoDup l1 -> NoDup l2 -> (forall a, In a l1 -> In a l2 -> False) ->
  NoDup (l1 ++ l2).
Proof.
  induction l1 as [|x l1 IH]; cbn; intros N1 N2 D; [exact N2|].
  inversion N1 as [|? ? Nx N1']; subst. constructor.
  - rewrite in_app_iff. intros [I|I]; [contradiction|]. apply (D x); auto.
  - apply IH; auto. intros a I1 I2. apply (D a); auto.
Qed.

(** The taxa of a chunk that is the union of two chunks without a common
    taxon. *)
Lemma members_union (f x y : Bitset) :
  length x = length f -> length y = length f ->
  (forall i, (i < length f)%nat -> has f i = has x i || has y i) ->
  (forall i, (i < length f)%nat -> has x i && has y i = false) ->
  Permutation (members x ++ members y) (members f).
Proof.
  intros Lx Ly U D. apply NoDup_Permutation.
  - apply NoDup_app_apart; try apply NoDup_members.
    intros z Ix Iy. apply In_members in Ix, Iy.
    destruct Ix as [R Hx], Iy as [_ Hy].
    specialize (D (Z.to_nat z)). rewrite Hx, Hy in D.
    cbn in D. assert (true = false) by (apply D; lia). discriminate.
  - apply NoDup_members.
  - intros z. rewrite in_app_iff, !In_members, Lx, Ly. split.
    + intros [[R H]|[R H]]; (split; [exact R|]); rewrite U by lia;
        rewrite H; auto using orb_true_r.
    + intros [R H]. rewrite U in H by lia.
      apply orb_true_iff in H. tauto.
Qed.

(** [ChildSubsplit] on a parent whose second chunk is the union of two
    chunks without a common taxon, the child being one of the two. *)
Lemma ChildSubsplit_cases (s f x y : Bitset) :
  length s = length f -> length x = length f -> length y = length f ->
  (forall i, (i < length f)%nat -> has f i = has x i || has y i) ->
  (forall i, (i < length f)%nat -> has x i && has y i = false) ->
  ChildSubsplit (s ++ f) (Bitset_min x y) = x ++ y
  \/ ChildSubsplit (s ++ f) (Bitset_min x y) = y ++ x.
Proof.
  intros Ls Lx Ly U D. unfold ChildSubsplit. rewrite SplitChunk_1 by exact Ls.
  assert (Dx : Bitset_diff f x = y).
  { apply bits_ext; [now rewrite Bitset_diff_length|].
    intros i Hi. rewrite Bitset_diff_length in Hi.
    rewrite has_diff by congruence. rewrite U by exact Hi.
    specialize (D i Hi). destruct (has x i), (has y i); cbn in *; congruence. }
  assert (Dy : Bitset_diff f y = x).
  { apply bits_ext; [now rewrite Bitset_diff_length|].
    intros i Hi. rewrite Bitset_diff_length in Hi.
    rewrite has_diff by congruence. rewrite U by exact Hi.
    specialize (D i Hi). destruct (has x i), (has y i); cbn in *; congruence. }
  unfold Bitset_min. destruct (Bitset_ltb y x).
  - rewrite Dy. destruct (Bitset_ltb y x); auto.
  - rewrite Dx. destruct (Bitset_ltb x y); auto.
Qed.

Lemma members_range (b : Bitset) (z : Z) :
  In z (members b) -> 0 <= z < Z.of_nat (length b).
Proof. intros I. now apply In_members in I. Qed.

(** The taxa of a chunk and of its complement are all the taxa. *)
Lemma members_flip (x : Bitset) :
  Permutation (members x ++ members (Bitset_flip x))
              (map Z.of_nat (seq 0 (length x))).
Proof.
  apply NoDup_Permutation.
  - apply NoDup_app_apart; try apply NoDup_members.
    intros z Ix If. apply In_members in Ix, If.
    destruct Ix as [R Hx], If as [_ Hf].
    rewrite has_flip, Hx in Hf by lia. discriminate.
  - apply Finite.Injective_map_NoDup; [|apply seq_NoDup].
    intros a b. apply Nat2Z.inj.
  - intros z. rewrite in_app_iff, !In_members, flip_length, in_map_iff. split.
    + intros [[R _]|[R _]]; exists (Z.to_nat z); (split; [lia|]);
        apply in_seq; lia.
    + intros (i & <- & I). apply in_seq in I. rewrite Nat2Z.id.
      rewrite has_flip by lia. destruct (has x i); [left|right];
        (split; [lia|reflexivity]).
Qed.

(* ================================================================== *)
(** * Where the calls of [PCSSPreOrder] come from *)

Lemma TriplePreOrderInternal_calls (v : Node) :
  bifurcating v = true ->
  exists l,
    TriplePreOrderInternal PCSS_f_internal v = Ok l
    /\ forall c,
        In c l
        <-> exists p s n,
            In p (PreOrder v)
            /\ (Children p = [n; s] \/ Children p = [s; n])
            /\ In c (calls_of (PCSS_f_internal p s n)).
Proof.
  induction v as [cs idx tag h IH] using Node_ind. intros B.
  pose proof B as B'. cbn in B.
  destruct cs as [|a [|b [|]]]; try discriminate.
  - exists []. split; [reflexivity|]. intros c. split; [intros []|].
    intros (p & s & n & [<-|[]] & [E|E] & _); discriminate E.
  - apply andb_true_iff in B. destruct B as [Ba Bb].
    inversion IH as [|? ? IHa IH']; subst. inversion IH' as [|? ? IHb _]; subst.
    destruct (IHa Ba) as (la & Ea & Ha). destruct (IHb Bb) as (lb & Eb & Hb).
    remember (MkNode [a; b] idx tag h) as v eqn:Ev.
    destruct (@PCSS_f_internal_ok v b a Ba) as (ga & Ega & _).
    destruct (@PCSS_f_internal_ok v a b Bb) as (gb & Egb & _).
    assert (Cv : Children v = [a; b]) by now subst v.
    assert (Pv : PreOrder v = v :: PreOrder a ++ PreOrder b).
    { subst v. cbn [PreOrder flat_map]. now rewrite app_nil_r. }
    exists (ga ++ la ++ gb ++ lb). split.
    + rewrite Ev at 1. cbn [TriplePreOrderInternal]. rewrite <- Ev.
      rewrite Ega. cbn [bind].
      rewrite Ea. cbn [bind]. rewrite Egb. cbn [bind]. rewrite Eb. reflexivity.
    + intros c. rewrite !in_app_iff, Ha, Hb, Pv. split.
      * intros [I|[(p & s & n & Ip & Ec & Ic)|[I|(p & s & n & Ip & Ec & Ic)]]].
        -- exists v, b, a. split; [now left|]. split; [now left|].
           now rewrite Ega.
        -- exists p, s, n. split; [right; apply in_or_app; now left|]. auto.
        -- exists v, a, b. split; [now left|]. split; [now right|].
           now rewrite Egb.
        -- exists p, s, n. split; [right; apply in_or_app; now right|]. auto.
      * intros (p & s & n & Ip & Ec & Ic).
        destruct Ip as [<-|Ip].
        -- rewrite Cv in Ec. destruct Ec as [Ec|Ec]; injection Ec as <- <-.
           ++ left. now rewrite Ega in Ic.
           ++ right. right. left. now rewrite Egb in Ic.
        -- apply in_app_iff in Ip. destruct Ip as [Ip|Ip].
           ++ right. left. exists p, s, n. auto.
           ++ right. right. right. exists p, s, n. auto.
Qed.

Lemma PCSSPreOrder_calls (N : nat) (t : Node) :
  unrooted N t ->
  forall c,
    In c (calls_of (PCSSPreOrder t))
    <-> (exists n0 n1 n2,
            root_rotation t n0 n1 n2
            /\ In c (calls_of (PCSS_f_root n0 n1 n2)))
        \/ (exists p s n,
               internal_triple t p s n
               /\ In c (calls_of (PCSS_f_internal p s n))).
Proof.
  intros U. destruct (u_shape U) as (c0 & c1 & c2 & E & B0 & B1 & B2).
  unfold PCSSPreOrder, TriplePreOrder, root_rotation, internal_triple,
    rootsplit_nodes. rewrite E.
  destruct (@PCSS_f_root_ok c0 c1 c2 B2) as (g2 & Eg2 & _).
  destruct (@PCSS_f_root_ok c1 c2 c0 B0) as (g0 & Eg0 & _).
  destruct (@PCSS_f_root_ok c2 c0 c1 B1) as (g1 & Eg1 & _).
  destruct (TriplePreOrderInternal_calls _ B0) as (l0 & E0 & H0).
  destruct (TriplePreOrderInternal_calls _ B1) as (l1 & E1 & H1).
  destruct (TriplePreOrderInternal_calls _ B2) as (l2 & E2 & H2).
  rewrite Eg2, Eg0, Eg1. cbn [bind mapM]. rewrite E0, E1, E2.
  cbn [bind calls_of concat flat_map]. rewrite !app_nil_r.
  intros c. rewrite !in_app_iff, H0, H1, H2. split.
  - intros [I|[I|[I|[I|[I|I]]]]].
    + left. exists c0, c1, c2. split; [auto|]. now rewrite Eg2.
    + left. exists c1, c2, c0. split; [auto|]. now rewrite Eg0.
    + left. exists c2, c0, c1. split; [auto|]. now rewrite Eg1.
    + right. destruct I as (p & s & n & Ip & Ec & Ic). exists p, s, n.
      rewrite !in_app_iff. auto.
    + right. destruct I as (p & s & n & Ip & Ec & Ic). exists p, s, n.
      rewrite !in_app_iff. auto.
    + right. destruct I as (p & s & n & Ip & Ec & Ic). exists p, s, n.
      rewrite !in_app_iff. auto.
  - intros [(n0 & n1 & n2 & [R|[R|R]] & Ic)|(p & s & n & (Ip & Ec) & Ic)].
    + injection R as <- <- <-. left. now rewrite Eg2 in Ic.
    + injection R as <- <- <-. right. left. now rewrite Eg0 in Ic.
    + injection R as <- <- <-. right. right. left. now rewrite Eg1 in Ic.
    + rewrite !in_app_iff in Ip. right. right. right.
      destruct Ip as [Ip|[Ip|Ip]]; [left|right; left|right; right];
        exists p, s, n; auto.
Qed.

(* ================================================================== *)
(** * The children of a call are refined by other calls *)

Lemma singleton_list {A : Type} (l : list A) (a : A) :
  NoDup l -> (forall z, In z l <-> z = a) -> l = [a].
Proof.
  intros ND H. destruct l as [|x [|y l]].
  - assert (I : In a []) by now apply H. destruct I.
  - f_equal. apply H. now left.
  - exfalso. inversion ND as [|? ? Nx _]; subst. apply Nx.
    assert (Ex : x = a) by (apply H; now left).
    assert (Ey : y = a) by (apply H; right; now left).
    subst. now left.
Qed.

Lemma chunk_bit (N : nat) (u : Node) (d : bool) (i : nat) :
  (forall j, In j (leaf_ids u) -> 0 <= j < Z.of_nat N) ->
  (i < N)%nat ->
  has (chunk N u d) i = xorb d (has_leaf u (Z.of_nat i)).
Proof.
  intros R Hi. rewrite <- (Nat2Z.id i) at 1. apply has_chunk; [exact R|lia].
Qed.

Lemma members_chunk (N : nat) (u : Node) (d : bool) (z : Z) :
  (forall j, In j (leaf_ids u) -> 0 <= j < Z.of_nat N) ->
  In z (members (chunk N u d))
  <-> 0 <= z < Z.of_nat N /\ xorb d (has_leaf u z) = true.
Proof.
  intros R. rewrite In_members, chunk_length. split; intros [H B];
    (split; [exact H|]).
  - now rewrite has_chunk in B.
  - now rewrite has_chunk.
Qed.

(** The clade of a leaf is a singleton. *)
Lemma leaf_singleton (N : nat) (u : Node) :
  inside N u -> Children u = [] ->
  exists i, SingletonOption (chunk N u false) = Some i.
Proof.
  intros (_ & _ & R) E. destruct u as [cs idx tag h]. cbn in E. subst cs.
  exists (fst tag). unfold SingletonOption.
  assert (M : members (chunk N (MkNode [] idx tag h) false) = [fst tag]).
  { apply singleton_list; [apply NoDup_members|].
    intros z. rewrite members_chunk by exact R. cbn [xorb].
    rewrite has_leaf_In. cbn [leaf_ids]. split.
    - intros [_ [<-|[]]]. reflexivity.
    - intros ->. split; [apply R; now left|now left]. }
  unfold members in M. now rewrite M.
Qed.

Lemma not_singleton_internal (N : nat) (u : Node) :
  inside N u -> SingletonOption (chunk N u false) = None ->
  exists a b, Children u = [a; b].
Proof.
  intros I S. pose proof I as (B & _).
  destruct u as [cs idx tag h]. cbn in B.
  destruct cs as [|a [|b [|]]]; try discriminate; [|now exists a, b].
  destruct (@leaf_singleton N (MkNode [] idx tag h) I eq_refl) as [i E].
  congruence.
Qed.

Lemma members_down (N : nat) (u : Node) :
  inside N u -> members (chunk N u false) <> [].
Proof.
  intros (_ & _ & R) E. destruct (some_leaf u) as [z Iz].
  assert (I : In z (members (chunk N u false))).
  { apply members_chunk; [exact R|]. split; [now apply R|].
    cbn. now apply has_leaf_In. }
  rewrite E in I. destruct I.
Qed.

Lemma members_up (N : nat) (t u : Node) :
  unrooted N t -> In u (rootsplit_nodes t) ->
  members (chunk N u true) <> [].
Proof.
  intros U I E.
  destruct (@proper_clade N t u U I) as (R & z & j & Hz & Hj & Iz & Ij).
  assert (I' : In j (members (chunk N u true))).
  { apply members_chunk; [exact R|]. split; [exact Hj|].
    now rewrite has_leaf_false. }
  rewrite E in I'. destruct I'.
Qed.

Lemma divides_sym (f x y : Bitset) : divides f x y -> divides f y x.
Proof.
  intros (Lx & Ly & U & D). repeat split; auto.
  - intros i Hi. rewrite orb_comm. auto.
  - intros i Hi. rewrite andb_comm. auto.
Qed.

Lemma divides_apart (N : nat) (f x y : Bitset) :
  length f = N -> divides f x y ->
  members x <> [] -> members y <> [] -> apart N x y.
Proof.
  intros L (Lx & Ly & U & D) Mx My. repeat split; try congruence.
  intros z Ix Iy. apply In_members in Ix, Iy.
  destruct Ix as [R Hx], Iy as [_ Hy].
  specialize (D (Z.to_nat z)). rewrite Hx, Hy in D.
  assert (true = false) by (apply D; lia). discriminate.
Qed.

Lemma apart_sym (N : nat) (x y : Bitset) : apart N x y -> apart N y x.
Proof.
  intros (Lx & Ly & Mx & My & D). repeat split; auto.
  intros z Iy Ix. now apply (D z).
Qed.

Lemma refinable_sym (N : nat) (keys : list Bitset) (x y : Bitset) :
  refinable N keys x y -> refinable N keys y x.
Proof.
  intros (A & Hy & Hx). split; [now apply apart_sym|]. split; assumption.
Qed.

(** ** The nodes of an unrooted topology *)

Lemma all_taxa (N : nat) (t : Node) (z : Z) :
  unrooted N t -> 0 <= z < Z.of_nat N -> In z (leaf_ids t).
Proof.
  intros U R.
  assert (I : incl (map Z.of_nat (seq 0 N)) (leaf_ids t)).
  { apply NoDup_length_incl.
    - apply (u_nodup U).
    - rewrite length_map, length_seq, (u_count U). lia.
    - intros j Ij. apply (u_range U) in Ij. apply in_map_iff.
      exists (Z.to_nat j). split; [lia|]. apply in_seq. lia. }
  apply I. apply in_map_iff. exists (Z.to_nat z). split; [lia|].
  apply in_seq. lia.
Qed.

Lemma root_rotation_cycle (t n0 n1 n2 : Node) :
  root_rotation t n0 n1 n2 ->
  root_rotation t n2 n0 n1 /\ root_rotation t n1 n2 n0.
Proof. unfold root_rotation. tauto. Qed.

Lemma rotation_facts (N : nat) (t n0 n1 n2 : Node) :
  unrooted N t -> root_rotation t n0 n1 n2 ->
  inside N n0 /\ inside N n1 /\ inside N n2
  /\ (forall z, In z (leaf_ids n0) -> In z (leaf_ids n1) -> False)
  /\ (forall z, In z (leaf_ids n0) -> In z (leaf_ids n2) -> False)
  /\ (forall z, In z (leaf_ids n1) -> In z (leaf_ids n2) -> False)
  /\ (forall z, 0 <= z < Z.of_nat N ->
                In z (leaf_ids n0) \/ In z (leaf_ids n1) \/ In z (leaf_ids n2))
  /\ In n0 (rootsplit_nodes t) /\ In n1 (rootsplit_nodes t)
  /\ In n2 (rootsplit_nodes t).
Proof.
  intros U R.
  destruct (unrooted_children U)
    as (c0 & c1 & c2 & E & I0 & I1 & I2 & D01 & D02 & D12).
  assert (A : forall z, 0 <= z < Z.of_nat N ->
                        In z (leaf_ids c0) \/ In z (leaf_ids c1)
                        \/ In z (leaf_ids c2)).
  { intros z Hz. pose proof (all_taxa U Hz) as I.
    destruct t as [cs idx tag h]. cbn in E. subst cs. cbn in I.
    rewrite app_nil_r, !in_app_iff in I. tauto. }
  assert (M : forall c, In c [c0; c1; c2] -> In c (rootsplit_nodes t)).
  { intros c Ic. unfold rootsplit_nodes. rewrite E. apply in_flat_map.
    exists c. split; [exact Ic|apply In_PreOrder_self]. }
  assert (M0 : In c0 (rootsplit_nodes t)) by (apply M; cbn; auto).
  assert (M1 : In c1 (rootsplit_nodes t)) by (apply M; cbn; auto).
  assert (M2 : In c2 (rootsplit_nodes t)) by (apply M; cbn; auto).
  unfold root_rotation in R. rewrite E in R.
  destruct R as [R|[R|R]]; injection R as <- <- <-;
    (split; [assumption|]); (split; [assumption|]); (split; [assumption|]);
    (split; [intros z Ia Ib; eauto|]); (split; [intros z Ia Ib; eauto|]);
    (split; [intros z Ia Ib; eauto|]);
    (split; [intros z Hz; destruct (A z Hz) as [|[|]]; auto|auto]).
Qed.

Lemma kid_facts (N : nat) (w a b : Node) :
  inside N w -> Children w = [a; b] ->
  inside N a /\ inside N b
  /\ (forall z, In z (leaf_ids a) -> In z (leaf_ids b) -> False)
  /\ (forall z, In z (leaf_ids w) <-> In z (leaf_ids a) \/ In z (leaf_ids b)).
Proof.
  intros I E. destruct w as [cs idx tag h]. cbn in E. subst cs.
  now apply inside_children.
Qed.

Lemma rootsplit_nodes_inside (N : nat) (t u : Node) :
  unrooted N t -> In u (rootsplit_nodes t) -> inside N u.
Proof.
  intros U I.
  destruct (unrooted_children U) as (c0 & c1 & c2 & E & I0 & I1 & I2 & _).
  unfold rootsplit_nodes in I. rewrite E in I. apply in_flat_map in I.
  destruct I as (c & Ic & Iu).
  apply inside_subnode with c; [exact Iu|].
  destruct Ic as [<-|[<-|[<-|[]]]]; assumption.
Qed.

Lemma rootsplit_nodes_child (t p v : Node) :
  In p (rootsplit_nodes t) -> In v (Children p) -> In v (rootsplit_nodes t).
Proof.
  unfold rootsplit_nodes. intros I Iv. apply in_flat_map in I.
  destruct I as (c & Ic & Ip). apply in_flat_map. exists c.
  split; [exact Ic|]. apply In_PreOrder_trans with p; [exact Ip|].
  now apply In_PreOrder_children.
Qed.

(** A node below [c] is [c] or the child of a node below [c]. *)
Lemma parent_below (c u : Node) :
  In u (PreOrder c) ->
  u = c \/ exists p, In p (PreOrder c) /\ In u (Children p).
Proof.
  induction c as [cs idx tag h IH] using Node_ind. intros I.
  cbn [PreOrder] in I. destruct I as [<-|I]; [now left|]. right.
  apply in_flat_map in I. destruct I as (k & Ik & Iu).
  rewrite Forall_forall in IH. destruct (IH k Ik Iu) as [->|(p & Ip & Ic)].
  - exists (MkNode cs idx tag h). split; [apply In_PreOrder_self|exact Ik].
  - exists p. split; [|exact Ic].
    eapply In_PreOrder_child; [exact Ik|exact Ip].
Qed.

Lemma two_children (p u : Node) :
  bifurcating p = true -> In u (Children p) ->
  exists s, Children p = [u; s] \/ Children p = [s; u].
Proof.
  destruct p as [cs idx tag h]. cbn. intros B I.
  destruct cs as [|a [|b [|]]]; try discriminate; [destruct I|].
  destruct I as [<-|[<-|[]]]; [exists b|exists a]; auto.
Qed.

(* ================================================================== *)
(** * The parents that the calls of one topology provide *)

Section OneTopology.
Variable N : nat.
Variable t : Node.
Hypothesis U : unrooted N t.

Lemma In_parents_of (c : PCSSCall) :
  In c (calls_of (PCSSPreOrder t)) -> In (pcss_parent N c) (parents_of N t).
Proof. intros I. unfold parents_of. now apply in_map. Qed.

Lemma root_parents (n0 n1 n2 ch0 ch1 : Node) :
  root_rotation t n0 n1 n2 -> Children n2 = [ch0; ch1] ->
  In (chunk N n0 false ++ chunk N n2 false) (parents_of N t)
  /\ In (chunk N n1 false ++ chunk N n2 false) (parents_of N t)
  /\ In (chunk N ch1 false ++ chunk N n2 true) (parents_of N t)
  /\ In (chunk N ch0 false ++ chunk N n2 true) (parents_of N t).
Proof.
  intros R E.
  assert (H : forall c, In c (calls_of (PCSS_f_root n0 n1 n2)) ->
                        In (pcss_parent N c) (parents_of N t)).
  { intros c I. apply In_parents_of. apply (PCSSPreOrder_calls U). left.
    exists n0, n1, n2. auto. }
  unfold PCSS_f_root in H. rewrite E in H. cbn [calls_of] in H.
  split; [|split; [|split]].
  - apply (H (mkPCSSCall n0 false n2 false ch0 false ch1 false)). cbn. auto.
  - apply (H (mkPCSSCall n1 false n2 false ch0 false ch1 false)). cbn. auto.
  - apply (H (mkPCSSCall ch1 false n2 true n0 false n1 false)). cbn. auto 10.
  - apply (H (mkPCSSCall ch0 false n2 true n0 false n1 false)). cbn. auto 10.
Qed.

Lemma internal_parents (p s v ch0 ch1 : Node) :
  internal_triple t p s v -> Children v = [ch0; ch1] ->
  In (chunk N s false ++ chunk N v false) (parents_of N t)
  /\ In (chunk N p true ++ chunk N v false) (parents_of N t)
  /\ In (chunk N ch1 false ++ chunk N v true) (parents_of N t)
  /\ In (chunk N ch0 false ++ chunk N v true) (parents_of N t).
Proof.
  intros R E.
  assert (H : forall c, In c (calls_of (PCSS_f_internal p s v)) ->
                        In (pcss_parent N c) (parents_of N t)).
  { intros c I. apply In_parents_of. apply (PCSSPreOrder_calls U). right.
    exists p, s, v. auto. }
  unfold PCSS_f_internal in H. rewrite E in H. cbn [calls_of] in H.
  split; [|split; [|split]].
  - apply (H (mkPCSSCall s false v false ch0 false ch1 false)). cbn. auto.
  - apply (H (mkPCSSCall p true v false ch0 false ch1 false)). cbn. auto.
  - apply (H (mkPCSSCall ch1 false v true s false p true)). cbn. auto 10.
  - apply (H (mkPCSSCall ch0 false v true s false p true)). cbn. auto 10.
Qed.

(** The subsplit (sister | complement of the parent) is a parent, for
    every node below the root that has children. *)
Lemma up_parents (p v s : Node) :
  In p (rootsplit_nodes t) ->
  Children p = [v; s] \/ Children p = [s; v] ->
  In (chunk N s false ++ chunk N p true) (parents_of N t).
Proof.
  intros Ip Ec.
  assert (K : exists ch0 ch1, Children p = [ch0; ch1]
                              /\ (s = ch0 \/ s = ch1)).
  { destruct Ec as [E|E]; rewrite E; eauto. }
  destruct K as (ch0 & ch1 & E & Es).
  assert (G : In (chunk N ch1 false ++ chunk N p true) (parents_of N t)
              /\ In (chunk N ch0 false ++ chunk N p true) (parents_of N t)).
  { destruct (u_shape U) as (c0 & c1 & c2 & Et & B0 & B1 & B2).
    unfold rootsplit_nodes in Ip. rewrite Et in Ip.
    apply in_flat_map in Ip. destruct Ip as (c & Ic & Ip).
    assert (Bc : bifurcating c = true)
      by (destruct Ic as [<-|[<-|[<-|[]]]]; assumption).
    destruct (parent_below _ _ Ip) as [->|(q & Iq & Iu)].
    - assert (R : exists n0 n1, root_rotation t n0 n1 c).
      { unfold root_rotation. rewrite Et.
        destruct Ic as [<-|[<-|[<-|[]]]]; eauto. }
      destruct R as (n0 & n1 & R).
      destruct (root_parents R E) as (_ & _ & H1 & H0). auto.
    - assert (Bq : bifurcating q = true)
        by (eapply bifurcating_subnode; eauto).
      destruct (two_children _ _ Bq Iu) as [s' Eq].
      assert (T : internal_triple t q s' p).
      { split; [|exact Eq]. unfold rootsplit_nodes. rewrite Et.
        apply in_flat_map. eauto. }
      destruct (internal_parents T E) as (_ & _ & H1 & H0). auto. }
  destruct G as [G1 G0]. destruct Es as [->| ->]; assumption.
Qed.

(** ** The three kinds of children of a call *)

(** Two children of the root, seen from the third. *)
Lemma root_pair (n0 n1 n2 : Node) :
  root_rotation t n0 n1 n2 ->
  divides (chunk N n2 true) (chunk N n0 false) (chunk N n1 false)
  /\ refinable N (parents_of N t) (chunk N n0 false) (chunk N n1 false).
Proof.
  intros R.
  destruct (rotation_facts U R)
    as (I0 & I1 & I2 & D01 & D02 & D12 & A & M0 & M1 & M2).
  pose proof I0 as (_ & _ & R0). pose proof I1 as (_ & _ & R1).
  pose proof I2 as (_ & _ & R2).
  assert (Dv : divides (chunk N n2 true) (chunk N n0 false) (chunk N n1 false)).
  { unfold divides. rewrite !chunk_length.
    split; [reflexivity|]. split; [reflexivity|]. split; intros i Hi;
      rewrite !chunk_bit by assumption; cbn [xorb];
      specialize (D01 (Z.of_nat i)); specialize (D02 (Z.of_nat i));
      specialize (D12 (Z.of_nat i));
      assert (Hz : 0 <= Z.of_nat i < Z.of_nat N) by lia;
      specialize (A (Z.of_nat i) Hz); rewrite <- !has_leaf_In in *;
      destruct (has_leaf n0 (Z.of_nat i)), (has_leaf n1 (Z.of_nat i)),
        (has_leaf n2 (Z.of_nat i)); cbn in *; try reflexivity;
      try tauto; intuition congruence. }
  split; [exact Dv|]. split; [|split].
  - apply divides_apart with (chunk N n2 true); auto using chunk_length;
      now apply members_down.
  - intros S.
    destruct (not_singleton_internal I1 S) as (a & b & E).
    destruct (root_rotation_cycle R) as [R' _].
    destruct (root_parents R' E) as (_ & H & _). exact H.
  - intros S.
    destruct (not_singleton_internal I0 S) as (a & b & E).
    destruct (root_rotation_cycle R) as [_ R'].
    destruct (root_parents R' E) as (H & _). exact H.
Qed.

(** The two children of a node below the root. *)
Lemma kid_pair (w a b : Node) :
  In w (rootsplit_nodes t) -> Children w = [a; b] ->
  divides (chunk N w false) (chunk N a false) (chunk N b false)
  /\ refinable N (parents_of N t) (chunk N a false) (chunk N b false).
Proof.
  intros Iw E. pose proof (@rootsplit_nodes_inside N t w U Iw) as Jw.
  destruct (kid_facts Jw E) as (Ja & Jb & D & L).
  pose proof Ja as (_ & _ & Ra). pose proof Jb as (_ & _ & Rb).
  pose proof Jw as (_ & _ & Rw).
  assert (Dv : divides (chunk N w false) (chunk N a false) (chunk N b false)).
  { unfold divides. rewrite !chunk_length.
    split; [reflexivity|]. split; [reflexivity|]. split; intros i Hi;
      rewrite !chunk_bit by assumption; cbn [xorb];
      specialize (D (Z.of_nat i)); specialize (L (Z.of_nat i));
      rewrite <- !has_leaf_In in *;
      destruct (has_leaf a (Z.of_nat i)), (has_leaf b (Z.of_nat i)),
        (has_leaf w (Z.of_nat i)); cbn in *; try reflexivity;
      try tauto; intuition congruence. }
  split; [exact Dv|]. split; [|split].
  - apply divides_apart with (chunk N w false); auto using chunk_length;
      now apply members_down.
  - intros S. destruct (not_singleton_internal Jb S) as (x & y & Eb).
    assert (T : internal_triple t w a b) by (split; auto).
    destruct (internal_parents T Eb) as (H & _). exact H.
  - intros S. destruct (not_singleton_internal Ja S) as (x & y & Ea).
    assert (T : internal_triple t w b a) by (split; auto).
    destruct (internal_parents T Ea) as (H & _). exact H.
Qed.

(** The rest of the tree above the parent, and the sister. *)
Lemma up_pair (p s v : Node) :
  internal_triple t p s v ->
  divides (chunk N v true) (chunk N p true) (chunk N s false)
  /\ refinable N (parents_of N t) (chunk N p true) (chunk N s false).
Proof.
  intros [Ip Ec]. pose proof (@rootsplit_nodes_inside N t p U Ip) as Jp.
  assert (F : inside N v /\ inside N s
              /\ (forall z, In z (leaf_ids v) -> In z (leaf_ids s) -> False)
              /\ (forall z, In z (leaf_ids p)
                            <-> In z (leaf_ids v) \/ In z (leaf_ids s))).
  { destruct Ec as [E|E]; destruct (kid_facts Jp E) as (J1 & J2 & D & L).
    - auto.
    - split; [exact J2|]. split; [exact J1|]. split.
      + intros z I1 I2. now apply (D z).
      + intros z. rewrite L. tauto. }
  destruct F as (Jv & Js & D & L).
  pose proof Jv as (_ & _ & Rv). pose proof Js as (_ & _ & Rs).
  pose proof Jp as (_ & _ & Rp).
  assert (Dv : divides (chunk N v true) (chunk N p true) (chunk N s false)).
  { unfold divides. rewrite !chunk_length.
    split; [reflexivity|]. split; [reflexivity|]. split; intros i Hi;
      rewrite !chunk_bit by assumption; cbn [xorb];
      specialize (D (Z.of_nat i)); specialize (L (Z.of_nat i));
      rewrite <- !has_leaf_In in *;
      destruct (has_leaf v (Z.of_nat i)), (has_leaf s (Z.of_nat i)),
        (has_leaf p (Z.of_nat i)); cbn in *; try reflexivity;
      try tauto; intuition congruence. }
  split; [exact Dv|]. split; [|split].
  - apply divides_apart with (chunk N v true); auto using chunk_length.
    + now apply members_up with t.
    + now apply members_down.
  - intros S. destruct (not_singleton_internal Js S) as (x & y & Es).
    assert (T : internal_triple t p v s) by (split; [exact Ip|tauto]).
    destruct (internal_parents T Es) as (_ & H & _). exact H.
  - intros _. now apply up_parents with v.
Qed.

(** The children of every call divide its focal chunk and can be taken
    further with the parents of the calls. *)
Lemma call_refinable (c : PCSSCall) :
  In c (calls_of (PCSSPreOrder t)) ->
  divides (chunk N (focal_node c) (focal_direction c))
          (chunk N (child0_node c) (child0_direction c))
          (chunk N (child1_node c) (child1_direction c))
  /\ refinable N (parents_of N t)
               (chunk N (child0_node c) (child0_direction c))
               (chunk N (child1_node c) (child1_direction c)).
Proof.
  intros I. apply (PCSSPreOrder_calls U) in I.
  destruct I as [(n0 & n1 & n2 & R & I)|(p & s & v & T & I)].
  - pose proof (root_pair R) as P.
    destruct (rotation_facts U R) as (_ & _ & _ & _ & _ & _ & _ & _ & _ & M2).
    unfold PCSS_f_root in I. destruct (Children n2) as [|a [|b [|]]] eqn:E;
      cbn [calls_of] in I.
    + destruct I as [<-|[]]. exact P.
    + destruct I.
    + pose proof (@kid_pair n2 a b M2 E) as K.
      destruct I as [<-|[<-|[<-|[<-|[<-|[<-|[]]]]]]]; cbn; assumption.
    + destruct I.
  - pose proof (up_pair T) as P. destruct T as [Ip Ec].
    assert (Mv : In v (rootsplit_nodes t)).
    { apply rootsplit_nodes_child with p; [exact Ip|].
      destruct Ec as [E|E]; rewrite E; cbn; auto. }
    assert (P' : divides (chunk N v true) (chunk N s false) (chunk N p true)
                 /\ refinable N (parents_of N t) (chunk N s false)
                              (chunk N p true)).
    { destruct P as [P1 P2]. split; [now apply divides_sym|].
      now apply refinable_sym. }
    unfold PCSS_f_internal in I.
    destruct (Children v) as [|a [|b [|]]] eqn:E;
      cbn [calls_of] in I.
    + destruct I as [<-|[]]. exact P.
    + destruct I.
    + pose proof (@kid_pair v a b Mv E) as K.
      destruct I as [<-|[<-|[<-|[<-|[<-|[<-|[]]]]]]]; cbn; assumption.
    + destruct I.
Qed.
End OneTopology.

(* ================================================================== *)
(** * The maps of a build support sampling *)

Lemma refinable_incl (N : nat) (keys keys' : list Bitset) (x y : Bitset) :
  incl keys keys' -> refinable N keys x y -> refinable N keys' x y.
Proof.
  intros I (A & Hy & Hx). split; [exact A|]. split; intros S; apply I; auto.
Qed.

(** The two subsplits of an edge are parents: (below | above) always,
    (above | below) when the node under the edge has children. *)
Lemma edge_parents (N : nat) (t u : Node) :
  unrooted N t -> In u (rootsplit_nodes t) ->
  In (chunk N u false ++ chunk N u true) (parents_of N t)
  /\ (forall a b, Children u = [a; b] ->
                  In (chunk N u true ++ chunk N u false) (parents_of N t)).
Proof.
  intros U Iu.
  assert (G : exists calls,
             (forall c, In c calls -> In c (calls_of (PCSSPreOrder t)))
             /\ ((exists n0 n1, calls = calls_of (PCSS_f_root n0 n1 u))
                 \/ exists p s, calls = calls_of (PCSS_f_internal p s u))).
  { destruct (u_shape U) as (c0 & c1 & c2 & Et & B0 & B1 & B2).
    pose proof Iu as Iu'. unfold rootsplit_nodes in Iu'. rewrite Et in Iu'.
    apply in_flat_map in Iu'. destruct Iu' as (c & Ic & Ip).
    assert (Bc : bifurcating c = true)
      by (destruct Ic as [<-|[<-|[<-|[]]]]; assumption).
    destruct (parent_below _ _ Ip) as [->|(q & Iq & Iq')].
    - assert (R : exists n0 n1, root_rotation t n0 n1 c).
      { unfold root_rotation. rewrite Et.
        destruct Ic as [<-|[<-|[<-|[]]]]; eauto. }
      destruct R as (n0 & n1 & R). eexists. split; [|left; eauto].
      intros k Ik. apply (PCSSPreOrder_calls U). left. eauto.
    - assert (Bq : bifurcating q = true)
        by (eapply bifurcating_subnode; eauto).
      destruct (two_children _ _ Bq Iq') as [s' Eq].
      assert (T : internal_triple t q s' u).
      { split; [|exact Eq]. unfold rootsplit_nodes. rewrite Et.
        apply in_flat_map. eauto. }
      eexists. split; [|right; eauto].
      intros k Ik. apply (PCSSPreOrder_calls U). right. eauto. }
  destruct G as (calls & Sub & Shape).
  assert (H : forall c, In c calls -> In (pcss_parent N c) (parents_of N t)).
  { intros c I. unfold parents_of. apply in_map. auto. }
  pose proof (@rootsplit_nodes_inside N t u U Iu) as (Bu & _).
  destruct Shape as [(n0 & n1 & ->)|(p & s & ->)].
  - unfold PCSS_f_root in H.
    destruct (Children u) as [|a [|b [|]]] eqn:E; cbn [calls_of] in H.
    + split; [|discriminate].
      apply (H (mkPCSSCall u false u true n0 false n1 false)). now left.
    + destruct u as [cs idx tag h]. cbn in E, Bu. subst cs. discriminate.
    + split; [|intros ? ? _].
      * apply (H (mkPCSSCall u false u true n0 false n1 false)). now left.
      * apply (H (mkPCSSCall u true u false a false b false)). cbn. auto.
    + destruct u as [cs idx tag h]. cbn in E, Bu. subst cs. discriminate.
  - unfold PCSS_f_internal in H.
    destruct (Children u) as [|a [|b [|]]] eqn:E; cbn [calls_of] in H.
    + split; [|discriminate].
      apply (H (mkPCSSCall u false u true p true s false)). now left.
    + destruct u as [cs idx tag h]. cbn in E, Bu. subst cs. discriminate.
    + split; [|intros ? ? _].
      * apply (H (mkPCSSCall u false u true p true s false)). now left.
      * apply (H (mkPCSSCall u true u false a false b false)). cbn. auto.
    + destruct u as [cs idx tag h]. cbn in E, Bu. subst cs. discriminate.
Qed.

Lemma flip_chunk (N : nat) (u : Node) (d : bool) :
  Bitset_flip (chunk N u d) = chunk N u (negb d).
Proof. destruct d; cbn; [apply flip_flip|reflexivity]. Qed.

(** A rootsplit and its complement can be taken further. *)
Lemma rootsplit_refinable (N : nat) (t u : Node) :
  unrooted N t -> In u (rootsplit_nodes t) ->
  refinable N (parents_of N t) (rootsplit_of N u)
            (Bitset_flip (rootsplit_of N u)).
Proof.
  intros U Iu. destruct (rootsplit_of_chunk N u) as [d ->].
  rewrite flip_chunk.
  pose proof (@rootsplit_nodes_inside N t u U Iu) as J.
  pose proof J as (_ & _ & R).
  destruct (@edge_parents N t u U Iu) as [Hup Hdown].
  assert (Md : members (chunk N u false) <> []) by (now apply members_down).
  assert (Mu : members (chunk N u true) <> []) by (now apply members_up with t).
  split; [|split].
  - unfold apart. rewrite !chunk_length.
    split; [reflexivity|]. split; [reflexivity|].
    split; [destruct d; assumption|]. split; [destruct d; assumption|].
    intros z I1 I2. apply members_chunk in I1, I2; try exact R.
    destruct I1 as [_ H1], I2 as [_ H2].
    destruct d, (has_leaf u z); cbn in *; discriminate.
  - intros S. destruct d; cbn [negb] in *; [|exact Hup].
    destruct (not_singleton_internal J S) as (a & b & E). eauto.
  - intros S. destruct d; cbn [negb] in *; [exact Hup|].
    destruct (not_singleton_internal J S) as (a & b & E). eauto.
Qed.

Lemma In_combine_nth {A B : Type} (l1 : list A) (l2 : list B) (k : nat)
      (d1 : A) (d2 : B) :
  length l1 = length l2 -> (k < length l1)%nat ->
  In (nth k l1 d1, nth k l2 d2) (combine l1 l2).
Proof.
  intros L H. rewrite <- combine_nth by exact L. apply nth_In.
  rewrite length_combine. lia.
Qed.

Lemma pcss_children_app (d1 d2 : PCSSDict) :
  pcss_children (d1 ++ d2) = pcss_children d1 ++ pcss_children d2.
Proof. unfold pcss_children. apply flat_map_app. Qed.

(** The entry of a child index in [index_to_child_]. *)
Lemma index_to_child_entry (R : nat) (pre post : PCSSDict) (parent : Bitset)
      (cc : BitsetUInt32Dict) (i : nat) :
  let d := pre ++ (parent, cc) :: post in
  let s := (R + length (pcss_keys pre))%nat in
  (s <= i < s + length cc)%nat ->
  exists c,
    In c (map fst cc)
    /\ map_at Nat.eqb (combine (seq R (length (pcss_keys d))) (pcss_children d)) i
       = Ok (ChildSubsplit parent c).
Proof.
  intros d s Hi.
  set (j := (i - s)%nat). set (k := (length (pcss_keys pre) + j)%nat).
  assert (Lk : length (seq R (length (pcss_keys d))) = length (pcss_children d)).
  { now rewrite length_seq, pcss_keys_length. }
  assert (Lc : length (pcss_children d)
               = (length (pcss_keys pre) + length cc
                  + length (pcss_children post))%nat).
  { unfold d. rewrite pcss_children_app, length_app, <- pcss_keys_length.
    change (pcss_children ((parent, cc) :: post))
      with (map (fun c : Bitset * Z => ChildSubsplit parent (fst c)) cc
            ++ pcss_children post).
    rewrite length_app, length_map. lia. }
  assert (Hk : (k < length (pcss_children d))%nat)
    by (rewrite Lc; unfold k, j, s in *; lia).
  exists (fst (nth j cc ([], 0))). split.
  { apply in_map, nth_In. unfold j. lia. }
  unfold map_at. erewrite In_find; [reflexivity|exact Nat_eqb_eq| |].
  - rewrite combine_keys by exact Lk. apply seq_NoDup.
  - assert (E1 : nth k (seq R (length (pcss_keys d))) 0%nat = i).
    { rewrite seq_nth by (rewrite pcss_keys_length; exact Hk).
      unfold k, j, s in *. lia. }
    assert (E2 : nth k (pcss_children d) [] = ChildSubsplit parent
                                                 (fst (nth j cc ([], 0)))).
    { unfold d. rewrite pcss_children_app.
      rewrite app_nth2 by (rewrite <- pcss_keys_length; unfold k; lia).
      rewrite <- pcss_keys_length.
      replace (k - length (pcss_keys pre))%nat with j by (unfold k; lia).
      change (pcss_children ((parent, cc) :: post))
        with (map (fun c : Bitset * Z => ChildSubsplit parent (fst c)) cc
              ++ pcss_children post).
      rewrite app_nth1 by (rewrite length_map; unfold j; lia).
      set (f := fun c : Bitset * Z => ChildSubsplit parent (fst c)).
      rewrite nth_indep with (d' := f ([], 0))
        by (rewrite length_map; unfold j; lia).
      now rewrite map_nth. }
    rewrite <- E1 at 1. rewrite <- E2.
    apply In_combine_nth; [exact Lk|]. rewrite Lk. exact Hk.
Qed.

Lemma parents_of_pairs (N : nat) (t : Node) :
  parents_of N t = map fst (pcss_pairs_of N t).
Proof. unfold parents_of, pcss_pairs_of. now rewrite map_map. Qed.

Lemma unrooted_three (N : nat) (t : Node) : unrooted N t -> (3 <= N)%nat.
Proof.
  intros U. destruct (u_shape U) as (c0 & c1 & c2 & E & _).
  pose proof (u_count U) as C. destruct t as [cs idx tag h]. cbn in E.
  subst cs. cbn in C. rewrite app_nil_r, !length_app in C.
  pose proof (leaf_ids_nonempty c0). pose proof (leaf_ids_nonempty c1).
  pose proof (leaf_ids_nonempty c2).
  destruct (leaf_ids c0), (leaf_ids c1), (leaf_ids c2); cbn in C;
    try contradiction; lia.
Qed.

(** The maps that [ProcessLoadedTrees] builds from the counters of
    unrooted topologies support sampling, whatever the parameters are. *)
Lemma counters_support (N : nat) (tc : TopologyCounter)
      (collection : TreeCollection) (psp : PSPIndexer) (params : list float)
      (indexer : BitsetSizeMap) (names : list string)
      (counter : TopologyCounter) :
  Forall (fun iter => unrooted N (fst iter)) tc -> tc <> [] ->
  length params
  = (length (count_rootsplits N tc)
     + length (pcss_keys (count_pcss N tc)))%nat ->
  sampling_support N
    (mkSBNInstance collection psp params indexer names
       (map fst (count_rootsplits N tc))
       (combine (seq (length (count_rootsplits N tc))
                     (length (pcss_keys (count_pcss N tc))))
                (pcss_children (count_pcss N tc)))
       (ranges_from (length (count_rootsplits N tc)) (count_pcss N tc))
       counter).
Proof.
  intros F NE Lp. unfold sampling_support.
  cbn [rootsplits_ parent_to_range_ sbn_parameters_ index_to_child_].
  rewrite ranges_from_parents.
  set (d := count_pcss N tc) in *. set (rc := count_rootsplits N tc) in *.
  assert (Keys : forall iter, In iter tc ->
                              incl (parents_of N (fst iter)) (map fst d)).
  { intros iter I p Ip. apply count_pcss_parents_observed.
    exists iter. split; [exact I|]. now rewrite <- parents_of_pairs. }
  pose proof (count_pcss_well_keyed N tc) as [NDp NDc]. fold d in NDp, NDc.
  rewrite Forall_forall in F.
  split; [|split; [|split; [|split]]].
  - destruct tc as [|iter tc']; [contradiction|].
    apply unrooted_three with (fst iter). apply F. now left.
  - destruct tc as [|iter tc']; [contradiction|].
    assert (Ui : unrooted N (fst iter)) by (apply F; now left).
    pose proof (length_rootsplit_nodes Ui) as L.
    pose proof (unrooted_three Ui) as T.
    destruct (rootsplit_nodes (fst iter)) as [|u us] eqn:Eu; [cbn in L; lia|].
    assert (I : In (rootsplit_of N u) (map fst rc)).
    { apply count_rootsplits_keys. exists iter. split; [now left|].
      unfold rootsplits_of. rewrite Eu. now left. }
    intros E. rewrite E in I. destruct I.
  - rewrite length_map, Lp. lia.
  - intros r Ir. apply count_rootsplits_keys in Ir.
    destruct Ir as (iter & Ii & Ir). unfold rootsplits_of in Ir.
    apply in_map_iff in Ir. destruct Ir as (u & <- & Iu).
    apply refinable_incl with (parents_of N (fst iter)); [now apply Keys|].
    apply rootsplit_refinable; [now apply F|exact Iu].
  - intros parent [s e] I. cbn [fst snd].
    destruct (ranges_from_block _ _ _ _ _ I)
      as (pre & cc & post & Ed & Es & Ee).
    assert (Ib : In (parent, cc) d).
    { rewrite Ed. apply in_or_app. right. now left. }
    assert (Lk : length (pcss_keys d)
                 = (length (pcss_keys pre) + length cc
                    + length (pcss_keys post))%nat).
    { rewrite Ed, pcss_keys_app, pcss_keys_cons, !length_app,
        block_keys_length. cbn [snd]. lia. }
    assert (Entry : forall c, In c (map fst cc) ->
                              exists iter call,
                                In iter tc
                                /\ In call (calls_of (PCSSPreOrder (fst iter)))
                                /\ pcss_pair N call = (parent, c)).
    { intros c Ic. apply (@block_children d parent cc c NDp Ib) in Ic.
      apply count_pcss_entries in Ic. destruct Ic as (iter & Ii & Ic).
      unfold pcss_pairs_of in Ic. apply in_map_iff in Ic.
      destruct Ic as (call & Ec & Ic). eauto. }
    split.
    + assert (NEc : cc <> []).
      { intros ->.
        assert (Ip : In parent (map fst d)).
        { apply in_map_iff. exists (parent, []). auto. }
        apply count_pcss_parents_observed in Ip.
        destruct Ip as (iter & Ii & Ip). apply in_map_iff in Ip.
        destruct Ip as ([p c] & Ep & Ip). cbn in Ep. subst p.
        assert (Ic : In (parent, c) (pcss_entries d)).
        { apply count_pcss_entries. eauto. }
        apply (@block_children d parent [] c NDp Ib) in Ic. destruct Ic. }
      destruct cc; [contradiction|]. cbn [length] in *. lia.
    + intros i Hi.
      assert (Hi' : (length rc + length (pcss_keys pre) <= i
                     < length rc + length (pcss_keys pre) + length cc)%nat)
        by lia.
      destruct (@index_to_child_entry (length rc) pre post parent cc i Hi')
        as (c & Ic & Em).
      rewrite <- Ed in Em.
      destruct (Entry c Ic) as (iter & call & Ii & Icall & Ep).
      assert (Ui : unrooted N (fst iter)) by now apply F.
      destruct (call_refinable Ui call Icall) as [Dv Rf].
      unfold pcss_pair in Ep. injection Ep as Eparent Echild.
      unfold pcss_parent in Eparent. unfold pcss_child in Echild.
      set (S := chunk N (sister_node call) (sister_direction call)) in *.
      set (Fc := chunk N (focal_node call) (focal_direction call)) in *.
      set (X := chunk N (child0_node call) (child0_direction call)) in *.
      set (Y := chunk N (child1_node call) (child1_direction call)) in *.
      assert (LS : length S = length Fc)
        by (unfold S, Fc; now rewrite !chunk_length).
      pose proof Dv as (LX & LY & Un & Dj).
      assert (Pm : Permutation (members X ++ members Y)
                               (members (SplitChunk parent 1))).
      { rewrite <- Eparent, SplitChunk_1 by exact LS.
        now apply members_union. }
      apply refinable_incl with (keys' := map fst d) in Rf;
        [|now apply Keys].
      assert (Ecs : ChildSubsplit parent c = X ++ Y
                    \/ ChildSubsplit parent c = Y ++ X).
      { rewrite <- Eparent, <- Echild. now apply ChildSubsplit_cases. }
      rewrite Em. destruct Ecs as [E|E]; rewrite E.
      * exists X, Y. auto.
      * exists Y, X. split; [reflexivity|]. split.
        -- now apply refinable_sym.
        -- apply Permutation_trans with (2 := Pm). apply Permutation_app_comm.
Qed.

(* ================================================================== *)
(** * Joining subtrees with different taxa *)

Lemma NoDup_representatives {A B : Type} (f : A -> list B) (g : A -> B)
      (l : list A) :
  NoDup (flat_map f l) -> (forall x, In x l -> In (g x) (f x)) ->
  NoDup (map g l).
Proof.
  induction l as [|x l IH]; cbn [flat_map map]; intros ND H; [constructor|].
  constructor.
  - intros I. apply in_map_iff in I. destruct I as (y & E & Iy).
    eapply NoDup_app_disjoint; [exact ND|apply H; now left|].
    rewrite <- E. apply in_flat_map. exists y. split; [exact Iy|].
    apply H. now right.
  - apply IH; [eapply NoDup_app_remove_l, ND|]. intros y Iy. apply H.
    now right.
Qed.

Lemma Permutation_flat_map_leaf_ids (l1 l2 : list Node) :
  Permutation l1 l2 ->
  Permutation (flat_map leaf_ids l1) (flat_map leaf_ids l2).
Proof.
  induction 1; cbn [flat_map].
  - constructor.
  - now apply Permutation_app_head.
  - rewrite !app_assoc. apply Permutation_app_tail, Permutation_app_comm.
  - eapply Permutation_trans; eauto.
Qed.

Lemma length_flat_map_leaf_ids (l : list Node) (c : Node) :
  In c l -> (length (leaf_ids c) <= length (flat_map leaf_ids l))%nat.
Proof. apply length_leaf_ids_child. Qed.

(** [Join] on subtrees that share no taxon: the node has the children in
    some order, the tags of the constructor and the taxa of all of them. *)
Lemma Join_tree (cs : list Node) (index : Z) :
  cs <> [] ->
  Forall (fun c => tags_ok c = true) cs ->
  NoDup (flat_map leaf_ids cs) ->
  Z.of_nat (length (flat_map leaf_ids cs)) < two32 ->
  exists n,
    Join cs index = Ok n
    /\ Permutation cs (Children n)
    /\ tags_ok n = true
    /\ Permutation (leaf_ids n) (flat_map leaf_ids cs)
    /\ Index n = index.
Proof.
  intros NE T ND B.
  assert (NM : NoDup (map MaxLeafID cs)).
  { apply NoDup_representatives with (f := leaf_ids); [exact ND|].
    intros c Ic. rewrite Forall_forall in T.
    apply tags_ok_counts; [now apply T|].
    pose proof (length_flat_map_leaf_ids _ _ Ic). lia. }
  destruct (sort_children_spec cs) as [[H _]|(_ & s & Es & P & _)];
    [contradiction|].
  unfold Join. destruct cs as [|first rest] eqn:Ecs; [contradiction|].
  rewrite <- Ecs in *. rewrite Es. cbn [bind]. eexists.
  split; [reflexivity|]. cbn [Children Index].
  split; [exact P|].
  assert (NEs : s <> []).
  { intros ->. apply Permutation_sym, Permutation_nil in P. contradiction. }
  split; [|split; [|reflexivity]].
  - cbn [tags_ok]. destruct s as [|c s'] eqn:E; [contradiction|].
    rewrite <- E in *. apply andb_true_iff. split.
    + unfold PackInts, tag_eqb. cbn [fst snd].
      rewrite (@last_default _ s first c NEs), !Z.eqb_refl. reflexivity.
    + apply forallb_forall. intros x Ix. rewrite Forall_forall in T.
      apply T. apply Permutation_in with s; [now apply Permutation_sym|exact Ix].
  - destruct s as [|c s'] eqn:E; [contradiction|].
    change (leaf_ids (MkNode (c :: s') index
                             (PackInts (MaxLeafID (last (c :: s') first))
                                (fold_left
                                   (fun acc child =>
                                      (acc + LeafCount child) mod two32)
                                   (c :: s') 0))
                             (SORotate
                                (fold_left
                                   (fun acc child => Z.lxor acc (Hash child))
                                   (c :: s') 0) 1)))
      with (flat_map leaf_ids (c :: s')).
    apply Permutation_flat_map_leaf_ids. now apply Permutation_sym.
Qed.

Lemma Permutation_two {A : Type} (a b : A) (l : list A) :
  Permutation [a; b] l -> l = [a; b] \/ l = [b; a].
Proof.
  intros P. pose proof (Permutation_length P) as L.
  destruct l as [|x [|y [|]]]; try discriminate.
  assert (Ia : In a [x; y]) by (eapply Permutation_in; [exact P|now left]).
  assert (Ib : In b [x; y])
    by (eapply Permutation_in; [exact P|right; now left]).
  assert (Ix : In x [a; b])
    by (eapply Permutation_in; [apply Permutation_sym, P|now left]).
  assert (Iy : In y [a; b])
    by (eapply Permutation_in; [apply Permutation_sym, P|right; now left]).
  cbn in *. intuition (subst; auto).
Qed.

Lemma Permutation_three {A : Type} (a b c : A) (l : list A) :
  Permutation [a; b; c] l ->
  exists x y z, l = [x; y; z] /\ Permutation [a; b; c] [x; y; z].
Proof.
  intros P. pose proof (Permutation_length P) as L.
  destruct l as [|x [|y [|z [|]]]]; try discriminate. eauto.
Qed.

(** [Join2] on two trees that share no taxon. *)
Lemma Join2_sampled (left right : Node) (ls rs : list Z) (index : Z) :
  sampled_tree left ls -> sampled_tree right rs ->
  NoDup (ls ++ rs) -> Z.of_nat (length (ls ++ rs)) < two32 ->
  exists n,
    Join2 left right index = Ok n
    /\ sampled_tree n (ls ++ rs)
    /\ (Children n = [left; right] \/ Children n = [right; left]).
Proof.
  intros (Tl & Bl & Pl) (Tr & Br & Pr) ND B.
  assert (Pf : Permutation (flat_map leaf_ids [left; right]) (ls ++ rs)).
  { cbn [flat_map]. rewrite app_nil_r. now apply Permutation_app. }
  destruct (@Join_tree [left; right] index) as (n & E & Pc & Tn & Pn & _).
  - discriminate.
  - repeat constructor; assumption.
  - eapply Permutation_NoDup; [apply Permutation_sym, Pf|exact ND].
  - now rewrite (Permutation_length Pf).
  - exists n. split; [exact E|].
    apply Permutation_two in Pc. split; [|exact Pc].
    split; [exact Tn|]. split.
    + destruct n as [cs idx tag h]. cbn [Children] in Pc.
      destruct Pc as [-> | ->]; cbn; now rewrite Bl, Br.
    + now apply Permutation_trans with (1 := Pn).
Qed.

(* ================================================================== *)
(** * Erasing the node indices *)

Lemma unindexed_Tag (n : Node) : Tag (unindexed n) = Tag n.
Proof. destruct n; reflexivity. Qed.

Lemma unindexed_Children (n : Node) :
  Children (unindexed n) = map unindexed (Children n).
Proof. destruct n; reflexivity. Qed.

Lemma unindexed_leaf_ids (n : Node) : leaf_ids (unindexed n) = leaf_ids n.
Proof.
  induction n as [cs idx tag h IH] using Node_ind. cbn [unindexed leaf_ids].
  destruct cs as [|c cs]; [reflexivity|]. cbn [map].
  change (flat_map leaf_ids (map unindexed (c :: cs))
          = flat_map leaf_ids (c :: cs)).
  induction IH as [|x l Hx _ IHl]; cbn [map flat_map]; [reflexivity|].
  now rewrite Hx, IHl.
Qed.

Lemma unindexed_bifurcating (n : Node) :
  bifurcating (unindexed n) = bifurcating n.
Proof.
  induction n as [cs idx tag h IH] using Node_ind. cbn [unindexed bifurcating].
  destruct cs as [|a [|b [|c cs]]]; try reflexivity. cbn [map].
  inversion IH as [|? ? Ha IH']; subst. inversion IH' as [|? ? Hb _]; subst.
  now rewrite Ha, Hb.
Qed.

Lemma last_map {A B : Type} (f : A -> B) (l : list A) (d : A) :
  last (map f l) (f d) = f (last l d).
Proof.
  induction l as [|x l IH]; [reflexivity|]. cbn [map].
  destruct l as [|y l]; [reflexivity|]. exact IH.
Qed.

Lemma unindexed_MaxLeafID (n : Node) : MaxLeafID (unindexed n) = MaxLeafID n.
Proof. destruct n; reflexivity. Qed.

Lemma unindexed_LeafCount (n : Node) : LeafCount (unindexed n) = LeafCount n.
Proof. destruct n; reflexivity. Qed.

Lemma unindexed_fold_LeafCount (l : list Node) :
  forall acc,
    fold_left (fun acc c => (acc + LeafCount c) mod two32) (map unindexed l) acc
    = fold_left (fun acc c => (acc + LeafCount c) mod two32) l acc.
Proof.
  induction l as [|x l IH]; intros acc; [reflexivity|]. cbn [map fold_left].
  rewrite unindexed_LeafCount. apply IH.
Qed.

Lemma unindexed_tags_ok (n : Node) : tags_ok (unindexed n) = tags_ok n.
Proof.
  induction n as [cs idx tag h IH] using Node_ind. cbn [unindexed tags_ok].
  destruct cs as [|c cs]; [reflexivity|]. cbn [map].
  change (unindexed c :: map unindexed cs) with (map unindexed (c :: cs)).
  f_equal.
  - rewrite last_map, unindexed_MaxLeafID, unindexed_fold_LeafCount.
    reflexivity.
  - induction IH as [|x l Hx _ IHl]; [reflexivity|]. cbn [map forallb].
    now rewrite Hx, IHl.
Qed.

Lemma unindexed_unrooted_topology (N : nat) (t : Node) :
  unrooted_topology N (unindexed t) = unrooted_topology N t.
Proof.
  unfold unrooted_topology.
  rewrite unindexed_tags_ok, unindexed_leaf_ids, unindexed_Children.
  do 4 f_equal.
  destruct (Children t) as [|c0 [|c1 [|c2 [|]]]]; try reflexivity.
  cbn [map]. now rewrite !unindexed_bifurcating.
Qed.

Lemma same_unindexed (N : nat) (t t' : Node) :
  unindexed t' = unindexed t ->
  unrooted_topology N t' = unrooted_topology N t.
Proof.
  intros E. rewrite <- (unindexed_unrooted_topology N t'), E.
  apply unindexed_unrooted_topology.
Qed.

(* ================================================================== *)
(** * [Reindex] changes the indices only *)

Lemma Reindex_from_spec (n : Node) :
  forall next m,
    NoDup (map fst m ++ map Tag (PostOrder n)) ->
    exists n' next' m',
      Reindex_from n next m = Ok (n', next', m')
      /\ unindexed n' = unindexed n
      /\ map fst m' = map fst m ++ map Tag (PostOrder n).
Proof.
  induction n as [cs idx tag h IH] using Node_ind. intros next m ND.
  cbn [Reindex_from].
  match goal with
  | |- context [bind (?v cs next m) _] => set (visit := v)
  end.
  assert (V : forall l,
             Forall (fun n : Node =>
                       forall next m,
                         NoDup (map fst m ++ map Tag (PostOrder n)) ->
                         exists n' next' m',
                           Reindex_from n next m = Ok (n', next', m')
                           /\ unindexed n' = unindexed n
                           /\ map fst m' = map fst m ++ map Tag (PostOrder n))
                    l ->
             forall next m,
               NoDup (map fst m ++ map Tag (flat_map PostOrder l)) ->
               exists l' next' m',
                 visit l next m = Ok (l', next', m')
                 /\ map unindexed l' = map unindexed l
                 /\ map fst m' = map fst m ++ map Tag (flat_map PostOrder l)).
  { clear. induction 1 as [|c l Hc _ IHl]; intros next m ND.
    - exists [], next, m. cbn. rewrite app_nil_r. auto.
    - cbn [flat_map] in ND. rewrite map_app, app_assoc in ND.
      destruct (Hc next m) as (c' & next1 & m1 & Ec & Uc & Mc).
      { eapply NoDup_app_remove_r, ND. }
      destruct (IHl next1 m1) as (l' & next2 & m2 & El & Ul & Ml).
      { now rewrite Mc. }
      exists (c' :: l'), next2, m2. split; [|split].
      + unfold visit. fold visit. rewrite Ec. cbn [bind].
        rewrite El. reflexivity.
      + cbn [map]. now rewrite Uc, Ul.
      + rewrite Ml, Mc. cbn [flat_map]. now rewrite map_app, app_assoc. }
  cbn [PostOrder] in ND. rewrite map_app, app_assoc in ND. cbn [map] in ND.
  destruct (V cs IH next m) as (cs' & next1 & m1 & Ev & Uv & Mv).
  { eapply NoDup_app_remove_r, ND. }
  rewrite Ev. cbn [bind].
  assert (Fresh : ~ In tag (map fst m1)).
  { rewrite Mv. intros I. apply NoDup_remove_2 in ND.
    apply ND. now rewrite app_nil_r. }
  destruct cs as [|c cs].
  - rewrite (SafeInsert_fresh tag_eqb tag_eqb_eq _ _ _ Fresh). cbn [bind].
    eexists _, _, _. split; [reflexivity|]. split.
    + cbn [unindexed]. now rewrite Uv.
    + rewrite map_app, Mv. cbn [PostOrder flat_map map fst app Tag].
      now rewrite !app_nil_r.
  - rewrite (SafeInsert_fresh tag_eqb tag_eqb_eq _ _ _ Fresh). cbn [bind].
    eexists _, _, _. split; [reflexivity|]. split.
    + cbn [unindexed]. now rewrite Uv.
    + rewrite map_app, Mv. cbn [PostOrder map fst Tag].
      rewrite map_app. cbn [map Tag]. now rewrite app_assoc.
Qed.

Lemma NoDup_Z_nodup (l : list Z) : NoDup l -> Z_nodup l = true.
Proof.
  induction 1 as [|x l Nx _ IH]; [reflexivity|]. cbn [Z_nodup].
  rewrite IH, andb_true_r. apply negb_true_iff.
  destruct (existsb (Z.eqb x) l) eqn:E; [|reflexivity].
  apply existsb_exists in E. destruct E as (y & Iy & Ey).
  apply Z.eqb_eq in Ey. subst. contradiction.
Qed.

Lemma unrooted_topology_complete (N : nat) (t : Node) :
  unrooted N t -> unrooted_topology N t = true.
Proof.
  intros U. unfold unrooted_topology.
  destruct (u_shape U) as (c0 & c1 & c2 & E & B0 & B1 & B2).
  rewrite (u_tags U), E, B0, B1, B2, (NoDup_Z_nodup (u_nodup U)).
  rewrite (u_count U), Nat.eqb_refl. cbn [andb].
  replace (Z.of_nat N <? two32) with true
    by (symmetry; apply Z.ltb_lt, (u_bound U)).
  rewrite !andb_true_r. apply forallb_forall. intros i I.
  apply (u_range U) in I. apply andb_true_iff. split; lia.
Qed.

(** [Polish] on an unrooted topology returns an unrooted topology. *)
Lemma Polish_unrooted (N : nat) (t : Node) :
  unrooted N t ->
  exists t', Polish t = Ok t' /\ unrooted_topology N t' = true.
Proof.
  intros U. unfold Polish, Reindex.
  destruct (@Reindex_from_spec t ((1 + MaxLeafID t) mod two64) [])
    as (t' & next' & m' & E & Ut & _).
  { cbn [map app]. now apply unrooted_tags_NoDup with N. }
  rewrite E. cbn [bind fst]. exists t'. split; [reflexivity|].
  rewrite (@same_unindexed N t t' Ut). now apply unrooted_topology_complete.
Qed.

(* ================================================================== *)
(** * [Deroot] on a sampled tree *)

Lemma bifurcating_internal (c : Node) :
  bifurcating c = true -> length (leaf_ids c) <> 1%nat ->
  exists a b, Children c = [a; b].
Proof.
  destruct c as [cs idx tag h]. cbn.
  destruct cs as [|a [|b [|]]]; try discriminate; [|eauto].
  cbn. congruence.
Qed.

Lemma children_facts (c a b : Node) :
  Children c = [a; b] -> tags_ok c = true -> bifurcating c = true ->
  tags_ok a = true /\ tags_ok b = true
  /\ bifurcating a = true /\ bifurcating b = true
  /\ leaf_ids c = leaf_ids a ++ leaf_ids b.
Proof.
  destruct c as [cs idx tag h]. cbn [Children]. intros -> T B.
  cbn [tags_ok forallb] in T. cbn [bifurcating] in B.
  apply andb_true_iff in T. destruct T as [_ T].
  apply andb_true_iff in T. destruct T as [Ta T].
  apply andb_true_iff in T. destruct T as [Tb _].
  apply andb_true_iff in B. destruct B as [Ba Bb].
  cbn [leaf_ids flat_map]. rewrite app_nil_r. auto.
Qed.

(** Three binary subtrees that have every taxon once, under one root. *)
Lemma Join3_unrooted (N : nat) (a b o : Node) (index : Z) :
  tags_ok a = true -> tags_ok b = true -> tags_ok o = true ->
  bifurcating a = true -> bifurcating b = true -> bifurcating o = true ->
  Permutation (leaf_ids a ++ leaf_ids b ++ leaf_ids o)
              (map Z.of_nat (seq 0 N)) ->
  Z.of_nat N < two32 ->
  exists t, Join [a; b; o] index = Ok t /\ unrooted N t.
Proof.
  intros Ta Tb To Ba Bb Bo P Bd.
  assert (Ef : flat_map leaf_ids [a; b; o]
               = leaf_ids a ++ leaf_ids b ++ leaf_ids o).
  { cbn [flat_map]. now rewrite app_nil_r. }
  assert (NDs : NoDup (map Z.of_nat (seq 0 N))).
  { apply Finite.Injective_map_NoDup; [|apply seq_NoDup].
    intros x y. apply Nat2Z.inj. }
  assert (Ls : length (map Z.of_nat (seq 0 N)) = N)
    by (now rewrite length_map, length_seq).
  destruct (@Join_tree [a; b; o] index) as (t & E & Pc & Tt & Pt & _).
  - discriminate.
  - repeat constructor; assumption.
  - rewrite Ef. eapply Permutation_NoDup; [apply Permutation_sym, P|exact NDs].
  - rewrite Ef, (Permutation_length P), Ls. exact Bd.
  - exists t. split; [exact E|].
    rewrite Ef in Pt. pose proof (Permutation_trans Pt P) as Pl.
    destruct (@Permutation_three _ a b o _ Pc) as (x & y & z & Ec & Pxyz).
    assert (Bx : forall c, In c [x; y; z] -> bifurcating c = true).
    { intros c Ic. apply Permutation_sym in Pxyz.
      apply (Permutation_in _ Pxyz) in Ic.
      destruct Ic as [<-|[<-|[<-|[]]]]; assumption. }
    split.
    + exact Tt.
    + exists x, y, z. split; [exact Ec|]. cbn in Bx. auto 10.
    + eapply Permutation_NoDup; [apply Permutation_sym, Pl|exact NDs].
    + intros i Ii. apply (Permutation_in _ Pl) in Ii.
      apply in_map_iff in Ii. destruct Ii as (k & <- & Ik).
      apply in_seq in Ik. lia.
    + now rewrite (Permutation_length Pl).
    + exact Bd.
Qed.

(** [Deroot] on a binary tree that has every taxon once. *)
Lemma Deroot_unrooted (N : nat) (n : Node) (leaves : list Z) :
  (3 <= N)%nat -> Z.of_nat N < two32 ->
  sampled_tree n leaves ->
  Permutation leaves (map Z.of_nat (seq 0 N)) ->
  (exists c0 c1, Children n = [c0; c1]) ->
  exists t, Deroot n = Ok t /\ unrooted N t.
Proof.
  intros N3 Bd (Tn & Bn & Pn) Pl (c0 & c1 & Ec).
  pose proof (Permutation_trans Pn Pl) as P.
  assert (Ln : length (leaf_ids n) = N)
    by (now rewrite (Permutation_length P), length_map, length_seq).
  destruct (@children_facts n c0 c1 Ec Tn Bn) as (T0 & T1 & B0 & B1 & El).
  destruct (@tags_ok_counts n Tn) as [Cn _]; [lia|].
  assert (L01 : (length (leaf_ids c0) + length (leaf_ids c1) = N)%nat)
    by (now rewrite <- Ln, El, length_app).
  destruct (@tags_ok_counts c1 T1) as [C1 _]; [lia|].
  unfold Deroot. rewrite Ec.
  destruct (Z.ltb_spec (LeafCount n) 3) as [H|_]; [lia|].
  destruct (Z.eqb_spec (LeafCount c1) 1) as [H1|H1].
  - destruct (@bifurcating_internal c0 B0) as (a & b & E0); [lia|].
    destruct (@children_facts c0 a b E0 T0 B0) as (Ta & Tb & Ba & Bb & Ea).
    rewrite E0. cbn [app]. apply Join3_unrooted; auto.
    rewrite app_assoc, <- Ea, <- El. exact P.
  - destruct (@bifurcating_internal c1 B1) as (a & b & E1); [lia|].
    destruct (@children_facts c1 a b E1 T1 B1) as (Ta & Tb & Ba & Bb & Ea).
    rewrite E1. cbn [app]. apply Join3_unrooted; auto.
    rewrite app_assoc, <- Ea.
    apply Permutation_trans with (2 := P). rewrite El.
    apply Permutation_app_comm.
Qed.

(* ================================================================== *)
(** * Sampling a topology returns, with an unrooted topology *)

Section SamplingReturns.
Variable RNG : Type.
Variable discrete_distribution : list float -> RNG -> nat * RNG.
Variables ProbabilityNormalizeInLog Exponentiate : list float -> list float.
Hypothesis draw_contract : draws_in_range discrete_distribution.
Hypothesis normalize_length : keeps_length ProbabilityNormalizeInLog.
Hypothesis exponentiate_length : keeps_length Exponentiate.

Variable N : nat.
Variable self : SBNInstance.
Hypothesis support : sampling_support N self.
Hypothesis bound : Z.of_nat N < two32.

Let keys : list Bitset := map fst (parent_to_range_ self).

Lemma SampleTopology_subsplit_unfold (depth : nat) (parent : Bitset) :
  SampleTopology_subsplit discrete_distribution ProbabilityNormalizeInLog
                          Exponentiate (S depth) parent
  = mbind (process_subsplit discrete_distribution ProbabilityNormalizeInLog
                            Exponentiate depth parent)
          (fun left =>
             mbind (process_subsplit discrete_distribution
                                     ProbabilityNormalizeInLog Exponentiate
                                     depth (RotateSubsplit parent))
                   (fun right => lift (Join2 left right SIZE_MAX))).
Proof. reflexivity. Qed.

Lemma sampled_Leaf (i : Z) : sampled_tree (Leaf i) [i].
Proof.
  unfold sampled_tree, Leaf, PackInts. cbn. auto.
Qed.

Lemma sampled_Permutation (n : Node) (l l' : list Z) :
  Permutation l l' -> sampled_tree n l -> sampled_tree n l'.
Proof.
  intros P (T & B & L). repeat split; auto.
  now apply Permutation_trans with l.
Qed.

Lemma members_bound (x y : Bitset) :
  apart N x y -> (length (members x ++ members y) <= N)%nat.
Proof.
  intros (Lx & Ly & _ & _ & D).
  assert (ND : NoDup (members x ++ members y)).
  { apply NoDup_app_apart; [apply NoDup_members|apply NoDup_members|].
    intros a I1 I2. now apply (D a). }
  assert (I : incl (members x ++ members y) (map Z.of_nat (seq 0 N))).
  { intros z Iz. apply in_app_iff in Iz.
    assert (R : 0 <= z < Z.of_nat N).
    { destruct Iz as [Iz|Iz]; apply members_range in Iz; lia. }
    apply in_map_iff. exists (Z.to_nat z). split; [lia|]. apply in_seq. lia. }
  pose proof (NoDup_incl_length ND I) as L.
  now rewrite length_map, length_seq in L.
Qed.

Lemma SampleTopology_subsplit_total (depth : nat) :
  forall (x y : Bitset) (g : RNG),
    refinable N keys x y ->
    (length (members x) + length (members y) <= S depth)%nat ->
    exists n g',
      SampleTopology_subsplit discrete_distribution ProbabilityNormalizeInLog
                              Exponentiate depth (x ++ y) (self, g)
      = Ok (n, (self, g'))
      /\ sampled_tree n (members x ++ members y)
      /\ exists c0 c1, Children n = [c0; c1].
Proof.
  destruct support as (N3 & NEr & LR & Roots & Ranges).
  induction depth as [|depth IH]; intros x y g Rf Sz.
  { destruct Rf as ((_ & _ & Mx & My & _) & _).
    destruct (members x), (members y); cbn in Sz; try contradiction; lia. }
  assert (P : forall (a b : Bitset) (g : RNG),
             apart N a b ->
             (SingletonOption b = None -> In (a ++ b) keys) ->
             (length (members b) <= S depth)%nat ->
             exists n g',
               process_subsplit discrete_distribution ProbabilityNormalizeInLog
                                Exponentiate depth (a ++ b) (self, g)
               = Ok (n, (self, g'))
               /\ sampled_tree n (members b)).
  { clear x y g Rf Sz. intros a b g A K Sz.
    pose proof A as (La & Lb & _).
    unfold process_subsplit. rewrite SplitChunk_1 by congruence.
    destruct (SingletonOption b) as [i|] eqn:Eb.
    - exists (Leaf i), g. split; [reflexivity|].
      rewrite (SingletonOption_Some _ Eb). apply sampled_Leaf.
    - specialize (K eq_refl). unfold mbind at 1, gets at 1.
      cbn [bind fst snd]. unfold mbind at 1, lift at 1.
      destruct (find Bitset_eqb (parent_to_range_ self) (a ++ b))
        as [range|] eqn:Ef.
      2:{ apply (find_None Bitset_eqb Bitset_eqb_eq) in Ef. contradiction. }
      assert (Em : map_at Bitset_eqb (parent_to_range_ self) (a ++ b)
                   = Ok range) by (unfold map_at; now rewrite Ef).
      rewrite Em. cbn [bind fst snd].
      apply (find_In Bitset_eqb Bitset_eqb_eq) in Ef.
      destruct (Ranges _ _ Ef) as [Valid Children_]. destruct range as [s e].
      cbn [fst snd] in *. unfold mbind at 1.
      destruct (@SampleIndex_valid RNG discrete_distribution
                  ProbabilityNormalizeInLog Exponentiate draw_contract
                  normalize_length exponentiate_length self g s e Valid)
        as (i & g1 & Ei & Hi).
      rewrite Ei. cbn [bind fst snd]. unfold mbind at 1, gets at 1.
      cbn [bind fst snd]. unfold mbind at 1, lift at 1.
      destruct (Children_ i Hi) as (x' & y' & Ec & Rf' & Pm).
      rewrite Ec. cbn [bind fst snd].
      rewrite SplitChunk_1 in Pm by congruence.
      destruct (IH x' y' g1 Rf') as (n & g2 & En & Sn & _).
      { rewrite <- length_app, (Permutation_length Pm). exact Sz. }
      exists n, g2. split; [exact En|].
      now apply sampled_Permutation with (members x' ++ members y'). }
  pose proof Rf as (A & Ky & Kx). pose proof A as (Lx & Ly & Mx & My & D).
  rewrite SampleTopology_subsplit_unfold.
  assert (Sx : (1 <= length (members x))%nat)
    by (destruct (members x); [contradiction|cbn; lia]).
  assert (Sy : (1 <= length (members y))%nat)
    by (destruct (members y); [contradiction|cbn; lia]).
  destruct (P x y g A Ky) as (l & g1 & El & Sl); [lia|].
  unfold mbind at 1. rewrite El. cbn [bind fst snd].
  rewrite RotateSubsplit_app by congruence.
  destruct (P y x g1 (apart_sym A) Kx) as (r & g2 & Er & Sr); [lia|].
  unfold mbind at 1. rewrite Er. cbn [bind fst snd].
  assert (ND : NoDup (members y ++ members x)).
  { apply NoDup_app_apart; [apply NoDup_members|apply NoDup_members|].
    intros a I1 I2. now apply (D a). }
  destruct (@Join2_sampled l r (members y) (members x) SIZE_MAX Sl Sr ND)
    as (n & En & Sn & Cn).
  { pose proof (members_bound (apart_sym A)). lia. }
  unfold lift. rewrite En. cbn [bind]. exists n, g2.
  split; [reflexivity|]. split.
  - apply sampled_Permutation with (members y ++ members x); [|exact Sn].
    apply Permutation_app_comm.
  - destruct Cn as [C|C]; rewrite C; eauto.
Qed.

(** [SampleTopology(false)] returns an unrooted topology on the [N] taxa
    and leaves the instance as it is. *)
Lemma SampleTopology_total (g : RNG) :
  exists t g',
    SampleTopology discrete_distribution ProbabilityNormalizeInLog
                   Exponentiate false (self, g) = Ok (t, (self, g'))
    /\ unrooted_topology N t = true.
Proof.
  pose proof support as (N3 & NEr & LR & Roots & Ranges).
  unfold SampleTopology. unfold mbind at 1, gets at 1. cbn [bind fst snd].
  unfold mbind at 1.
  destruct (@SampleIndex_valid RNG discrete_distribution
              ProbabilityNormalizeInLog Exponentiate draw_contract
              normalize_length exponentiate_length self g 0
              (length (rootsplits_ self)))
    as (i & g1 & Ei & Hi).
  { destruct (rootsplits_ self); [contradiction|]. cbn [length] in *. lia. }
  rewrite Ei. cbn [bind fst snd]. unfold mbind at 1, lift at 1.
  destruct (nth_error (rootsplits_ self) i) as [r|] eqn:Er.
  2:{ apply nth_error_None in Er. lia. }
  cbn [bind fst snd]. apply nth_error_In in Er.
  pose proof (Roots r Er) as Rf. pose proof Rf as ((Lr & _) & _).
  pose proof (members_flip r) as Pf. rewrite Lr in Pf.
  unfold mbind at 1.
  destruct (@SampleTopology_subsplit_total (length r) r (Bitset_flip r) g1 Rf)
    as (n & g2 & En & Sn & Cn).
  { rewrite <- length_app, (Permutation_length Pf), length_map, length_seq.
    lia. }
  rewrite En. cbn [bind fst snd]. unfold mbind at 1, lift at 1.
  destruct (@Deroot_unrooted N n (members r ++ members (Bitset_flip r))
              N3 bound Sn Pf Cn) as (t & Et & Ut).
  rewrite Et. cbn [bind fst snd]. unfold lift.
  destruct (Polish_unrooted Ut) as (t' & Ep & Ut').
  rewrite Ep. cbn [bind]. exists t', g2. auto.
Qed.
End SamplingReturns.

(* ================================================================== *)
(** * The instance that [ProcessLoadedTrees] returns *)

Lemma count_topology_nonempty (counter : TopologyCounter) (t : Node) :
  count_topology counter t <> [].
Proof.
  destruct counter as [|[k c] rest]; cbn; [discriminate|].
  destruct (Node_eqb t k); discriminate.
Qed.

Lemma TopologyCounterOf_nonempty (c : TreeCollection) :
  trees_ c <> [] -> TopologyCounterOf c <> [].
Proof.
  unfold TopologyCounterOf. destruct (trees_ c) as [|tree trees]; [congruence|].
  intros _. cbn [map fold_left].
  assert (G : forall l acc, acc <> [] -> fold_left count_topology l acc <> []).
  { induction l as [|t l IH]; intros acc NE; cbn [fold_left]; auto.
    apply IH, count_topology_nonempty. }
  apply G, count_topology_nonempty.
Qed.

(** What [ProcessLoadedTrees] returns for unrooted topologies, field by
    field. *)
Lemma ProcessLoadedTrees_closed (N : nat) (self : SBNInstance) :
  Forall (fun tree => unrooted_topology N (topology_ tree) = true)
         (trees_ (tree_collection_ self)) ->
  let tc := TopologyCounterOf (tree_collection_ self) in
  let rc := count_rootsplits N tc in
  let d := count_pcss N tc in
  let indexer := combine (map fst rc ++ pcss_keys d)
                         (seq 0 (length rc + length (pcss_keys d))) in
  ProcessLoadedTrees self
  = Ok (mkSBNInstance
          (tree_collection_ self)
          (mkPSPIndexer (map fst rc) indexer)
          (repeat 1%float (length rc + length (pcss_keys d)))
          indexer
          (TaxonNames (tree_collection_ self))
          (map fst rc)
          (combine (seq (length rc) (length (pcss_keys d))) (pcss_children d))
          (ranges_from (length rc) d)
          tc).
Proof.
  intros F. cbv zeta. apply TopologyCounterOf_unrooted in F.
  unfold ProcessLoadedTrees.
  cbn [ClearTreeCollectionAssociatedState tree_collection_].
  remember (TopologyCounterOf (tree_collection_ self)) as tc eqn:Etc.
  rewrite (RootsplitCounterOf_closed F), (PCSSCounterOf_closed F).
  cbn [bind].
  pose proof (counters_keys_NoDup F) as ND.
  pose proof (count_pcss_well_keyed N tc) as [NDp NDc].
  rewrite (build_indexer_closed _ _ ND NDp). cbn [bind].
  reflexivity.
Qed.
Lemma PCSSPreOrder_nonempty (N : nat) (t : Node) :
  unrooted N t -> pcss_pairs_of N t <> [].
Proof.
  intros U. destruct (u_shape U) as (c0 & c1 & c2 & E & B0 & B1 & B2).
  destruct (PCSSPreOrder_ok U) as (l & El & _).
  unfold pcss_pairs_of. rewrite El. cbn [calls_of].
  unfold PCSSPreOrder, TriplePreOrder in El. rewrite E in El.
  destruct (PCSS_f_root c0 c1 c2) as [a|] eqn:Ea; cbn [bind] in El;
    [|discriminate].
  assert (NE : a <> []).
  { unfold PCSS_f_root in Ea.
    destruct (Children c2) as [|x [|y [|z zs]]]; inversion Ea; discriminate. }
  destruct (PCSS_f_root c1 c2 c0); cbn [bind] in El; [|discriminate].
  destruct (PCSS_f_root c2 c0 c1); cbn [bind] in El; [|discriminate].
  destruct (mapM _ _); cbn [bind] in El; [|discriminate].
  injection El as <-. destruct a; [contradiction|]. discriminate.
Qed.

(** After [ProcessLoadedTrees] on unrooted topologies, at least one, with
    named taxa, none of the maps is empty. *)
Lemma ProcessLoadedTrees_maps_available (N : nat) (self : SBNInstance) :
  trees_ (tree_collection_ self) <> [] ->
  tag_taxon_map_ (tree_collection_ self) <> [] ->
  Forall (fun tree => unrooted_topology N (topology_ tree) = true)
         (trees_ (tree_collection_ self)) ->
  exists self',
    ProcessLoadedTrees self = Ok self'
    /\ CheckSBNMapsAvailable self' = Ok tt
    /\ indexer_ self' <> [] /\ index_to_child_ self' <> []
    /\ parent_to_range_ self' <> [] /\ rootsplits_ self' <> []
    /\ taxon_names_ self' <> [].
Proof.
  intros NEt NEn F. apply TopologyCounterOf_unrooted in F.
  pose proof (TopologyCounterOf_nonempty _ NEt) as NEc.
  unfold ProcessLoadedTrees.
  cbn [ClearTreeCollectionAssociatedState tree_collection_].
  remember (TopologyCounterOf (tree_collection_ self)) as tc eqn:Etc.
  rewrite (RootsplitCounterOf_closed F), (PCSSCounterOf_closed F).
  cbn [bind].
  pose proof (counters_keys_NoDup F) as ND.
  pose proof (count_pcss_well_keyed N tc) as [NDp NDc].
  rewrite (build_indexer_closed _ _ ND NDp). cbn [bind].
  destruct tc as [|iter tc]; [contradiction|].
  inversion F as [|? ? U _]; subst.
  (* an observed rootsplit and an observed pair *)
  assert (Hr : exists s, In s (map fst (count_rootsplits N (iter :: tc)))).
  { pose proof (length_rootsplit_nodes U) as L.
    destruct (rootsplit_nodes (fst iter)) as [|u us] eqn:Eu; [cbn in L; lia|].
    exists (rootsplit_of N u). apply count_rootsplits_keys.
    exists iter. split; [now left|]. unfold rootsplits_of. rewrite Eu.
    now left. }
  assert (Hp : exists pc, In pc (pcss_entries (count_pcss N (iter :: tc)))).
  { pose proof (PCSSPreOrder_nonempty U) as L.
    destruct (pcss_pairs_of N (fst iter)) as [|pc pcs] eqn:Ep; [contradiction|].
    exists pc. apply count_pcss_entries. exists iter.
    split; [now left|]. rewrite Ep. now left. }
  remember (count_rootsplits N (iter :: tc)) as rc eqn:Erc.
  remember (count_pcss N (iter :: tc)) as d eqn:Ed.
  destruct Hr as [s Is]. destruct Hp as [[p c] Ip].
  assert (NErc : rc <> []) by (intros ->; destruct Is).
  assert (NEd : d <> []) by (intros ->; destruct Ip).
  assert (NEk : pcss_keys d <> []).
  { intros Ek. assert (I : In (p ++ c) (pcss_keys d)).
    { apply pcss_keys_entries. eauto. }
    rewrite Ek in I. destruct I. }
  assert (NEch : pcss_children d <> []).
  { intros Ek. apply (f_equal (@length _)) in Ek.
    rewrite <- pcss_keys_length in Ek. destruct (pcss_keys d); [congruence|].
    discriminate. }
  eexists. split; [reflexivity|].
  unfold CheckSBNMapsAvailable, TaxonNames.
  cbn [indexer_ index_to_child_ parent_to_range_ rootsplits_ taxon_names_
       b_indexer b_rootsplits b_index_to_child b_parent_to_range].
  assert (X1 : combine (map fst rc ++ pcss_keys d)
                       (seq 0 (length rc + length (pcss_keys d))) <> []).
  { destruct rc as [|kv rc]; [contradiction|]. cbn. discriminate. }
  assert (X2 : combine (seq (length rc) (length (pcss_keys d)))
                       (pcss_children d) <> []).
  { destruct (pcss_keys d); [contradiction|].
    destruct (pcss_children d); [contradiction|]. cbn. discriminate. }
  assert (X3 : ranges_from (length rc) d <> []).
  { destruct d as [|[p0 cc] d]; [contradiction|]. cbn. discriminate. }
  assert (X4 : map fst rc <> []).
  { destruct rc; [contradiction|]. cbn. discriminate. }
  assert (X5 : map snd (tag_taxon_map_ (tree_collection_ self)) <> []).
  { destruct (tag_taxon_map_ (tree_collection_ self)); [contradiction|].
    cbn. discriminate. }
  split; [|auto 10].
  destruct (combine (map fst rc ++ pcss_keys d) _); [contradiction|].
  destruct (combine (seq _ _) _); [contradiction|].
  destruct (ranges_from _ _); [contradiction|].
  destruct (map fst rc); [contradiction|].
  destruct (map snd _); [contradiction|]. reflexivity.
Qed.


(** The maps that [ProcessLoadedTrees] returns support sampling. *)
Lemma ProcessLoadedTrees_support (N : nat) (self built : SBNInstance) :
  trees_ (tree_collection_ self) <> [] ->
  Forall (fun tree => unrooted_topology N (topology_ tree) = true)
         (trees_ (tree_collection_ self)) ->
  ProcessLoadedTrees self = Ok built ->
  sampling_support N built.
Proof.
  intros NE F E. rewrite (ProcessLoadedTrees_closed N self F) in E.
  cbv zeta in E. injection E as <-. apply counters_support.
  - now apply TopologyCounterOf_unrooted.
  - now apply TopologyCounterOf_nonempty.
  - apply repeat_length.
Qed.

Lemma same_support_sampling (N : nat) (built self : SBNInstance) :
  same_support built self -> sampling_support N built ->
  sampling_support N self.
Proof.
  intros (_ & Er & Ec & Ep & _ & El). unfold sampling_support.
  now rewrite Er, Ec, Ep, El.
Qed.

Lemma same_support_available (built self : SBNInstance) :
  same_support built self ->
  CheckSBNMapsAvailable self = CheckSBNMapsAvailable built.
Proof.
  intros (Ei & Er & Ec & Ep & Et & _). unfold CheckSBNMapsAvailable.
  now rewrite Ei, Er, Ec, Ep, Et.
Qed.

Lemma sampling_support_set_trees (N : nat) (trees : list Tree)
      (self : SBNInstance) :
  sampling_support N self -> sampling_support N (set_trees trees self).
Proof. intros S. exact S. Qed.

(* ================================================================== *)
(** * [SampleTrees] *)

Lemma int_of_size_t_small (z : Z) :
  0 <= z <= INT_MAX -> int_of_size_t z = z.
Proof.
  intros H. unfold int_of_size_t, INT_MAX, two32 in *.
  rewrite Z.mod_small by lia.
  destruct (Z.leb_spec z 2147483647); [reflexivity|lia].
Qed.

Lemma int_result_Ok (z r : Z) :
  int_result z = Ok r -> r = z /\ INT_MIN <= z <= INT_MAX.
Proof.
  unfold int_result.
  destruct (Z.leb_spec INT_MIN z), (Z.leb_spec z INT_MAX); cbn;
    intros E; inversion E. lia.
Qed.

Lemma int_result_in_range (z : Z) :
  INT_MIN <= z <= INT_MAX -> int_result z = Ok z.
Proof.
  intros H. unfold int_result.
  destruct (Z.leb_spec INT_MIN z), (Z.leb_spec z INT_MAX); cbn;
    try reflexivity; lia.
Qed.

Section SampleTreesReturns.
Variable RNG : Type.
Variable discrete_distribution : list float -> RNG -> nat * RNG.
Variables ProbabilityNormalizeInLog Exponentiate : list float -> list float.
Hypothesis draw_contract : draws_in_range discrete_distribution.
Hypothesis normalize_length : keeps_length ProbabilityNormalizeInLog.
Hypothesis exponentiate_length : keeps_length Exponentiate.

Variable N : nat.
Variable self : SBNInstance.
Hypothesis support : sampling_support N self.
Hypothesis bound : Z.of_nat N < two32.

Lemma sample_loop_returns (edge_count : Z) (count : nat) :
  0 <= edge_count ->
  forall (trees : list Tree) (g : RNG),
  exists new g',
    sample_loop discrete_distribution ProbabilityNormalizeInLog Exponentiate
                count edge_count (set_trees trees self, g)
    = Ok (tt, (set_trees (trees ++ new) self, g'))
    /\ length new = count
    /\ Forall (fun tree =>
                 unrooted_topology N (topology_ tree) = true
                 /\ branch_lengths_ tree
                    = repeat 0%float (Z.to_nat edge_count))
              new.
Proof.
  intros Pos. induction count as [|count IH]; intros trees g;
    cbn [sample_loop].
  - exists [], g. rewrite app_nil_r. repeat split. constructor.
  - unfold mbind at 1, lift at 1.
    destruct (Z.leb_spec 0 edge_count) as [_|]; [|lia].
    cbn [Assert bind fst snd]. unfold mbind at 1.
    destruct (@SampleTopology_total RNG discrete_distribution
                ProbabilityNormalizeInLog Exponentiate draw_contract
                normalize_length exponentiate_length N
                (set_trees trees self)
                (sampling_support_set_trees trees support) bound g)
      as (t & g1 & Et & Ut).
    rewrite Et. cbn [bind fst snd]. unfold mbind at 1, modify at 1.
    cbn [bind fst snd].
    set (tree := mkTree t (repeat 0%float (Z.to_nat edge_count))).
    change (push_back_tree tree (set_trees trees self))
      with (set_trees (trees ++ [tree]) self).
    destruct (IH (trees ++ [tree]) g1) as (new & g2 & El & Ln & Fn).
    exists (tree :: new), g2. split; [|split].
    + rewrite El. now rewrite <- app_assoc.
    + cbn [length]. now rewrite Ln.
    + constructor; [|exact Fn]. split; [exact Ut|reflexivity].
Qed.
End SampleTreesReturns.
Lemma first_rootsplit_length (N : nat) (self : SBNInstance) :
  sampling_support N self -> length (hd [] (rootsplits_ self)) = N.
Proof.
  intros (_ & NE & _ & R & _).
  destruct (rootsplits_ self) as [|r rs]; [contradiction|].
  cbn [hd]. destruct (R r (or_introl eq_refl)) as [(L & _) _]. exact L.
Qed.

Lemma draws_in_range_first_position : draws_in_range first_position.
Proof.
  intros weights g NE. cbn. destruct weights; [contradiction|cbn; lia].
Qed.

Lemma example_trees_unrooted :
  Forall (fun tree => unrooted_topology 4 (topology_ tree) = true)
         (trees_ (tree_collection_ example_instance)).
Proof. repeat constructor. Qed.

Lemma example_instance_builds :
  ProcessLoadedTrees example_instance = Ok built_example_instance.
Proof. vm_compute. reflexivity. Qed.

(** C10: [SampleTrees count] fails with the message of
    [CheckSBNMapsAvailable] when the maps are not available, whatever the
    collection holds.  When it returns, the maps were available, the
    collection holds exactly [count] trees, none of them from before, each
    with a topology returned by [SampleTopology false] on an instance with
    the same maps and with [edge_count] branch lengths that are all zero,
    [edge_count] being [2 * leaf_count - 2] computed in [int] from the size
    of the first rootsplit (the number [2 * leaf_count - 2] itself when the
    size fits an [int]); the indexer, the parameters, the parent ranges and
    the topology counter are as before.  It does return on every instance
    that has the maps built by [ProcessLoadedTrees] from a collection of
    unrooted topologies on [N < 2^30] taxa, with as many parameters, when
    the generator draws inside the range it is given and the numerical
    helpers keep the size of their vector: the collection then holds
    [count] trees, each an unrooted topology on the [N] taxa with
    [2 * N - 2] zero branch lengths. *)
Theorem SampleTrees_replaces_the_trees
        (RNG : Type) (discrete_distribution : list float -> RNG -> nat * RNG)
        (ProbabilityNormalizeInLog Exponentiate : list float -> list float)
        (count : nat) (self : SBNInstance) (g : RNG) :
  (forall msg,
      CheckSBNMapsAvailable self = Abort msg ->
      SampleTrees discrete_distribution ProbabilityNormalizeInLog Exponentiate
                  count (self, g) = Abort msg)
  /\ (forall u w',
         SampleTrees discrete_distribution ProbabilityNormalizeInLog
                     Exponentiate count (self, g) = Ok (u, w') ->
         let leaf_count := length (hd [] (rootsplits_ self)) in
         let edge_count := 2 * int_of_size_t (Z.of_nat leaf_count) - 2 in
         CheckSBNMapsAvailable self = Ok tt
         /\ INT_MIN <= edge_count <= INT_MAX
         /\ length (trees_ (tree_collection_ (fst w'))) = count
         /\ Forall (fun tree =>
                      branch_lengths_ tree
                      = repeat 0%float (Z.to_nat edge_count)
                      /\ (Z.of_nat leaf_count <= INT_MAX ->
                          branch_lengths_ tree
                          = repeat 0%float (2 * leaf_count - 2))
                      /\ exists w1 w2,
                          same_maps (fst w1) self
                          /\ SampleTopology discrete_distribution
                                            ProbabilityNormalizeInLog
                                            Exponentiate false w1
                             = Ok (topology_ tree, w2))
                   (trees_ (tree_collection_ (fst w')))
         /\ indexer_ (fst w') = indexer_ self
         /\ sbn_parameters_ (fst w') = sbn_parameters_ self
         /\ parent_to_range_ (fst w') = parent_to_range_ self
         /\ topology_counter_ (fst w') = topology_counter_ self)
  /\ (forall (N : nat) (source built : SBNInstance),
         draws_in_range discrete_distribution ->
         keeps_length ProbabilityNormalizeInLog ->
         keeps_length Exponentiate ->
         trees_ (tree_collection_ source) <> [] ->
         tag_taxon_map_ (tree_collection_ source) <> [] ->
         Forall (fun tree => unrooted_topology N (topology_ tree) = true)
                (trees_ (tree_collection_ source)) ->
         Z.of_nat N < 1073741824 ->
         ProcessLoadedTrees source = Ok built ->
         same_support built self ->
         exists w',
           SampleTrees discrete_distribution ProbabilityNormalizeInLog
                       Exponentiate count (self, g) = Ok (tt, w')
           /\ length (hd [] (rootsplits_ self)) = N
           /\ length (trees_ (tree_collection_ (fst w'))) = count
           /\ Forall (fun tree =>
                        unrooted_topology N (topology_ tree) = true
                        /\ branch_lengths_ tree
                           = repeat 0%float (2 * N - 2))
                     (trees_ (tree_collection_ (fst w')))
           /\ fst w' = set_trees (trees_ (tree_collection_ (fst w'))) self).
Proof.
  split; [|split].
  - intros msg E. unfold SampleTrees, mbind at 1, gets. cbn [bind fst snd].
    unfold mbind at 1, lift. rewrite E. reflexivity.
  - intros u w' E leaf_count edge_count.
    unfold SampleTrees, mbind at 1, gets in E.
    cbn [bind fst snd] in E. unfold mbind at 1, lift at 1 in E.
    destruct (CheckSBNMapsAvailable self) as [[]|msg] eqn:C;
      cbn [bind fst snd] in E; [|discriminate].
    fold leaf_count in E.
    unfold mbind at 1, lift at 1 in E.
    destruct (int_result (2 * int_of_size_t (Z.of_nat leaf_count)))
      as [doubled|msg] eqn:E2; cbn [bind fst snd] in E; [|discriminate].
    apply int_result_Ok in E2. destruct E2 as [-> R2].
    unfold mbind at 1, lift at 1 in E.
    destruct (int_result (2 * int_of_size_t (Z.of_nat leaf_count) - 2))
      as [edges|msg] eqn:E3; cbn [bind fst snd] in E; [|discriminate].
    apply int_result_Ok in E3. destruct E3 as [-> R3]. fold edge_count in E.
    unfold mbind at 1, modify at 1 in E. cbn [bind fst snd] in E.
    apply sample_loop_spec in E. cbn [fst] in E.
    destruct E as (S & new & Et & L & F).
    cbn [set_trees trees_ tree_collection_ app] in Et.
    pose proof (same_maps_trans S (same_maps_set_trees [] self)) as S'.
    destruct (same_maps_fields S') as (F1 & F2 & F3 & F4 & _).
    rewrite Et. split; [reflexivity|]. split; [exact R3|]. split; [exact L|].
    split; [|auto]. revert F. apply Forall_impl.
    intros tree (B & w1 & w2 & S1 & E1). split; [exact B|]. split.
    + intros Small. rewrite B. f_equal. unfold edge_count.
      rewrite int_of_size_t_small by lia. lia.
    + exists w1, w2. split; [|exact E1].
      apply same_maps_trans with (1 := S1). apply same_maps_set_trees.
  - intros N source built Dr Kn Ke NEt NEn F Small Eb Same.
    pose proof (same_support_sampling Same
                  (ProcessLoadedTrees_support N source NEt F Eb)) as Sup.
    assert (C : CheckSBNMapsAvailable self = Ok tt).
    { rewrite (same_support_available Same).
      destruct (ProcessLoadedTrees_maps_available N source NEt NEn F)
        as (built' & Eb' & C & _).
      rewrite Eb in Eb'. injection Eb' as <-. exact C. }
    pose proof (first_rootsplit_length Sup) as LN.
    assert (Three : (3 <= N)%nat) by apply Sup.
    unfold SampleTrees, mbind at 1, gets. cbn [bind fst snd].
    unfold mbind at 1, lift at 1. rewrite C. cbn [bind fst snd].
    rewrite LN. rewrite int_of_size_t_small by (unfold INT_MAX; lia).
    unfold mbind at 1, lift at 1.
    rewrite int_result_in_range by (unfold INT_MIN, INT_MAX; lia).
    cbn [bind fst snd]. unfold mbind at 1, lift at 1.
    rewrite int_result_in_range by (unfold INT_MIN, INT_MAX; lia).
    cbn [bind fst snd]. unfold mbind at 1, modify at 1. cbn [bind fst snd].
    assert (B32 : Z.of_nat N < two32) by (unfold two32; lia).
    destruct (@sample_loop_returns RNG discrete_distribution
                ProbabilityNormalizeInLog Exponentiate Dr Kn Ke N self Sup
                B32 (2 * Z.of_nat N - 2) count ltac:(lia) [] g)
      as (new & g' & El & Ln & Fn).
    rewrite El. cbn [app]. exists (set_trees new self, g').
    cbn [fst set_trees trees_ tree_collection_].
    split; [reflexivity|]. split; [reflexivity|]. split; [exact Ln|].
    split; [|reflexivity].
    revert Fn. apply Forall_impl. intros tree [U B]. split; [exact U|].
    rewrite B. f_equal. lia.
Qed.

Lemma SampleTrees_replaces_the_trees_witness :
  exists w',
    SampleTrees first_position (fun v => v) (fun v => v) 2
                (built_example_instance, tt) = Ok (tt, w')
    /\ length (trees_ (tree_collection_ (fst w'))) = 2%nat
    /\ Forall (fun tree =>
                 unrooted_topology 4 (topology_ tree) = true
                 /\ branch_lengths_ tree = repeat 0%float (2 * 4 - 2))
              (trees_ (tree_collection_ (fst w'))).
Proof.
  destruct (@SampleTrees_replaces_the_trees
              unit first_position (fun v => v) (fun v => v) 2%nat
              built_example_instance tt) as (_ & _ & Returns).
  destruct (Returns 4%nat example_instance built_example_instance)
    as (w' & E & _ & L & F & _).
  - exact draws_in_range_first_position.
  - intros v. reflexivity.
  - intros v. reflexivity.
  - discriminate.
  - discriminate.
  - exact example_trees_unrooted.
  - reflexivity.
  - exact example_instance_builds.
  - repeat split.
  - exists w'. split; [exact E|]. split; [exact L|exact F].
Defined.

(* ================================================================== *)
(** * The order of bitsets, and the order of the views *)

Lemma Bitset_ltb_asym (x : Bitset) :
  forall y, Bitset_ltb x y = true -> Bitset_ltb y x = false.
Proof.
  induction x as [|a x IH]; intros [|b y]; cbn; try congruence.
  destruct a, b; cbn; try congruence; apply IH.
Qed.

Lemma Bitset_ltb_total (x : Bitset) :
  forall y, Bitset_ltb x y = false -> Bitset_ltb y x = false -> x = y.
Proof.
  induction x as [|a x IH]; intros [|b y]; cbn; try congruence.
  destruct a, b; cbn; try congruence; intros H1 H2; f_equal; now apply IH.
Qed.

Lemma Bitset_min_comm (x y : Bitset) : Bitset_min x y = Bitset_min y x.
Proof.
  unfold Bitset_min.
  destruct (Bitset_ltb y x) eqn:E1, (Bitset_ltb x y) eqn:E2; try reflexivity.
  - apply Bitset_ltb_asym in E1. congruence.
  - now apply Bitset_ltb_total.
Qed.

Lemma nondecreasing_cons (a : Z) (l : list Z) :
  nondecreasing (a :: l)
  = match l with
    | [] => true
    | b :: _ => a <=? b
    end && nondecreasing l.
Proof. destruct l; reflexivity. Qed.

Lemma nondecreasing_head (a : Z) (l : list Z) :
  nondecreasing (a :: l) = true -> forall b, In b l -> a <= b.
Proof.
  revert a. induction l as [|c l IH]; intros a S b I; [destruct I|].
  rewrite nondecreasing_cons in S. apply andb_true_iff in S.
  destruct S as [L S]. apply Z.leb_le in L. destruct I as [<-|I]; [exact L|].
  specialize (IH c S b I). lia.
Qed.

Lemma insert_by_index_perm (e : Node * (RootedView * RootedView))
      (l : list (Node * (RootedView * RootedView))) :
  Permutation (insert_by_index e l) (e :: l).
Proof.
  induction l as [|e' l IH]; cbn [insert_by_index]; [reflexivity|].
  destruct (Index (fst e) <=? Index (fst e')); [reflexivity|].
  rewrite IH. apply perm_swap.
Qed.

Lemma by_index_perm (l : list (Node * (RootedView * RootedView))) :
  Permutation (by_index l) l.
Proof.
  induction l as [|e l IH]; [reflexivity|].
  unfold by_index. cbn [fold_right]. fold (by_index l).
  rewrite insert_by_index_perm. now constructor.
Qed.

Lemma insert_by_index_sorted (e : Node * (RootedView * RootedView))
      (l : list (Node * (RootedView * RootedView))) :
  nondecreasing (map (fun e => Index (fst e)) l) = true ->
  nondecreasing (map (fun e => Index (fst e)) (insert_by_index e l)) = true.
Proof.
  induction l as [|e' l IH]; intros S; [reflexivity|].
  cbn [insert_by_index].
  destruct (Z.leb_spec (Index (fst e)) (Index (fst e'))) as [L|L].
  - cbn [map]. rewrite nondecreasing_cons. apply andb_true_iff. split.
    + now apply Z.leb_le.
    + exact S.
  - cbn [map] in *. rewrite nondecreasing_cons in *.
    apply andb_true_iff in S. destruct S as [H S].
    apply andb_true_iff. split; [|now apply IH].
    destruct l as [|e'' l]; cbn [insert_by_index map].
    + apply Z.leb_le. lia.
    + destruct (Index (fst e) <=? Index (fst e'')); cbn [map].
      * apply Z.leb_le. lia.
      * exact H.
Qed.

Lemma by_index_sorted (l : list (Node * (RootedView * RootedView))) :
  nondecreasing (map (fun e => Index (fst e)) (by_index l)) = true.
Proof.
  induction l as [|e l IH]; [reflexivity|].
  unfold by_index. cbn [fold_right]. fold (by_index l).
  now apply insert_by_index_sorted.
Qed.

(** Numbers in order that are the numbers [s], [s + 1], ... in some order
    are these numbers in this order. *)
Lemma nondecreasing_seq (n : nat) :
  forall (s : nat) (l : list Z),
    nondecreasing l = true ->
    Permutation l (map Z.of_nat (seq s n)) ->
    l = map Z.of_nat (seq s n).
Proof.
  induction n as [|n IH]; intros s l Hs P.
  - cbn in *. now apply Permutation_nil, Permutation_sym.
  - destruct l as [|a l].
    { apply Permutation_length in P. discriminate P. }
    cbn [seq map] in *.
    assert (Ea : a = Z.of_nat s).
    { assert (Ia : In a (Z.of_nat s :: map Z.of_nat (seq (S s) n))).
      { apply (Permutation_in _ P). now left. }
      assert (Is : In (Z.of_nat s) (a :: l)).
      { apply (Permutation_in _ (Permutation_sym P)). now left. }
      destruct Ia as [Ia|Ia]; [now symmetry|].
      destruct Is as [Is|Is]; [exact Is|].
      pose proof (@nondecreasing_head a l Hs _ Is) as L.
      apply in_map_iff in Ia. destruct Ia as (k & <- & Ik).
      apply in_seq in Ik. lia. }
    subst a. f_equal. apply IH.
    + rewrite nondecreasing_cons in Hs. apply andb_true_iff in Hs. apply Hs.
    + now apply Permutation_cons_inv in P.
Qed.

(* ================================================================== *)
(** * Where a node sits in a topology *)

Lemma NoDup_app_disjoint_inv {A : Type} (l1 l2 : list A) :
  NoDup (l1 ++ l2) -> forall a, In a l1 -> In a l2 -> False.
Proof.
  induction l1 as [|x l1 IH]; cbn; intros ND a I1 I2; [destruct I1|].
  inversion ND as [|? ? Nx ND']; subst. destruct I1 as [<-|I1].
  - apply Nx. apply in_or_app. now right.
  - eapply IH; eauto.
Qed.

Lemma NoDup_flat_map_same {A B : Type} (f : A -> list B) (l : list A)
      (a b : A) (z : B) :
  NoDup (flat_map f l) -> In a l -> In b l -> In z (f a) -> In z (f b) ->
  a = b.
Proof.
  induction l as [|x l IH]; intros ND Ia Ib Za Zb; [destruct Ia|].
  cbn [flat_map] in ND.
  assert (D : forall y, In y l -> In z (f x) -> In z (f y) -> False).
  { intros y Iy Zx Zy. apply (NoDup_app_disjoint_inv _ _ ND z Zx).
    apply in_flat_map. exists y. split; [exact Iy|exact Zy]. }
  destruct Ia as [<-|Ia], Ib as [<-|Ib]; [reflexivity| | |].
  - exfalso. eapply D; eauto.
  - exfalso. eapply D; eauto.
  - apply IH; auto. now apply NoDup_app_remove_l in ND.
Qed.

(** Two nodes of a topology that share a taxon lie one below the other. *)
Lemma laminar (w : Node) :
  NoDup (leaf_ids w) ->
  forall p q z,
    In p (PreOrder w) -> In q (PreOrder w) ->
    In z (leaf_ids p) -> In z (leaf_ids q) ->
    In p (PreOrder q) \/ In q (PreOrder p).
Proof.
  induction w as [cs idx tag h IH] using Node_ind. intros ND p q z Ip Iq Zp Zq.
  cbn [PreOrder] in Ip, Iq.
  destruct Ip as [<-|Ip]; [right; cbn [PreOrder]; exact Iq|].
  destruct Iq as [<-|Iq]; [left; cbn [PreOrder]; now right|].
  apply in_flat_map in Ip, Iq.
  destruct Ip as (a & Ia & Ip), Iq as (b & Ib & Iq).
  assert (E : a = b).
  { cbn [leaf_ids] in ND. destruct cs as [|c0 cs]; [destruct Ia|].
    apply (NoDup_flat_map_same leaf_ids (c0 :: cs) a b z ND Ia Ib).
    - now apply (leaf_ids_subnode _ _ Ip).
    - now apply (leaf_ids_subnode _ _ Iq). }
  subst b. rewrite Forall_forall in IH.
  apply (IH a Ia) with (z := z); try assumption.
  eapply NoDup_leaf_ids_child; eassumption.
Qed.

Lemma PreOrder_length_le (v : Node) :
  forall u, In u (PreOrder v) ->
            (length (PreOrder u) <= length (PreOrder v))%nat.
Proof.
  induction v as [cs idx tag h IH] using Node_ind. intros u I.
  cbn [PreOrder] in I. destruct I as [<-|I]; [lia|].
  apply in_flat_map in I. destruct I as (c & Ic & Iu).
  rewrite Forall_forall in IH. specialize (IH c Ic u Iu).
  cbn [PreOrder length].
  assert (L : (length (PreOrder c) <= length (flat_map PreOrder cs))%nat).
  { clear - Ic. induction cs as [|x cs IHc]; [destruct Ic|].
    cbn [flat_map]. rewrite length_app. destruct Ic as [<-|Ic]; [lia|].
    specialize (IHc Ic). lia. }
  lia.
Qed.

Lemma PreOrder_length_lt (v u : Node) :
  In u (flat_map PreOrder (Children v)) ->
  (length (PreOrder u) < length (PreOrder v))%nat.
Proof.
  intros I. apply in_flat_map in I. destruct I as (c & Ic & Iu).
  apply PreOrder_length_le in Iu.
  assert (Iv : In c (flat_map PreOrder (Children v))).
  { apply in_flat_map. exists c. split; [exact Ic|apply In_PreOrder_self]. }
  rewrite (PreOrder_unfold v). cbn [length].
  assert (L : (length (PreOrder c)
               <= length (flat_map PreOrder (Children v)))%nat).
  { clear - Ic. induction (Children v) as [|x cs IHc]; [destruct Ic|].
    cbn [flat_map]. rewrite length_app. destruct Ic as [<-|Ic]; [lia|].
    specialize (IHc Ic). lia. }
  lia.
Qed.

Lemma not_below_itself (x u : Node) :
  In u (flat_map PreOrder (Children x)) -> In x (PreOrder u) -> False.
Proof.
  intros Iu Ix. apply PreOrder_length_lt in Iu.
  apply PreOrder_length_le in Ix. lia.
Qed.

Lemma strictly_below (x u : Node) :
  In u (flat_map PreOrder (Children x)) -> In u (PreOrder x).
Proof. intros I. rewrite (PreOrder_unfold x). now right. Qed.

Lemma below_cases (x u : Node) :
  In u (PreOrder x) -> u = x \/ In u (flat_map PreOrder (Children x)).
Proof.
  rewrite (PreOrder_unfold x). intros [E|I]; [left; now symmetry|now right].
Qed.

Lemma strictly_below_trans (x w u : Node) :
  In w (flat_map PreOrder (Children x)) -> In u (PreOrder w) ->
  In u (flat_map PreOrder (Children x)).
Proof.
  intros Iw Iu. apply in_flat_map in Iw. destruct Iw as (c & Ic & Iw).
  apply in_flat_map. exists c. split; [exact Ic|].
  now apply In_PreOrder_trans with w.
Qed.

Lemma child_strictly_below (x c : Node) :
  In c (Children x) -> In c (flat_map PreOrder (Children x)).
Proof.
  intros I. apply in_flat_map. exists c. split; [exact I|].
  apply In_PreOrder_self.
Qed.

Lemma apart_subtrees (a b u : Node) :
  (forall z, In z (leaf_ids a) -> In z (leaf_ids b) -> False) ->
  In u (PreOrder a) -> In u (PreOrder b) -> False.
Proof.
  intros D Ia Ib. destruct (some_leaf u) as [z Z].
  apply (D z); [now apply (leaf_ids_subnode _ _ Ia)
               |now apply (leaf_ids_subnode _ _ Ib)].
Qed.

Section Positions.
Variable N : nat.
Variable t : Node.
Hypothesis U : unrooted N t.

Lemma rootsplit_nodes_PreOrder (u : Node) :
  In u (rootsplit_nodes t) -> In u (PreOrder t).
Proof. intros I. rewrite (PreOrder_unfold t). right. exact I. Qed.

Lemma rootsplit_nodes_below (p u : Node) :
  In p (rootsplit_nodes t) -> In u (PreOrder p) -> In u (rootsplit_nodes t).
Proof. apply strictly_below_trans. Qed.

Lemma rootsplit_nodes_bifurcating (u : Node) :
  In u (rootsplit_nodes t) -> bifurcating u = true.
Proof. intros I. now destruct (rootsplit_nodes_inside u U I). Qed.

Lemma rotation_children (n0 n1 n2 k : Node) :
  root_rotation t n0 n1 n2 ->
  In k (Children t) <-> k = n0 \/ k = n1 \/ k = n2.
Proof.
  intros [E|[E|E]]; rewrite E; cbn [In]; intuition congruence.
Qed.

Lemma root_child_rotation (k : Node) :
  In k (Children t) -> exists n0 n1, root_rotation t n0 n1 k.
Proof.
  destruct (u_shape U) as (c0 & c1 & c2 & E & _). rewrite E.
  unfold root_rotation. rewrite E.
  intros [<-|[<-|[<-|[]]]]; [exists c1, c2|exists c2, c0|exists c0, c1]; auto.
Qed.

Lemma node_position (u : Node) :
  In u (rootsplit_nodes t) ->
  (exists n0 n1, root_rotation t n0 n1 u)
  \/ (exists p s, internal_triple t p s u).
Proof.
  intros I. pose proof I as I'. unfold rootsplit_nodes in I.
  apply in_flat_map in I. destruct I as (k & Ik & Iu).
  destruct (parent_below _ _ Iu) as [->|(p & Ip & Ic)].
  - left. now apply root_child_rotation.
  - right. assert (Rp : In p (rootsplit_nodes t)).
    { apply in_flat_map. exists k. auto. }
    destruct (two_children _ _ (rootsplit_nodes_bifurcating _ Rp) Ic)
      as [s E].
    exists p, s. split; assumption.
Qed.

Lemma triple_facts (p s v : Node) :
  internal_triple t p s v ->
  In p (rootsplit_nodes t) /\ In s (rootsplit_nodes t)
  /\ In v (rootsplit_nodes t)
  /\ In s (Children p) /\ In v (Children p)
  /\ (forall z, In z (leaf_ids s) -> In z (leaf_ids v) -> False)
  /\ (forall u, In u (PreOrder p)
                <-> u = p \/ In u (PreOrder s) \/ In u (PreOrder v)).
Proof.
  intros [Ip E]. pose proof (rootsplit_nodes_inside p U Ip) as Hp.
  assert (Is : In s (Children p)) by (destruct E as [-> | ->]; cbn; auto).
  assert (Iv : In v (Children p)) by (destruct E as [-> | ->]; cbn; auto).
  split; [exact Ip|].
  split; [now apply rootsplit_nodes_child with p|].
  split; [now apply rootsplit_nodes_child with p|].
  split; [exact Is|]. split; [exact Iv|]. split.
  - destruct E as [E|E];
      destruct (kid_facts Hp E) as (_ & _ & D & _); intros z Zs Zv;
      eapply D; eauto.
  - intros u. rewrite (PreOrder_unfold p).
    destruct E as [-> | ->]; cbn [flat_map In]; rewrite app_nil_r, in_app_iff;
      intuition congruence.
Qed.

Lemma unique_parent_below (p q v : Node) :
  In p (rootsplit_nodes t) -> In q (rootsplit_nodes t) ->
  In v (Children p) -> In v (Children q) ->
  In p (PreOrder q) -> p = q.
Proof.
  intros Rp Rq Vp Vq I.
  destruct (below_cases _ _ I) as [E|B]; [exact E|]. exfalso.
  apply in_flat_map in B. destruct B as (k & Ik & Ipk).
  destruct (two_children _ _ (rootsplit_nodes_bifurcating _ Rq) Vq)
    as [s E].
  assert (T : internal_triple t q s v) by (split; assumption).
  destruct (triple_facts T) as (_ & _ & _ & _ & _ & D & _).
  assert (Ivp : In v (PreOrder p)) by now apply In_PreOrder_children.
  assert (Ks : k = v \/ k = s).
  { destruct E as [E|E]; rewrite E in Ik; cbn in Ik; intuition. }
  destruct Ks as [-> | ->].
  - apply (not_below_itself p v); [now apply child_strictly_below|].
    exact Ipk.
  - apply (apart_subtrees s v v D); [|apply In_PreOrder_self].
    now apply In_PreOrder_trans with p.
Qed.

Lemma unique_parent (p q v : Node) :
  In p (rootsplit_nodes t) -> In q (rootsplit_nodes t) ->
  In v (Children p) -> In v (Children q) -> p = q.
Proof.
  intros Rp Rq Vp Vq. destruct (some_leaf v) as [z Z].
  destruct (laminar t (u_nodup U) p q z) as [I|I].
  - now apply rootsplit_nodes_PreOrder.
  - now apply rootsplit_nodes_PreOrder.
  - apply (leaf_ids_subnode p v (In_PreOrder_children p v Vp)). exact Z.
  - apply (leaf_ids_subnode q v (In_PreOrder_children q v Vq)). exact Z.
  - now apply unique_parent_below with v.
  - symmetry. now apply unique_parent_below with v.
Qed.

Lemma root_child_top (n0 n1 n2 p : Node) :
  root_rotation t n0 n1 n2 -> In p (rootsplit_nodes t) ->
  In n2 (flat_map PreOrder (Children p)) -> False.
Proof.
  intros R Rp B. pose proof Rp as Rp'. unfold rootsplit_nodes in Rp'.
  apply in_flat_map in Rp'. destruct Rp' as (k & Ik & Ip).
  destruct (rotation_facts U R) as (_ & _ & _ & _ & D02 & D12 & _).
  apply (rotation_children k R) in Ik.
  assert (I2 : In n2 (PreOrder k)).
  { apply In_PreOrder_trans with p; [exact Ip|now apply strictly_below]. }
  destruct Ik as [->|[->| ->]].
  - apply (apart_subtrees n0 n2 n2 D02); [exact I2|apply In_PreOrder_self].
  - apply (apart_subtrees n1 n2 n2 D12); [exact I2|apply In_PreOrder_self].
  - now apply (not_below_itself p n2).
Qed.

Lemma triple_not_root (n0 n1 n2 p s : Node) :
  root_rotation t n0 n1 n2 -> internal_triple t p s n2 -> False.
Proof.
  intros R T. destruct (triple_facts T) as (Rp & _ & _ & _ & Iv & _).
  eapply root_child_top; [exact R|exact Rp|]. now apply child_strictly_below.
Qed.

Lemma rotation_distinct (n0 n1 n2 : Node) :
  root_rotation t n0 n1 n2 -> n0 <> n1 /\ n0 <> n2 /\ n1 <> n2.
Proof.
  intros R. destruct (rotation_facts U R) as (_ & _ & _ & D01 & D02 & D12 & _).
  repeat split; intros ->.
  - destruct (some_leaf n1) as [z Z]. now apply (D01 z).
  - destruct (some_leaf n2) as [z Z]. now apply (D02 z).
  - destruct (some_leaf n2) as [z Z]. now apply (D12 z).
Qed.

Lemma rotation_unique (n0 n1 n2 x y : Node) :
  root_rotation t n0 n1 n2 -> root_rotation t x y n2 -> x = n0 /\ y = n1.
Proof.
  intros R R'. destruct (rotation_distinct R) as (D01 & D02 & D12).
  destruct R as [E|[E|E]], R' as [E'|[E'|E']]; rewrite E in E';
    inversion E'; subst; first [now split|exfalso; congruence|tauto].
Qed.

Lemma triple_unique (p s v p' s' : Node) :
  internal_triple t p s v -> internal_triple t p' s' v -> p' = p /\ s' = s.
Proof.
  intros T T'. destruct (triple_facts T) as (Rp & _ & _ & _ & Iv & _).
  destruct (triple_facts T') as (Rp' & _ & _ & _ & Iv' & _).
  pose proof (unique_parent p' p v Rp' Rp Iv' Iv) as ->. split; [reflexivity|].
  destruct T as [_ E], T' as [_ E'].
  destruct E as [E|E], E' as [E'|E']; rewrite E in E'; inversion E';
    congruence.
Qed.

Lemma triple_distinct (p s v : Node) :
  internal_triple t p s v -> s <> v /\ p <> v /\ p <> s.
Proof.
  intros T. destruct (triple_facts T) as (_ & _ & _ & Is & Iv & D & _).
  repeat split; intros E.
  - subst s. destruct (some_leaf v) as [z Z]. now apply (D z).
  - subst p. apply (not_below_itself v v);
      [now apply child_strictly_below|apply In_PreOrder_self].
  - subst p. apply (not_below_itself s s);
      [now apply child_strictly_below|apply In_PreOrder_self].
Qed.

(** The parent of a node strictly below [above] is [above] or lies
    strictly below it. *)
Lemma step_up (n above v : Node) :
  In n (rootsplit_nodes t) -> In above (rootsplit_nodes t) ->
  In v (Children n) -> In v (flat_map PreOrder (Children above)) ->
  n = above \/ In n (flat_map PreOrder (Children above)).
Proof.
  intros Rn Ra Vn B. apply in_flat_map in B. destruct B as (k & Ik & Iv).
  destruct (parent_below _ _ Iv) as [->|(q & Iq & Vq)].
  - left. now apply unique_parent with k.
  - right. assert (Rq : In q (rootsplit_nodes t)).
    { apply rootsplit_nodes_below with above; [exact Ra|].
      apply In_PreOrder_trans with k; [|exact Iq].
      now apply In_PreOrder_children. }
    rewrite (unique_parent n q v Rn Rq Vn Vq).
    apply in_flat_map. exists k. auto.
Qed.
End Positions.

(* ================================================================== *)
(** * The calls of [PCSSPreOrder], by kind *)

Section CallKinds.
Variable N : nat.
Variable t : Node.
Hypothesis U : unrooted N t.

(** A call of [PCSSPreOrder] is of one of five kinds: for the edge above
    a node, pointing up or pointing down; for two sister nodes; for a
    node under the flipped clade of its parent; for a child of a node
    next to the flipped clade of that node. *)
Lemma call_kinds (c : PCSSCall) :
  In c (calls_of (PCSSPreOrder t)) ->
  (sister_node c = focal_node c
   /\ sister_direction c = false /\ focal_direction c = true
   /\ exists x dx y dy,
       neighbours t (focal_node c) x dx y dy
       /\ pcss_child N c = Bitset_min (chunk N x dx) (chunk N y dy))
  \/ (sister_node c = focal_node c
      /\ sister_direction c = true /\ focal_direction c = false
      /\ In (focal_node c) (rootsplit_nodes t)
      /\ exists ch0 ch1,
          Children (focal_node c) = [ch0; ch1]
          /\ pcss_child N c
             = Bitset_min (chunk N ch0 false) (chunk N ch1 false))
  \/ (sister_direction c = false /\ focal_direction c = false
      /\ siblings t (sister_node c) (focal_node c)
      /\ exists ch0 ch1,
          Children (focal_node c) = [ch0; ch1]
          /\ pcss_child N c
             = Bitset_min (chunk N ch0 false) (chunk N ch1 false))
  \/ (sister_direction c = true /\ focal_direction c = false
      /\ (exists s, internal_triple t (sister_node c) s (focal_node c))
      /\ exists ch0 ch1,
          Children (focal_node c) = [ch0; ch1]
          /\ pcss_child N c
             = Bitset_min (chunk N ch0 false) (chunk N ch1 false))
  \/ (sister_direction c = false /\ focal_direction c = true
      /\ In (sister_node c) (Children (focal_node c))
      /\ In (focal_node c) (rootsplit_nodes t)
      /\ exists x dx y dy,
          neighbours t (focal_node c) x dx y dy
          /\ pcss_child N c = Bitset_min (chunk N x dx) (chunk N y dy)).
Proof.
  intros I. apply (PCSSPreOrder_calls U) in I.
  destruct I as [(n0 & n1 & n2 & R & I)|(p & s & n & T & I)].
  - assert (Nb : neighbours t n2 n0 false n1 false) by (left; auto).
    assert (R2 : In n2 (rootsplit_nodes t)) by apply (rotation_facts U R).
    unfold PCSS_f_root in I.
    destruct (Children n2) as [|a [|b [|]]] eqn:E; cbn in I;
      try contradiction.
    + destruct I as [<-|[]]. left. cbn. repeat split.
      exists n0, false, n1, false. auto.
    + destruct I as [<-|[<-|[<-|[<-|[<-|[<-|[]]]]]]]; cbn.
      * left. repeat split. exists n0, false, n1, false. auto.
      * right. right. left. repeat split.
        -- left. exists n1. now left.
        -- exists a, b. auto.
      * right. right. left. repeat split.
        -- left. exists n0. now right.
        -- exists a, b. auto.
      * right. left. repeat split; [exact R2|]. exists a, b. auto.
      * right. right. right. right. rewrite E. repeat split;
          [cbn; auto|exact R2|]. exists n0, false, n1, false. auto.
      * right. right. right. right. rewrite E. repeat split;
          [cbn; auto|exact R2|]. exists n0, false, n1, false. auto.
  - assert (Nb : neighbours t n p true s false) by (right; auto).
    assert (Rn : In n (rootsplit_nodes t)) by apply (triple_facts U T).
    unfold PCSS_f_internal in I.
    destruct (Children n) as [|a [|b [|]]] eqn:E; cbn in I;
      try contradiction.
    + destruct I as [<-|[]]. left. cbn. repeat split.
      exists p, true, s, false. auto.
    + destruct I as [<-|[<-|[<-|[<-|[<-|[<-|[]]]]]]]; cbn.
      * left. repeat split. exists p, true, s, false. auto.
      * right. right. left. repeat split.
        -- right. exists p. exact T.
        -- exists a, b. auto.
      * right. right. right. left. repeat split.
        -- exists s. exact T.
        -- exists a, b. auto.
      * right. left. repeat split; [exact Rn|]. exists a, b. auto.
      * right. right. right. right. rewrite E. repeat split;
          [cbn; auto|exact Rn|]. exists p, true, s, false.
        split; [exact Nb|]. apply Bitset_min_comm.
      * right. right. right. right. rewrite E. repeat split;
          [cbn; auto|exact Rn|]. exists p, true, s, false.
        split; [exact Nb|]. apply Bitset_min_comm.
Qed.

Lemma up_call (n : Node) :
  In n (rootsplit_nodes t) ->
  exists c,
    In c (calls_of (PCSSPreOrder t))
    /\ sister_node c = n /\ focal_node c = n
    /\ sister_direction c = false /\ focal_direction c = true.
Proof.
  intros Rn. destruct (node_position U n Rn) as [(n0 & n1 & R)|(p & s & T)].
  - exists (mkPCSSCall n false n true n0 false n1 false). cbn.
    split; [|auto]. apply (PCSSPreOrder_calls U). left. exists n0, n1, n.
    split; [exact R|]. unfold PCSS_f_root.
    pose proof (rootsplit_nodes_bifurcating U n Rn) as B.
    destruct n as [[|a [|b [|]]] idx tag h]; cbn in B |- *;
      try discriminate; auto.
  - exists (mkPCSSCall n false n true p true s false). cbn.
    split; [|auto]. apply (PCSSPreOrder_calls U). right. exists p, s, n.
    split; [exact T|]. unfold PCSS_f_internal.
    pose proof (rootsplit_nodes_bifurcating U n Rn) as B.
    destruct n as [[|a [|b [|]]] idx tag h]; cbn in B |- *;
      try discriminate; auto.
Qed.

Lemma down_call (n ch0 ch1 : Node) :
  In n (rootsplit_nodes t) -> Children n = [ch0; ch1] ->
  In (mkPCSSCall n true n false ch0 false ch1 false)
     (calls_of (PCSSPreOrder t)).
Proof.
  intros Rn E. apply (PCSSPreOrder_calls U).
  destruct (node_position U n Rn) as [(n0 & n1 & R)|(p & s & T)].
  - left. exists n0, n1, n. split; [exact R|]. unfold PCSS_f_root.
    rewrite E. cbn. auto 10.
  - right. exists p, s, n. split; [exact T|]. unfold PCSS_f_internal.
    rewrite E. cbn. auto 10.
Qed.

Lemma sibling_call (s d ch0 ch1 : Node) :
  siblings t s d -> Children d = [ch0; ch1] ->
  In (mkPCSSCall s false d false ch0 false ch1 false)
     (calls_of (PCSSPreOrder t)).
Proof.
  intros S E. apply (PCSSPreOrder_calls U).
  destruct S as [(m & [R|R])|(p & T)].
  - left. exists s, m, d. split; [exact R|]. unfold PCSS_f_root.
    rewrite E. cbn. auto 10.
  - left. exists m, s, d. split; [exact R|]. unfold PCSS_f_root.
    rewrite E. cbn. auto 10.
  - right. exists p, s, d. split; [exact T|]. unfold PCSS_f_internal.
    rewrite E. cbn. auto 10.
Qed.

Lemma parent_call (p s d ch0 ch1 : Node) :
  internal_triple t p s d -> Children d = [ch0; ch1] ->
  In (mkPCSSCall p true d false ch0 false ch1 false)
     (calls_of (PCSSPreOrder t)).
Proof.
  intros T E. apply (PCSSPreOrder_calls U). right. exists p, s, d.
  split; [exact T|]. unfold PCSS_f_internal. rewrite E. cbn. auto 10.
Qed.

Lemma child_call (n j : Node) :
  In n (rootsplit_nodes t) -> In j (Children n) ->
  exists c,
    In c (calls_of (PCSSPreOrder t))
    /\ sister_node c = j /\ focal_node c = n
    /\ sister_direction c = false /\ focal_direction c = true.
Proof.
  intros Rn Ij.
  destruct (two_children n j (rootsplit_nodes_bifurcating U n Rn) Ij)
    as [k E].
  destruct (node_position U n Rn) as [(n0 & n1 & R)|(p & s & T)].
  - exists (mkPCSSCall j false n true n0 false n1 false). cbn.
    split; [|auto]. apply (PCSSPreOrder_calls U). left. exists n0, n1, n.
    split; [exact R|]. unfold PCSS_f_root.
    destruct E as [-> | ->]; cbn; auto 10.
  - exists (mkPCSSCall j false n true s false p true). cbn.
    split; [|auto]. apply (PCSSPreOrder_calls U). right. exists p, s, n.
    split; [exact T|]. unfold PCSS_f_internal.
    destruct E as [-> | ->]; cbn; auto 10.
Qed.

Lemma siblings_facts (s d : Node) :
  siblings t s d ->
  s <> d /\ In s (rootsplit_nodes t) /\ In d (rootsplit_nodes t)
  /\ (forall u, In u (PreOrder s) -> In u (PreOrder d) -> False).
Proof.
  intros [(m & [R|R])|(p & T)].
  - destruct (rotation_facts U R) as (_ & _ & _ & _ & D & _ & _ & I0 & _ & I2).
    destruct (rotation_distinct U R) as (_ & D' & _).
    repeat split; auto. intros u. now apply apart_subtrees.
  - destruct (rotation_facts U R) as (_ & _ & _ & _ & _ & D & _ & _ & I1 & I2).
    destruct (rotation_distinct U R) as (_ & _ & D').
    repeat split; auto. intros u. now apply apart_subtrees.
  - destruct (triple_facts U T) as (_ & Is & Id & _ & _ & D & _).
    destruct (triple_distinct U T) as (D' & _).
    repeat split; auto. intros u. now apply apart_subtrees.
Qed.

(** The neighbours of a node are the same in every call. *)
Lemma neighbours_unique (n x y x' y' : Node) (dx dy dx' dy' : bool) :
  neighbours t n x dx y dy -> neighbours t n x' dx' y' dy' ->
  x' = x /\ dx' = dx /\ y' = y /\ dy' = dy.
Proof.
  intros [(R & -> & ->)|(T & -> & ->)] [(R' & -> & ->)|(T' & -> & ->)].
  - destruct (rotation_unique U R R') as [-> ->]. auto.
  - exfalso. eapply triple_not_root; eauto.
  - exfalso. eapply triple_not_root; eauto.
  - destruct (triple_unique U T T') as [-> ->]. auto.
Qed.
End CallKinds.

(* ================================================================== *)
(** * What a rooted view holds *)

Lemma view_below_fork (f : Node -> Bitset) (n c0 c1 : Node) :
  Children n = [c0; c1] ->
  view_below f n = VNode (f n) (view_below f c0) (view_below f c1).
Proof. destruct n as [cs idx tag h]. cbn [Children]. now intros ->. Qed.

Lemma view_below_clade_of (f : Node -> Bitset) (n : Node) :
  view_clade (view_below f n) = f n.
Proof. destruct n as [[|a [|b [|c cs]]] idx tag h]; reflexivity. Qed.

Lemma view_pcss_fork (sister : RootedView) (c : Bitset) (x y : RootedView) :
  view_pcss sister (VNode c x y)
  = (view_clade sister ++ c ++ Bitset_min (view_clade x) (view_clade y))
      :: view_inner (VNode c x y).
Proof. reflexivity. Qed.

Lemma view_inner_incl (sister focal : RootedView) :
  incl (view_inner focal) (view_pcss sister focal).
Proof.
  destruct focal as [c|c x y]; [intros k []|].
  rewrite view_pcss_fork. intros k I. now right.
Qed.

Lemma or_of_divides (f x y : Bitset) : divides f x y -> Bitset_or x y = f.
Proof.
  intros (Lx & Ly & H & _). apply bits_ext.
  - now rewrite Bitset_or_length.
  - intros i Li. rewrite Bitset_or_length, Lx in Li.
    rewrite has_or by congruence. symmetry. now apply H.
Qed.

Lemma key_of (N : nat) (c : PCSSCall) (s f : Node) (sd fd : bool)
      (ch : Bitset) :
  sister_node c = s -> sister_direction c = sd ->
  focal_node c = f -> focal_direction c = fd ->
  pcss_child N c = ch ->
  pcss_key N c = chunk N s sd ++ chunk N f fd ++ ch.
Proof.
  intros <- <- <- <- <-. unfold pcss_key, pcss_parent.
  now rewrite <- app_assoc.
Qed.

Section ViewsOfOneTopology.
Variable N : nat.
Variable t : Node.
Hypothesis U : unrooted N t.

Lemma sibling_within_below (m m' : Node) (c : PCSSCall) :
  In m' (PreOrder m) -> sibling_within m' c -> sibling_within m c.
Proof.
  intros I (F1 & F2 & p & Ip & E). split; [exact F1|]. split; [exact F2|].
  exists p. split; [|exact E]. now apply In_PreOrder_trans with m'.
Qed.

(** The two nodes of a call for sisters at or below [m], seen from [m]
    and from outside the subtree of [m]. *)
Lemma sibling_within_nodes (m : Node) (c : PCSSCall) :
  In m (rootsplit_nodes t) -> sibling_within m c ->
  sister_node c <> focal_node c
  /\ In (sister_node c) (flat_map PreOrder (Children m))
  /\ In (focal_node c) (flat_map PreOrder (Children m)).
Proof.
  intros Rm (_ & _ & p & Ip & E).
  assert (T : internal_triple t p (sister_node c) (focal_node c)).
  { split; [now apply rootsplit_nodes_below with m|exact E]. }
  destruct (triple_facts U T) as (_ & _ & _ & Is & If & _).
  destruct (triple_distinct U T) as (D & _). split; [exact D|].
  assert (B : forall k, In k (Children p) ->
                        In k (flat_map PreOrder (Children m))).
  { intros k Ik. destruct (below_cases _ _ Ip) as [->|Ip'].
    - now apply child_strictly_below.
    - apply strictly_below_trans with p; [exact Ip'|].
      now apply In_PreOrder_children. }
  split; now apply B.
Qed.

Lemma sibling_within_top (m : Node) (c : PCSSCall) :
  In m (rootsplit_nodes t) -> sibling_within m c -> rooting_sees m c.
Proof.
  intros Rm W. destruct (sibling_within_nodes Rm W) as (D & Bs & Bf).
  destruct W as (F1 & F2 & _). right. split; [exact D|].
  rewrite F1, F2. cbn [beyond]. split; intros I.
  - now apply (not_below_itself _ _ Bs).
  - now apply (not_below_itself _ _ Bf).
Qed.

Lemma sibling_within_outside (m u : Node) (c : PCSSCall) :
  In m (rootsplit_nodes t) -> sibling_within m c ->
  (In u (PreOrder m) -> False) -> rooting_sees u c.
Proof.
  intros Rm W O. destruct (sibling_within_nodes Rm W) as (D & Bs & Bf).
  destruct W as (F1 & F2 & _). right. split; [exact D|].
  rewrite F1, F2. cbn [beyond]. split; intros I; apply O.
  - apply In_PreOrder_trans with (sister_node c); [|exact I].
    now apply strictly_below.
  - apply In_PreOrder_trans with (focal_node c); [|exact I].
    now apply strictly_below.
Qed.

(** The keys at and below a node of the topology, under any sister. *)
Lemma view_pcss_below_sound (d : Node) :
  forall (sister : RootedView) (key : Bitset),
    In d (rootsplit_nodes t) ->
    In key (view_pcss sister (view_below (clade N) d)) ->
    (exists ch0 ch1,
        Children d = [ch0; ch1]
        /\ key = view_clade sister ++ chunk N d false
                 ++ Bitset_min (chunk N ch0 false) (chunk N ch1 false))
    \/ exists c,
        In c (calls_of (PCSSPreOrder t)) /\ key = pcss_key N c
        /\ sibling_within d c.
Proof.
  induction d as [cs idx tag h IH] using Node_ind. intros sister key Rd I.
  destruct cs as [|d0 [|d1 [|]]]; try (cbn in I; contradiction).
  remember (MkNode [d0; d1] idx tag h) as d eqn:Ed.
  assert (Cd : Children d = [d0; d1]) by now subst d.
  rewrite (view_below_fork (clade N) d Cd), view_pcss_fork in I.
  inversion IH as [|? ? IH0 IH']; subst x l.
  inversion IH' as [|? ? IH1 _]; subst x l. clear IH IH'.
  assert (R0 : In d0 (rootsplit_nodes t)).
  { apply rootsplit_nodes_child with d; [exact Rd|rewrite Cd; cbn; auto]. }
  assert (R1 : In d1 (rootsplit_nodes t)).
  { apply rootsplit_nodes_child with d; [exact Rd|rewrite Cd; cbn; auto]. }
  destruct I as [<-|I].
  - left. exists d0, d1. split; [exact Cd|].
    now rewrite !view_below_clade_of.
  - right. cbn [view_inner] in I. apply in_app_iff in I.
    assert (H : forall v s (IHv : forall sister key,
                   In v (rootsplit_nodes t) ->
                   In key (view_pcss sister (view_below (clade N) v)) ->
                   (exists ch0 ch1,
                       Children v = [ch0; ch1]
                       /\ key = view_clade sister ++ chunk N v false
                                ++ Bitset_min (chunk N ch0 false)
                                              (chunk N ch1 false))
                   \/ exists c,
                       In c (calls_of (PCSSPreOrder t))
                       /\ key = pcss_key N c /\ sibling_within v c),
               In v (rootsplit_nodes t) ->
               (Children d = [v; s] \/ Children d = [s; v]) ->
               In key (view_pcss (view_below (clade N) s)
                                 (view_below (clade N) v)) ->
               exists c,
                 In c (calls_of (PCSSPreOrder t)) /\ key = pcss_key N c
                 /\ sibling_within d c).
    { intros v s IHv Rv E Iv.
      assert (Ivd : In v (PreOrder d)).
      { apply In_PreOrder_children.
        destruct E as [E|E]; rewrite E; cbn; auto. }
      destruct (IHv _ _ Rv Iv) as [(ch0 & ch1 & Cv & ->)|(c & Ic & -> & W)].
      - exists (mkPCSSCall s false v false ch0 false ch1 false).
        split; [|split].
        + apply (sibling_call U); [|exact Cv]. right. exists d.
          split; assumption.
        + rewrite view_below_clade_of.
          exact (eq_sym (key_of N (mkPCSSCall s false v false ch0 false
                                              ch1 false)
                                eq_refl eq_refl eq_refl eq_refl eq_refl)).
        + split; [reflexivity|]. split; [reflexivity|]. exists d.
          split; [apply In_PreOrder_self|exact E].
      - exists c. split; [exact Ic|]. split; [reflexivity|].
        now apply sibling_within_below with v. }
    destruct I as [I|I].
    + apply (H d0 d1 IH0 R0); [left; exact Cd|exact I].
    + apply (H d1 d0 IH1 R1); [right; exact Cd|exact I].
Qed.

Lemma view_pcss_below_has (d : Node) :
  bifurcating d = true ->
  forall (sister : RootedView) (p s f ch0 ch1 : Node),
    In p (PreOrder d) ->
    Children p = [f; s] \/ Children p = [s; f] ->
    Children f = [ch0; ch1] ->
    In (chunk N s false ++ chunk N f false
        ++ Bitset_min (chunk N ch0 false) (chunk N ch1 false))
       (view_pcss sister (view_below (clade N) d)).
Proof.
  induction d as [cs idx tag h IH] using Node_ind.
  intros B sister p s f ch0 ch1 Ip E Cf.
  assert (Top : In (chunk N s false ++ chunk N f false
                    ++ Bitset_min (chunk N ch0 false) (chunk N ch1 false))
                   (view_pcss (view_below (clade N) s)
                              (view_below (clade N) f))).
  { rewrite (view_below_fork (clade N) f Cf), view_pcss_fork.
    left. now rewrite !view_below_clade_of. }
  cbn in B. destruct cs as [|d0 [|d1 [|]]]; try discriminate.
  - destruct Ip as [<-|[]]. destruct E as [E|E]; discriminate E.
  - apply andb_true_iff in B. destruct B as [B0 B1].
    inversion IH as [|? ? IH0 IH']; subst x l.
    inversion IH' as [|? ? IH1 _]; subst x l. clear IH IH'.
    cbn [PreOrder flat_map] in Ip. rewrite app_nil_r in Ip.
    cbn [view_below view_pcss]. right. apply in_or_app.
    destruct Ip as [<-|Ip].
    + cbn [Children] in E.
      destruct E as [E|E]; injection E as <- <-; [left|right]; exact Top.
    + apply in_app_iff in Ip. destruct Ip as [Ip|Ip].
      * left. now apply (IH0 B0) with p.
      * right. now apply (IH1 B1) with p.
Qed.

Lemma view_pcss_below_complete (d : Node) (sister : RootedView)
      (c : PCSSCall) :
  In d (rootsplit_nodes t) -> In c (calls_of (PCSSPreOrder t)) ->
  sibling_within d c ->
  In (pcss_key N c) (view_pcss sister (view_below (clade N) d)).
Proof.
  intros Rd Ic (F1 & F2 & p & Ip & E).
  destruct (call_kinds U c Ic)
    as [(_ & _ & X & _)|[(_ & X & _)|[(_ & _ & _ & K)
                                     |[(X & _)|(_ & X & _)]]]];
    try congruence.
  destruct K as (ch0 & ch1 & Cf & Ec).
  rewrite (key_of N c eq_refl F1 eq_refl F2 Ec).
  apply view_pcss_below_has with p; try assumption.
  now apply rootsplit_nodes_bifurcating with N t.
Qed.

End ViewsOfOneTopology.

Section AboveViews.
Variable N : nat.
Variable t : Node.
Hypothesis U : unrooted N t.

Lemma focal_up_child (n x y : Node) (dx dy : bool) (c : PCSSCall) :
  neighbours t n x dx y dy ->
  In c (calls_of (PCSSPreOrder t)) ->
  focal_node c = n -> focal_direction c = true ->
  pcss_child N c = Bitset_min (chunk N x dx) (chunk N y dy).
Proof.
  intros Nb Ic Ef Ed.
  destruct (call_kinds U c Ic)
    as [(_ & _ & _ & K)|[(_ & _ & X & _)|[(_ & X & _)
                                         |[(_ & X & _)|(_ & _ & _ & _ & K)]]]];
    try congruence;
    destruct K as (x' & dx' & y' & dy' & Nb' & ->); rewrite Ef in Nb';
    destruct (neighbours_unique U Nb Nb') as (-> & -> & -> & ->);
    reflexivity.
Qed.

(** The view above a child of the root. *)
Lemma above_ok_root (n0 n1 n2 x y : Node) :
  root_rotation t n0 n1 n2 ->
  (x = n0 /\ y = n1) \/ (x = n1 /\ y = n0) ->
  above_ok N t n2 (view_join (view_below (clade N) x)
                             (view_below (clade N) y)).
Proof.
  intros R XY.
  destruct (rotation_facts U R)
    as (_ & _ & _ & D01 & D02 & D12 & _ & R0 & R1 & R2).
  destruct (rotation_distinct U R) as (N01 & N02 & N12).
  destruct (root_rotation_cycle R) as (Rc1 & Rc2).
  assert (S01 : siblings t n0 n1) by (left; exists n2; now right).
  assert (S10 : siblings t n1 n0) by (left; exists n2; now left).
  assert (A0 : forall u, In u (PreOrder n2) -> In u (PreOrder n0) -> False).
  { intros u I2 I0. exact (apart_subtrees n0 n2 u D02 I0 I2). }
  assert (A1 : forall u, In u (PreOrder n2) -> In u (PreOrder n1) -> False).
  { intros u I2 I1. exact (apart_subtrees n1 n2 u D12 I1 I2). }
  assert (Nb : neighbours t n2 n0 false n1 false) by (left; auto).
  assert (Ej : view_join (view_below (clade N) x) (view_below (clade N) y)
               = VNode (chunk N n2 true) (view_below (clade N) x)
                       (view_below (clade N) y)).
  { unfold view_join. f_equal. rewrite !view_below_clade_of.
    apply or_of_divides. destruct (root_pair U R) as [Dv _].
    destruct XY as [[-> ->]|[-> ->]]; [exact Dv|now apply divides_sym]. }
  assert (Sound : forall f s key,
             In f (rootsplit_nodes t) -> siblings t s f -> s <> f ->
             (forall u, In u (PreOrder n2) -> In u (PreOrder f) -> False) ->
             (forall u, In u (PreOrder n2) -> In u (PreOrder s) -> False) ->
             In key (view_pcss (view_below (clade N) s)
                               (view_below (clade N) f)) ->
             exists c,
               In c (calls_of (PCSSPreOrder t)) /\ key = pcss_key N c
               /\ forall u, In u (PreOrder n2) -> rooting_sees u c).
  { intros f s key Rf Sf Nsf Df Ds Ik.
    destruct (view_pcss_below_sound U f _ key Rf Ik)
      as [(ch0 & ch1 & Cf & ->)|(c & Ic & -> & W)].
    - exists (mkPCSSCall s false f false ch0 false ch1 false).
      split; [now apply (sibling_call U)|]. split.
      + rewrite view_below_clade_of.
        exact (eq_sym (key_of N (mkPCSSCall s false f false ch0 false
                                            ch1 false)
                              eq_refl eq_refl eq_refl eq_refl eq_refl)).
      + intros u Iu. right. cbn. split; [exact Nsf|].
        split; intros I'; eauto.
    - exists c. split; [exact Ic|]. split; [reflexivity|]. intros u Iu.
      apply (sibling_within_outside U u Rf W). intros I'. eapply Df; eauto. }
  split; [exact R2|].
  exists (view_below (clade N) x), (view_below (clade N) y).
  split; [exact Ej|]. split; [|split].
  - intros c Ic Ef Ed.
    rewrite (@focal_up_child n2 n0 n1 false false c Nb Ic Ef Ed).
    rewrite !view_below_clade_of.
    destruct XY as [[-> ->]|[-> ->]]; [reflexivity|apply Bitset_min_comm].
  - intros key I. rewrite Ej in I. cbn [view_inner] in I.
    apply in_app_iff in I.
    destruct XY as [[-> ->]|[-> ->]]; destruct I as [I|I].
    + apply (Sound n0 n1 key); auto.
    + apply (Sound n1 n0 key); auto.
    + apply (Sound n1 n0 key); auto.
    + apply (Sound n0 n1 key); auto.
  - intros c Ic Dc Sees.
    destruct Sees as [[Esf _]|(_ & Bs & Bf)]; [contradiction|]. rewrite Ej.
    destruct (call_kinds U c Ic)
      as [(Esf & _)|[(Esf & _)|[(Fs & Ff & Sib & K)
                               |[(Fs & Ff & (s' & Tp) & K)
                                |(Fs & Ff & Ich & Rf & K)]]]];
      try contradiction.
    + rewrite Fs in Bs. rewrite Ff in Bf. cbn [beyond] in Bs, Bf.
      destruct K as (ch0 & ch1 & Cf & Ec).
      pose proof (key_of N c eq_refl Fs eq_refl Ff Ec) as Ek.
      assert (Top : In (pcss_key N c)
                       (view_pcss (view_below (clade N) (sister_node c))
                                  (view_below (clade N) (focal_node c)))).
      { rewrite Ek, (view_below_fork (clade N) _ Cf), view_pcss_fork.
        left. now rewrite !view_below_clade_of. }
      destruct Sib as [(m & Rm)|(p & Tp)].
      * assert (HS : In (sister_node c) (Children t)).
        { destruct Rm as [Rm|Rm]; apply (rotation_children _ Rm); auto. }
        assert (HF : In (focal_node c) (Children t)).
        { destruct Rm as [Rm|Rm]; apply (rotation_children _ Rm); auto. }
        apply (rotation_children _ R) in HS, HF.
        assert (S2 : sister_node c <> n2).
        { intros E. apply Bs. rewrite E. apply In_PreOrder_self. }
        assert (F2 : focal_node c <> n2).
        { intros E. apply Bf. rewrite E. apply In_PreOrder_self. }
        left. cbn [view_inner]. apply in_or_app.
        destruct HS as [HS|[HS|HS]]; [| |contradiction];
          destruct HF as [HF|[HF|HF]]; try contradiction;
          try (exfalso; congruence);
          rewrite HS, HF in Top;
          destruct XY as [[-> ->]|[-> ->]]; auto.
      * destruct (triple_facts U Tp) as (Rp & _).
        pose proof Rp as Rp'. unfold rootsplit_nodes in Rp'.
        apply in_flat_map in Rp'. destruct Rp' as (k & Ik & Ip).
        assert (W : sibling_within k c).
        { split; [exact Fs|]. split; [exact Ff|]. exists p.
          split; [exact Ip|apply Tp]. }
        apply (rotation_children k R) in Ik.
        destruct Ik as [->|[->| ->]]; [| |now right]; left;
          cbn [view_inner]; apply in_or_app;
          destruct XY as [[-> ->]|[-> ->]];
          first [ left; now apply (view_pcss_below_complete U)
                | right; now apply (view_pcss_below_complete U) ].
    + exfalso. rewrite Fs in Bs. cbn [beyond] in Bs.
      destruct (triple_facts U Tp) as (Rp & _).
      exact (root_child_top U _ R Rp Bs).
    + exfalso. rewrite Ff in Bf. cbn [beyond] in Bf.
      exact (root_child_top U _ R Rf Bf).
Qed.

(** The view above a child, from the view above its parent. *)
Lemma above_ok_step (n v s : Node) (a : RootedView) :
  above_ok N t n a ->
  Children n = [v; s] \/ Children n = [s; v] ->
  above_ok N t v (view_join a (view_below (clade N) s)).
Proof.
  intros (Rn & x & y & Ea & I2 & Snd & Cmp) E. subst a.
  set (a := VNode (chunk N n true) x y) in *.
  assert (T : internal_triple t n s v) by (split; assumption).
  assert (T' : internal_triple t n v s) by (split; [assumption|tauto]).
  destruct (triple_facts U T) as (_ & Rs & Rv & Is & Iv & D & Pn).
  destruct (triple_distinct U T) as (Dsv & Dnv & Dns).
  assert (Nb : neighbours t v n true s false) by (right; auto).
  assert (Ej : view_join a (view_below (clade N) s)
               = VNode (chunk N v true) a (view_below (clade N) s)).
  { unfold view_join. f_equal. rewrite view_below_clade_of.
    apply or_of_divides. apply (up_pair U T). }
  assert (Below : forall u,
             In u (PreOrder v) ->
             In u (flat_map PreOrder (Children n))
             /\ (In u (PreOrder s) -> False) /\ In u (PreOrder n)).
  { intros u Iu. split; [|split].
    - apply strictly_below_trans with v;
        [now apply child_strictly_below|exact Iu].
    - intros Ius. exact (apart_subtrees s v u D Ius Iu).
    - apply In_PreOrder_trans with v;
        [now apply In_PreOrder_children|exact Iu]. }
  assert (Up : forall w, In v (PreOrder w) -> In n (PreOrder w) ->
                         In v (PreOrder w)) by auto.
  assert (Trans : forall w, In n (PreOrder w) -> In v (PreOrder w)).
  { intros w I. apply In_PreOrder_trans with n; [exact I|].
    now apply In_PreOrder_children. }
  split; [exact Rv|]. exists a, (view_below (clade N) s).
  split; [exact Ej|]. split; [|split].
  - intros c Ic Ef Ed.
    rewrite (@focal_up_child v n s true false c Nb Ic Ef Ed).
    now rewrite view_below_clade_of.
  - intros key I. rewrite Ej in I. cbn [view_inner] in I.
    apply in_app_iff in I. destruct I as [I|I].
    + unfold a in I at 1. rewrite view_pcss_fork in I. fold a in I.
      destruct I as [<-|I].
      * destruct (child_call U n s Rn Is) as (c & Ic & Es & Ef & Esd & Efd).
        exists c. split; [exact Ic|]. split.
        -- rewrite (key_of N c Es Esd Ef Efd (I2 c Ic Ef Efd)).
           now rewrite view_below_clade_of.
        -- intros u Iu. destruct (Below u Iu) as (B1 & B2 & _). right.
           rewrite Es, Ef, Esd, Efd. split; [congruence|].
           split; cbn [beyond]; assumption.
      * destruct (Snd key I) as (c & Ic & Ek & Sees). exists c.
        split; [exact Ic|]. split; [exact Ek|]. intros u Iu. apply Sees.
        now apply Below.
    + destruct (view_pcss_below_sound U s a key Rs I)
        as [(ch0 & ch1 & Cs & ->)|(c & Ic & -> & W)].
      * exists (mkPCSSCall n true s false ch0 false ch1 false).
        split; [now apply (parent_call U T')|]. split.
        -- exact (eq_sym (key_of N (mkPCSSCall n true s false ch0 false
                                               ch1 false)
                                 eq_refl eq_refl eq_refl eq_refl eq_refl)).
        -- intros u Iu. destruct (Below u Iu) as (B1 & B2 & _). right. cbn.
           split; [exact Dns|]. split; assumption.
      * exists c. split; [exact Ic|]. split; [reflexivity|]. intros u Iu.
        apply (sibling_within_outside U u Rs W). now apply Below.
  - intros c Ic Dc Sees.
    destruct Sees as [[Esf _]|(_ & Bs & Bf)]; [contradiction|]. rewrite Ej.
    assert (FromN : rooting_sees n c ->
                    (sibling_within n c ->
                     In (pcss_key N c)
                        (view_inner (VNode (chunk N v true) a
                                           (view_below (clade N) s)))
                     \/ sibling_within v c) ->
                    In (pcss_key N c)
                       (view_inner (VNode (chunk N v true) a
                                          (view_below (clade N) s)))
                    \/ sibling_within v c).
    { intros Sn Hw. destruct (Cmp c Ic Dc Sn) as [Ik|W]; [|now apply Hw].
      left. cbn [view_inner]. apply in_or_app. left.
      now apply view_inner_incl. }
    destruct (call_kinds U c Ic)
      as [(Esf & _)|[(Esf & _)|[(Fs & Ff & Sib & K)
                               |[(Fs & Ff & (s' & Tp) & K)
                                |(Fs & Ff & Ich & Rf & K)]]]];
      try contradiction.
    + rewrite Fs in Bs. rewrite Ff in Bf. cbn [beyond] in Bs, Bf.
      apply FromN.
      * right. split; [exact Dc|]. rewrite Fs, Ff. cbn [beyond].
        split; intros I; [apply Bs|apply Bf]; now apply Trans.
      * intros W. pose proof W as (_ & _ & p & Ip & Ep).
        apply Pn in Ip. destruct Ip as [->|[Ip|Ip]].
        -- exfalso.
           assert (Hv : v = sister_node c \/ v = focal_node c).
           { destruct E as [E|E], Ep as [Ep|Ep]; rewrite E in Ep;
               inversion Ep; auto. }
           destruct Hv as [Hv|Hv]; [apply Bs|apply Bf]; rewrite <- Hv;
             apply In_PreOrder_self.
        -- left. cbn [view_inner]. apply in_or_app. right.
           apply (view_pcss_below_complete U a Rs Ic).
           split; [exact Fs|]. split; [exact Ff|]. exists p. auto.
        -- right. split; [exact Fs|]. split; [exact Ff|]. exists p. auto.
    + rewrite Fs in Bs. rewrite Ff in Bf. cbn [beyond] in Bs, Bf.
      destruct (triple_facts U Tp) as (Rp & _ & _ & _ & Ifc & _).
      destruct (step_up U n (sister_node c) v Rn Rp Iv Bs) as [En|Bn].
      * left. rewrite <- En in Ifc.
        assert (Efs : focal_node c = s).
        { destruct E as [E|E]; rewrite E in Ifc; cbn in Ifc;
            destruct Ifc as [H|[H|[]]]; try (symmetry; exact H);
            exfalso; apply Bf; rewrite <- H; apply In_PreOrder_self. }
        destruct K as (ch0 & ch1 & Cf & Ec). rewrite Efs in Cf.
        rewrite (key_of N c (eq_sym En) Fs Efs Ff Ec).
        cbn [view_inner]. apply in_or_app. right.
        rewrite (view_below_fork (clade N) s Cf), view_pcss_fork. left.
        now rewrite !view_below_clade_of.
      * apply FromN.
        -- right. split; [exact Dc|]. rewrite Fs, Ff. cbn [beyond].
           split; [exact Bn|]. intros I. apply Bf. now apply Trans.
        -- intros (F1 & _). congruence.
    + rewrite Fs in Bs. rewrite Ff in Bf. cbn [beyond] in Bs, Bf.
      destruct (step_up U n (focal_node c) v Rn Rf Iv Bf) as [En|Bn].
      * left. rewrite <- En in Ich.
        assert (Ess : sister_node c = s).
        { destruct E as [E|E]; rewrite E in Ich; cbn in Ich;
            destruct Ich as [H|[H|[]]]; try (symmetry; exact H);
            exfalso; apply Bs; rewrite <- H; apply In_PreOrder_self. }
        rewrite (key_of N c Ess Fs (eq_sym En) Ff
                        (I2 c Ic (eq_sym En) Ff)).
        cbn [view_inner]. apply in_or_app. left.
        unfold a at 1. rewrite view_pcss_fork. left.
        now rewrite view_below_clade_of.
      * apply FromN.
        -- right. split; [exact Dc|]. rewrite Fs, Ff. cbn [beyond].
           split; [|exact Bn]. intros I. apply Bs. now apply Trans.
        -- intros (_ & F2 & _). congruence.
Qed.
End AboveViews.

Section ViewsOfEdges.
Variable N : nat.
Variable t : Node.
Hypothesis U : unrooted N t.

Lemma edges_from_above (n : Node) :
  forall a,
    above_ok N t n a ->
    Forall (fun e => above_ok N t (fst e) (fst (snd e))
                     /\ snd (snd e) = view_below (clade N) (fst e))
           (edges_from (clade N) n a).
Proof.
  induction n as [cs idx tag h IH] using Node_ind. intros a A.
  cbn [edges_from]. constructor; [split; [exact A|reflexivity]|].
  destruct cs as [|c0 [|c1 [|]]]; try constructor.
  inversion IH as [|? ? IH0 IH']; subst x l.
  inversion IH' as [|? ? IH1 _]; subst x l.
  apply Forall_app. split.
  - apply IH0. apply (above_ok_step U) with (n := MkNode [c0; c1] idx tag h);
      [exact A|now left].
  - apply IH1. apply (above_ok_step U) with (n := MkNode [c0; c1] idx tag h);
      [exact A|now right].
Qed.

Lemma unrooted_edges_above :
  Forall (fun e => above_ok N t (fst e) (fst (snd e))
                   /\ snd (snd e) = view_below (clade N) (fst e))
         (unrooted_edges (clade N) t).
Proof.
  destruct (u_shape U) as (c0 & c1 & c2 & E & _).
  unfold unrooted_edges. rewrite E. rewrite !Forall_app.
  split; [|split]; apply edges_from_above.
  - apply (above_ok_root U) with (n0 := c1) (n1 := c2);
      [unfold root_rotation; auto|auto].
  - apply (above_ok_root U) with (n0 := c2) (n1 := c0);
      [unfold root_rotation; auto|auto].
  - apply (above_ok_root U) with (n0 := c0) (n1 := c1);
      [unfold root_rotation; auto|auto].
Qed.

(** The PCSS keys of the view rooted on the edge above [u] are the keys
    of the calls that this rooting sees. *)
Lemma view_tail_spec (u : Node) (a : RootedView) :
  above_ok N t u a ->
  forall key,
    In key (tl (view_keys (a, view_below (clade N) u)))
    <-> exists c,
        In c (calls_of (PCSSPreOrder t)) /\ rooting_sees u c
        /\ key = pcss_key N c.
Proof.
  intros (Ru & x & y & Ea & I2 & Snd & Cmp) key. subst a.
  set (a := VNode (chunk N u true) x y) in *.
  unfold view_keys. cbn [tl fst snd]. rewrite in_app_iff. split.
  - intros [I|I].
    + destruct (view_pcss_below_sound U u a key Ru I)
        as [(ch0 & ch1 & Cu & ->)|(c & Ic & -> & W)].
      * exists (mkPCSSCall u true u false ch0 false ch1 false).
        split; [now apply (down_call U)|]. split; [left; auto|].
        exact (eq_sym (key_of N (mkPCSSCall u true u false ch0 false
                                            ch1 false)
                              eq_refl eq_refl eq_refl eq_refl eq_refl)).
      * exists c. split; [exact Ic|]. split; [|reflexivity].
        now apply (sibling_within_top U).
    + unfold a in I at 1. rewrite view_pcss_fork in I. fold a in I.
      destruct I as [<-|I].
      * destruct (up_call U u Ru) as (c & Ic & Es & Ef & Esd & Efd).
        exists c. split; [exact Ic|]. split.
        -- left. split; congruence.
        -- rewrite (key_of N c Es Esd Ef Efd (I2 c Ic Ef Efd)).
           now rewrite view_below_clade_of.
      * destruct (Snd key I) as (c & Ic & Ek & Sees). exists c.
        split; [exact Ic|]. split; [|exact Ek]. apply Sees.
        apply In_PreOrder_self.
  - intros (c & Ic & Sees & ->).
    destruct Sees as [[Esf Eu]|Sees].
    + destruct (call_kinds U c Ic)
        as [(_ & Fs & Ff & _)|[(_ & Fs & Ff & _ & K)
                              |[(_ & _ & Sib & _)
                               |[(_ & _ & (s' & Tp) & _)
                                |(_ & _ & Ich & _)]]]].
      * right. rewrite (key_of N c (eq_trans Esf (eq_sym Eu)) Fs
                               (eq_sym Eu) Ff (I2 c Ic (eq_sym Eu) Ff)).
        unfold a at 1. rewrite view_pcss_fork. left.
        now rewrite view_below_clade_of.
      * left. destruct K as (ch0 & ch1 & Cf & Ec). rewrite <- Eu in Cf.
        rewrite (key_of N c (eq_trans Esf (eq_sym Eu)) Fs (eq_sym Eu) Ff
                        Ec).
        rewrite (view_below_fork (clade N) u Cf), view_pcss_fork. left.
        now rewrite !view_below_clade_of.
      * exfalso. destruct (siblings_facts U Sib) as (D & _). exact (D Esf).
      * exfalso. destruct (triple_distinct U Tp) as (_ & D & _). exact (D Esf).
      * exfalso. rewrite Esf in Ich.
        apply (not_below_itself (focal_node c) (focal_node c));
          [now apply child_strictly_below|apply In_PreOrder_self].
    + destruct (Cmp c Ic (proj1 Sees) (or_intror Sees)) as [Ik|W].
      * right. now apply view_inner_incl.
      * left. now apply (view_pcss_below_complete U).
Qed.
End ViewsOfEdges.

Lemma Forall2_maps {A B C : Type} (R : B -> C -> Prop) (f : A -> B)
      (g : A -> C) (l : list A) :
  Forall (fun a => R (f a) (g a)) l -> Forall2 R (map f l) (map g l).
Proof. induction 1; cbn; constructor; auto. Qed.

(** C2: for an unrooted topology on the taxa 0..N-1 (three bifurcating
    subtrees under the root) the enumeration returns 2N-3 views, one per
    node other than the root, that is one per edge, in the order of the
    ids of these nodes: when the ids are 0, ..., 2N-4, as [Reindex]
    assigns them, view [i] is the one of the edge above node [i].  The
    view of the edge above [u] starts with the rootsplit of that edge and
    goes on with N-2 keys of 3N bits, which are the PCSS keys of the tree
    rooted on that edge: a key is among them exactly when it is the key
    that a call of [PCSSPreOrder] gives and the rooting on the edge above
    [u] sees the subsplit of that call. *)
Theorem RootedViewsOf_one_view_per_edge (N : nat) (t : Node) :
  unrooted_topology N t = true ->
  exists (views : list (list Bitset)) (nodes : list Node),
    RootedViewsOf t = Ok views
    /\ (length views + 3 = 2 * N)%nat
    /\ Permutation nodes (rootsplit_nodes t)
    /\ nondecreasing (map Index nodes) = true
    /\ (Permutation (map Index (rootsplit_nodes t))
                    (map Z.of_nat (seq 0 (2 * N - 3))) ->
        map Index nodes = map Z.of_nat (seq 0 (2 * N - 3)))
    /\ Forall2
         (fun u view =>
            hd [] view = rootsplit_of N u
            /\ (length (tl view) + 2 = N)%nat
            /\ Forall (fun key => length key = (3 * N)%nat) (tl view)
            /\ forall key,
                In key (tl view)
                <-> exists c,
                    In c (calls_of (PCSSPreOrder t))
                    /\ rooting_sees u c /\ key = pcss_key N c)
         nodes views.
Proof.
  intros U. apply unrooted_topology_spec in U.
  rewrite (RootedViewsOf_closed U).
  set (edges := unrooted_edges (clade N) t).
  destruct (@unrooted_edges_spec N (clade N) (clade_length N) t U) as [E F].
  fold edges in E, F. pose proof (unrooted_edges_above U) as A.
  fold edges in A. pose proof (by_index_perm edges) as P.
  assert (Pn : Permutation (map fst (by_index edges)) (rootsplit_nodes t)).
  { rewrite <- E. now apply Permutation_map. }
  assert (Sn : nondecreasing (map Index (map fst (by_index edges))) = true).
  { rewrite map_map. apply by_index_sorted. }
  exists (map (fun e => view_keys (snd e)) (by_index edges)),
    (map fst (by_index edges)).
  split; [reflexivity|]. split; [|split; [exact Pn|split; [exact Sn|split]]].
  - rewrite length_map, (Permutation_length P), <- (length_map fst), E.
    now apply length_rootsplit_nodes.
  - intros Q. apply nondecreasing_seq; [exact Sn|].
    apply Permutation_trans with (2 := Q). now apply Permutation_map.
  - apply Forall2_maps. apply Forall_forall. intros e Ie.
    apply (Permutation_in _ P) in Ie.
    rewrite Forall_forall in F, A.
    destruct (@view_keys_spec N (clade N) (clade_length N) e (F e Ie))
      as (H & L & K).
    destruct (A e Ie) as [Ae Eb].
    split; [exact H|]. split; [|split; [exact K|]].
    + revert L. unfold view_keys. cbn [length tl]. intros <-.
      change 2%nat with (1 + 1)%nat.
      now rewrite Nat.add_assoc, !Nat.add_1_r.
    + destruct e as [u [a b]]. cbn [fst snd] in *. subst b.
      exact (view_tail_spec U Ae).
Qed.

Lemma RootedViewsOf_one_view_per_edge_witness :
  exists views nodes,
    RootedViewsOf indexer_test_topology_1 = Ok views
    /\ length views = 7%nat
    /\ map Index nodes = [0; 1; 2; 3; 4; 5; 6]
    /\ Forall2 (fun u view =>
                  hd [] view = rootsplit_of 5 u
                  /\ length (tl view) = 3%nat)
               nodes views.
Proof.
  destruct (@RootedViewsOf_one_view_per_edge 5 indexer_test_topology_1)
    as (views & nodes & E & L & _ & _ & Ids & F).
  { vm_compute. reflexivity. }
  exists views, nodes. split; [exact E|]. split; [lia|]. split.
  - apply Ids. vm_compute. apply NoDup_Permutation.
    + repeat constructor; cbn; intuition discriminate.
    + repeat constructor; cbn; intuition discriminate.
    + intros z. cbn. intuition.
  - revert F. apply Forall2_impl. intros u view (H & Ln & _). split; [exact H|].
    lia.
Defined.

(* ================================================================== *)
(** * What [ProcessLoadedTrees] reads and leaves *)



